(** * Verification of the pedigree graph engine of [ibdprep.c]

    A shallow embedding of the ingestion validator, the generation
    assigner, the pedigree partitioner, the loop analyzer, the kinship
    engine and the generic sort of [ibdprep.c], with the properties the
    design document states about them.

    Further components cover the code around these: the id, permanent
    id and allele indexes ([sortInds], [findInd], [sortPids], [findPid],
    [findAllele]), [warshall], [checkTwins], [cntAlleles] and
    [sameGtype], [getAlleles], the two loops of [makePeds], and
    [makeFams] with the second pass that [main] runs after it.

    Conventions of the embedding.
    - A pointer to an [Ind] or a [Fam] is the index of the record in
      [IndArray] or [FamArray]; [NULL] is [None].
    - C [int] variables that take the sentinel [-1] are [Z]; counters and
      array indices that never go negative are [nat].
    - Every [while], [do] and [for(;;)] loop whose trip count is not a
      loop bound known on entry runs on fuel; running out of fuel is a
      result of its own ([None] or [OutOfFuel]) and each loop comes with a
      lemma giving fuel that suffices.
    - [fatalError] (which calls [exit]) is the [Fatal] result.
    - A store past the end of an array, which C leaves undefined, is a
      result of its own and never a silent success.
    - A [float] is an IEEE 754 binary32 value and a [double] a binary64
      value ([spec_float]); every operation rounds to nearest, ties to
      even, in the type C gives the expression, and a number printed
      with [%10.7f] is the text written.
    - [atoi] is [(int) strtol]: the value saturates at the bounds of
      [long] and is then cut to 32 bits. *)

From Stdlib Require Import List ZArith QArith Lia Lqa Bool Arith PeanoNat.
From Stdlib Require Import String Ascii Permutation Relations.
From Stdlib Require Import SpecFloat DecimalString Qpower.
Import ListNotations.
Close Scope Q_scope.

(** ** Results of fallible phases *)

Inductive FatalMsg : Type :=
| BadRecordLength (line : nat)
| TooManyIndividuals (limit : Z)
| DataErrorsFound (count : nat) (logfile : string)
| GenerationError
| QSortStackExceeded.

Inductive outcome (A : Type) : Type :=
| Ok (a : A)
| Fatal (msg : FatalMsg)
| OutOfFuel.

Arguments Ok {A} a.
Arguments Fatal {A} msg.
Arguments OutOfFuel {A}.

Definition ERRFILE : string := "ibdprep.err".
Definition MAXIND : Z := 210000%Z.

(** Arrays that the code indexes by an individual, a family or a pedigree
    are total maps from the index; [upd] is the assignment [a[i] = v]. *)
Definition upd {A : Type} (a : nat -> A) (i : nat) (v : A) : nat -> A :=
  fun k => if Nat.eqb k i then v else a k.

(** [a[r][c] = v] on a two-dimensional array. *)
Definition upd2 {A : Type} (a : nat -> nat -> A) (r c : nat) (v : A)
  : nat -> nat -> A :=
  fun i j => if Nat.eqb i r && Nat.eqb j c then v else a i j.

Lemma upd_same {A : Type} (a : nat -> A) (i : nat) (v : A) : upd a i v i = v.
Proof. unfold upd. now rewrite Nat.eqb_refl. Qed.

Lemma upd_other {A : Type} (a : nat -> A) (i k : nat) (v : A) :
  k <> i -> upd a i v k = a k.
Proof. unfold upd. intros H. destruct (Nat.eqb_spec k i); [contradiction|reflexivity]. Qed.

Lemma upd2_same {A : Type} (a : nat -> nat -> A) (r c : nat) (v : A) :
  upd2 a r c v r c = v.
Proof. unfold upd2. now rewrite !Nat.eqb_refl. Qed.

Lemma upd2_other {A : Type} (a : nat -> nat -> A) (r c i j : nat) (v : A) :
  i <> r \/ j <> c -> upd2 a r c v i j = a i j.
Proof.
  unfold upd2. intros H.
  destruct (Nat.eqb_spec i r); destruct (Nat.eqb_spec j c); simpl; try reflexivity.
  destruct H; contradiction.
Qed.

(** A [for (i = 0; i < n; i++)] loop is a fold over [seq 0 n]; its
    invariants are proved with the following rule. *)
Lemma fold_seq_invariant {S : Type} (f : S -> nat -> S) (Inv : nat -> S -> Prop)
      (n : nat) (s0 : S) :
  Inv 0 s0 ->
  (forall m s, m < n -> Inv m s -> Inv (Datatypes.S m) (f s m)) ->
  Inv n (fold_left f (seq 0 n) s0).
Proof.
  intros H0 Hstep. induction n as [|n IH].
  - exact H0.
  - rewrite seq_S, fold_left_app. simpl. apply Hstep; [lia|].
    apply IH. intros m s Hm. apply Hstep. lia.
Qed.


(** Sums over [0 .. n-1], the measures of several loops. *)
Fixpoint sumTo (n : nat) (h : nat -> nat) : nat :=
  match n with
  | O => 0
  | S k => sumTo k h + h k
  end.

Lemma sumTo_le (n : nat) (h h' : nat -> nat) :
  (forall k, k < n -> h k <= h' k) -> sumTo n h <= sumTo n h'.
Proof.
  induction n as [|n IH]; intros H; simpl; [lia|].
  pose proof (H n ltac:(lia)). pose proof (IH ltac:(intros; apply H; lia)). lia.
Qed.

Lemma sumTo_lt (n : nat) (h h' : nat -> nat) (i : nat) :
  i < n -> h i < h' i ->
  (forall k, k < n -> h k <= h' k) -> sumTo n h < sumTo n h'.
Proof.
  induction n as [|n IH]; intros Hi Hlt H; simpl; [lia|].
  destruct (Nat.eq_dec i n) as [->|Hne].
  - pose proof (sumTo_le n h h' ltac:(intros; apply H; lia)). lia.
  - pose proof (H n ltac:(lia)).
    pose proof (IH ltac:(lia) Hlt ltac:(intros; apply H; lia)). lia.
Qed.


Lemma sumTo_ext (n : nat) (h h' : nat -> nat) :
  (forall k, k < n -> h k = h' k) -> sumTo n h = sumTo n h'.
Proof.
  intros H. apply Nat.le_antisymm; apply sumTo_le; intros k Hk;
    rewrite (H k Hk); lia.
Qed.

Lemma sumTo_const (n c : nat) : sumTo n (fun _ => c) = n * c.
Proof. induction n as [|n IH]; simpl; [reflexivity | rewrite IH; lia]. Qed.
Module Ingest.

(** ** Pedigree ingestion: [unknown] and the record loop of [getPedData] *)

Definition TAB : ascii := "009"%char.

(** [unknown]: no character other than blank, tab and ['0']. *)
Fixpoint unknown (id : string) : bool :=
  match id with
  | EmptyString => true
  | String c p =>
      if negb (Ascii.eqb c " ") && negb (Ascii.eqb c TAB) && negb (Ascii.eqb c "0")
      then false
      else unknown p
  end.

(** Field widths from the command line.  The development covers the
    run that indexes a pedigree file ([doIndex] set): the lines are cut
    into fields of these widths.  The run on a file already indexed
    ([doIndex] clear), with its own record format and its check of the
    sequence numbers, is not part of it. *)
Record Widths : Type := {
  FamidLen : nat;
  IdLen : nat;
  SexLen : nat;
  TwinIdLen : nat;
  HHIdLen : nat
}.

Definition recLen (w : Widths) : nat :=
  FamidLen w + 3 * IdLen w + SexLen w + TwinIdLen w + HHIdLen w + 1.

(** One line of the pedigree file: its [strlen] and the buffers filled by
    [sscanf]. *)
Record PedLine : Type := {
  raw_len : nat;
  f_famid : string;
  f_id : string;
  f_fa : string;
  f_mo : string;
  f_sex : string;
  f_twinid : string;
  f_hhid : string
}.

(** [buf[n] = '\0'] *)
Definition cut (n : nat) (s : string) : string := substring 0 n s.

(** [memset(tid, ' ', n); tid[n] = '\0'] *)
Fixpoint blanks (n : nat) : string :=
  match n with
  | O => EmptyString
  | S k => String " " (blanks k)
  end.

(** The three identifiers after lines 758-783: cut to [IdLen], and with a
    family-id prefix when [FamidLen] is set; an unknown parent gets a blank
    prefix. *)
Definition ego_id (w : Widths) (r : PedLine) : string :=
  if Nat.eqb (FamidLen w) 0 then cut (IdLen w) (f_id r)
  else append (cut (FamidLen w) (f_famid r)) (cut (IdLen w) (f_id r)).

Definition parent_id (w : Widths) (r : PedLine) (p : string) : string :=
  if Nat.eqb (FamidLen w) 0 then cut (IdLen w) p
  else if negb (unknown (cut (IdLen w) p))
       then append (cut (FamidLen w) (f_famid r)) (cut (IdLen w) p)
       else append (blanks (FamidLen w)) (cut (IdLen w) p).

Definition fa_id (w : Widths) (r : PedLine) : string := parent_id w r (f_fa r).
Definition mo_id (w : Widths) (r : PedLine) : string := parent_id w r (f_mo r).

(** What [logError] appends to the error log; the record number stands
    for the printed identifiers. *)
Inductive DataError : Type :=
| BadSexCode (rec : nat)
| ParentsNotBothKnown (rec : nat)
| SameIdAsFather (rec : nat)
| SameIdAsMother (rec : nat)
| FatherSameAsMother (rec : nat).

Record IndRec : Type := {
  ind_id : string;
  ind_sex : option nat;        (* left unset by the [default] case *)
  ind_twinid : string;
  ind_hhid : string;
  ind_gen : Z
}.

Record PedState : Type := {
  IndArray : list IndRec;      (* [NumInd] is its length *)
  NumFou : nat;
  famList : list string;       (* [*nfam] is its length *)
  idFam : list Z;
  ErrLog : list DataError;
  ErrCnt : nat
}.

Definition NumInd (st : PedState) : nat := List.length (IndArray st).

Definition logError (e : DataError) (st : PedState) : PedState :=
  {| IndArray := IndArray st; NumFou := NumFou st; famList := famList st;
     idFam := idFam st; ErrLog := ErrLog st ++ [e]; ErrCnt := S (ErrCnt st) |}.

Definition logIf (b : bool) (e : DataError) (st : PedState) : PedState :=
  if b then logError e st else st.

(** [while (i < SexLen && sex[i] == ' ') i++] on the cut buffer. *)
Fixpoint leading_blanks (s : string) : nat :=
  match s with
  | String c p => if Ascii.eqb c " " then S (leading_blanks p) else 0
  | EmptyString => 0
  end.

Definition sex_char (w : Widths) (r : PedLine) : option ascii :=
  let sex := cut (SexLen w) (f_sex r) in
  let i := leading_blanks sex in
  let i := if Nat.eqb i (SexLen w) then 0 else i in
  get i sex.

(** The [switch]: [Some code] for a recognised character, [None] for the
    [default] case. *)
Definition sex_code (c : option ascii) : option nat :=
  match c with
  | Some c =>
      if Ascii.eqb c "1" || Ascii.eqb c "M" || Ascii.eqb c "m" then Some 1
      else if Ascii.eqb c "2" || Ascii.eqb c "F" || Ascii.eqb c "f" then Some 2
      else if Ascii.eqb c " " || Ascii.eqb c "0" || Ascii.eqb c "U" || Ascii.eqb c "u"
           then Some 0
           else None
  | None => None
  end.

(** twin id and household id: kept only if some character is not blank,
    tab or ['0'] (the [for ... break] scans). *)
Definition opt_field (len : nat) (s : string) : string :=
  if Nat.eqb len 0 then EmptyString
  else if unknown (cut len s) then EmptyString else cut len s.

(** The parent checks of lines 844-868, in the order of the code. *)
Definition checkParents (rec : nat) (id fa mo : string) (st : PedState) : PedState :=
  let st := logIf (unknown fa || unknown mo) (ParentsNotBothKnown rec) st in
  let st := logIf (String.eqb id fa) (SameIdAsFather rec) st in
  let st := logIf (String.eqb id mo) (SameIdAsMother rec) st in
  logIf (String.eqb fa mo) (FatherSameAsMother rec) st.

(** The body of the record loop from line 758 on. *)
Definition storeRecord (w : Widths) (r : PedLine) (st : PedState) : PedState :=
  let rec := NumInd st in
  let id := ego_id w r in
  let fa := fa_id w r in
  let mo := mo_id w r in
  let sx := sex_code (sex_char w r) in
  let st := match sx with
            | Some _ => st
            | None => logError (BadSexCode rec) st
            end in
  let twinid := opt_field (TwinIdLen w) (f_twinid r) in
  let hhid := opt_field (HHIdLen w) (f_hhid r) in
  if negb (unknown fa) || negb (unknown mo) then
    let st := checkParents rec id fa mo st in
    {| IndArray := IndArray st ++
         [{| ind_id := id; ind_sex := sx; ind_twinid := twinid;
             ind_hhid := hhid; ind_gen := (-1)%Z |}];
       NumFou := NumFou st;
       famList := famList st ++ [append fa mo];
       idFam := idFam st ++ [Z.of_nat (List.length (famList st))];
       ErrLog := ErrLog st; ErrCnt := ErrCnt st |}
  else
    {| IndArray := IndArray st ++
         [{| ind_id := id; ind_sex := sx; ind_twinid := twinid;
             ind_hhid := hhid; ind_gen := 0%Z |}];
       NumFou := S (NumFou st);
       famList := famList st;
       idFam := idFam st ++ [(-1)%Z];
       ErrLog := ErrLog st; ErrCnt := ErrCnt st |}.

Definition emptyPed : PedState :=
  {| IndArray := []; NumFou := 0; famList := []; idFam := [];
     ErrLog := []; ErrCnt := 0 |}.

(** The [while (fgets ...)] loop: the two fatal checks, then the body. *)
Fixpoint readRecords (w : Widths) (recs : list PedLine) (st : PedState)
  : outcome PedState :=
  match recs with
  | [] => Ok st
  | r :: rest =>
      if negb (Nat.eqb (raw_len r) (recLen w))
      then Fatal (BadRecordLength (NumInd st + 1))
      else if Z.eqb (Z.of_nat (NumInd st)) MAXIND
           then Fatal (TooManyIndividuals MAXIND)
           else readRecords w rest (storeRecord w r st)
  end.

(** [getPedData] with [doIndex] set: the loop, then the check of
    [ErrCnt]. *)
Definition getPedData (w : Widths) (recs : list PedLine) : outcome PedState :=
  match readRecords w recs emptyPed with
  | Ok st =>
      if Nat.eqb (ErrCnt st) 0 then Ok st
      else Fatal (DataErrorsFound (ErrCnt st) ERRFILE)
  | other => other
  end.

(** ** Ingestion: properties of [unknown] and of the parent checks *)

Lemma unknown_true_iff (s : string) :
  unknown s = true <->
  Forall (fun c => c = " "%char \/ c = TAB \/ c = "0"%char) (list_ascii_of_string s).
Proof.
  induction s as [|c p IH]; simpl.
  - split; intros; [constructor | reflexivity].
  - destruct (Ascii.eqb_spec c " ") as [E1|E1];
    destruct (Ascii.eqb_spec c TAB) as [E2|E2];
    destruct (Ascii.eqb_spec c "0") as [E3|E3]; simpl;
    try (rewrite IH; split;
         [ intros H; constructor; [tauto | exact H]
         | intros H; inversion H; assumption ]).
    split; [discriminate|].
    intros H; inversion H as [|? ? [Hc|[Hc|Hc]] ?]; subst; contradiction.
Qed.

Lemma logIf_log (b : bool) (e : DataError) (st : PedState) :
  ErrLog (logIf b e st) = ErrLog st ++ (if b then [e] else []) /\
  ErrCnt (logIf b e st) = ErrCnt st + (if b then 1 else 0) /\
  IndArray (logIf b e st) = IndArray st /\
  famList (logIf b e st) = famList st.
Proof.
  destruct b; simpl; rewrite ?app_nil_r; repeat split; lia.
Qed.

(** The entries [checkParents] adds, as a list. *)
Definition parentErrors (rec : nat) (id fa mo : string) : list DataError :=
  (if unknown fa || unknown mo then [ParentsNotBothKnown rec] else []) ++
  (if String.eqb id fa then [SameIdAsFather rec] else []) ++
  (if String.eqb id mo then [SameIdAsMother rec] else []) ++
  (if String.eqb fa mo then [FatherSameAsMother rec] else []).

Lemma checkParents_log (rec : nat) (id fa mo : string) (st : PedState) :
  ErrLog (checkParents rec id fa mo st) = ErrLog st ++ parentErrors rec id fa mo /\
  ErrCnt (checkParents rec id fa mo st)
    = ErrCnt st + List.length (parentErrors rec id fa mo) /\
  IndArray (checkParents rec id fa mo st) = IndArray st /\
  famList (checkParents rec id fa mo st) = famList st.
Proof.
  unfold checkParents, parentErrors.
  destruct (logIf_log (unknown fa || unknown mo) (ParentsNotBothKnown rec) st)
    as (L1 & C1 & I1 & F1).
  set (st1 := logIf (unknown fa || unknown mo) (ParentsNotBothKnown rec) st) in *.
  destruct (logIf_log (String.eqb id fa) (SameIdAsFather rec) st1)
    as (L2 & C2 & I2 & F2).
  set (st2 := logIf (String.eqb id fa) (SameIdAsFather rec) st1) in *.
  destruct (logIf_log (String.eqb id mo) (SameIdAsMother rec) st2)
    as (L3 & C3 & I3 & F3).
  set (st3 := logIf (String.eqb id mo) (SameIdAsMother rec) st2) in *.
  destruct (logIf_log (String.eqb fa mo) (FatherSameAsMother rec) st3)
    as (L4 & C4 & I4 & F4).
  rewrite L4, L3, L2, L1, C4, C3, C2, C1, I4, I3, I2, I1, F4, F3, F2, F1.
  rewrite !length_app, <- !app_assoc.
  repeat split.
  destruct (unknown fa || unknown mo), (String.eqb id fa), (String.eqb id mo),
    (String.eqb fa mo); simpl; lia.
Qed.

(** What one record adds to the log: the sex entry, then the parent
    entries when a parent is known. *)
Definition sexErrors (w : Widths) (r : PedLine) (rec : nat) : list DataError :=
  match sex_code (sex_char w r) with
  | Some _ => []
  | None => [BadSexCode rec]
  end.

Definition recordErrors (w : Widths) (r : PedLine) (rec : nat) : list DataError :=
  sexErrors w r rec ++
  (if negb (unknown (fa_id w r)) || negb (unknown (mo_id w r))
   then parentErrors rec (ego_id w r) (fa_id w r) (mo_id w r)
   else []).

Lemma storeRecord_log (w : Widths) (r : PedLine) (st : PedState) :
  ErrLog (storeRecord w r st) = ErrLog st ++ recordErrors w r (NumInd st) /\
  ErrCnt (storeRecord w r st)
    = ErrCnt st + List.length (recordErrors w r (NumInd st)) /\
  NumInd (storeRecord w r st) = S (NumInd st).
Proof.
  unfold storeRecord, recordErrors, sexErrors.
  set (k := NumInd st).
  destruct (sex_code (sex_char w r)) as [code|]; simpl.
  - destruct (negb (unknown (fa_id w r)) || negb (unknown (mo_id w r))); simpl.
    + destruct (checkParents_log k (ego_id w r) (fa_id w r) (mo_id w r) st)
        as (L & C & I & F).
      rewrite L, C. unfold NumInd; simpl. rewrite length_app, I; simpl.
      repeat split; try (unfold k, NumInd; lia).
    + rewrite app_nil_r. unfold NumInd; simpl. rewrite length_app; simpl.
      repeat split; try (unfold k, NumInd; lia).
  - destruct (negb (unknown (fa_id w r)) || negb (unknown (mo_id w r))); simpl.
    + destruct (checkParents_log (NumInd st) (ego_id w r) (fa_id w r) (mo_id w r)
                  (logError (BadSexCode k) st)) as (L & C & I & F).
      unfold NumInd in *; simpl in *.
      fold k. fold k in L, C, I.
      rewrite L, C. rewrite !length_app, I; simpl.
      rewrite <- app_assoc; simpl.
      repeat split; try (unfold k, NumInd; lia).
    + unfold NumInd; simpl. rewrite length_app; simpl.
      repeat split; try (unfold k, NumInd; lia).
Qed.

Lemma parentErrors_spec (rec : nat) (id fa mo : string) :
  (In (ParentsNotBothKnown rec) (parentErrors rec id fa mo)
     <-> unknown fa = true \/ unknown mo = true) /\
  (In (SameIdAsFather rec) (parentErrors rec id fa mo) <-> id = fa) /\
  (In (SameIdAsMother rec) (parentErrors rec id fa mo) <-> id = mo) /\
  (In (FatherSameAsMother rec) (parentErrors rec id fa mo) <-> fa = mo).
Proof.
  unfold parentErrors.
  destruct (String.eqb_spec id fa) as [E1|E1];
  destruct (String.eqb_spec id mo) as [E2|E2];
  destruct (String.eqb_spec fa mo) as [E3|E3];
  destruct (unknown fa) eqn:Ufa; destruct (unknown mo) eqn:Umo; simpl;
  repeat split; intros H;
  repeat match goal with
         | H : _ \/ _ |- _ => destruct H
         | H : False |- _ => destruct H
         end;
  try discriminate; try congruence; auto 6.
Qed.

Lemma readRecords_full_pass (w : Widths) (recs : list PedLine) (st : PedState) :
  Forall (fun r => raw_len r = recLen w) recs ->
  (Z.of_nat (NumInd st + List.length recs) <= MAXIND)%Z ->
  ErrCnt st = List.length (ErrLog st) ->
  exists st',
    readRecords w recs st = Ok st' /\
    NumInd st' = NumInd st + List.length recs /\
    ErrCnt st' = List.length (ErrLog st') /\
    (exists added, ErrLog st' = ErrLog st ++ added).
Proof.
  revert st. induction recs as [|r rest IH]; intros st Hlen Hmax Hcnt.
  - exists st. simpl. repeat split; try lia. exists []. now rewrite app_nil_r.
  - inversion Hlen as [|? ? Hr Hrest]; subst. simpl.
    rewrite Hr, Nat.eqb_refl. simpl.
    simpl in Hmax.
    destruct (Z.eqb_spec (Z.of_nat (NumInd st)) MAXIND) as [E|E]; [lia|].
    destruct (storeRecord_log w r st) as (L & C & N).
    destruct (IH (storeRecord w r st) Hrest) as (st' & R & N' & C' & (added & A)).
    + rewrite N. lia.
    + rewrite L, C, length_app. lia.
    + exists st'. repeat split; try assumption; try lia.
      exists (recordErrors w r (NumInd st) ++ added).
      rewrite A, L, app_assoc. reflexivity.
Qed.

(** C7. [unknown] holds exactly of the identifiers made of blanks, tabs
    and ['0']; a record with a known parent logs one entry for each of:
    only one parent known, own id equal to the father's, own id equal to
    the mother's, father's id equal to the mother's, and a record with no
    known parent logs none of them; every record is stored whatever it
    logs; after the full pass [getPedData] is fatal, naming [ibdprep.err],
    exactly when the error count is not zero. *)
Theorem getPedData_parent_validation (w : Widths) (recs : list PedLine) :
  Forall (fun r => raw_len r = recLen w) recs ->
  (Z.of_nat (List.length recs) <= MAXIND)%Z ->
  (forall s, unknown s = true <->
     Forall (fun c => c = " "%char \/ c = TAB \/ c = "0"%char)
            (list_ascii_of_string s)) /\
  (forall r st,
     let k := NumInd st in
     let id := ego_id w r in
     let fa := fa_id w r in
     let mo := mo_id w r in
     exists perr,
       ErrLog (storeRecord w r st) = ErrLog st ++ sexErrors w r k ++ perr /\
       ErrCnt (storeRecord w r st)
         = ErrCnt st + List.length (sexErrors w r k) + List.length perr /\
       NumInd (storeRecord w r st) = S k /\
       (unknown fa = true /\ unknown mo = true -> perr = []) /\
       (unknown fa = false \/ unknown mo = false ->
          (In (ParentsNotBothKnown k) perr
             <-> unknown fa = true \/ unknown mo = true) /\
          (In (SameIdAsFather k) perr <-> id = fa) /\
          (In (SameIdAsMother k) perr <-> id = mo) /\
          (In (FatherSameAsMother k) perr <-> fa = mo))) /\
  (exists st,
     readRecords w recs emptyPed = Ok st /\
     NumInd st = List.length recs /\
     ErrCnt st = List.length (ErrLog st) /\
     getPedData w recs =
       if Nat.eqb (ErrCnt st) 0 then Ok st
       else Fatal (DataErrorsFound (ErrCnt st) ERRFILE)).
Proof.
  intros Hlen Hmax. split; [exact unknown_true_iff|]. split.
  - intros r st k id fa mo.
    destruct (storeRecord_log w r st) as (L & C & N).
    unfold recordErrors in L, C. fold k fa mo id in L, C.
    exists (if negb (unknown fa) || negb (unknown mo)
            then parentErrors k id fa mo else []).
    rewrite L, C, length_app.
    split; [reflexivity|]. split; [lia|]. split; [exact N|]. split.
    + intros [Ufa Umo]. rewrite Ufa, Umo. reflexivity.
    + intros U.
      assert (E : negb (unknown fa) || negb (unknown mo) = true)
        by (destruct U as [U|U]; rewrite U; simpl; rewrite ?orb_true_r; reflexivity).
      rewrite E. exact (parentErrors_spec k id fa mo).
  - destruct (readRecords_full_pass w recs emptyPed Hlen) as (st & R & N & C & _).
    + simpl. exact Hmax.
    + reflexivity.
    + exists st. unfold getPedData. rewrite R. simpl in N. auto.
Qed.

(** A three-record file: a founder, a record with only the father known,
    a record whose father is its mother. *)
Definition demoWidths : Widths :=
  {| FamidLen := 0; IdLen := 2; SexLen := 1; TwinIdLen := 0; HHIdLen := 0 |}.

Definition demoLine (id fa mo sex : string) : PedLine :=
  {| raw_len := 8; f_famid := ""; f_id := id; f_fa := fa; f_mo := mo;
     f_sex := sex; f_twinid := ""; f_hhid := "" |}.

Definition demoFile : list PedLine :=
  [demoLine "A1" "  " " 0" "1"; demoLine "B1" "A1" "  " "2";
   demoLine "C1" "A1" "A1" "f"].

Lemma getPedData_parent_validation_witness :
  Forall (fun r => raw_len r = recLen demoWidths) demoFile /\
  (Z.of_nat (List.length demoFile) <= MAXIND)%Z /\
  getPedData demoWidths demoFile = Fatal (DataErrorsFound 2 ERRFILE) /\
  exists st, readRecords demoWidths demoFile emptyPed = Ok st /\
             ErrLog st = [ParentsNotBothKnown 1; FatherSameAsMother 2].
Proof.
  assert (H1 : Forall (fun r => raw_len r = recLen demoWidths) demoFile)
    by (repeat constructor).
  assert (H2 : (Z.of_nat (List.length demoFile) <= MAXIND)%Z)
    by (vm_compute; discriminate).
  split; [exact H1|]. split; [exact H2|].
  destruct (getPedData_parent_validation demoWidths demoFile H1 H2)
    as (_ & _ & st & R & N & C & G).
  vm_compute in R. injection R as R. subst st.
  split; [exact G|].
  eexists. split; reflexivity.
Defined.

End Ingest.

(** ** Generation assigner: the [genfnd] loop of [makePeds] *)

Module Generations.

(** The part of the individual and family arrays the loop reads:
    [Ind.fam] as an index into [FamArray], [Fam.fa] and [Fam.mo] as
    indices into [IndArray]. *)
Record Pedigree : Type := {
  NumInd : nat;
  NumFou : nat;
  IndSort : list nat;
  ind_fam : nat -> option nat;
  fam_fa : nat -> nat;
  fam_mo : nat -> nat
}.

(** One trip of [for (i = 0; i < NumInd; i++)] for the individual
    [IndSort[i]]; [g] is the field [gen] of every individual. *)
Definition genStep (P : Pedigree) (acc : (nat -> Z) * nat) (ip : nat)
  : (nat -> Z) * nat :=
  let (g, genfnd) := acc in
  if (g ip <? 0)%Z then
    let (fgen, mgen) :=
      match ind_fam P ip with
      | Some f => (g (fam_fa P f), g (fam_mo P f))
      | None => (0%Z, 0%Z)
      end in
    if (fgen >=? 0)%Z && (mgen >=? 0)%Z
    then (upd g ip (Z.max fgen mgen + 1)%Z, S genfnd)
    else (g, genfnd)
  else (g, genfnd).

Arguments genStep : simpl never.

Definition genPass (P : Pedigree) (g : nat -> Z) (genfnd : nat)
  : (nat -> Z) * nat :=
  fold_left (genStep P) (IndSort P) (g, genfnd).

(** [while (genfnd < NumInd)] with the fatal exit of line 1692. *)
Fixpoint genLoop (fuel : nat) (P : Pedigree) (g : nat -> Z) (genfnd : nat)
  : outcome (nat -> Z) :=
  match fuel with
  | O => OutOfFuel
  | S fuel' =>
      if genfnd <? NumInd P then
        let (g', genfnd') := genPass P g genfnd in
        if Nat.eqb genfnd' genfnd then Fatal GenerationError
        else genLoop fuel' P g' genfnd'
      else Ok g
  end.

(** [genfnd = NumFou; while ...]: at most [NumInd] passes are needed. *)
Definition assignGenerations (P : Pedigree) (g : nat -> Z) : outcome (nat -> Z) :=
  genLoop (S (NumInd P)) P g (NumFou P).

(** The fields as [getPedData] and [makeFams] leave them: [gen] is 0 for
    an individual without a family and -1 for one with a family. *)
Definition initialGen (P : Pedigree) (g : nat -> Z) : Prop :=
  forall i, i < NumInd P ->
    g i = match ind_fam P i with None => 0%Z | Some _ => (-1)%Z end.

Definition isFounder (P : Pedigree) (i : nat) : bool :=
  match ind_fam P i with None => true | Some _ => false end.

Definition countFounders (P : Pedigree) : nat :=
  List.length (filter (isFounder P) (seq 0 (NumInd P))).

(** ** Proofs *)

Definition unassigned (n : nat) (g : nat -> Z) : nat :=
  List.length (filter (fun i => (g i <? 0)%Z) (seq 0 n)).

(** An individual's generation is right once it is set. *)
Definition genOk (P : Pedigree) (g : nat -> Z) (i : nat) : Prop :=
  match ind_fam P i with
  | None => g i = 0%Z
  | Some f =>
      (0 <= g (fam_fa P f))%Z /\ (0 <= g (fam_mo P f))%Z /\
      g i = (Z.max (g (fam_fa P f)) (g (fam_mo P f)) + 1)%Z
  end.

Definition genInv (P : Pedigree) (g : nat -> Z) (genfnd : nat) : Prop :=
  (forall i, i < NumInd P -> (g i < 0)%Z \/ ((0 <= g i)%Z /\ genOk P g i)) /\
  (forall i, i < NumInd P -> ind_fam P i = None -> g i = 0%Z) /\
  genfnd + unassigned (NumInd P) g = NumInd P.

Lemma filter_seq_upd_other (g : nat -> Z) (i : nat) (v : Z) (a n : nat) :
  (i < a \/ a + n <= i) ->
  filter (fun k => (upd g i v k <? 0)%Z) (seq a n)
  = filter (fun k => (g k <? 0)%Z) (seq a n).
Proof.
  intros H. apply filter_ext_in. intros k Hk. apply in_seq in Hk.
  unfold upd. destruct (Nat.eqb_spec k i); [lia | reflexivity].
Qed.

Lemma unassigned_upd (n : nat) (g : nat -> Z) (i : nat) (v : Z) :
  i < n -> (g i < 0)%Z -> (0 <= v)%Z ->
  S (unassigned n (upd g i v)) = unassigned n g.
Proof.
  unfold unassigned. intros Hi Hg Hv.
  assert (E : seq 0 n = seq 0 i ++ i :: seq (S i) (n - S i)).
  { replace n with (i + S (n - S i)) at 1 by lia.
    rewrite seq_app. reflexivity. }
  rewrite E, !filter_app, !length_app. simpl.
  rewrite (filter_seq_upd_other g i v 0 i) by lia.
  rewrite (filter_seq_upd_other g i v (S i) (n - S i)) by lia.
  unfold upd at 1. rewrite Nat.eqb_refl.
  destruct (Z.ltb_spec v 0); [lia|].
  destruct (Z.ltb_spec (g i) 0); [|lia].
  simpl. lia.
Qed.

Lemma genStep_inv (P : Pedigree) (g : nat -> Z) (n ip : nat) :
  ip < NumInd P -> genInv P g n ->
  genInv P (fst (genStep P (g, n) ip)) (snd (genStep P (g, n) ip)) /\
  n <= snd (genStep P (g, n) ip).
Proof.
  intros Hip (Hok & Hfou & Hcnt). unfold genStep.
  destruct (Z.ltb_spec (g ip) 0) as [Hneg|Hpos]; [|simpl; repeat split; auto].
  destruct (ind_fam P ip) as [f|] eqn:Hfam.
  2:{ specialize (Hfou ip Hip Hfam). lia. }
  destruct (Z.geb_spec (g (fam_fa P f)) 0) as [Hf|Hf];
    [|simpl; repeat split; auto].
  destruct (Z.geb_spec (g (fam_mo P f)) 0) as [Hm|Hm];
    [|simpl; repeat split; auto].
  simpl. set (v := (Z.max (g (fam_fa P f)) (g (fam_mo P f)) + 1)%Z).
  assert (Hv : (0 <= v)%Z) by (unfold v; lia).
  assert (Hne_fa : fam_fa P f <> ip) by (intros E; rewrite E in Hf; lia).
  assert (Hne_mo : fam_mo P f <> ip) by (intros E; rewrite E in Hm; lia).
  split; [|lia]. split; [|split].
  - intros i Hi. unfold upd at 1 2.
    destruct (Nat.eqb_spec i ip) as [->|Hne].
    + right. split; [exact Hv|]. unfold genOk. rewrite Hfam.
      unfold upd.
      destruct (Nat.eqb_spec (fam_fa P f) ip); [contradiction|].
      destruct (Nat.eqb_spec (fam_mo P f) ip); [contradiction|].
      rewrite Nat.eqb_refl. repeat split; try lia; reflexivity.
    + destruct (Hok i Hi) as [Hn|[Hp Hg]]; [left; exact Hn|].
      right. split; [exact Hp|]. unfold genOk in *.
      destruct (ind_fam P i) as [fi|] eqn:Hfi.
      * destruct Hg as (G1 & G2 & G3). unfold upd.
        destruct (Nat.eqb_spec i ip); [contradiction|].
        destruct (Nat.eqb_spec (fam_fa P fi) ip) as [E|_]; [rewrite E in G1; lia|].
        destruct (Nat.eqb_spec (fam_mo P fi) ip) as [E|_]; [rewrite E in G2; lia|].
        auto.
      * unfold upd. destruct (Nat.eqb_spec i ip); [contradiction|exact Hg].
  - intros i Hi Hnone. unfold upd.
    destruct (Nat.eqb_spec i ip) as [->|_]; [congruence|auto].
  - pose proof (unassigned_upd (NumInd P) g ip v Hip Hneg Hv). lia.
Qed.

Lemma genPass_inv (P : Pedigree) (l : list nat) (g : nat -> Z) (n : nat) :
  Forall (fun i => i < NumInd P) l -> genInv P g n ->
  genInv P (fst (fold_left (genStep P) l (g, n)))
           (snd (fold_left (genStep P) l (g, n))) /\
  n <= snd (fold_left (genStep P) l (g, n)).
Proof.
  revert g n. induction l as [|ip l IH]; intros g n Hall Hinv.
  - simpl. auto.
  - inversion Hall as [|? ? Hip Hl]; subst. simpl.
    destruct (genStep_inv P g n ip Hip Hinv) as [Hinv' Hle].
    destruct (genStep P (g, n) ip) as [g' n'] eqn:E. simpl in *.
    destruct (IH g' n' Hl Hinv') as [H1 H2]. split; [exact H1 | lia].
Qed.

Lemma genStep_mono (P : Pedigree) (acc : (nat -> Z) * nat) (ip : nat) :
  snd acc <= snd (genStep P acc ip).
Proof.
  destruct acc as [g n]. unfold genStep.
  destruct (g ip <? 0)%Z; [|simpl; lia].
  destruct (ind_fam P ip); simpl.
  - destruct ((g (fam_fa P n0) >=? 0)%Z && (g (fam_mo P n0) >=? 0)%Z); simpl; lia.
  - lia.
Qed.

Lemma genPass_mono (P : Pedigree) (l : list nat) (acc : (nat -> Z) * nat) :
  snd acc <= snd (fold_left (genStep P) l acc).
Proof.
  revert acc. induction l as [|ip l IH]; intros acc; simpl; [lia|].
  pose proof (genStep_mono P acc ip). pose proof (IH (genStep P acc ip)). lia.
Qed.

(** The loop never runs out of fuel that exceeds the number of
    individuals still to be counted. *)
Lemma genLoop_fuel (fuel : nat) (P : Pedigree) (g : nat -> Z) (n : nat) :
  NumInd P - n < fuel -> genLoop fuel P g n <> OutOfFuel.
Proof.
  revert g n. induction fuel as [|fuel IH]; intros g n Hf; [lia|].
  simpl. destruct (Nat.ltb_spec n (NumInd P)) as [Hlt|Hge]; [|discriminate].
  pose proof (genPass_mono P (IndSort P) (g, n)) as Hm. simpl in Hm.
  unfold genPass. destruct (fold_left (genStep P) (IndSort P) (g, n)) as [g' n'].
  simpl in Hm.
  destruct (Nat.eqb_spec n' n); [discriminate|].
  apply IH. lia.
Qed.

Lemma genLoop_ok (fuel : nat) (P : Pedigree) (g : nat -> Z) (n : nat)
      (g' : nat -> Z) :
  Forall (fun i => i < NumInd P) (IndSort P) ->
  genInv P g n -> genLoop fuel P g n = Ok g' ->
  forall i, i < NumInd P -> (0 <= g' i)%Z /\ genOk P g' i.
Proof.
  intros Hsort. revert g n.
  induction fuel as [|fuel IH]; intros g n Hinv Hrun; [discriminate|].
  simpl in Hrun.
  destruct (Nat.ltb_spec n (NumInd P)) as [Hlt|Hge].
  - destruct (genPass_inv P (IndSort P) g n Hsort Hinv) as [Hinv' _].
    unfold genPass in Hrun.
    destruct (fold_left (genStep P) (IndSort P) (g, n)) as [g1 n1].
    simpl in Hinv'.
    destruct (Nat.eqb n1 n); [discriminate|].
    exact (IH g1 n1 Hinv' Hrun).
  - injection Hrun as <-. destruct Hinv as (Hok & _ & Hcnt).
    assert (Hz : unassigned (NumInd P) g = 0) by lia.
    intros i Hi. destruct (Hok i Hi) as [Hneg|H]; [|exact H].
    exfalso. unfold unassigned in Hz. apply length_zero_iff_nil in Hz.
    assert (Hin : In i (filter (fun k => (g k <? 0)%Z) (seq 0 (NumInd P)))).
    { apply filter_In. split; [apply in_seq; lia|].
      apply Z.ltb_lt. exact Hneg. }
    rewrite Hz in Hin. exact Hin.
Qed.

Lemma unassigned_initial (P : Pedigree) (g : nat -> Z) :
  initialGen P g ->
  countFounders P + unassigned (NumInd P) g = NumInd P.
Proof.
  unfold initialGen, countFounders, unassigned.
  generalize (NumInd P) as n. intros n Hinit.
  assert (H : forall l, Forall (fun i => i < n) l ->
            List.length (filter (isFounder P) l)
            + List.length (filter (fun i => (g i <? 0)%Z) l) = List.length l).
  { induction l as [|a l IH]; intros Hl; [reflexivity|].
    inversion Hl as [|? ? Ha Hl']; subst. simpl.
    specialize (IH Hl'). specialize (Hinit a Ha). unfold isFounder in *.
    destruct (ind_fam P a); rewrite Hinit; simpl; lia. }
  rewrite <- (length_seq 0 n) at 1. rewrite H; [apply length_seq|].
  apply Forall_forall. intros i Hi. apply in_seq in Hi. lia.
Qed.

(** C2. With the fields as ingestion leaves them, the loop stops, either
    with every individual assigned or with the fatal pedigree error; when
    it succeeds every founder has generation 0 and every other individual
    has the larger of its parents' generations plus one; and a pass that
    sets no generation while [genfnd < NumInd] is fatal. *)
Theorem assignGenerations_correct (P : Pedigree) (g0 : nat -> Z) :
  Forall (fun i => i < NumInd P) (IndSort P) ->
  initialGen P g0 ->
  NumFou P = countFounders P ->
  ((exists g, assignGenerations P g0 = Ok g) \/
   assignGenerations P g0 = Fatal GenerationError) /\
  (forall g, assignGenerations P g0 = Ok g ->
     forall i, i < NumInd P ->
       match ind_fam P i with
       | None => g i = 0%Z
       | Some f => g i = (Z.max (g (fam_fa P f)) (g (fam_mo P f)) + 1)%Z
       end) /\
  (forall fuel g n,
     n < NumInd P -> snd (genPass P g n) = n ->
     genLoop (S fuel) P g n = Fatal GenerationError).
Proof.
  intros Hsort Hinit Hfou. split; [|split].
  - pose proof (genLoop_fuel (S (NumInd P)) P g0 (NumFou P)) as Hfuel.
    unfold assignGenerations.
    assert (Hfatal : forall fuel g n,
              genLoop fuel P g n = OutOfFuel \/
              (exists g', genLoop fuel P g n = Ok g') \/
              genLoop fuel P g n = Fatal GenerationError).
    { induction fuel as [|fuel IH]; intros g n; [left; reflexivity|].
      simpl. destruct (n <? NumInd P); [|right; left; eauto].
      destruct (genPass P g n) as [g' n'].
      destruct (Nat.eqb n' n); [right; right; reflexivity | apply IH]. }
    destruct (Hfatal (S (NumInd P)) g0 (NumFou P)) as [H|[H|H]]; auto.
    exfalso. apply Hfuel; [lia | exact H].
  - intros g Hrun i Hi.
    assert (Hinv : genInv P g0 (NumFou P)).
    { split; [|split].
      - intros k Hk. specialize (Hinit k Hk). unfold genOk.
        destruct (ind_fam P k); [left; lia | right; split; [lia | exact Hinit]].
      - intros k Hk Hnone. specialize (Hinit k Hk). now rewrite Hnone in Hinit.
      - rewrite Hfou. now apply unassigned_initial. }
    destruct (genLoop_ok _ P g0 (NumFou P) g Hsort Hinv Hrun i Hi) as [_ Hg].
    unfold genOk in Hg. destruct (ind_fam P i); [tauto | exact Hg].
  - intros fuel g n Hn Hpass. simpl.
    destruct (Nat.ltb_spec n (NumInd P)); [|lia].
    destruct (genPass P g n) as [g' n']. simpl in Hpass. subst n'.
    now rewrite Nat.eqb_refl.
Qed.

(** Two founders and their child. *)
Definition trio : Pedigree :=
  {| NumInd := 3; NumFou := 2; IndSort := [2; 0; 1];
     ind_fam := (fun i => if Nat.eqb i 2 then Some 0 else None);
     fam_fa := (fun _ => 0); fam_mo := (fun _ => 1) |}.

Definition trioGen : nat -> Z := fun i => if Nat.eqb i 2 then (-1)%Z else 0%Z.

Lemma assignGenerations_correct_witness :
  Forall (fun i => i < NumInd trio) (IndSort trio) /\
  initialGen trio trioGen /\
  NumFou trio = countFounders trio /\
  exists g, assignGenerations trio trioGen = Ok g /\
            g 0 = 0%Z /\ g 1 = 0%Z /\ g 2 = 1%Z.
Proof.
  assert (H1 : Forall (fun i => i < NumInd trio) (IndSort trio))
    by (repeat constructor).
  assert (H2 : initialGen trio trioGen).
  { intros i Hi. destruct i as [|[|[|i]]]; reflexivity. }
  assert (H3 : NumFou trio = countFounders trio) by reflexivity.
  split; [exact H1|]. split; [exact H2|]. split; [exact H3|].
  destruct (assignGenerations_correct trio trioGen H1 H2 H3) as (T & C & _).
  destruct T as [[g Hg]|Hfatal].
  - exists g. split; [exact Hg|].
    pose proof (C g Hg 0 (Nat.lt_0_succ 2)) as G0.
    pose proof (C g Hg 1 (proj1 (Nat.succ_lt_mono 0 2) (Nat.lt_0_succ 1))) as G1.
    pose proof (C g Hg 2 (Nat.lt_succ_diag_r 2)) as G2.
    simpl in G0, G1, G2. rewrite G0, G1 in G2.
    split; [exact G0|]. split; [exact G1|exact G2].
  - vm_compute in Hfatal. discriminate Hfatal.
Defined.

End Generations.

(** ** Pedigree partitioner: [point], [trace] and the second half of
       [makePeds] *)

Module Partition.

(** The fields the partitioner reads.  [findInd] applied to the id of a
    father or mother returns the index of that record, since ids are
    unique once [sortInds] has passed; so the father of family [f] is
    the index [fam_fa f]. *)
Record Pedigree : Type := {
  NumInd : nat;
  NumFam : nat;
  ind_fam : nat -> option nat;     (* [Ind.fam] *)
  fam_fa : nat -> nat;             (* [Fam.fa] *)
  fam_mo : nat -> nat              (* [Fam.mo] *)
}.

(** The five arrays [relate[0..4]]; -1 is "none". *)
Definition Relate : Type := nat -> nat -> Z.

Definition noRelate : Relate := fun _ _ => (-1)%Z.

(** [while (r_next[ind] != -1) ind = r_next[ind];] *)
Fixpoint chainEnd (fuel : nat) (r_next : nat -> Z) (ind : nat) : option nat :=
  match fuel with
  | O => None
  | S fuel' =>
      if Z.eqb (r_next ind) (-1) then Some ind
      else chainEnd fuel' r_next (Z.to_nat (r_next ind))
  end.

(** [point(curind, ind, relate[knext], relate[4])] *)
Definition point (fuel : nat) (R : Relate) (knext curind ind : nat)
  : option Relate :=
  if Z.eqb (R 4 ind) (-1) then Some (upd2 R 4 ind (Z.of_nat curind))
  else
    match chainEnd fuel (R knext) (Z.to_nat (R 4 ind)) with
    | Some e => Some (upd2 R knext e (Z.of_nat curind))
    | None => None
    end.

(** Lines 1704-1718 for one [curind]. *)
Definition relateStep (P : Pedigree) (acc : option Relate) (curind : nat)
  : option Relate :=
  match acc with
  | None => None
  | Some R =>
      match ind_fam P curind with
      | Some f =>
          let R := upd2 R 0 curind (Z.of_nat (fam_fa P f)) in
          match point (S (NumInd P)) R 2 curind (fam_fa P f) with
          | None => None
          | Some R =>
              let R := upd2 R 1 curind (Z.of_nat (fam_mo P f)) in
              point (S (NumInd P)) R 3 curind (fam_mo P f)
          end
      | None => Some (upd2 (upd2 R 0 curind (-1)%Z) 1 curind (-1)%Z)
      end
  end.

Definition buildRelate (P : Pedigree) : option Relate :=
  fold_left (relateStep P) (seq 0 (NumInd P)) (Some noRelate).

(** The variables of [trace] and the fields it writes. *)
Record Dfs : Type := {
  curind : Z;
  pstack : Z;
  stack : nat -> Z;
  state : nat -> Z;
  ped : nat -> Z;                  (* [IndArray[i]->ped] *)
  famped : nat -> Z                (* [FamArray[f]->ped] *)
}.

Inductive Step : Type :=
| Continue (d : Dfs)
| Return (d : Dfs).

(** One trip of the [for ( ; ; )] of [trace]. *)
Definition traceStep (P : Pedigree) (R : Relate) (curped : Z) (d : Dfs) : Step :=
  (* visit [curind], or fall back to the top of the stack *)
  let d1 :=
    if Z.eqb (curind d) (-1) || negb (Z.eqb (ped d (Z.to_nat (curind d))) (-1))
    then {| curind := stack d (Z.to_nat (pstack d)); pstack := pstack d;
            stack := stack d; state := state d; ped := ped d;
            famped := famped d |}
    else
      let c := Z.to_nat (curind d) in
      {| curind := curind d; pstack := (pstack d + 1)%Z;
         stack := upd (stack d) (Z.to_nat (pstack d + 1)) (curind d);
         state := state d;
         ped := upd (ped d) c curped;
         famped := match ind_fam P c with
                   | Some f => upd (famped d) f curped
                   | None => famped d
                   end |} in
  let c := Z.to_nat (curind d1) in
  let st := (state d1 c + 1)%Z in
  let d2 := {| curind := curind d1; pstack := pstack d1; stack := stack d1;
               state := upd (state d1) c st; ped := ped d1;
               famped := famped d1 |} in
  let go (next : Z) :=
    Continue {| curind := next; pstack := pstack d2; stack := stack d2;
                state := state d2; ped := ped d2; famped := famped d2 |} in
  if (st >? 5)%Z then
    let d3 := {| curind := curind d2; pstack := (pstack d2 - 1)%Z;
                 stack := stack d2; state := state d2; ped := ped d2;
                 famped := famped d2 |} in
    if (pstack d3 <? 0)%Z then Return d3 else Continue d3
  else if (st <? 5)%Z then go (R (Z.to_nat st) c)
  else if Z.eqb st 5 && negb (Z.eqb (R 4 c) (-1)) then
    let kid := Z.to_nat (R 4 c) in
    if Z.eqb (R 0 kid) (curind d2) then go (R 1 kid) else go (R 0 kid)
  else Continue d2.

Fixpoint traceLoop (fuel : nat) (P : Pedigree) (R : Relate) (curped : Z) (d : Dfs)
  : option Dfs :=
  match fuel with
  | O => None
  | S fuel' =>
      match traceStep P R curped d with
      | Return d' => Some d'
      | Continue d' => traceLoop fuel' P R curped d'
      end
  end.

(** [trace(relate, curind, curped, stack, state)]; the counters bound the
    number of trips by seven per individual. *)
Definition trace (P : Pedigree) (R : Relate) (start : nat) (curped : Z) (d : Dfs)
  : option Dfs :=
  traceLoop (7 * NumInd P + 1) P R curped
    {| curind := Z.of_nat start; pstack := (-1)%Z; stack := stack d;
       state := state d; ped := ped d; famped := famped d |}.

Definition isolated (R : Relate) (i : nat) : bool :=
  Z.eqb (R 0 i) (-1) && Z.eqb (R 1 i) (-1) && Z.eqb (R 2 i) (-1) &&
  Z.eqb (R 3 i) (-1) && Z.eqb (R 4 i) (-1).

(** Lines 1727-1737 for one [curind]; [nped] is the number of runs. *)
Definition partStep (P : Pedigree) (R : Relate) (acc : option (Dfs * nat))
           (c : nat) : option (Dfs * nat) :=
  match acc with
  | None => None
  | Some (d, nped) =>
      if isolated R c then Some (d, nped)
      else if Z.eqb (ped d c) (-1) then
        match trace P R c (Z.of_nat nped) d with
        | Some d' => Some (d', S nped)
        | None => None
        end
      else Some (d, nped)
  end.

Definition startDfs : Dfs :=
  {| curind := 0%Z; pstack := (-1)%Z; stack := fun _ => 0%Z;
     state := fun _ => (-1)%Z; ped := fun _ => (-1)%Z;
     famped := fun _ => (-1)%Z |}.

Definition partition (P : Pedigree) (R : Relate) : option (Dfs * nat) :=
  fold_left (partStep P R) (seq 0 (NumInd P)) (Some (startDfs, 0)).

(** The counts of a [Ped] record. *)
Record PedRec : Type := {
  nfam : nat;
  nind : nat;
  nfou : nat
}.

(** Lines 1744-1758: the families of each traced pedigree. *)
Definition countFams (P : Pedigree) (fp : nat -> Z) (i : nat) : nat :=
  List.length (filter (fun j => Z.eqb (fp j) (Z.of_nat i)) (seq 0 (NumFam P))).

Definition tracedPeds (P : Pedigree) (fp : nat -> Z) (nped : nat)
           (old : nat -> PedRec) : nat -> PedRec :=
  fun i => if i <? nped
           then {| nfam := countFams P fp i; nind := 0; nfou := 0 |}
           else old i.

Record Peds : Type := {
  PedArray : nat -> PedRec;
  NumPed : nat;
  indPed : nat -> Z
}.

(** Lines 1761-1778 for one individual. *)
Definition countStep (P : Pedigree) (acc : Peds) (i : nat) : Peds :=
  if Z.eqb (indPed acc i) (-1) then
    {| PedArray := upd (PedArray acc) (NumPed acc)
                       {| nfam := 0; nind := 1; nfou := 1 |};
       NumPed := S (NumPed acc);
       indPed := upd (indPed acc) i (Z.of_nat (NumPed acc)) |}
  else
    let p := Z.to_nat (indPed acc i) in
    let r := PedArray acc p in
    {| PedArray := upd (PedArray acc) p
                       {| nfam := nfam r; nind := S (nind r);
                          nfou := match ind_fam P i with
                                  | None => S (nfou r)
                                  | Some _ => nfou r
                                  end |};
       NumPed := NumPed acc;
       indPed := indPed acc |}.

Record Result : Type := {
  relate : Relate;
  traced : nat -> Z;         (* the [ped] fields when the DFS loop ends *)
  tracedFam : nat -> Z;      (* the [ped] fields of the families *)
  runs : nat;                (* [nped] when the DFS loop ends *)
  peds : Peds
}.

(** The second half of [makePeds], from line 1698; [old] is what
    [PedArray] held before. *)
Definition makePeds (P : Pedigree) (old : nat -> PedRec) : option Result :=
  match buildRelate P with
  | None => None
  | Some R =>
      match partition P R with
      | None => None
      | Some (d, nped) =>
          let pa := tracedPeds P (famped d) nped old in
          Some {| relate := R; traced := ped d; tracedFam := famped d;
                  runs := nped;
                  peds := fold_left (countStep P) (seq 0 (NumInd P))
                            {| PedArray := pa; NumPed := nped;
                               indPed := ped d |} |}
      end
  end.

(** ** Proofs: one run of [trace] *)

Section Trace.

Variables (P : Pedigree) (R : Relate) (curped : Z) (start : nat).

(** [G] is any class of individuals closed under the five relations. *)
Variable G : nat -> Prop.
Hypothesis Hcur : (0 <= curped)%Z.
Hypothesis HG : forall k x, k < 5 ->
  R k x = (-1)%Z \/ exists z, R k x = Z.of_nat z /\ z < NumInd P /\ G z.

(** The fields on entry. *)
Variables (ped0 famped0 : nat -> Z).

Definition pedFrame (d : Dfs) : Prop :=
  (forall x, ped d x = ped0 x \/
             (ped d x = curped /\ G x /\ x < NumInd P /\
              forall f, ind_fam P x = Some f -> famped d f = curped)) /\
  (forall f, famped d f = famped0 f \/ famped d f = curped).

Definition counters (d : Dfs) : Prop :=
  (forall x, ped d x = (-1)%Z -> state d x = (-1)%Z) /\
  (forall x, (-1 <= state d x <= 6)%Z).

Definition onStack (d : Dfs) (k x : nat) : Prop :=
  stack d k = Z.of_nat x /\ x < NumInd P /\ G x /\
  ped d x <> (-1)%Z /\ (0 <= state d x <= 5)%Z.

Record traceInv (d : Dfs) : Prop := {
  ti_top : (-1 <= pstack d)%Z;
  ti_stack : forall k, (Z.of_nat k <= pstack d)%Z -> exists x, onStack d k x;
  ti_distinct : forall k k', k < k' -> (Z.of_nat k' <= pstack d)%Z ->
                             stack d k <> stack d k';
  ti_cur : curind d = (-1)%Z \/
           exists c, curind d = Z.of_nat c /\ c < NumInd P /\ G c;
  ti_first : pstack d = (-1)%Z ->
             curind d = Z.of_nat start /\ ped d start = (-1)%Z;
  ti_started : (0 <= pstack d)%Z -> ped d start = curped;
  ti_counters : counters d;
  ti_frame : pedFrame d
}.

(** What holds when [trace] returns. *)
Definition tracePost (d : Dfs) : Prop :=
  ped d start = curped /\ counters d /\ pedFrame d.

Definition slack (d : Dfs) (x : nat) : nat := Z.to_nat (6 - state d x).

Definition measure (d : Dfs) : nat := sumTo (NumInd P) (slack d).

(** The state after the first [if] of a trip: [x] is on top of the
    stack and is the current individual. *)
Record midInv (d : Dfs) (x : nat) : Prop := {
  mi_cur : curind d = Z.of_nat x;
  mi_top : (0 <= pstack d)%Z;
  mi_x : stack d (Z.to_nat (pstack d)) = Z.of_nat x /\ x < NumInd P /\ G x /\
         ped d x <> (-1)%Z /\ (-1 <= state d x <= 5)%Z;
  mi_below : forall k, (Z.of_nat k < pstack d)%Z ->
                       exists y, onStack d k y /\ y <> x;
  mi_distinct : forall k k', k < k' -> (Z.of_nat k' < pstack d)%Z ->
                             stack d k <> stack d k';
  mi_started : ped d start = curped;
  mi_counters : counters d;
  mi_frame : pedFrame d
}.

Definition visit (d : Dfs) : Dfs :=
  if Z.eqb (curind d) (-1) || negb (Z.eqb (ped d (Z.to_nat (curind d))) (-1))
  then {| curind := stack d (Z.to_nat (pstack d)); pstack := pstack d;
          stack := stack d; state := state d; ped := ped d;
          famped := famped d |}
  else
    let c := Z.to_nat (curind d) in
    {| curind := curind d; pstack := (pstack d + 1)%Z;
       stack := upd (stack d) (Z.to_nat (pstack d + 1)) (curind d);
       state := state d;
       ped := upd (ped d) c curped;
       famped := match ind_fam P c with
                 | Some f => upd (famped d) f curped
                 | None => famped d
                 end |}.

Lemma visit_mid (d : Dfs) :
  traceInv d ->
  exists x, midInv (visit d) x /\ state (visit d) = state d.
Proof.
  intros [Htop Hstk Hdist Hcurd Hfirst Hstart [Hfresh Hst] [Hped Hfam]].
  unfold visit.
  destruct (Z.eqb (curind d) (-1)
            || negb (Z.eqb (ped d (Z.to_nat (curind d))) (-1))) eqn:Hcond.
  - (* fall back to the top of the stack *)
    assert (Hp : (0 <= pstack d)%Z).
    { destruct (Z.eq_dec (pstack d) (-1)) as [E|E]; [|lia].
      destruct (Hfirst E) as [E1 E2]. rewrite E1, Nat2Z.id, E2 in Hcond.
      simpl in Hcond. destruct (Z.eqb_spec (Z.of_nat start) (-1)); [lia|].
      discriminate. }
    destruct (Hstk (Z.to_nat (pstack d)) ltac:(lia)) as (x & Hx1 & Hx2 & Hx3 & Hx4 & Hx5).
    exists x. split; [|reflexivity]. constructor; simpl; auto.
    + repeat split; auto; lia.
    + intros k Hk. destruct (Hstk k ltac:(lia)) as (y & Hy).
      exists y. split; [exact Hy|]. intros ->.
      apply (Hdist k (Z.to_nat (pstack d))); [lia | lia |].
      destruct Hy as [Hy _]. congruence.
    + intros k k' Hkk Hk'. apply Hdist; lia.
    + split; assumption.
    + split; assumption.
  - (* push the current individual *)
    apply orb_false_iff in Hcond. destruct Hcond as [Hc1 Hc2].
    apply Z.eqb_neq in Hc1. apply negb_false_iff, Z.eqb_eq in Hc2.
    destruct Hcurd as [E|(c & Ec & Hc & HGc)]; [contradiction|].
    rewrite Ec, Nat2Z.id in *.
    assert (Hnew : forall k y, (Z.of_nat k <= pstack d)%Z -> onStack d k y -> y <> c).
    { intros k y _ (_ & _ & _ & Hy & _) ->. contradiction. }
    assert (Htn : Z.to_nat (pstack d + 1) = S (Z.to_nat (pstack d)) \/
                  (pstack d = (-1)%Z /\ Z.to_nat (pstack d + 1) = 0)) by lia.
    assert (Hkeep : forall k y, (Z.of_nat k <= pstack d)%Z -> onStack d k y ->
              onStack {| curind := Z.of_nat c; pstack := (pstack d + 1)%Z;
                         stack := upd (stack d) (Z.to_nat (pstack d + 1)) (Z.of_nat c);
                         state := state d; ped := upd (ped d) c curped;
                         famped := match ind_fam P c with
                                   | Some f => upd (famped d) f curped
                                   | None => famped d
                                   end |} k y).
    { intros k y Hk Hy. pose proof (Hnew k y Hk Hy) as Hne.
      destruct Hy as (Hy1 & Hy2 & Hy3 & Hy4 & Hy5).
      unfold onStack; simpl. rewrite !upd_other by lia.
      repeat split; auto; lia. }
    exists c. split; [|reflexivity]. constructor; simpl.
    + reflexivity.
    + lia.
    + rewrite !upd_same. rewrite (Hfresh c Hc2). repeat split; auto; lia.
    + intros k Hk. destruct (Hstk k ltac:(lia)) as (y & Hy).
      exists y. split; [apply Hkeep; [lia | exact Hy] | apply (Hnew k y); [lia | exact Hy]].
    + intros k k' Hkk Hk'. rewrite !upd_other by lia. apply Hdist; lia.
    + destruct (Z.eq_dec (pstack d) (-1)) as [E|E].
      * destruct (Hfirst E) as [E1 _]. apply Nat2Z.inj in E1. subst c.
        apply upd_same.
      * rewrite upd_other; [apply Hstart; lia|].
        intros <-. rewrite (Hstart ltac:(lia)) in Hc2. lia.
    + split.
      * intros y. simpl. unfold upd. destruct (Nat.eqb_spec y c); [lia|].
        apply Hfresh.
      * exact Hst.
    + split; simpl.
      * intros y. unfold upd at 1 2. destruct (Nat.eqb_spec y c) as [->|Hne].
        -- right. repeat split; auto. intros f Hf. rewrite Hf. apply upd_same.
        -- destruct (Hped y) as [H|(H1 & H2 & H3 & H4)]; [left; exact H|].
           right. repeat split; auto. intros f Hf.
           destruct (ind_fam P c) as [fc|]; [|now apply H4].
           unfold upd. destruct (Nat.eqb_spec f fc); [reflexivity | now apply H4].
      * intros f. destruct (ind_fam P c) as [fc|]; [|apply Hfam].
        unfold upd. destruct (Nat.eqb_spec f fc); [right; reflexivity | apply Hfam].
Qed.



Definition bump (d1 : Dfs) (x : nat) (next p : Z) : Dfs :=
  {| curind := next; pstack := p; stack := stack d1;
     state := upd (state d1) x (state d1 x + 1)%Z; ped := ped d1;
     famped := famped d1 |}.

(** The rest of a trip, after the first [if]. *)
Definition advance (d1 : Dfs) : Step :=
  let c := Z.to_nat (curind d1) in
  let st := (state d1 c + 1)%Z in
  if (st >? 5)%Z then
    if (pstack d1 - 1 <? 0)%Z then Return (bump d1 c (curind d1) (pstack d1 - 1)%Z)
    else Continue (bump d1 c (curind d1) (pstack d1 - 1)%Z)
  else if (st <? 5)%Z then Continue (bump d1 c (R (Z.to_nat st) c) (pstack d1))
  else if Z.eqb st 5 && negb (Z.eqb (R 4 c) (-1)) then
    let kid := Z.to_nat (R 4 c) in
    if Z.eqb (R 0 kid) (curind d1)
    then Continue (bump d1 c (R 1 kid) (pstack d1))
    else Continue (bump d1 c (R 0 kid) (pstack d1))
  else Continue (bump d1 c (curind d1) (pstack d1)).

Lemma traceStep_visit (d : Dfs) : traceStep P R curped d = advance (visit d).
Proof. reflexivity. Qed.

Lemma bump_pstack (d1 : Dfs) (x : nat) (next p : Z) :
  pstack (bump d1 x next p) = p.
Proof. reflexivity. Qed.

Lemma bump_curind (d1 : Dfs) (x : nat) (next p : Z) :
  curind (bump d1 x next p) = next.
Proof. reflexivity. Qed.

Lemma bump_stack (d1 : Dfs) (x : nat) (next p : Z) :
  stack (bump d1 x next p) = stack d1.
Proof. reflexivity. Qed.

Lemma bump_ped (d1 : Dfs) (x : nat) (next p : Z) :
  ped (bump d1 x next p) = ped d1.
Proof. reflexivity. Qed.

Lemma bump_measure (d1 : Dfs) (x : nat) (next p : Z) :
  x < NumInd P -> (-1 <= state d1 x <= 5)%Z ->
  measure (bump d1 x next p) < measure d1.
Proof.
  intros Hx Hs. unfold measure. apply (sumTo_lt _ _ _ x Hx).
  - unfold slack, bump; cbn [state]. rewrite upd_same. lia.
  - intros k _. unfold slack, bump; cbn [state]. unfold upd.
    destruct (Nat.eqb_spec k x) as [->|]; lia.
Qed.

Lemma bump_counters (d1 : Dfs) (x : nat) (next p : Z) :
  ped d1 x <> (-1)%Z -> (-1 <= state d1 x <= 5)%Z -> counters d1 ->
  counters (bump d1 x next p).
Proof.
  intros Hp Hs [Hfresh Hst]. split; unfold bump; cbn [state ped].
  - intros y Hy. unfold upd. destruct (Nat.eqb_spec y x) as [->|]; [contradiction|].
    now apply Hfresh.
  - intros y. unfold upd. destruct (Nat.eqb_spec y x) as [->|]; [lia | apply Hst].
Qed.

Lemma bump_below (d1 : Dfs) (x : nat) (next p : Z) (k y : nat) :
  onStack d1 k y -> y <> x -> onStack (bump d1 x next p) k y.
Proof.
  intros (H1 & H2 & H3 & H4 & H5) Hne. unfold onStack, bump; cbn [state ped stack].
  rewrite upd_other by exact Hne. auto.
Qed.

Lemma bump_stay (d1 : Dfs) (x : nat) (next : Z) :
  midInv d1 x -> (state d1 x + 1 <= 5)%Z ->
  next = (-1)%Z \/ (exists c, next = Z.of_nat c /\ c < NumInd P /\ G c) ->
  traceInv (bump d1 x next (pstack d1)).
Proof.
  intros [Hc Htop (Hx1 & Hx2 & Hx3 & Hx4 & Hx5) Hbelow Hdist Hstart Hcnt Hfr]
         Hst Hnext.
  constructor; rewrite ?bump_pstack, ?bump_curind, ?bump_stack, ?bump_ped.
  - lia.
  - intros k Hk. destruct (Z.eq_dec (Z.of_nat k) (pstack d1)) as [E|E].
    + exists x. unfold onStack, bump; cbn [stack state ped]. rewrite upd_same.
      replace k with (Z.to_nat (pstack d1)) by lia.
      repeat split; auto; lia.
    + destruct (Hbelow k ltac:(lia)) as (y & Hy & Hne).
      exists y. now apply bump_below.
  - intros k k' Hkk Hk'.
    destruct (Z.eq_dec (Z.of_nat k') (pstack d1)) as [E|E].
    + destruct (Hbelow k ltac:(lia)) as (y & (Hy & _) & Hne).
      replace k' with (Z.to_nat (pstack d1)) by lia.
      rewrite Hy, Hx1. intros H. apply Nat2Z.inj in H. contradiction.
    + apply Hdist; lia.
  - exact Hnext.
  - intros E. lia.
  - intros _. exact Hstart.
  - apply bump_counters; auto.
  - exact Hfr.
Qed.

Lemma bump_pop (d1 : Dfs) (x : nat) :
  midInv d1 x -> (0 <= pstack d1 - 1)%Z ->
  traceInv (bump d1 x (Z.of_nat x) (pstack d1 - 1)%Z).
Proof.
  intros [Hc Htop (Hx1 & Hx2 & Hx3 & Hx4 & Hx5) Hbelow Hdist Hstart Hcnt Hfr] Hp.
  constructor; rewrite ?bump_pstack, ?bump_curind, ?bump_stack, ?bump_ped.
  - lia.
  - intros k Hk. destruct (Hbelow k ltac:(lia)) as (y & Hy & Hne).
    exists y. now apply bump_below.
  - intros k k' Hkk Hk'. apply Hdist; lia.
  - right. exists x. auto.
  - intros E. lia.
  - intros _. exact Hstart.
  - apply bump_counters; auto.
  - exact Hfr.
Qed.

Lemma advance_spec (d1 : Dfs) (x : nat) :
  midInv d1 x ->
  match advance d1 with
  | Continue d' => traceInv d' /\ measure d' < measure d1
  | Return d' => tracePost d'
  end.
Proof.
  intros Hmid. pose proof Hmid as Hmid'.
  destruct Hmid' as [Hc Htop (Hx1 & Hx2 & Hx3 & Hx4 & Hx5) Hbelow Hdist Hstart Hcnt Hfr].
  unfold advance. rewrite Hc, Nat2Z.id.
  assert (Hm : forall next p, measure (bump d1 x next p) < measure d1)
    by (intros; now apply bump_measure).
  destruct (Z.gtb_spec (state d1 x + 1) 5) as [Hgt|Hle].
  - destruct (Z.ltb_spec (pstack d1 - 1) 0) as [Hneg|Hpos].
    + split; [exact Hstart|]. split; [|exact Hfr].
      apply bump_counters; auto.
    + split; [now apply bump_pop | apply Hm].
  - destruct (Z.ltb_spec (state d1 x + 1) 5) as [Hlt|Hge].
    + split; [|apply Hm]. apply bump_stay; auto.
      destruct (HG (Z.to_nat (state d1 x + 1)) x ltac:(lia)); auto.
    + destruct (Z.eqb (state d1 x + 1) 5 && negb (Z.eqb (R 4 x) (-1))).
      * destruct (Z.eqb (R 0 (Z.to_nat (R 4 x))) (Z.of_nat x)).
        -- split; [|apply Hm]. apply bump_stay; auto.
           destruct (HG 1 (Z.to_nat (R 4 x)) ltac:(lia)); auto.
        -- split; [|apply Hm]. apply bump_stay; auto.
           destruct (HG 0 (Z.to_nat (R 4 x)) ltac:(lia)); auto.
      * split; [|apply Hm]. apply bump_stay; auto. right. exists x. auto.
Qed.

Lemma traceLoop_spec (fuel : nat) (d : Dfs) :
  traceInv d -> measure d < fuel ->
  exists d', traceLoop fuel P R curped d = Some d' /\ tracePost d'.
Proof.
  revert d. induction fuel as [|fuel IH]; intros d Hinv Hfuel; [lia|].
  simpl. rewrite traceStep_visit.
  destruct (visit_mid d Hinv) as (x & Hmid & Hst).
  pose proof (advance_spec (visit d) x Hmid) as Hadv.
  assert (Hmeas : measure (visit d) = measure d).
  { unfold measure. apply sumTo_ext. intros k _. unfold slack. now rewrite Hst. }
  destruct (advance (visit d)) as [d'|d'].
  - destruct Hadv as [Hinv' Hlt]. apply IH; [exact Hinv' | lia].
  - exists d'. auto.
Qed.

End Trace.

(** ** Proofs: the relation arrays *)

Definition nonIso (R : Relate) (z : nat) : Prop :=
  exists k, k < 5 /\ R k z <> (-1)%Z.

Lemma isolated_false (R : Relate) (z : nat) :
  isolated R z = false <-> nonIso R z.
Proof.
  unfold isolated, nonIso. split.
  - intros H.
    destruct (Z.eqb_spec (R 0 z) (-1)); [|exists 0; split; [lia | assumption]].
    destruct (Z.eqb_spec (R 1 z) (-1)); [|exists 1; split; [lia | assumption]].
    destruct (Z.eqb_spec (R 2 z) (-1)); [|exists 2; split; [lia | assumption]].
    destruct (Z.eqb_spec (R 3 z) (-1)); [|exists 3; split; [lia | assumption]].
    destruct (Z.eqb_spec (R 4 z) (-1)); [|exists 4; split; [lia | assumption]].
    discriminate.
  - intros (k & Hk & Hne).
    destruct k as [|[|[|[|[|k]]]]]; try lia;
      apply Z.eqb_neq in Hne; rewrite Hne; simpl;
      rewrite ?andb_false_r; reflexivity.
Qed.

(** [R'] keeps every entry of [R] that is set. *)
Definition extends (R R' : Relate) : Prop :=
  forall k x, R k x <> (-1)%Z -> R' k x = R k x.

Lemma extends_refl (R : Relate) : extends R R.
Proof. intros k x _. reflexivity. Qed.

Lemma extends_trans (R1 R2 R3 : Relate) :
  extends R1 R2 -> extends R2 R3 -> extends R1 R3.
Proof.
  intros H12 H23 k x H. rewrite H23; rewrite (H12 k x H); [reflexivity | exact H].
Qed.

Lemma extends_upd2 (R : Relate) (k x : nat) (v : Z) :
  R k x = (-1)%Z -> extends R (upd2 R k x v).
Proof.
  intros H k' x' Hne. rewrite upd2_other; [reflexivity|].
  destruct (Nat.eq_dec k' k) as [->|]; [|now left].
  destruct (Nat.eq_dec x' x) as [->|]; [contradiction | now right].
Qed.

Lemma extends_nonIso (R R' : Relate) (z : nat) :
  extends R R' -> nonIso R z -> nonIso R' z.
Proof.
  intros He (k & Hk & Hne). exists k. split; [exact Hk|]. now rewrite He.
Qed.

Section Chains.

Variables (r : nat -> Z) (m : nat).
Hypothesis Hinc : forall x z, r x = Z.of_nat z -> x < z /\ z < m.
Hypothesis Hval : forall x, r x = (-1)%Z \/ exists z, r x = Z.of_nat z.

Lemma chainEnd_spec (fuel ind : nat) :
  ind < m -> m - ind < fuel ->
  exists e, chainEnd fuel r ind = Some e /\ r e = (-1)%Z /\ e < m.
Proof.
  revert ind. induction fuel as [|fuel IH]; intros ind Hind Hfuel; [lia|].
  simpl. destruct (Z.eqb_spec (r ind) (-1)) as [E|E].
  - exists ind. auto.
  - destruct (Hval ind) as [H|(z & Hz)]; [contradiction|].
    destruct (Hinc ind z Hz) as [H1 H2].
    rewrite Hz, Nat2Z.id. apply IH; lia.
Qed.

End Chains.

Record relInv (P : Pedigree) (m : nat) (R : Relate) : Prop := {
  ri_values : forall k x, k < 5 ->
      R k x = (-1)%Z \/
      exists z, R k x = Z.of_nat z /\ z < NumInd P /\ nonIso R z;
  ri_chain : forall k x z, k = 2 \/ k = 3 -> R k x = Z.of_nat z -> x < z /\ z < m;
  ri_first : forall x z, R 4 x = Z.of_nat z -> z < m;
  ri_later : forall c, m <= c -> R 0 c = (-1)%Z /\ R 1 c = (-1)%Z
}.

(** Families as the earlier phases leave them: both parents are
    individuals of the data set, and they differ. *)
Definition parentsOk (P : Pedigree) : Prop :=
  forall c f, c < NumInd P -> ind_fam P c = Some f ->
    fam_fa P f < NumInd P /\ fam_mo P f < NumInd P /\ fam_fa P f <> fam_mo P f.

(** One call of [point] on a state that satisfies the invariant except
    for what the current individual [m] has added. *)
Lemma point_spec (P : Pedigree) (m : nat) (R : Relate) (knext ind : nat) :
  m < NumInd P -> knext = 2 \/ knext = 3 ->
  (forall x z, R knext x = Z.of_nat z -> x < z /\ z < m) ->
  (forall x, R knext x = (-1)%Z \/ exists z, R knext x = Z.of_nat z) ->
  (R 4 ind = (-1)%Z \/ exists h, R 4 ind = Z.of_nat h /\ h < m) ->
  exists R',
    point (S (NumInd P)) R knext m ind = Some R' /\
    extends R R' /\ R' 4 ind <> (-1)%Z /\
    ((R' = upd2 R 4 ind (Z.of_nat m) /\ R 4 ind = (-1)%Z) \/
     (exists e, R' = upd2 R knext e (Z.of_nat m) /\ e < m /\
                R knext e = (-1)%Z /\ R 4 ind <> (-1)%Z)).
Proof.
  intros Hm Hk Hinc Hval Hhead. unfold point.
  destruct (Z.eqb_spec (R 4 ind) (-1)) as [E|E].
  - eexists. split; [reflexivity|]. split; [now apply extends_upd2|].
    split; [rewrite upd2_same; lia | left; auto].
  - destruct Hhead as [H|(h & Hh & Hlt)]; [contradiction|].
    rewrite Hh, Nat2Z.id.
    destruct (chainEnd_spec (R knext) m Hinc Hval (S (NumInd P)) h Hlt ltac:(lia))
      as (e & He & Hend & Hem).
    rewrite He. eexists. split; [reflexivity|].
    split; [now apply extends_upd2|]. split.
    + rewrite upd2_other; [exact E | left; destruct Hk; lia].
    + right. exists e. repeat split; auto; lia.
Qed.

Lemma relateStep_inv (P : Pedigree) (m : nat) (R : Relate) :
  parentsOk P -> m < NumInd P -> relInv P m R ->
  exists R', relateStep P (Some R) m = Some R' /\ relInv P (S m) R'.
Proof.
  intros Hpar Hm [Hval Hch Hfst Hlat]. unfold relateStep.
  destruct (Hlat m (Nat.le_refl m)) as [H0m H1m].
  assert (Hcell : forall k x, k < 5 -> R k x = (-1)%Z \/ exists z, R k x = Z.of_nat z).
  { intros k x Hk. destruct (Hval k x Hk) as [H|(z & Hz & _)]; eauto. }
  destruct (ind_fam P m) as [f|] eqn:Hf.
  2:{ (* no family: the two assignments of -1 change nothing *)
      eexists. split; [reflexivity|].
      assert (Hsame : forall k x, upd2 (upd2 R 0 m (-1)%Z) 1 m (-1)%Z k x = R k x).
      { intros k x. unfold upd2.
        destruct (Nat.eqb_spec k 1); destruct (Nat.eqb_spec x m);
          destruct (Nat.eqb_spec k 0); simpl; subst; congruence. }
      constructor.
      - intros k x Hk. rewrite Hsame.
        destruct (Hval k x Hk) as [H|(z & Hz & Hzn & k' & Hk' & Hne)]; [left; exact H|].
        right. exists z. repeat split; auto. exists k'. now rewrite Hsame.
      - intros k x z Hk. rewrite Hsame. intros H.
        destruct (Hch k x z Hk H). lia.
      - intros x z. rewrite Hsame. intros H. specialize (Hfst x z H). lia.
      - intros c Hc. rewrite !Hsame. apply Hlat. lia. }
  destruct (Hpar m f Hm Hf) as (Hfa & Hmo & Hne).
  set (fa := fam_fa P f) in *. set (mo := fam_mo P f) in *.
  (* relate[0][m] = fa *)
  set (R1 := upd2 R 0 m (Z.of_nat fa)).
  assert (E1 : extends R R1) by (now apply extends_upd2).
  assert (R1row : forall k x, k <> 0 -> R1 k x = R k x)
    by (intros k x Hk; unfold R1; rewrite upd2_other; auto).
  destruct (point_spec P m R1 2 fa Hm ltac:(auto)) as (R2 & HR2 & E2 & H4fa & Hshape2).
  { intros x z. rewrite R1row by lia. apply Hch. auto. }
  { intros x. rewrite R1row by lia. apply Hcell. lia. }
  { rewrite R1row by lia. destruct (Hcell 4 fa ltac:(lia)) as [H|(h & Hh)]; [auto|].
    right. exists h. split; [exact Hh | exact (Hfst fa h Hh)]. }
  rewrite HR2.
  (* relate[1][m] = mo *)
  set (R3 := upd2 R2 1 m (Z.of_nat mo)).
  assert (R2row : forall k x, k = 1 \/ k = 3 -> R2 k x = R k x).
  { intros k x Hk. destruct Hshape2 as [[-> _]|(e & -> & _)];
      rewrite upd2_other by (left; lia); apply R1row; lia. }
  assert (R2_4mo : R2 4 mo = R 4 mo).
  { destruct Hshape2 as [[-> _]|(e & -> & _)].
    - rewrite upd2_other by (right; auto). apply R1row. lia.
    - rewrite upd2_other by (left; lia). apply R1row. lia. }
  assert (E3 : extends R2 R3).
  { apply extends_upd2. rewrite R2row by auto. exact H1m. }
  assert (R3row : forall k x, k <> 1 -> R3 k x = R2 k x)
    by (intros k x Hk; unfold R3; rewrite upd2_other; auto).
  destruct (point_spec P m R3 3 mo Hm ltac:(auto)) as (R4 & HR4 & E4 & H4mo & Hshape4).
  { intros x z. rewrite R3row, R2row by lia. apply Hch. auto. }
  { intros x. rewrite R3row, R2row by lia. apply Hcell. lia. }
  { rewrite R3row, R2_4mo by lia.
    destruct (Hcell 4 mo ltac:(lia)) as [H|(h & Hh)]; [auto|].
    right. exists h. split; [exact Hh | exact (Hfst mo h Hh)]. }
  exists R4. split; [exact HR4|].
  assert (E : extends R R4) by (eauto using extends_trans).
  (* the new entries *)
  assert (Hnew : forall k x, R4 k x = R k x \/
            (k = 0 /\ x = m /\ R4 k x = Z.of_nat fa) \/
            (k = 1 /\ x = m /\ R4 k x = Z.of_nat mo) \/
            ((k = 2 \/ k = 3) /\ x < m /\ R4 k x = Z.of_nat m) \/
            (k = 4 /\ R4 k x = Z.of_nat m)).
  { intros k x.
    destruct (Z.eq_dec (R k x) (-1)) as [Hold|Hold]; [|left; now apply E].
    assert (H1 : R1 k x = R k x \/ (k = 0 /\ x = m /\ R1 k x = Z.of_nat fa)).
    { unfold R1, upd2. destruct (Nat.eqb_spec k 0); destruct (Nat.eqb_spec x m);
        simpl; auto. }
    assert (H2 : R2 k x = R1 k x \/ (k = 2 /\ x < m /\ R2 k x = Z.of_nat m) \/
                 (k = 4 /\ R2 k x = Z.of_nat m)).
    { destruct Hshape2 as [[-> _]|(e & -> & He & _)]; unfold upd2;
        destruct (Nat.eqb_spec k 4); destruct (Nat.eqb_spec k 2);
        try destruct (Nat.eqb_spec x fa); try destruct (Nat.eqb_spec x e);
        simpl; subst; auto. }
    assert (H3 : R3 k x = R2 k x \/ (k = 1 /\ x = m /\ R3 k x = Z.of_nat mo)).
    { unfold R3, upd2. destruct (Nat.eqb_spec k 1); destruct (Nat.eqb_spec x m);
        simpl; auto. }
    assert (H4 : R4 k x = R3 k x \/ (k = 3 /\ x < m /\ R4 k x = Z.of_nat m) \/
                 (k = 4 /\ R4 k x = Z.of_nat m)).
    { destruct Hshape4 as [[-> _]|(e & -> & He & _)]; unfold upd2;
        destruct (Nat.eqb_spec k 4); destruct (Nat.eqb_spec k 3);
        try destruct (Nat.eqb_spec x mo); try destruct (Nat.eqb_spec x e);
        simpl; subst; auto. }
    destruct H4 as [H4|[H4|H4]]; [|right; right; right; left; tauto | tauto].
    destruct H3 as [H3|H3].
    2:{ right. right. left. destruct H3 as (-> & -> & H3).
        repeat split. rewrite H4. exact H3. }
    destruct H2 as [H2|[H2|H2]].
    2:{ right. right. right. left. destruct H2 as (-> & Hx & H2).
        repeat split; auto. congruence. }
    2:{ right. right. right. right. destruct H2 as (-> & H2). split; congruence. }
    destruct H1 as [H1|H1]; [left; congruence|].
    right. left. destruct H1 as (-> & -> & H1). repeat split. congruence. }
  assert (Hiso_m : nonIso R4 m).
  { exists 0. split; [lia|].
    assert (A1 : R1 0 m = Z.of_nat fa) by (unfold R1; apply upd2_same).
    assert (A2 : R2 0 m = Z.of_nat fa) by (rewrite E2; rewrite A1; lia).
    assert (A3 : R3 0 m = Z.of_nat fa) by (rewrite E3; rewrite A2; lia).
    rewrite E4; rewrite A3; lia. }
  assert (Hiso_fa : nonIso R4 fa).
  { exists 4. split; [lia|].
    assert (A3 : R3 4 fa = R2 4 fa) by (now apply E3).
    rewrite E4; rewrite A3; exact H4fa. }
  assert (Hiso_mo : nonIso R4 mo) by (exists 4; split; [lia | exact H4mo]).
  constructor.
  - intros k x Hk.
    destruct (Hnew k x) as [H|[H|[H|[H|H]]]].
    + rewrite H. destruct (Hval k x Hk) as [H'|(z & Hz & Hzn & Hiso)]; [auto|].
      right. exists z. repeat split; auto. now apply (extends_nonIso R).
    + right. exists fa. tauto.
    + right. exists mo. tauto.
    + right. exists m. tauto.
    + right. exists m. tauto.
  - intros k x z Hk Hz.
    destruct (Hnew k x) as [H|[H|[H|[H|H]]]]; try lia.
    rewrite H in Hz. destruct (Hch k x z Hk Hz). lia.
  - intros x z Hz.
    destruct (Hnew 4 x) as [H|[H|[H|[H|H]]]]; try lia.
    rewrite H in Hz. specialize (Hfst x z Hz). lia.
  - intros c Hc. destruct (Hlat c ltac:(lia)) as [Hc0 Hc1].
    split.
    + destruct (Hnew 0 c) as [H|[H|[H|[H|H]]]]; lia.
    + destruct (Hnew 1 c) as [H|[H|[H|[H|H]]]]; lia.
Qed.

Lemma buildRelate_spec (P : Pedigree) :
  parentsOk P ->
  exists R, buildRelate P = Some R /\ relInv P (NumInd P) R.
Proof.
  intros Hpar. unfold buildRelate.
  apply (fold_seq_invariant (relateStep P)
           (fun m acc => exists R, acc = Some R /\ relInv P m R)).
  - exists noRelate. split; [reflexivity|]. constructor.
    + intros k x _. left. reflexivity.
    + intros k x z _ H. unfold noRelate in H. lia.
    + intros x z H. unfold noRelate in H. lia.
    + intros c _. split; reflexivity.
  - intros m acc Hm (R & -> & Hinv). now apply relateStep_inv.
Qed.

(** ** Proofs: the DFS loop and the pedigree counts *)

Definition reachable (R : Relate) (z : nat) : Prop := isolated R z = false.

Lemma relInv_closed (P : Pedigree) (R : Relate) :
  relInv P (NumInd P) R ->
  forall k x, k < 5 ->
    R k x = (-1)%Z \/
    exists z, R k x = Z.of_nat z /\ z < NumInd P /\ reachable R z.
Proof.
  intros Hinv k x Hk.
  destruct (ri_values P _ R Hinv k x Hk) as [H|(z & Hz & Hzn & Hiso)]; [auto|].
  right. exists z. repeat split; auto. now apply isolated_false.
Qed.

(** One run of [trace] from an individual that has relations and no
    pedigree yet. *)
Lemma trace_spec (P : Pedigree) (R : Relate) (start : nat) (curped : Z) (d : Dfs) :
  relInv P (NumInd P) R ->
  counters d -> start < NumInd P -> reachable R start ->
  ped d start = (-1)%Z -> (0 <= curped)%Z ->
  exists d',
    trace P R start curped d = Some d' /\
    tracePost P curped start (reachable R) (ped d) (famped d) d'.
Proof.
  intros Hrel Hcnt Hstart Hreach Hfree Hcur. unfold trace.
  apply (traceLoop_spec P R curped start (reachable R) Hcur
           (relInv_closed P R Hrel) (ped d) (famped d)).
  - constructor; simpl.
    + lia.
    + intros k Hk. lia.
    + intros k k' _ Hk. lia.
    + right. exists start. auto.
    + intros _. auto.
    + intros H. lia.
    + exact Hcnt.
    + split; intros; left; reflexivity.
  - unfold measure. destruct Hcnt as [_ Hst].
    assert (H : sumTo (NumInd P)
                  (slack {| curind := Z.of_nat start; pstack := (-1)%Z;
                            stack := stack d; state := state d; ped := ped d;
                            famped := famped d |})
                <= sumTo (NumInd P) (fun _ => 7)).
    { apply sumTo_le. intros k _. unfold slack; cbn [state].
      specialize (Hst k). lia. }
    rewrite sumTo_const in H. lia.
Qed.

Definition partInv (R : Relate) (acc : option (Dfs * nat)) : Prop :=
  exists d nped,
    acc = Some (d, nped) /\ counters d /\
    (forall x, ped d x = (-1)%Z \/ (0 <= ped d x < Z.of_nat nped)%Z) /\
    (forall x, isolated R x = true -> ped d x = (-1)%Z).

Lemma partStep_inv (P : Pedigree) (R : Relate) (acc : option (Dfs * nat)) (c : nat) :
  relInv P (NumInd P) R -> c < NumInd P ->
  partInv R acc -> partInv R (partStep P R acc c).
Proof.
  intros Hrel Hc (d & nped & -> & Hcnt & Hrange & Hiso). unfold partStep.
  destruct (isolated R c) eqn:Hic.
  { exists d, nped. auto. }
  destruct (Z.eqb_spec (ped d c) (-1)) as [Hfree|Hset].
  2:{ exists d, nped. auto. }
  destruct (trace_spec P R c (Z.of_nat nped) d Hrel Hcnt Hc Hic Hfree ltac:(lia))
    as (d' & Hd' & Hstart & Hcnt' & Hped & Hfam).
  rewrite Hd'. exists d', (S nped). split; [reflexivity|]. split; [exact Hcnt'|].
  split.
  - intros x. destruct (Hped x) as [H|(H & _)].
    + rewrite H. destruct (Hrange x); [left; assumption | right; lia].
    + right. lia.
  - intros x Hx. destruct (Hped x) as [H|(_ & H & _)].
    + rewrite H. now apply Hiso.
    + unfold reachable in H. congruence.
Qed.

Lemma partition_spec (P : Pedigree) (R : Relate) :
  relInv P (NumInd P) R -> partInv R (partition P R).
Proof.
  intros Hrel. unfold partition.
  apply (fold_seq_invariant (partStep P R) (fun _ acc => partInv R acc)).
  - exists startDfs, 0. split; [reflexivity|]. split; [|split].
    + split; intros x; simpl; [reflexivity | lia].
    + intros x. left. reflexivity.
    + intros x _. reflexivity.
  - intros m acc Hm Hacc. now apply partStep_inv.
Qed.

Definition singleton : PedRec := {| nfam := 0; nind := 1; nfou := 1 |}.

(** The invariant of the counting loop: [pd] is the [ped] array when
    the DFS loop ends and [np] the number of runs. *)
Record countInv (pd : nat -> Z) (np : nat) (m : nat) (acc : Peds) : Prop := {
  ci_num : np <= NumPed acc;
  ci_later : forall i, m <= i -> indPed acc i = pd i;
  ci_traced : forall i, pd i <> (-1)%Z -> indPed acc i = pd i;
  ci_single : forall i, i < m -> pd i = (-1)%Z ->
      exists p, indPed acc i = Z.of_nat p /\ np <= p < NumPed acc /\
                PedArray acc p = singleton;
  ci_unique : forall i j, i < m -> j < m -> pd i = (-1)%Z -> pd j = (-1)%Z ->
                          indPed acc i = indPed acc j -> i = j
}.

Lemma countStep_inv (P : Pedigree) (pd : nat -> Z) (np m : nat) (acc : Peds) :
  (forall x, pd x = (-1)%Z \/ (0 <= pd x < Z.of_nat np)%Z) ->
  countInv pd np m acc -> countInv pd np (S m) (countStep P acc m).
Proof.
  intros Hrange [Hnum Hlater Htr Hsing Huniq]. unfold countStep.
  rewrite (Hlater m (Nat.le_refl m)).
  destruct (Z.eqb_spec (pd m) (-1)) as [Hm|Hm].
  - (* a new pedigree for [m] *)
    constructor; simpl.
    + lia.
    + intros i Hi. rewrite upd_other by lia. apply Hlater. lia.
    + intros i Hi. rewrite upd_other by (intros ->; contradiction). now apply Htr.
    + intros i Hi Hpi. destruct (Nat.eq_dec i m) as [->|Hne].
      * exists (NumPed acc). rewrite !upd_same. repeat split; lia.
      * destruct (Hsing i ltac:(lia) Hpi) as (p & H1 & H2 & H3).
        exists p. rewrite !upd_other by lia. repeat split; auto; lia.
    + intros i j Hi Hj Hpi Hpj. unfold upd.
      destruct (Nat.eqb_spec i m) as [->|Hni]; destruct (Nat.eqb_spec j m) as [->|Hnj];
        try reflexivity.
      * destruct (Hsing j ltac:(lia) Hpj) as (p & H1 & H2 & _). rewrite H1. lia.
      * destruct (Hsing i ltac:(lia) Hpi) as (p & H1 & H2 & _). rewrite H1. lia.
      * apply Huniq; lia.
  - (* one more individual in a traced pedigree *)
    destruct (Hrange m) as [H|Hr]; [contradiction|].
    constructor; simpl.
    + exact Hnum.
    + intros i Hi. apply Hlater. lia.
    + exact Htr.
    + intros i Hi Hpi. destruct (Nat.eq_dec i m) as [->|Hne]; [contradiction|].
      destruct (Hsing i ltac:(lia) Hpi) as (p & H1 & H2 & H3).
      exists p. rewrite upd_other by lia. auto.
    + intros i j Hi Hj Hpi Hpj.
      destruct (Nat.eq_dec i m) as [->|]; [contradiction|].
      destruct (Nat.eq_dec j m) as [->|]; [contradiction|].
      apply Huniq; lia.
Qed.

(** C8. With both parents of every family in the data set and
    different, [makePeds] returns, and:
    - a run of [trace] from an individual that has relations and no
      pedigree yet returns, gives the start the id of the run, and
      every individual whose pedigree it sets gets that id, as does the
      family of such an individual and every family whose id it sets;
    - an individual with no entry in any of the five relation arrays is
      not touched by the DFS loop and ends in a pedigree of its own, with
      one individual, no family and one founder. *)
Theorem makePeds_partition (P : Pedigree) (old : nat -> PedRec) :
  parentsOk P ->
  exists r,
    makePeds P old = Some r /\
    (forall d start curped,
       counters d -> start < NumInd P -> isolated (relate r) start = false ->
       ped d start = (-1)%Z -> (0 <= curped)%Z ->
       exists d',
         trace P (relate r) start curped d = Some d' /\
         ped d' start = curped /\
         (forall x, ped d' x <> ped d x ->
                    ped d' x = curped /\
                    forall f, ind_fam P x = Some f -> famped d' f = curped) /\
         (forall f, famped d' f <> famped d f -> famped d' f = curped)) /\
    (forall x, x < NumInd P -> isolated (relate r) x = true ->
       traced r x = (-1)%Z /\
       exists p,
         indPed (peds r) x = Z.of_nat p /\
         runs r <= p < NumPed (peds r) /\
         PedArray (peds r) p = {| nfam := 0; nind := 1; nfou := 1 |} /\
         forall y, y < NumInd P -> indPed (peds r) y = Z.of_nat p -> y = x).
Proof.
  intros Hpar.
  destruct (buildRelate_spec P Hpar) as (R & HR & Hrel).
  destruct (partition_spec P R Hrel) as (d & nped & Hpart & Hcnt & Hrange & Hiso).
  unfold makePeds. rewrite HR, Hpart.
  eexists. split; [reflexivity|]. cbn [relate traced runs peds]. split.
  - intros d0 start curped Hc0 Hs Hreach Hfree Hcur.
    destruct (trace_spec P R start curped d0 Hrel Hc0 Hs Hreach Hfree Hcur)
      as (d' & Hd' & Hstart & _ & Hped & Hfam).
    exists d'. split; [exact Hd'|]. split; [exact Hstart|]. split.
    + intros x Hx. destruct (Hped x) as [H|(H1 & _ & _ & H2)]; [contradiction|].
      auto.
    + intros f Hf. destruct (Hfam f) as [H|H]; [contradiction | exact H].
  - set (acc0 := {| PedArray := tracedPeds P (famped d) nped old;
                    NumPed := nped; indPed := ped d |}).
    assert (Hci : countInv (ped d) nped (NumInd P)
                    (fold_left (countStep P) (seq 0 (NumInd P)) acc0)).
    { apply (fold_seq_invariant (countStep P) (countInv (ped d) nped)).
      - constructor; simpl; auto; intros; lia.
      - intros m acc _ Hacc. now apply countStep_inv. }
    destruct Hci as [Hnum Hlater Htr Hsing Huniq].
    intros x Hx Hix. pose proof (Hiso x Hix) as Hpx. split; [exact Hpx|].
    destruct (Hsing x Hx Hpx) as (p & H1 & H2 & H3).
    exists p. repeat split; auto; try lia.
    intros y Hy Hyp.
    destruct (Hrange y) as [Hfree|Hr].
    + apply (Huniq y x); auto. congruence.
    + rewrite Htr in Hyp by lia. lia.
Qed.

(** Two founders (0, 1), their children (2, 3), a founder (4) married to
    2, their child (5), and an unrelated individual (6). *)
Definition demo : Pedigree :=
  {| NumInd := 7; NumFam := 2;
     ind_fam := (fun i => match i with
                          | 2 | 3 => Some 0
                          | 5 => Some 1
                          | _ => None
                          end);
     fam_fa := (fun f => match f with 0 => 0 | _ => 2 end);
     fam_mo := (fun f => match f with 0 => 1 | _ => 4 end) |}.

Definition noPeds : nat -> PedRec := fun _ => {| nfam := 0; nind := 0; nfou := 0 |}.

Lemma demo_parentsOk : parentsOk demo.
Proof.
  intros c f Hc Hf.
  destruct c as [|[|[|[|[|[|[|c]]]]]]]; simpl in Hf; try discriminate;
    injection Hf as <-; simpl; repeat split; try discriminate;
    repeat constructor.
Qed.

Lemma makePeds_partition_witness :
  parentsOk demo /\
  exists r, makePeds demo noPeds = Some r /\
            traced r 6 = (-1)%Z /\
            indPed (peds r) 6 = 1%Z /\
            PedArray (peds r) 1 = {| nfam := 0; nind := 1; nfou := 1 |} /\
            map (indPed (peds r)) (seq 0 6) = [0; 0; 0; 0; 0; 0]%Z.
Proof.
  split; [exact demo_parentsOk|].
  destruct (makePeds_partition demo noPeds demo_parentsOk) as (r & Hr & _ & Hb).
  exists r. split; [exact Hr|].
  vm_compute in Hr. injection Hr as <-.
  repeat split; reflexivity.
Defined.

End Partition.

(** ** Loop analyzer: [checkLooping], [makeLinks], [findBreaks],
       [addLink], [rmLink] *)

Module Loops.

(** The fields the analyzer reads.  Families and individuals are indices
    into [FamArray] and [IndArray]; [ped_fams] is the chain
    [fam1, fam1->next, ...] of the pedigree under analysis. *)
Record Pedigree : Type := {
  NumInd : nat;
  NumFam : nat;
  IndSort : nat -> nat;
  ind_fam : nat -> option nat;     (* [Ind.fam] *)
  ind_seq : nat -> nat;            (* [Ind.seq], the rank in [IndSort] *)
  fam_fa : nat -> nat;             (* [Fam.fa] *)
  fam_mo : nat -> nat;             (* [Fam.mo] *)
  fam_nkid : nat -> nat;           (* [Fam.nkid] *)
  fam_seq : nat -> nat;            (* [Fam.seq], unique within a pedigree *)
  ped_fams : list nat;
  ped_nind : nat;                  (* [Ped.nind] *)
  ped_nfam : nat                   (* [Ped.nfam] *)
}.

(** A [Link] record: the connecting individual and the other family. *)
Definition Link : Type := (nat * nat)%type.
Definition l_ind (k : Link) : nat := fst k.
Definition l_fam (k : Link) : nat := snd k.

Record LinkState : Type := {
  linkList : nat -> list Link;
  nlink : nat -> Z;
  linkInd : nat -> Z
}.

(** [linkp->ind == ind] for some record of the chain. *)
Definition hasInd (ind : nat) (l : list Link) : bool :=
  existsb (fun k => Nat.eqb (l_ind k) ind) l.

Definition addLink (s : LinkState) (fam1 fam2 ind : nat) : LinkState :=
  let found := hasInd ind (linkList s fam1) in
  {| linkList := upd (linkList s) fam1 (linkList s fam1 ++ [(ind, fam2)]);
     nlink := if found then nlink s
              else upd (nlink s) fam1 (nlink s fam1 + 1)%Z;
     linkInd := upd (linkInd s) ind (linkInd s ind + 1)%Z |}.

(** The first record of the chain that leads to [fam2], unlinked: its
    individual and the chain without it. *)
Fixpoint unlinkFirst (fam2 : nat) (l : list Link) : option (nat * list Link) :=
  match l with
  | [] => None
  | k :: rest =>
      if Nat.eqb (l_fam k) fam2 then Some (l_ind k, rest)
      else match unlinkFirst fam2 rest with
           | Some (ind, rest') => Some (ind, k :: rest')
           | None => None
           end
  end.

Definition rmLink (s : LinkState) (fam1 fam2 : nat) : LinkState :=
  if Z.eqb (nlink s fam1) 0 then s
  else
    match unlinkFirst fam2 (linkList s fam1) with
    | None => s
    | Some (ind, rest) =>
        let linkInd' := upd (linkInd s) ind (linkInd s ind - 1)%Z in
        if hasInd ind rest
        then {| linkList := upd (linkList s) fam1 rest;
                nlink := nlink s;
                linkInd := linkInd' |}
        else
          let n := (nlink s fam1 - 1)%Z in
          {| linkList := upd (linkList s) fam1 (if Z.eqb n 0 then [] else rest);
             nlink := upd (nlink s) fam1 n;
             linkInd := linkInd' |}
    end.

(** Two calls of [addLink], one in each direction. *)
Definition addBoth (s : LinkState) (fam1 fam2 ind : nat) : LinkState :=
  addLink (addLink s fam1 fam2 ind) fam2 fam1 ind.

(** The body of the inner [while (famp2 != famp)] of [makeLinks]. *)
Definition linkSibFam (P : Pedigree) (famp : nat) (s : LinkState) (famp2 : nat)
  : LinkState :=
  let s := if Nat.eqb (fam_fa P famp2) (fam_fa P famp)
           then addBoth s (fam_seq P famp) (fam_seq P famp2)
                        (ind_seq P (fam_fa P famp2))
           else s in
  if Nat.eqb (fam_mo P famp2) (fam_mo P famp)
  then addBoth s (fam_seq P famp) (fam_seq P famp2) (ind_seq P (fam_mo P famp2))
  else s.

(** The body of the outer [while (famp)]; [before] is the part of the
    chain ahead of [famp]. *)
Definition linkFam (P : Pedigree) (s : LinkState) (before : list nat) (famp : nat)
  : LinkState :=
  let s := match ind_fam P (fam_fa P famp) with
           | Some g => addBoth s (fam_seq P famp) (fam_seq P g)
                               (ind_seq P (fam_fa P famp))
           | None => s
           end in
  let s := match ind_fam P (fam_mo P famp) with
           | Some g => addBoth s (fam_seq P famp) (fam_seq P g)
                               (ind_seq P (fam_mo P famp))
           | None => s
           end in
  fold_left (linkSibFam P famp) before s.

Fixpoint linkFams (P : Pedigree) (s : LinkState) (before rest : list nat)
  : LinkState :=
  match rest with
  | [] => s
  | famp :: rest' => linkFams P (linkFam P s before famp) (before ++ [famp]) rest'
  end.

Definition noLinks : LinkState :=
  {| linkList := fun _ => []; nlink := fun _ => 0%Z; linkInd := fun _ => 0%Z |}.

Definition buildLinks (P : Pedigree) : LinkState :=
  linkFams P noLinks [] (ped_fams P).

(** Lines 1947-1958: family [i] has one link left and is taken out. *)
Definition pruneFam (P : Pedigree) (s : LinkState) (i : nat) : LinkState :=
  let s := fold_left (fun s j => rmLink s j i) (seq 0 (NumFam P)) s in
  let linkInd' := fold_left (fun li k => upd li (l_ind k) (li (l_ind k) - 1)%Z)
                            (linkList s i) (linkInd s) in
  {| linkList := upd (linkList s) i [];
     nlink := upd (nlink s) i 0%Z;
     linkInd := linkInd' |}.

Definition pruneStep (P : Pedigree) (acc : LinkState * bool) (i : nat)
  : LinkState * bool :=
  if Z.eqb (nlink (fst acc) i) 1 then (pruneFam P (fst acc) i, false) else acc.

Definition prunePass (P : Pedigree) (s : LinkState) : LinkState * bool :=
  fold_left (pruneStep P) (seq 0 (NumFam P)) (s, true).

(** [do { ... } while (!done)] *)
Fixpoint pruneLoop (fuel : nat) (P : Pedigree) (s : LinkState) : option LinkState :=
  match fuel with
  | O => None
  | S fuel' =>
      let (s', done) := prunePass P s in
      if done then Some s' else pruneLoop fuel' P s'
  end.

Definition makeLinks (fuel : nat) (P : Pedigree) : option LinkState :=
  pruneLoop fuel P (buildLinks P).

(** The two counting loops of [findBreaks]. *)
Definition countArcs (P : Pedigree) (s : LinkState) : Z :=
  fold_left (fun n i => if Z.eqb (nlink s i) 0 then n else (n + nlink s i)%Z)
            (seq 0 (NumFam P)) 0%Z.

Definition countNodes (P : Pedigree) (s : LinkState) : Z :=
  let nodes := fold_left (fun n i => if Z.eqb (nlink s i) 0 then n else (n + 1)%Z)
                         (seq 0 (NumFam P)) 0%Z in
  fold_left (fun n i => if Z.eqb (linkInd s i) 0 then n else (n + 1)%Z)
            (seq 0 (NumInd P)) nodes.

(** [findBreaks]: the local [nlbrk] is assigned only if
    [narcs >= nodes]; [junk] is what it holds otherwise.  The string
    [lbrkId] the function also fills is not used by its caller. *)
Definition findBreaks (P : Pedigree) (s : LinkState) (junk : Z) : Z :=
  let narcs := countArcs P s in
  let nodes := countNodes P s in
  if (narcs >=? nodes)%Z then (narcs - nodes + 1)%Z else junk.

(** The arcs of the first test: children plus two, over the chain. *)
Definition pedArcs (P : Pedigree) : nat :=
  fold_left (fun n famp => n + (fam_nkid P famp + 2)) (ped_fams P) 0.

Record PedResult : Type := {
  hasloops : bool;
  nlbrk : Z;
  lbrkind : option nat
}.

(** The search for the loop-breaker when one is required. *)
Definition findBreaker (P : Pedigree) (s : LinkState) : option nat :=
  match find (fun j =>
                negb (Z.eqb (linkInd s j) 0) &&
                match ind_fam P (IndSort P j) with
                | Some g => negb (Z.eqb (nlink s (fam_seq P g)) 0)
                | None => false
                end) (seq 0 (NumInd P)) with
  | Some j => Some (IndSort P j)
  | None => None
  end.

(** The body of the loop of [checkLooping] for one pedigree. *)
Definition checkLooping (fuel : nat) (P : Pedigree) (junk : Z) : option PedResult :=
  if pedArcs P <? ped_nind P + ped_nfam P
  then Some {| hasloops := false; nlbrk := 0%Z; lbrkind := None |}
  else
    match makeLinks fuel P with
    | None => None
    | Some s =>
        let n := findBreaks P s junk in
        Some {| hasloops := true; nlbrk := n;
                lbrkind := if Z.eqb n 1 then findBreaker P s else None |}
    end.

(** ** Proofs: [nlink] counts the distinct connecting individuals *)

Definition inds (l : list Link) : list nat := map l_ind l.

Definition distinct (l : list Link) : nat :=
  List.length (nodup Nat.eq_dec (inds l)).

Lemma hasInd_true (x : nat) (l : list Link) :
  hasInd x l = true <-> In x (inds l).
Proof.
  unfold hasInd, inds. rewrite existsb_exists, in_map_iff. split.
  - intros (k & Hk & E). apply Nat.eqb_eq in E. exists k. auto.
  - intros (k & E & Hk). exists k. split; [exact Hk | now apply Nat.eqb_eq].
Qed.

Lemma hasInd_false (x : nat) (l : list Link) :
  hasInd x l = false <-> ~ In x (inds l).
Proof.
  rewrite <- hasInd_true. destruct (hasInd x l); split; congruence.
Qed.

Lemma nodup_length_ext (l l' : list nat) :
  (forall y, In y l <-> In y l') ->
  List.length (nodup Nat.eq_dec l) = List.length (nodup Nat.eq_dec l').
Proof.
  intros H. apply Permutation_length. apply NoDup_Permutation.
  - apply NoDup_nodup.
  - apply NoDup_nodup.
  - intros y. rewrite !nodup_In. apply H.
Qed.

Lemma nodup_length_cons (x : nat) (l : list nat) :
  List.length (nodup Nat.eq_dec (x :: l))
  = if in_dec Nat.eq_dec x l then List.length (nodup Nat.eq_dec l)
    else S (List.length (nodup Nat.eq_dec l)).
Proof. simpl. destruct (in_dec Nat.eq_dec x l); reflexivity. Qed.

Lemma distinct_insert (pre post : list Link) (k : Link) :
  distinct (pre ++ k :: post)
  = if hasInd (l_ind k) (pre ++ post) then distinct (pre ++ post)
    else S (distinct (pre ++ post)).
Proof.
  unfold distinct.
  rewrite (nodup_length_ext (inds (pre ++ k :: post))
                            (l_ind k :: inds (pre ++ post))).
  - rewrite nodup_length_cons.
    destruct (in_dec Nat.eq_dec (l_ind k) (inds (pre ++ post))) as [Hin|Hnin].
    + apply hasInd_true in Hin. now rewrite Hin.
    + apply hasInd_false in Hnin. now rewrite Hnin.
  - intros y. unfold inds. rewrite !map_app. simpl.
    rewrite !in_app_iff. simpl. rewrite ?in_app_iff. tauto.
Qed.

Lemma distinct_snoc (l : list Link) (k : Link) :
  distinct (l ++ [k])
  = if hasInd (l_ind k) l then distinct l else S (distinct l).
Proof.
  rewrite (distinct_insert l [] k). now rewrite app_nil_r.
Qed.

Lemma distinct_zero (l : list Link) : distinct l = 0 -> l = [].
Proof.
  destruct l as [|k l]; [reflexivity|]. intros H. exfalso.
  change (k :: l) with ([] ++ k :: l) in H.
  rewrite (distinct_insert [] l k) in H. simpl in H.
  destruct (hasInd (l_ind k) l) eqn:E; [|discriminate].
  apply hasInd_true in E. unfold distinct in H.
  apply length_zero_iff_nil in H.
  apply (nodup_In Nat.eq_dec) in E. rewrite H in E. exact E.
Qed.

Lemma unlinkFirst_some (fam2 : nat) (l : list Link) (x : nat) (rest : list Link) :
  unlinkFirst fam2 l = Some (x, rest) ->
  exists pre post,
    l = pre ++ (x, fam2) :: post /\ rest = pre ++ post /\
    forall k, In k pre -> l_fam k <> fam2.
Proof.
  revert x rest. induction l as [|k l IH]; intros x rest H; simpl in H.
  - discriminate.
  - destruct (Nat.eqb_spec (l_fam k) fam2) as [E|E].
    + injection H as <- <-. exists [], l. destruct k as [ki kf]. simpl in *.
      subst. repeat split. intros k [].
    + destruct (unlinkFirst fam2 l) as [[x' rest']|] eqn:U; [|discriminate].
      injection H as <- <-.
      destruct (IH x' rest' eq_refl) as (pre & post & E1 & E2 & E3).
      exists (k :: pre), post. subst. repeat split.
      intros k' [<-|Hk']; auto.
Qed.

Lemma unlinkFirst_none (fam2 : nat) (l : list Link) :
  unlinkFirst fam2 l = None -> forall k, In k l -> l_fam k <> fam2.
Proof.
  induction l as [|k l IH]; intros H k' Hk'; simpl in *; [contradiction|].
  destruct (Nat.eqb_spec (l_fam k) fam2) as [E|E]; [discriminate|].
  destruct (unlinkFirst fam2 l) as [[x' rest']|] eqn:U; [discriminate|].
  destruct Hk' as [<-|Hk']; auto.
Qed.

(** [nlink[f]] is the number of distinct individuals in the chain of [f]. *)
Definition countsDistinct (s : LinkState) : Prop :=
  forall f, nlink s f = Z.of_nat (distinct (linkList s f)).

Lemma addLink_nlink (s : LinkState) (fam1 fam2 ind : nat) :
  nlink (addLink s fam1 fam2 ind) fam1
  = (nlink s fam1 + (if hasInd ind (linkList s fam1) then 0 else 1))%Z /\
  forall f, f <> fam1 -> nlink (addLink s fam1 fam2 ind) f = nlink s f.
Proof.
  unfold addLink; simpl. destruct (hasInd ind (linkList s fam1)).
  - split; [lia | reflexivity].
  - rewrite upd_same. split; [reflexivity|]. intros f Hf. now rewrite upd_other.
Qed.

Lemma addLink_list (s : LinkState) (fam1 fam2 ind f : nat) :
  linkList (addLink s fam1 fam2 ind) f
  = upd (linkList s) fam1 (linkList s fam1 ++ [(ind, fam2)]) f.
Proof. reflexivity. Qed.

Lemma addLink_counts (s : LinkState) (fam1 fam2 ind : nat) :
  countsDistinct s -> countsDistinct (addLink s fam1 fam2 ind).
Proof.
  intros H f. destruct (addLink_nlink s fam1 fam2 ind) as [H1 H2].
  rewrite addLink_list. unfold upd.
  destruct (Nat.eqb_spec f fam1) as [->|Hne].
  - rewrite H1, distinct_snoc, H. simpl.
    destruct (hasInd ind (linkList s fam1)); lia.
  - rewrite H2 by assumption. apply H.
Qed.

(** What [rmLink] does to the chains, given the invariant. *)
Definition without (fam2 : nat) (l : list Link) : list Link :=
  match unlinkFirst fam2 l with
  | Some (_, rest) => rest
  | None => l
  end.

Lemma rmLink_spec (s : LinkState) (fam1 fam2 : nat) :
  countsDistinct s ->
  countsDistinct (rmLink s fam1 fam2) /\
  (forall f, linkList (rmLink s fam1 fam2) f
             = upd (linkList s) fam1 (without fam2 (linkList s fam1)) f) /\
  linkInd (rmLink s fam1 fam2)
    = match unlinkFirst fam2 (linkList s fam1) with
      | Some (x, _) => upd (linkInd s) x (linkInd s x - 1)%Z
      | None => linkInd s
      end.
Proof.
  intros H. unfold rmLink, without.
  assert (Hsame : forall f, linkList s f = upd (linkList s) fam1 (linkList s fam1) f).
  { intros k. unfold upd. destruct (Nat.eqb_spec k fam1); congruence. }
  destruct (Z.eqb_spec (nlink s fam1) 0) as [Hz|Hnz].
  - assert (Hnil : linkList s fam1 = []).
    { apply distinct_zero. rewrite H in Hz. lia. }
    rewrite Hnil. simpl. rewrite <- Hnil. auto.
  - destruct (unlinkFirst fam2 (linkList s fam1)) as [[x rest]|] eqn:U.
    2:{ auto. }
    destruct (unlinkFirst_some _ _ _ _ U) as (pre & post & E1 & E2 & _).
    assert (Hd : distinct (linkList s fam1)
                 = if hasInd x rest then distinct rest else S (distinct rest)).
    { rewrite E1, E2. exact (distinct_insert pre post (x, fam2)). }
    destruct (hasInd x rest) eqn:Hx.
    + split; [|split; reflexivity].
      intros f. simpl. unfold upd. destruct (Nat.eqb_spec f fam1) as [->|].
      * rewrite H, Hd. reflexivity.
      * apply H.
    + assert (Hn : (nlink s fam1 - 1)%Z = Z.of_nat (distinct rest)).
      { rewrite H, Hd. lia. }
      assert (Hrest : (if Z.eqb (nlink s fam1 - 1) 0 then [] else rest) = rest).
      { destruct (Z.eqb_spec (nlink s fam1 - 1) 0) as [E|]; [|reflexivity].
        symmetry. apply distinct_zero. lia. }
      rewrite Hrest. split; [|split; reflexivity].
      intros f. simpl. unfold upd. destruct (Nat.eqb_spec f fam1) as [->|].
      * exact Hn.
      * apply H.
Qed.

Lemma countsDistinct_noLinks : countsDistinct noLinks.
Proof. intros f. reflexivity. Qed.

Lemma addBoth_counts (s : LinkState) (a b x : nat) :
  countsDistinct s -> countsDistinct (addBoth s a b x).
Proof. intros H. unfold addBoth. now do 2 apply addLink_counts. Qed.

Lemma linkSibFam_counts (P : Pedigree) (famp : nat) (s : LinkState) (famp2 : nat) :
  countsDistinct s -> countsDistinct (linkSibFam P famp s famp2).
Proof.
  intros H. unfold linkSibFam.
  destruct (Nat.eqb (fam_fa P famp2) (fam_fa P famp));
    destruct (Nat.eqb (fam_mo P famp2) (fam_mo P famp));
    repeat apply addBoth_counts; exact H.
Qed.

Lemma linkFam_counts (P : Pedigree) (s : LinkState) (before : list nat) (famp : nat) :
  countsDistinct s -> countsDistinct (linkFam P s before famp).
Proof.
  intros H. unfold linkFam.
  set (s1 := match ind_fam P (fam_fa P famp) with
             | Some g => _ | None => s end).
  assert (H1 : countsDistinct s1).
  { unfold s1. destruct (ind_fam P (fam_fa P famp)); [now apply addBoth_counts | exact H]. }
  set (s2 := match ind_fam P (fam_mo P famp) with
             | Some g => _ | None => s1 end).
  assert (H2 : countsDistinct s2).
  { unfold s2. destruct (ind_fam P (fam_mo P famp)); [now apply addBoth_counts | exact H1]. }
  clearbody s2. clear - H2. revert s2 H2.
  induction before as [|f2 l IH]; intros s2 H2; simpl; [exact H2|].
  apply IH. now apply linkSibFam_counts.
Qed.

Lemma linkFams_counts (P : Pedigree) (s : LinkState) (before rest : list nat) :
  countsDistinct s -> countsDistinct (linkFams P s before rest).
Proof.
  revert s before. induction rest as [|f rest IH]; intros s before H; simpl.
  - exact H.
  - apply IH. now apply linkFam_counts.
Qed.

Lemma buildLinks_counts (P : Pedigree) : countsDistinct (buildLinks P).
Proof. apply linkFams_counts, countsDistinct_noLinks. Qed.

(** [rmLink] only shortens chains. *)
Lemma without_incl (fam2 : nat) (l : list Link) : incl (without fam2 l) l.
Proof.
  unfold without. destruct (unlinkFirst fam2 l) as [[x rest]|] eqn:U.
  - destruct (unlinkFirst_some _ _ _ _ U) as (pre & post & E1 & E2 & _).
    subst. intros k Hk. apply in_app_iff in Hk. apply in_app_iff.
    simpl. tauto.
  - apply incl_refl.
Qed.

Lemma distinct_incl (l l' : list Link) : incl l l' -> distinct l <= distinct l'.
Proof.
  intros H. unfold distinct. apply NoDup_incl_length.
  - apply NoDup_nodup.
  - intros y Hy. apply nodup_In in Hy. apply nodup_In.
    unfold inds in *. apply in_map_iff in Hy. destruct Hy as (k & <- & Hk).
    apply in_map. now apply H.
Qed.

Lemma rmLinks_spec (s : LinkState) (i : nat) (js : list nat) :
  countsDistinct s ->
  countsDistinct (fold_left (fun s j => rmLink s j i) js s) /\
  forall f, incl (linkList (fold_left (fun s j => rmLink s j i) js s) f)
                 (linkList s f).
Proof.
  revert s. induction js as [|j js IH]; intros s H; simpl.
  - split; [exact H | intros f; apply incl_refl].
  - destruct (rmLink_spec s j i H) as (H1 & H2 & _).
    destruct (IH _ H1) as [H3 H4]. split; [exact H3|].
    intros f. eapply incl_tran; [apply H4|].
    rewrite H2. unfold upd. destruct (Nat.eqb_spec f j) as [->|].
    + apply without_incl.
    + apply incl_refl.
Qed.

Lemma pruneFam_counts (P : Pedigree) (s : LinkState) (i : nat) :
  countsDistinct s ->
  countsDistinct (pruneFam P s i) /\
  linkList (pruneFam P s i) i = [] /\
  forall f, incl (linkList (pruneFam P s i) f) (linkList s f).
Proof.
  intros H. unfold pruneFam.
  destruct (rmLinks_spec s i (seq 0 (NumFam P)) H) as [H1 H2].
  set (s1 := fold_left (fun s j => rmLink s j i) (seq 0 (NumFam P)) s) in *.
  split; [|split].
  - intros f. simpl. unfold upd. destruct (Nat.eqb_spec f i); [reflexivity | apply H1].
  - simpl. apply upd_same.
  - intros f. simpl. unfold upd. destruct (Nat.eqb_spec f i).
    + intros k [].
    + apply H2.
Qed.

Definition totalLinks (P : Pedigree) (s : LinkState) : nat :=
  sumTo (NumFam P) (fun f => distinct (linkList s f)).

Section Pruning.

Variable P : Pedigree.

(** [I] is any property of the link structure that holds with the
    counting invariant and survives the removal of a family with one
    link. *)
Variable I : LinkState -> Prop.
Hypothesis I_counts : forall s, I s -> countsDistinct s.
Hypothesis I_prune :
  forall s i, i < NumFam P -> I s -> nlink s i = 1%Z -> I (pruneFam P s i).

Definition passInv (s0 : LinkState) (m : nat) (acc : LinkState * bool) : Prop :=
  I (fst acc) /\
  (snd acc = true ->
     fst acc = s0 /\ forall i, i < m -> nlink s0 i <> 1%Z) /\
  (snd acc = false -> totalLinks P (fst acc) < totalLinks P s0) /\
  totalLinks P (fst acc) <= totalLinks P s0.

Lemma pruneFam_total (s : LinkState) (i : nat) :
  i < NumFam P -> countsDistinct s -> nlink s i = 1%Z ->
  totalLinks P (pruneFam P s i) < totalLinks P s.
Proof.
  intros Hi Hc Hn. destruct (pruneFam_counts P s i Hc) as (_ & Hnil & Hincl).
  unfold totalLinks. apply (sumTo_lt _ _ _ i Hi).
  - rewrite Hnil. rewrite Hc in Hn. simpl.
    change (distinct []) with 0. lia.
  - intros k _. apply distinct_incl, Hincl.
Qed.

Lemma pruneStep_inv (s0 : LinkState) (m : nat) (acc : LinkState * bool) :
  m < NumFam P -> passInv s0 m acc -> passInv s0 (S m) (pruneStep P acc m).
Proof.
  intros Hm (HI & Ht & Hf & Hle). unfold pruneStep.
  destruct (Z.eqb_spec (nlink (fst acc) m) 1) as [E|E].
  - pose proof (pruneFam_total (fst acc) m Hm (I_counts _ HI) E) as Hlt.
    split; [|split; [|split]]; simpl.
    + now apply I_prune.
    + discriminate.
    + intros _. lia.
    + lia.
  - split; [exact HI|]. split; [|split; [exact Hf | exact Hle]].
    intros Hd. destruct (Ht Hd) as [E0 Hall]. split; [exact E0|].
    intros i Hi. destruct (Nat.eq_dec i m) as [->|].
    + rewrite <- E0. exact E.
    + apply Hall. lia.
Qed.

Lemma prunePass_spec (s : LinkState) :
  I s -> passInv s (NumFam P) (prunePass P s).
Proof.
  intros HI. unfold prunePass.
  apply (fold_seq_invariant (pruneStep P) (passInv s)).
  - split; [exact HI|]. split; [|split]; simpl.
    + intros _. split; [reflexivity | intros i Hi; lia].
    + discriminate.
    + lia.
  - intros m acc Hm Hacc. now apply pruneStep_inv.
Qed.

Lemma pruneLoop_spec (fuel : nat) (s : LinkState) :
  I s -> totalLinks P s < fuel ->
  exists s', pruneLoop fuel P s = Some s' /\ I s' /\
             forall i, i < NumFam P -> nlink s' i <> 1%Z.
Proof.
  revert s. induction fuel as [|fuel IH]; intros s HI Hfuel; [lia|].
  simpl. destruct (prunePass_spec s HI) as (HI' & Ht & Hf & _).
  destruct (prunePass P s) as [s' done]. simpl in *.
  destruct done.
  - destruct (Ht eq_refl) as [-> Hall]. exists s. auto.
  - apply IH; [exact HI'|]. specialize (Hf eq_refl). lia.
Qed.

End Pruning.

(** C10 rests on this: whatever the pedigree, [makeLinks] returns and
    leaves [nlink[f]] equal to the number of distinct individuals in the
    chain of [f]. *)
Lemma makeLinks_counts (P : Pedigree) (fuel : nat) :
  totalLinks P (buildLinks P) < fuel ->
  exists s, makeLinks fuel P = Some s /\ countsDistinct s /\
            forall i, i < NumFam P -> nlink s i <> 1%Z.
Proof.
  intros Hfuel. unfold makeLinks.
  apply (pruneLoop_spec P countsDistinct); auto.
  - intros s i _ H _. now apply pruneFam_counts.
  - apply buildLinks_counts.
Qed.

(** ** Proofs: [linkInd] counts the records through an individual *)

Definition occ (x : nat) (l : list Link) : nat := count_occ Nat.eq_dec (inds l) x.

Lemma occ_insert (x : nat) (pre post : list Link) (k : Link) :
  occ x (pre ++ k :: post)
  = occ x (pre ++ post) + (if Nat.eqb (l_ind k) x then 1 else 0).
Proof.
  unfold occ, inds. rewrite !map_app, !count_occ_app. simpl.
  destruct (Nat.eq_dec (l_ind k) x) as [E|E];
    destruct (Nat.eqb_spec (l_ind k) x); try contradiction; lia.
Qed.

Lemma occ_snoc (x : nat) (l : list Link) (k : Link) :
  occ x (l ++ [k]) = occ x l + (if Nat.eqb (l_ind k) x then 1 else 0).
Proof. rewrite (occ_insert x l [] k). now rewrite app_nil_r. Qed.

Lemma occ_pos (x : nat) (l : list Link) : 0 < occ x l <-> In x (inds l).
Proof. unfold occ. symmetry. apply count_occ_In. Qed.

Lemma sumTo_upd (n j : nat) (L : nat -> list Link) (l' : list Link)
      (h : list Link -> nat) :
  j < n ->
  sumTo n (fun f => h (upd L j l' f)) + h (L j) = sumTo n (fun f => h (L f)) + h l'.
Proof.
  induction n as [|n IH]; intros Hj; [lia|]. simpl.
  destruct (Nat.eq_dec j n) as [->|Hne].
  - rewrite upd_same.
    assert (E : sumTo n (fun f => h (upd L n l' f)) = sumTo n (fun f => h (L f))).
    { assert (H1 : sumTo n (fun f => h (upd L n l' f)) <= sumTo n (fun f => h (L f))).
      { apply sumTo_le. intros k Hk. rewrite upd_other by lia. lia. }
      assert (H2 : sumTo n (fun f => h (L f)) <= sumTo n (fun f => h (upd L n l' f))).
      { apply sumTo_le. intros k Hk. rewrite upd_other by lia. lia. }
      lia. }
    lia.
  - rewrite (upd_other L j n) by lia. specialize (IH ltac:(lia)). lia.
Qed.

Definition totalOcc (P : Pedigree) (s : LinkState) (x : nat) : nat :=
  sumTo (NumFam P) (fun f => occ x (linkList s f)).

(** [linkInd[x]] is the number of records, over all chains, whose
    individual is [x]. *)
Definition countsRecords (P : Pedigree) (s : LinkState) : Prop :=
  forall x, linkInd s x = Z.of_nat (totalOcc P s x).

Lemma addLink_records (P : Pedigree) (s : LinkState) (a b x : nat) :
  a < NumFam P -> countsRecords P s -> countsRecords P (addLink s a b x).
Proof.
  intros Ha H y. unfold totalOcc.
  pose proof (sumTo_upd (NumFam P) a (linkList s) (linkList s a ++ [(x, b)])
                (occ y) Ha) as Hs.
  rewrite occ_snoc in Hs. simpl in Hs.
  assert (E : sumTo (NumFam P) (fun f => occ y (linkList (addLink s a b x) f))
            = sumTo (NumFam P)
                (fun f => occ y (upd (linkList s) a (linkList s a ++ [(x, b)]) f)))
    by reflexivity.
  rewrite E. simpl. unfold upd at 1.
  specialize (H y). unfold totalOcc in H.
  destruct (Nat.eqb_spec y x) as [->|Hne].
  - rewrite Nat.eqb_refl in Hs. lia.
  - destruct (Nat.eqb_spec x y); [congruence|]. lia.
Qed.

Lemma rmLink_records (P : Pedigree) (s : LinkState) (j i : nat) :
  j < NumFam P -> countsDistinct s -> countsRecords P s ->
  countsRecords P (rmLink s j i).
Proof.
  intros Hj HA HB y.
  destruct (rmLink_spec s j i HA) as (_ & HL & HI).
  rewrite HI. unfold totalOcc.
  rewrite (sumTo_ext _ _ (fun f => occ y (upd (linkList s) j
                                     (without i (linkList s j)) f)))
    by (intros k _; now rewrite HL).
  pose proof (sumTo_upd (NumFam P) j (linkList s) (without i (linkList s j))
                (occ y) Hj) as Hs.
  specialize (HB y). unfold totalOcc in HB.
  unfold without in *.
  destruct (unlinkFirst i (linkList s j)) as [[x rest]|] eqn:U.
  - destruct (unlinkFirst_some _ _ _ _ U) as (pre & post & E1 & E2 & _).
    assert (Ho : occ y (linkList s j)
                 = occ y rest + (if Nat.eqb x y then 1 else 0)).
    { rewrite E1, E2. exact (occ_insert y pre post (x, i)). }
    unfold upd at 1. destruct (Nat.eqb_spec y x) as [->|Hne].
    + rewrite Nat.eqb_refl in Ho. lia.
    + destruct (Nat.eqb_spec x y); [congruence|]. lia.
  - lia.
Qed.

Lemma dropInds_spec (l : list Link) (li : nat -> Z) (y : nat) :
  fold_left (fun li k => upd li (l_ind k) (li (l_ind k) - 1)%Z) l li y
  = (li y - Z.of_nat (occ y l))%Z.
Proof.
  revert li. induction l as [|k l IH]; intros li; simpl.
  - unfold occ. simpl. lia.
  - rewrite IH. change (k :: l) with ([] ++ k :: l).
    rewrite occ_insert. simpl app. unfold upd.
    destruct (Nat.eqb_spec y (l_ind k)) as [->|Hne].
    + rewrite Nat.eqb_refl. lia.
    + destruct (Nat.eqb_spec (l_ind k) y); [congruence|]. lia.
Qed.

(** The chains after the inner [for (j ...)] of the pruning step. *)
Lemma rmLinks_lists (P : Pedigree) (s : LinkState) (i : nat) :
  countsDistinct s -> countsRecords P s ->
  let s1 := fold_left (fun s j => rmLink s j i) (seq 0 (NumFam P)) s in
  countsDistinct s1 /\ countsRecords P s1 /\
  forall f, linkList s1 f
            = if f <? NumFam P then without i (linkList s f) else linkList s f.
Proof.
  intros HA HB.
  apply (fold_seq_invariant (fun s j => rmLink s j i)
           (fun m s1 => countsDistinct s1 /\ countsRecords P s1 /\
                        forall f, linkList s1 f
                                  = if f <? m then without i (linkList s f)
                                    else linkList s f)).
  - split; [exact HA|]. split; [exact HB|]. intros f. reflexivity.
  - intros m s1 Hm (HA1 & HB1 & HL1).
    destruct (rmLink_spec s1 m i HA1) as (HA2 & HL2 & _).
    split; [exact HA2|]. split; [now apply rmLink_records|].
    intros f. rewrite HL2. unfold upd.
    destruct (Nat.eqb_spec f m) as [->|Hne].
    + rewrite HL1. destruct (Nat.ltb_spec m m); [lia|].
      destruct (Nat.ltb_spec m (S m)); [reflexivity | lia].
    + rewrite HL1. destruct (Nat.ltb_spec f m); destruct (Nat.ltb_spec f (S m));
        try reflexivity; lia.
Qed.

Lemma pruneFam_lists (P : Pedigree) (s : LinkState) (i : nat) :
  i < NumFam P -> countsDistinct s -> countsRecords P s ->
  countsRecords P (pruneFam P s i) /\
  forall f, linkList (pruneFam P s i) f
            = if Nat.eqb f i then []
              else if f <? NumFam P then without i (linkList s f)
                   else linkList s f.
Proof.
  intros Hi HA HB.
  destruct (rmLinks_lists P s i HA HB) as (HA1 & HB1 & HL1).
  unfold pruneFam.
  set (s1 := fold_left (fun s j => rmLink s j i) (seq 0 (NumFam P)) s) in *.
  split.
  - intros y. simpl. rewrite dropInds_spec. unfold totalOcc. simpl.
    pose proof (sumTo_upd (NumFam P) i (linkList s1) [] (occ y) Hi) as Hs.
    specialize (HB1 y). unfold totalOcc in HB1.
    change (occ y []) with 0 in Hs. lia.
  - intros f. simpl. unfold upd.
    destruct (Nat.eqb_spec f i); [reflexivity | apply HL1].
Qed.

(** ** Proofs: the link structure is a simple symmetric graph *)

Record shapeInv (P : Pedigree) (s : LinkState) : Prop := {
  sh_sym : forall c d x, In (x, d) (linkList s c) -> In (x, c) (linkList s d);
  sh_noself : forall c x, ~ In (x, c) (linkList s c);
  sh_nodup : forall c, NoDup (linkList s c);
  sh_bound : forall c d x, In (x, d) (linkList s c) ->
                           c < NumFam P /\ d < NumFam P /\ x < NumInd P
}.

Lemma without_keeps (fam2 : nat) (l : list Link) (k : Link) :
  In k l -> l_fam k <> fam2 -> In k (without fam2 l).
Proof.
  intros Hk Hne. unfold without.
  destruct (unlinkFirst fam2 l) as [[x rest]|] eqn:U; [|exact Hk].
  destruct (unlinkFirst_some _ _ _ _ U) as (pre & post & E1 & E2 & _).
  subst. apply in_app_iff in Hk. apply in_app_iff.
  destruct Hk as [Hk|[Hk|Hk]]; auto.
  subst k. simpl in Hne. contradiction.
Qed.

Lemma without_NoDup (fam2 : nat) (l : list Link) :
  NoDup l -> NoDup (without fam2 l).
Proof.
  intros H. unfold without.
  destruct (unlinkFirst fam2 l) as [[x rest]|] eqn:U; [|exact H].
  destruct (unlinkFirst_some _ _ _ _ U) as (pre & post & E1 & E2 & _).
  subst. now apply NoDup_remove_1 in H.
Qed.

Lemma without_no_target (fam2 : nat) (l : list Link) :
  NoDup l ->
  (forall x y, In (x, fam2) l -> In (y, fam2) l -> x = y) ->
  forall x, ~ In (x, fam2) (without fam2 l).
Proof.
  intros Hnd Huniq x Hin. unfold without in Hin.
  destruct (unlinkFirst fam2 l) as [[y rest]|] eqn:U.
  - destruct (unlinkFirst_some _ _ _ _ U) as (pre & post & E1 & E2 & _).
    subst. assert (x = y).
    { apply Huniq; apply in_app_iff.
      - apply in_app_iff in Hin. simpl. tauto.
      - right. left. reflexivity. }
    subst y. apply NoDup_remove_2 in Hnd. contradiction.
  - exact (unlinkFirst_none _ _ U _ Hin eq_refl).
Qed.

Lemma distinct_one (l : list Link) (x y : nat) :
  distinct l = 1 -> In x (inds l) -> In y (inds l) -> x = y.
Proof.
  unfold distinct. intros H Hx Hy.
  apply (nodup_In Nat.eq_dec) in Hx. apply (nodup_In Nat.eq_dec) in Hy.
  destruct (nodup Nat.eq_dec (inds l)) as [|z [|z' t]]; try discriminate.
  destruct Hx as [<-|[]]. destruct Hy as [<-|[]]. reflexivity.
Qed.

Lemma in_inds (x d : nat) (l : list Link) : In (x, d) l -> In x (inds l).
Proof. intros H. unfold inds. apply in_map_iff. exists (x, d). auto. Qed.

Lemma pruneFam_shape (P : Pedigree) (s : LinkState) (i : nat) :
  i < NumFam P -> countsDistinct s -> countsRecords P s -> shapeInv P s ->
  nlink s i = 1%Z ->
  shapeInv P (pruneFam P s i).
Proof.
  intros Hi HA HB [Hsym Hns Hnd Hbd] Hone.
  destruct (pruneFam_lists P s i Hi HA HB) as [_ HL].
  assert (Hincl : forall f k, In k (linkList (pruneFam P s i) f) ->
                              In k (linkList s f)).
  { intros f k. rewrite HL. destruct (Nat.eqb f i); [intros []|].
    destruct (f <? NumFam P); [apply without_incl | auto]. }
  assert (Hdi : distinct (linkList s i) = 1) by (rewrite HA in Hone; lia).
  constructor.
  - intros c d x Hin. pose proof (Hincl _ _ Hin) as Hin0.
    destruct (Hbd _ _ _ Hin0) as (Hc & Hd & _).
    rewrite HL in Hin. rewrite HL.
    destruct (Nat.eqb_spec c i) as [->|Hci]; [destruct Hin|].
    destruct (Nat.ltb_spec c (NumFam P)); [|lia].
    destruct (Nat.eqb_spec d i) as [->|Hdi'].
    + exfalso. revert Hin. apply without_no_target; [apply Hnd|].
      intros x1 x2 H1 H2. apply Hsym in H1. apply Hsym in H2.
      apply (distinct_one (linkList s i)); eauto using in_inds.
    + destruct (Nat.ltb_spec d (NumFam P)); [|lia].
      apply without_keeps; [now apply Hsym | simpl; lia].
  - intros c x Hin. exact (Hns c x (Hincl _ _ Hin)).
  - intros c. rewrite HL. destruct (Nat.eqb c i); [constructor|].
    destruct (c <? NumFam P); [apply without_NoDup|]; apply Hnd.
  - intros c d x Hin. exact (Hbd c d x (Hincl _ _ Hin)).
Qed.

Lemma addBoth_list (s : LinkState) (a b x f : nat) :
  a <> b ->
  linkList (addBoth s a b x) f
  = if Nat.eqb f a then linkList s a ++ [(x, b)]
    else if Nat.eqb f b then linkList s b ++ [(x, a)]
         else linkList s f.
Proof.
  intros Hab. unfold addBoth. rewrite addLink_list. unfold upd at 1.
  rewrite !addLink_list. unfold upd.
  destruct (Nat.eqb_spec f b) as [Efb|Hfb];
    destruct (Nat.eqb_spec f a) as [Efa|Hfa];
    destruct (Nat.eqb_spec b a) as [Eba|Hba];
    try congruence; try reflexivity.
Qed.

Lemma addBoth_shape (P : Pedigree) (s : LinkState) (a b x : nat) :
  shapeInv P s ->
  a <> b -> a < NumFam P -> b < NumFam P -> x < NumInd P ->
  ~ In (x, b) (linkList s a) ->
  shapeInv P (addBoth s a b x).
Proof.
  intros [Hsym Hns Hnd Hbd] Hab Ha Hb Hx Hnew.
  assert (Hnew' : ~ In (x, a) (linkList s b)) by (intros H; now apply Hsym in H).
  assert (Hin : forall c d y, In (y, d) (linkList (addBoth s a b x) c) <->
            In (y, d) (linkList s c) \/
            (y = x /\ ((c = a /\ d = b) \/ (c = b /\ d = a)))).
  { intros c d y. rewrite addBoth_list by assumption.
    destruct (Nat.eqb_spec c a) as [->|Hca].
    - rewrite in_app_iff. simpl. split.
      + intros [H|[H|[]]]; [auto|]. injection H as <- <-. auto.
      + intros [H|(-> & [[_ ->]|[-> ->]])]; auto.
    - destruct (Nat.eqb_spec c b) as [->|Hcb].
      + rewrite in_app_iff. simpl. split.
        * intros [H|[H|[]]]; [auto|]. injection H as <- <-. auto.
        * intros [H|(-> & [[-> _]|[_ ->]])]; auto; congruence.
      + split; [auto|]. intros [H|(_ & [[-> _]|[-> _]])]; congruence. }
  constructor.
  - intros c d y H. apply Hin in H. apply Hin.
    destruct H as [H|(-> & [[-> ->]|[-> ->]])]; auto.
  - intros c y H. apply Hin in H.
    destruct H as [H|(-> & [[-> ->]|[-> ->]])]; [exact (Hns c y H)| |]; congruence.
  - intros c. rewrite addBoth_list by assumption.
    destruct (Nat.eqb_spec c a) as [->|Hca].
    + apply NoDup_app; [apply Hnd | repeat constructor; intros [] |].
      intros k Hk [<-|[]]. contradiction.
    + destruct (Nat.eqb_spec c b) as [->|Hcb]; [|apply Hnd].
      apply NoDup_app; [apply Hnd | repeat constructor; intros [] |].
      intros k Hk [<-|[]]. contradiction.
  - intros c d y H. apply Hin in H.
    destruct H as [H|(-> & [[-> ->]|[-> ->]])]; [exact (Hbd c d y H)| |]; auto.
Qed.

Lemma addBoth_counters (P : Pedigree) (s : LinkState) (a b x : nat) :
  a < NumFam P -> b < NumFam P ->
  countsDistinct s -> countsRecords P s ->
  countsDistinct (addBoth s a b x) /\ countsRecords P (addBoth s a b x).
Proof.
  intros Ha Hb HA HB. split.
  - now apply addBoth_counts.
  - unfold addBoth. apply addLink_records; [exact Hb|].
    now apply addLink_records.
Qed.

(** The three invariants together. *)
Definition linkInv (P : Pedigree) (s : LinkState) : Prop :=
  countsDistinct s /\ countsRecords P s /\ shapeInv P s.

(** An edge: the two families and the connecting individual. *)
Definition Edge : Type := (nat * nat * nat)%type.

Definition addEdge (s : LinkState) (e : Edge) : LinkState :=
  let '(a, b, x) := e in addBoth s a b x.

(** The same edge up to the order of its families. *)
Definition norm (e : Edge) : Edge :=
  let '(a, b, x) := e in (Nat.min a b, Nat.max a b, x).

Definition goodEdge (P : Pedigree) (e : Edge) : Prop :=
  let '(a, b, x) := e in a <> b /\ a < NumFam P /\ b < NumFam P /\ x < NumInd P.

Lemma addEdges_inv (P : Pedigree) (es : list Edge) (s : LinkState) :
  linkInv P s ->
  Forall (goodEdge P) es ->
  NoDup (map norm es) ->
  (forall e c d x, In e es -> In (x, d) (linkList s c) -> norm (c, d, x) <> norm e) ->
  linkInv P (fold_left addEdge es s).
Proof.
  revert s. induction es as [|[[a b] x] es IH]; intros s Hinv Hgood Hnd Hfresh.
  - exact Hinv.
  - simpl. inversion Hgood as [|? ? Hg Hgood']; subst.
    simpl in Hg. destruct Hg as (Hab & Ha & Hb & Hx).
    inversion Hnd as [|? ? Hnotin Hnd']; subst.
    destruct Hinv as (HA & HB & HS).
    assert (Hnew : ~ In (x, b) (linkList s a)).
    { intros H. apply (Hfresh (a, b, x) a b x); [left|..]; auto. }
    apply IH; try assumption.
    + destruct (addBoth_counters P s a b x Ha Hb HA HB) as [HA' HB'].
      split; [exact HA'|]. split; [exact HB'|]. now apply addBoth_shape.
    + intros e c d y He Hin Heq.
      rewrite addBoth_list in Hin by assumption.
      assert (Hold : In (y, d) (linkList s c) -> False).
      { intros H. apply (Hfresh e c d y); [right|..]; auto. }
      assert (Hcase : In (y, d) (linkList s c) \/
                      norm (c, d, y) = norm (a, b, x)).
      { destruct (Nat.eqb_spec c a) as [->|Hca].
        - apply in_app_iff in Hin. destruct Hin as [H|[H|[]]]; [auto|].
          injection H as <- <-. auto.
        - destruct (Nat.eqb_spec c b) as [->|Hcb]; [|auto].
          apply in_app_iff in Hin. destruct Hin as [H|[H|[]]]; [auto|].
          injection H as <- <-. right. simpl. f_equal. f_equal; lia. }
      destruct Hcase as [H|H]; [auto|].
      apply Hnotin. change (In (norm (a, b, x)) (map norm es)).
      rewrite <- H, Heq. now apply in_map.
Qed.

(** ** Proofs: the links [makeLinks] adds, as a list of edges *)

Definition parentEdge (P : Pedigree) (famp p : nat) : list Edge :=
  match ind_fam P p with
  | Some g => [(fam_seq P famp, fam_seq P g, ind_seq P p)]
  | None => []
  end.

Definition sibEdges (P : Pedigree) (famp famp2 : nat) : list Edge :=
  (if Nat.eqb (fam_fa P famp2) (fam_fa P famp)
   then [(fam_seq P famp, fam_seq P famp2, ind_seq P (fam_fa P famp2))]
   else []) ++
  (if Nat.eqb (fam_mo P famp2) (fam_mo P famp)
   then [(fam_seq P famp, fam_seq P famp2, ind_seq P (fam_mo P famp2))]
   else []).

Definition famEdges (P : Pedigree) (before : list nat) (famp : nat) : list Edge :=
  parentEdge P famp (fam_fa P famp) ++
  parentEdge P famp (fam_mo P famp) ++
  flat_map (sibEdges P famp) before.

Fixpoint allEdges (P : Pedigree) (before rest : list nat) : list Edge :=
  match rest with
  | [] => []
  | famp :: rest' => famEdges P before famp ++ allEdges P (before ++ [famp]) rest'
  end.

Lemma linkSibFam_edges (P : Pedigree) (famp : nat) (s : LinkState) (famp2 : nat) :
  linkSibFam P famp s famp2 = fold_left addEdge (sibEdges P famp famp2) s.
Proof.
  unfold linkSibFam, sibEdges. rewrite fold_left_app.
  destruct (Nat.eqb (fam_fa P famp2) (fam_fa P famp));
    destruct (Nat.eqb (fam_mo P famp2) (fam_mo P famp)); reflexivity.
Qed.

Lemma linkFam_edges (P : Pedigree) (s : LinkState) (before : list nat) (famp : nat) :
  linkFam P s before famp = fold_left addEdge (famEdges P before famp) s.
Proof.
  unfold linkFam, famEdges, parentEdge. rewrite !fold_left_app.
  set (s1 := match ind_fam P (fam_fa P famp) with Some g => _ | None => s end).
  assert (E1 : fold_left addEdge
                 match ind_fam P (fam_fa P famp) with
                 | Some g => [(fam_seq P famp, fam_seq P g, ind_seq P (fam_fa P famp))]
                 | None => []
                 end s = s1).
  { unfold s1. destruct (ind_fam P (fam_fa P famp)); reflexivity. }
  rewrite E1.
  set (s2 := match ind_fam P (fam_mo P famp) with Some g => _ | None => s1 end).
  assert (E2 : fold_left addEdge
                 match ind_fam P (fam_mo P famp) with
                 | Some g => [(fam_seq P famp, fam_seq P g, ind_seq P (fam_mo P famp))]
                 | None => []
                 end s1 = s2).
  { unfold s2. destruct (ind_fam P (fam_mo P famp)); reflexivity. }
  rewrite E2. clearbody s2. clear. revert s2.
  induction before as [|f2 l IH]; intros s2; simpl; [reflexivity|].
  rewrite fold_left_app, <- linkSibFam_edges. apply IH.
Qed.

Lemma linkFams_edges (P : Pedigree) (s : LinkState) (before rest : list nat) :
  linkFams P s before rest = fold_left addEdge (allEdges P before rest) s.
Proof.
  revert s before. induction rest as [|f rest IH]; intros s before; simpl.
  - reflexivity.
  - rewrite fold_left_app, <- linkFam_edges. apply IH.
Qed.

(** What the earlier phases guarantee about the pedigree under analysis. *)
Definition inFams (P : Pedigree) (f : nat) : Prop := In f (ped_fams P).

Definition isParent (P : Pedigree) (p : nat) : Prop :=
  exists f, inFams P f /\ (fam_fa P f = p \/ fam_mo P f = p).

Record wellFormed (P : Pedigree) : Prop := {
  (* the chain holds each family once, and [seq] numbers them *)
  wf_chain : NoDup (ped_fams P);
  wf_seq_inj : forall f g, inFams P f -> inFams P g ->
                           fam_seq P f = fam_seq P g -> f = g;
  wf_seq_bound : forall f, inFams P f -> fam_seq P f < NumFam P;
  (* [seq] ranks the individuals *)
  wf_rank_inj : forall p q, isParent P p -> isParent P q ->
                            ind_seq P p = ind_seq P q -> p = q;
  wf_rank_bound : forall p, isParent P p -> ind_seq P p < NumInd P;
  (* father and mother differ (checked by [getPedData]) *)
  wf_couple : forall f, inFams P f -> fam_fa P f <> fam_mo P f;
  (* a parent's own family belongs to the same pedigree *)
  wf_birth : forall p g, isParent P p -> ind_fam P p = Some g -> inFams P g;
  (* nobody is a parent in the family he or she was born in *)
  wf_ancestor : forall p g, ind_fam P p = Some g ->
                            fam_fa P g <> p /\ fam_mo P g <> p
}.

Lemma norm_eq (a b x a' b' x' : nat) :
  norm (a, b, x) = norm (a', b', x') ->
  x = x' /\ ((a = a' /\ b = b') \/ (a = b' /\ b = a')).
Proof. simpl. intros H. injection H as H1 H2 H3. lia. Qed.

(** The two kinds of edge of a family [f]: to the family a parent [p]
    was born in, and to another family [f2] where [p] has the same role. *)
Definition parEdge (P : Pedigree) (f p g : nat) (e : Edge) : Prop :=
  inFams P f /\ (fam_fa P f = p \/ fam_mo P f = p) /\ ind_fam P p = Some g /\
  e = (fam_seq P f, fam_seq P g, ind_seq P p).

Definition sibEdge (P : Pedigree) (f p f2 : nat) (e : Edge) : Prop :=
  inFams P f /\ inFams P f2 /\
  ((fam_fa P f = p /\ fam_fa P f2 = p) \/ (fam_mo P f = p /\ fam_mo P f2 = p)) /\
  e = (fam_seq P f, fam_seq P f2, ind_seq P p).

Section Clash.

Variable P : Pedigree.
Hypothesis WF : wellFormed P.

Lemma parEdge_parent (f p g : nat) (e : Edge) :
  parEdge P f p g e -> isParent P p /\ inFams P g /\ f <> g.
Proof.
  intros (Hf & Hp & Hg & _).
  assert (Hpar : isParent P p) by (exists f; auto).
  split; [exact Hpar|]. split; [exact (wf_birth P WF p g Hpar Hg)|].
  intros <-. destruct (wf_ancestor P WF p f Hg). destruct Hp; contradiction.
Qed.

Lemma sibEdge_parent (f p f2 : nat) (e : Edge) :
  sibEdge P f p f2 e ->
  isParent P p /\
  (fam_fa P f = p \/ fam_mo P f = p) /\ (fam_fa P f2 = p \/ fam_mo P f2 = p).
Proof.
  intros (Hf & Hf2 & Hp & _). split; [exists f; tauto | tauto].
Qed.

Lemma clash_par_par (f p g f' p' g' : nat) (e e' : Edge) :
  parEdge P f p g e -> parEdge P f' p' g' e' -> norm e = norm e' ->
  p = p' /\ f = f'.
Proof.
  intros H H' Hn.
  destruct (parEdge_parent _ _ _ _ H) as (Hp & Hg & Hfg).
  destruct (parEdge_parent _ _ _ _ H') as (Hp' & Hg' & Hfg').
  destruct H as (Hf & Hr & Hb & ->). destruct H' as (Hf' & Hr' & Hb' & ->).
  apply norm_eq in Hn. destruct Hn as [Hx Hfam].
  assert (p = p') by (apply (wf_rank_inj P WF); assumption). subst p'.
  split; [reflexivity|].
  assert (g = g') by congruence. subst g'.
  destruct Hfam as [[H1 _]|[H1 H2]].
  - now apply (wf_seq_inj P WF).
  - exfalso. apply Hfg. now apply (wf_seq_inj P WF).
Qed.

Lemma clash_par_sib (f p g f' p' f2' : nat) (e e' : Edge) :
  parEdge P f p g e -> sibEdge P f' p' f2' e' -> norm e = norm e' -> False.
Proof.
  intros H H' Hn.
  destruct (parEdge_parent _ _ _ _ H) as (Hp & Hg & Hfg).
  destruct (sibEdge_parent _ _ _ _ H') as (Hp' & Hr1 & Hr2).
  destruct H as (Hf & Hr & Hb & ->). destruct H' as (Hf' & Hf2' & _ & ->).
  apply norm_eq in Hn. destruct Hn as [Hx Hfam].
  assert (p = p') by (apply (wf_rank_inj P WF); assumption). subst p'.
  destruct (wf_ancestor P WF p g Hb) as [Ha1 Ha2].
  assert (Hg' : g = f' \/ g = f2').
  { destruct Hfam as [[_ H2]|[_ H2]]; [right | left];
      now apply (wf_seq_inj P WF). }
  destruct Hg' as [->| ->]; tauto.
Qed.

Lemma clash_sib_sib (f p f2 f' p' f2' : nat) (e e' : Edge) :
  sibEdge P f p f2 e -> sibEdge P f' p' f2' e' -> norm e = norm e' ->
  p = p' /\ ((f = f' /\ f2 = f2') \/ (f = f2' /\ f2 = f')).
Proof.
  intros H H' Hn.
  destruct (sibEdge_parent _ _ _ _ H) as (Hp & _).
  destruct (sibEdge_parent _ _ _ _ H') as (Hp' & _).
  destruct H as (Hf & Hf2 & _ & ->). destruct H' as (Hf' & Hf2' & _ & ->).
  apply norm_eq in Hn. destruct Hn as [Hx Hfam].
  split; [apply (wf_rank_inj P WF); assumption|].
  destruct Hfam as [[H1 H2]|[H1 H2]]; [left | right];
    split; now apply (wf_seq_inj P WF).
Qed.

(** An edge of the family [f] with the families of [b] ahead of it. *)
Definition famEdge (b : list nat) (f : nat) (e : Edge) : Prop :=
  (exists p g, parEdge P f p g e) \/
  (exists p f2, In f2 b /\ sibEdge P f p f2 e).

Lemma sibEdges_in (f f2 : nat) (e : Edge) :
  inFams P f -> inFams P f2 ->
  In e (sibEdges P f f2) ->
  (fam_fa P f2 = fam_fa P f /\ sibEdge P f (fam_fa P f) f2 e) \/
  (fam_mo P f2 = fam_mo P f /\ sibEdge P f (fam_mo P f) f2 e).
Proof.
  intros Hf Hf2 Hin. unfold sibEdges in Hin. apply in_app_iff in Hin.
  destruct Hin as [Hin|Hin].
  - destruct (Nat.eqb_spec (fam_fa P f2) (fam_fa P f)) as [E|]; [|destruct Hin].
    destruct Hin as [<-|[]]. left. split; [exact E|].
    unfold sibEdge. rewrite E. auto 7.
  - destruct (Nat.eqb_spec (fam_mo P f2) (fam_mo P f)) as [E|]; [|destruct Hin].
    destruct Hin as [<-|[]]. right. split; [exact E|].
    unfold sibEdge. rewrite E. auto 7.
Qed.

Lemma parentEdge_in (f p : nat) (e : Edge) :
  inFams P f -> fam_fa P f = p \/ fam_mo P f = p ->
  In e (parentEdge P f p) -> exists g, parEdge P f p g e.
Proof.
  intros Hf Hp Hin. unfold parentEdge in Hin.
  destruct (ind_fam P p) as [g|] eqn:Hg; [|destruct Hin].
  destruct Hin as [<-|[]]. exists g. unfold parEdge. auto.
Qed.

Lemma famEdges_in (b : list nat) (f : nat) (e : Edge) :
  inFams P f -> (forall f2, In f2 b -> inFams P f2) ->
  In e (famEdges P b f) -> famEdge b f e.
Proof.
  intros Hf Hb Hin. unfold famEdges in Hin.
  apply in_app_iff in Hin. destruct Hin as [Hin|Hin].
  { left. exists (fam_fa P f). apply parentEdge_in; auto. }
  apply in_app_iff in Hin. destruct Hin as [Hin|Hin].
  { left. exists (fam_mo P f). apply parentEdge_in; auto. }
  apply in_flat_map in Hin. destruct Hin as (f2 & Hf2 & Hin).
  right. destruct (sibEdges_in f f2 e Hf (Hb f2 Hf2) Hin) as [[_ H]|[_ H]];
    eauto.
Qed.

Lemma famEdge_good (b : list nat) (f : nat) (e : Edge) :
  ~ In f b -> famEdge b f e -> goodEdge P e.
Proof.
  intros Hfb [(p & g & H)|(p & f2 & Hf2 & H)].
  - destruct (parEdge_parent _ _ _ _ H) as (Hp & Hg & Hfg).
    destruct H as (Hf & _ & _ & ->). simpl.
    split; [|split; [|split]].
    + intros E. apply Hfg. now apply (wf_seq_inj P WF).
    + now apply (wf_seq_bound P WF).
    + now apply (wf_seq_bound P WF).
    + now apply (wf_rank_bound P WF).
  - destruct (sibEdge_parent _ _ _ _ H) as (Hp & _).
    destruct H as (Hf & Hf2' & _ & ->). simpl.
    split; [|split; [|split]].
    + intros E. apply Hfb. rewrite (wf_seq_inj P WF f f2 Hf Hf2' E). exact Hf2.
    + now apply (wf_seq_bound P WF).
    + now apply (wf_seq_bound P WF).
    + now apply (wf_rank_bound P WF).
Qed.

(** Edges of two different families never coincide, when the second
    family is not among those ahead of the first. *)
Lemma famEdge_clash (b b' : list nat) (f f' : nat) (e e' : Edge) :
  f <> f' -> ~ In f' b ->
  famEdge b f e -> famEdge b' f' e' -> norm e = norm e' -> False.
Proof.
  intros Hne Hnb [(p & g & H)|(p & f2 & Hf2 & H)]
         [(p' & g' & H')|(p' & f2' & Hf2' & H')] Hn.
  - destruct (clash_par_par _ _ _ _ _ _ _ _ H H' Hn). contradiction.
  - exact (clash_par_sib _ _ _ _ _ _ _ _ H H' Hn).
  - symmetry in Hn. exact (clash_par_sib _ _ _ _ _ _ _ _ H' H Hn).
  - destruct (clash_sib_sib _ _ _ _ _ _ _ _ H H' Hn) as [_ [[E _]|[_ E]]].
    + contradiction.
    + subst f2. contradiction.
Qed.

Lemma NoDup_app_disjoint {A : Type} (l1 l2 : list A) (x : A) :
  NoDup (l1 ++ l2) -> In x l1 -> In x l2 -> False.
Proof.
  induction l1 as [|a l1 IH]; intros Hnd H1 H2; [destruct H1|].
  simpl in Hnd. inversion Hnd as [|? ? Hna Hnd']; subst.
  destruct H1 as [->|H1].
  - apply Hna, in_app_iff. now right.
  - now apply IH.
Qed.

Lemma NoDup_map_app {A B : Type} (h : A -> B) (l1 l2 : list A) :
  NoDup (map h l1) -> NoDup (map h l2) ->
  (forall x y, In x l1 -> In y l2 -> h x <> h y) ->
  NoDup (map h (l1 ++ l2)).
Proof.
  intros H1 H2 H. rewrite map_app. apply NoDup_app; try assumption.
  intros z Hz1 Hz2. apply in_map_iff in Hz1. apply in_map_iff in Hz2.
  destruct Hz1 as (x & <- & Hx). destruct Hz2 as (y & E & Hy).
  exact (H x y Hx Hy (eq_sym E)).
Qed.

Lemma sibEdges_NoDup (f f2 : nat) :
  inFams P f -> inFams P f2 -> NoDup (map norm (sibEdges P f f2)).
Proof.
  intros Hf Hf2. unfold sibEdges.
  destruct (Nat.eqb_spec (fam_fa P f2) (fam_fa P f)) as [Ef|Ef];
    destruct (Nat.eqb_spec (fam_mo P f2) (fam_mo P f)) as [Em|Em]; simpl;
    repeat constructor; simpl; try tauto.
  intros [E|[]]. apply (f_equal snd) in E. simpl in E.
  apply (wf_couple P WF f2 Hf2).
  apply (wf_rank_inj P WF); [exists f2; auto | exists f2; auto | exact (eq_sym E)].
Qed.

Lemma sibs_NoDup (f : nat) (b : list nat) :
  inFams P f -> (forall f2, In f2 b -> inFams P f2) -> NoDup b ->
  NoDup (map norm (flat_map (sibEdges P f) b)).
Proof.
  intros Hf. induction b as [|f2 b IH]; intros Hb Hnd; simpl; [constructor|].
  inversion Hnd as [|? ? Hf2b Hnd']; subst.
  apply NoDup_map_app.
  - apply sibEdges_NoDup; auto. apply Hb. now left.
  - apply IH; auto. intros f3 H3. apply Hb. now right.
  - intros e e' He He' Hn.
    apply in_flat_map in He'. destruct He' as (f3 & Hf3 & He').
    assert (Hin2 : inFams P f2) by (apply Hb; now left).
    assert (Hin3 : inFams P f3) by (apply Hb; now right).
    assert (S1 : exists p, sibEdge P f p f2 e)
      by (destruct (sibEdges_in f f2 e Hf Hin2 He) as [[_ H]|[_ H]]; eauto).
    assert (S2 : exists p, sibEdge P f p f3 e')
      by (destruct (sibEdges_in f f3 e' Hf Hin3 He') as [[_ H]|[_ H]]; eauto).
    destruct S1 as [p S1]. destruct S2 as [p' S2].
    destruct (clash_sib_sib _ _ _ _ _ _ _ _ S1 S2 Hn) as [_ [[_ E]|[E1 E2]]].
    + subst f3. contradiction.
    + subst f3. subst f2. contradiction.
Qed.

Lemma parentEdge_NoDup (f p : nat) : NoDup (map norm (parentEdge P f p)).
Proof.
  unfold parentEdge. destruct (ind_fam P p); simpl; repeat constructor.
  intros [].
Qed.

Lemma famEdges_NoDup (b : list nat) (f : nat) :
  inFams P f -> (forall f2, In f2 b -> inFams P f2) -> NoDup b ->
  NoDup (map norm (famEdges P b f)).
Proof.
  intros Hf Hb Hnd. unfold famEdges.
  assert (Hsib : forall e, In e (flat_map (sibEdges P f) b) ->
                           exists p f2, sibEdge P f p f2 e).
  { intros e He. apply in_flat_map in He. destruct He as (f2 & Hf2 & He).
    destruct (sibEdges_in f f2 e Hf (Hb f2 Hf2) He) as [[_ H]|[_ H]]; eauto. }
  apply NoDup_map_app; [apply parentEdge_NoDup | apply NoDup_map_app |].
  - apply parentEdge_NoDup.
  - now apply sibs_NoDup.
  - intros e e' He He' Hn.
    destruct (parentEdge_in f _ e Hf (or_intror eq_refl) He) as [g H].
    destruct (Hsib e' He') as (p' & f2 & H').
    exact (clash_par_sib _ _ _ _ _ _ _ _ H H' Hn).
  - intros e e' He He' Hn.
    destruct (parentEdge_in f _ e Hf (or_introl eq_refl) He) as [g H].
    apply in_app_iff in He'. destruct He' as [He'|He'].
    + destruct (parentEdge_in f _ e' Hf (or_intror eq_refl) He') as [g' H'].
      destruct (clash_par_par _ _ _ _ _ _ _ _ H H' Hn) as [E _].
      exact (wf_couple P WF f Hf E).
    + destruct (Hsib e' He') as (p' & f2 & H').
      exact (clash_par_sib _ _ _ _ _ _ _ _ H H' Hn).
Qed.

Lemma allEdges_in (b r : list nat) (e : Edge) :
  (forall f, In f (b ++ r) -> inFams P f) ->
  In e (allEdges P b r) ->
  exists f b', In f r /\ famEdge b' f e.
Proof.
  revert b. induction r as [|f r IH]; intros b Hall Hin; simpl in Hin.
  - destruct Hin.
  - apply in_app_iff in Hin. destruct Hin as [Hin|Hin].
    + exists f, b. split; [now left|].
      apply famEdges_in; auto.
      * apply Hall. apply in_app_iff. right. now left.
      * intros f2 H2. apply Hall. apply in_app_iff. now left.
    + destruct (IH (b ++ [f])) with (2 := Hin) as (f' & b' & Hf' & He).
      * intros f0 H0. apply Hall. rewrite <- app_assoc in H0. exact H0.
      * exists f', b'. split; [now right | exact He].
Qed.

Lemma allEdges_simple (b r : list nat) :
  (forall f, In f (b ++ r) -> inFams P f) -> NoDup (b ++ r) ->
  Forall (goodEdge P) (allEdges P b r) /\ NoDup (map norm (allEdges P b r)).
Proof.
  revert b. induction r as [|f r IH]; intros b Hall Hnd; simpl.
  - split; constructor.
  - assert (Hall' : forall f0, In f0 ((b ++ [f]) ++ r) -> inFams P f0).
    { intros f0 H0. apply Hall. rewrite <- app_assoc in H0. exact H0. }
    assert (Hnd' : NoDup ((b ++ [f]) ++ r)) by (now rewrite <- app_assoc).
    destruct (IH (b ++ [f]) Hall' Hnd') as [IH1 IH2].
    assert (Hf : inFams P f) by (apply Hall, in_app_iff; right; now left).
    assert (Hb : forall f2, In f2 b -> inFams P f2)
      by (intros f2 H2; apply Hall, in_app_iff; now left).
    assert (Hfb : ~ In f b).
    { apply NoDup_remove_2 in Hnd. intros H. apply Hnd, in_app_iff. now left. }
    assert (Hfr : ~ In f r).
    { apply NoDup_remove_2 in Hnd. intros H. apply Hnd, in_app_iff. now right. }
    assert (Hbr : forall f', In f' r -> ~ In f' b).
    { intros f' Hr Hb'. apply NoDup_remove_1 in Hnd.
      exact (NoDup_app_disjoint b r f' Hnd Hb' Hr). }
    split.
    + apply Forall_app. split; [|exact IH1].
      apply Forall_forall. intros e He.
      apply (famEdge_good b f); [exact Hfb|]. now apply famEdges_in.
    + apply NoDup_map_app; [|exact IH2|].
      * apply famEdges_NoDup; auto.
        apply NoDup_remove_1 in Hnd. now apply NoDup_app_remove_r in Hnd.
      * intros e e' He He' Hn.
        destruct (allEdges_in (b ++ [f]) r e' Hall' He') as (f' & b' & Hf' & H').
        apply (famEdge_clash b b' f f' e e'); auto.
        -- intros ->. contradiction.
        -- now apply famEdges_in.
Qed.

End Clash.

Lemma linkInv_noLinks (P : Pedigree) : linkInv P noLinks.
Proof.
  split; [apply countsDistinct_noLinks|]. split.
  - intros x. unfold totalOcc. simpl.
    assert (E : sumTo (NumFam P) (fun _ => occ x []) = 0).
    { induction (NumFam P) as [|n IH]; simpl; [reflexivity|].
      rewrite IH. reflexivity. }
    rewrite E. reflexivity.
  - constructor; simpl.
    + intros c d x [].
    + intros c x [].
    + intros c. constructor.
    + intros c d x [].
Qed.

Lemma buildLinks_inv (P : Pedigree) : wellFormed P -> linkInv P (buildLinks P).
Proof.
  intros WF. unfold buildLinks. rewrite linkFams_edges.
  destruct (allEdges_simple P WF [] (ped_fams P)) as [Hgood Hnd].
  - intros f Hf. exact Hf.
  - apply (wf_chain P WF).
  - apply addEdges_inv; auto using linkInv_noLinks.
Qed.

(** ** Proofs: the counts of [findBreaks] *)

Lemma sumTo_plus (n : nat) (h k : nat -> nat) :
  sumTo n (fun x => h x + k x) = sumTo n h + sumTo n k.
Proof. induction n as [|n IH]; simpl; [reflexivity | rewrite IH; lia]. Qed.

Lemma sumTo_double (n : nat) (h : nat -> nat) :
  sumTo n (fun i => 2 * h i) = 2 * sumTo n h.
Proof. induction n as [|n IH]; [reflexivity | cbn [sumTo]; rewrite IH; lia]. Qed.

Lemma sumTo_zero (n : nat) : sumTo n (fun _ => 0) = 0.
Proof. induction n as [|n IH]; simpl; [reflexivity | rewrite IH; lia]. Qed.

Lemma sumTo_single (n a : nat) :
  a < n -> sumTo n (fun x => if Nat.eqb x a then 1 else 0) = 1.
Proof.
  induction n as [|n IH]; intros Ha; [lia|]. simpl.
  destruct (Nat.eqb_spec n a) as [->|Hne].
  - rewrite (sumTo_ext a _ (fun _ => 0)).
    + rewrite sumTo_zero. reflexivity.
    + intros k Hk. destruct (Nat.eqb_spec k a); [lia | reflexivity].
  - rewrite IH by lia. lia.
Qed.

Lemma sumTo_swap (n m : nat) (h : nat -> nat -> nat) :
  sumTo n (fun i => sumTo m (fun j => h i j))
  = sumTo m (fun j => sumTo n (fun i => h i j)).
Proof.
  induction n as [|n IH]; simpl.
  - now rewrite sumTo_zero.
  - rewrite IH, <- sumTo_plus. reflexivity.
Qed.

Lemma sumTo_pos (n : nat) (h : nat -> nat) :
  0 < sumTo n h -> exists k, k < n /\ 0 < h k.
Proof.
  induction n as [|n IH]; simpl; intros H; [lia|].
  destruct (Nat.eq_dec (h n) 0) as [E|E].
  - destruct IH as (k & Hk & Hp); [lia|]. exists k. split; [lia | exact Hp].
  - exists n. split; lia.
Qed.

Lemma sumTo_ge_one (n : nat) (h : nat -> nat) (a : nat) :
  a < n -> 1 <= h a -> 1 <= sumTo n h.
Proof.
  induction n as [|n IH]; intros Ha H; [lia|]. simpl.
  destruct (Nat.eq_dec a n) as [->|]; [lia|].
  specialize (IH ltac:(lia) H). lia.
Qed.

Lemma sumTo_ge_two (n : nat) (h : nat -> nat) (a b : nat) :
  a < n -> b < n -> a <> b -> 1 <= h a -> 1 <= h b -> 2 <= sumTo n h.
Proof.
  induction n as [|n IH]; intros Ha Hb Hab H1 H2; [lia|]. simpl.
  destruct (Nat.eq_dec a n) as [->|Hna].
  - pose proof (sumTo_ge_one n h b ltac:(lia) H2). lia.
  - destruct (Nat.eq_dec b n) as [->|Hnb].
    + pose proof (sumTo_ge_one n h a ltac:(lia) H1). lia.
    + specialize (IH ltac:(lia) ltac:(lia) Hab H1 H2). lia.
Qed.

Lemma filter_length_sumTo (p : nat -> bool) (n : nat) :
  List.length (filter p (seq 0 n)) = sumTo n (fun i => if p i then 1 else 0).
Proof.
  induction n as [|n IH]; [reflexivity|].
  rewrite seq_S, filter_app, length_app, IH. simpl.
  destruct (p n); reflexivity.
Qed.

(** The number of elements of a duplicate-free list of numbers below [n],
    as a sum of indicators. *)
Lemma NoDup_length_sumTo (u : list nat) (n : nat) :
  NoDup u -> (forall x, In x u -> x < n) ->
  List.length u = sumTo n (fun x => if existsb (Nat.eqb x) u then 1 else 0).
Proof.
  induction u as [|a u IH]; intros Hnd Hb; simpl.
  - now rewrite sumTo_zero.
  - inversion Hnd as [|? ? Ha Hnd']; subst.
    rewrite (sumTo_ext n _ (fun x => (if Nat.eqb x a then 1 else 0)
                                     + (if existsb (Nat.eqb x) u then 1 else 0))).
    + rewrite sumTo_plus, sumTo_single by (apply Hb; now left).
      rewrite <- IH; [reflexivity | exact Hnd' |].
      intros x Hx. apply Hb. now right.
    + intros k _. destruct (Nat.eqb_spec k a) as [->|Hne]; simpl; [|reflexivity].
      destruct (existsb (Nat.eqb a) u) eqn:E; [|reflexivity].
      apply existsb_exists in E. destruct E as (y & Hy & E).
      apply Nat.eqb_eq in E. subst y. contradiction.
Qed.

Definition through (s : LinkState) (f x : nat) : nat :=
  if hasInd x (linkList s f) then 1 else 0.

Lemma distinct_through (P : Pedigree) (s : LinkState) (f : nat) :
  shapeInv P s ->
  distinct (linkList s f) = sumTo (NumInd P) (through s f).
Proof.
  intros HS. unfold distinct.
  rewrite (NoDup_length_sumTo _ (NumInd P)).
  - apply sumTo_ext. intros x _. unfold through.
    destruct (hasInd x (linkList s f)) eqn:E.
    + apply hasInd_true in E.
      assert (H : existsb (Nat.eqb x) (nodup Nat.eq_dec (inds (linkList s f))) = true).
      { apply existsb_exists. exists x. split; [now apply nodup_In|].
        apply Nat.eqb_refl. }
      now rewrite H.
    + apply hasInd_false in E.
      destruct (existsb (Nat.eqb x) (nodup Nat.eq_dec (inds (linkList s f)))) eqn:H;
        [|reflexivity].
      apply existsb_exists in H. destruct H as (y & Hy & Exy).
      apply Nat.eqb_eq in Exy. subst y. apply nodup_In in Hy. contradiction.
  - apply NoDup_nodup.
  - intros x Hx. apply nodup_In in Hx. unfold inds in Hx.
    apply in_map_iff in Hx. destruct Hx as ([y d] & <- & Hk).
    apply (sh_bound P s HS f d y Hk).
Qed.

(** What the claim calls the remaining arcs and nodes, read off the
    chains: the distinct individuals of each chain; the families with a
    non-empty chain and the individuals that occur in some chain. *)
Definition remainingArcs (P : Pedigree) (s : LinkState) : nat :=
  sumTo (NumFam P) (fun f => distinct (linkList s f)).

Definition hasLinks (s : LinkState) (f : nat) : bool :=
  match linkList s f with [] => false | _ :: _ => true end.

Definition inSomeLink (P : Pedigree) (s : LinkState) (x : nat) : bool :=
  existsb (fun f => hasInd x (linkList s f)) (seq 0 (NumFam P)).

Definition remainingNodes (P : Pedigree) (s : LinkState) : nat :=
  List.length (filter (hasLinks s) (seq 0 (NumFam P))) +
  List.length (filter (inSomeLink P s) (seq 0 (NumInd P))).

Lemma countArcs_spec (P : Pedigree) (s : LinkState) :
  countsDistinct s -> countArcs P s = Z.of_nat (remainingArcs P s).
Proof.
  intros HA. unfold countArcs, remainingArcs.
  apply (fold_seq_invariant
           (fun n i => if Z.eqb (nlink s i) 0 then n else (n + nlink s i)%Z)
           (fun m n => n = Z.of_nat (sumTo m (fun f => distinct (linkList s f))))).
  - reflexivity.
  - intros m n _ ->. simpl. rewrite HA.
    destruct (Z.eqb_spec (Z.of_nat (distinct (linkList s m))) 0); lia.
Qed.

Lemma hasLinks_distinct (s : LinkState) (f : nat) :
  hasLinks s f = negb (Nat.eqb (distinct (linkList s f)) 0).
Proof.
  unfold hasLinks. destruct (linkList s f) as [|k l] eqn:E.
  - reflexivity.
  - destruct (Nat.eqb_spec (distinct (k :: l)) 0) as [H|H]; [|reflexivity].
    apply distinct_zero in H. discriminate.
Qed.

Lemma inSomeLink_occ (P : Pedigree) (s : LinkState) (x : nat) :
  inSomeLink P s x = negb (Nat.eqb (totalOcc P s x) 0).
Proof.
  unfold inSomeLink, totalOcc.
  destruct (Nat.eqb_spec (sumTo (NumFam P) (fun f => occ x (linkList s f))) 0)
    as [E|E]; simpl.
  - destruct (existsb _ _) eqn:H; [|reflexivity].
    apply existsb_exists in H. destruct H as (f & Hf & Hx).
    apply in_seq in Hf. apply hasInd_true, occ_pos in Hx.
    pose proof (sumTo_ge_one (NumFam P) (fun f => occ x (linkList s f)) f
                  ltac:(lia) Hx). lia.
  - destruct (sumTo_pos (NumFam P) (fun f => occ x (linkList s f)))
      as (f & Hf & Hp); [lia|].
    apply existsb_exists. exists f. split; [apply in_seq; lia|].
    now apply hasInd_true, occ_pos.
Qed.

Lemma countNodes_spec (P : Pedigree) (s : LinkState) :
  countsDistinct s -> countsRecords P s ->
  countNodes P s = Z.of_nat (remainingNodes P s).
Proof.
  intros HA HB. unfold countNodes, remainingNodes.
  rewrite !filter_length_sumTo.
  set (n1 := fold_left _ (seq 0 (NumFam P)) 0%Z).
  assert (E1 : n1 = Z.of_nat (sumTo (NumFam P)
                                (fun i => if hasLinks s i then 1 else 0))).
  { unfold n1.
    apply (fold_seq_invariant
             (fun n i => if Z.eqb (nlink s i) 0 then n else (n + 1)%Z)
             (fun m n => n = Z.of_nat (sumTo m (fun i => if hasLinks s i then 1 else 0)))).
    - reflexivity.
    - intros m n _ ->. simpl. rewrite HA, hasLinks_distinct.
      destruct (Z.eqb_spec (Z.of_nat (distinct (linkList s m))) 0);
        destruct (Nat.eqb_spec (distinct (linkList s m)) 0); simpl; lia. }
  rewrite E1.
  apply (fold_seq_invariant
           (fun n i => if Z.eqb (linkInd s i) 0 then n else (n + 1)%Z)
           (fun m n => n = Z.of_nat
                             (sumTo (NumFam P) (fun i => if hasLinks s i then 1 else 0)
                              + sumTo m (fun i => if inSomeLink P s i then 1 else 0)))).
  - simpl. f_equal. lia.
  - intros m n _ ->. simpl. rewrite HB, inSomeLink_occ.
    destruct (Z.eqb_spec (Z.of_nat (totalOcc P s m)) 0);
      destruct (Nat.eqb_spec (totalOcc P s m) 0); simpl; lia.
Qed.

(** The counting argument: once no family has exactly one link, every
    family node and every individual node of the remaining graph has
    degree at least two, so there are at least as many arcs as nodes. *)
Lemma arcs_ge_nodes (P : Pedigree) (s : LinkState) :
  linkInv P s ->
  (forall f, f < NumFam P -> nlink s f <> 1%Z) ->
  remainingNodes P s <= remainingArcs P s.
Proof.
  intros (HA & HB & HS) Hpruned.
  unfold remainingNodes, remainingArcs. rewrite !filter_length_sumTo.
  assert (Hfam : 2 * sumTo (NumFam P) (fun i => if hasLinks s i then 1 else 0)
                 <= sumTo (NumFam P) (fun f => distinct (linkList s f))).
  { assert (H : sumTo (NumFam P) (fun i => 2 * (if hasLinks s i then 1 else 0))
                  <= sumTo (NumFam P) (fun f => distinct (linkList s f))).
    { apply sumTo_le. intros f Hf. rewrite hasLinks_distinct.
      specialize (Hpruned f Hf). rewrite HA in Hpruned.
      destruct (Nat.eqb_spec (distinct (linkList s f)) 0); simpl; lia. }
    rewrite sumTo_double in H. exact H. }
  assert (Hind : 2 * sumTo (NumInd P) (fun i => if inSomeLink P s i then 1 else 0)
                 <= sumTo (NumFam P) (fun f => distinct (linkList s f))).
  { rewrite (sumTo_ext (NumFam P) (fun f => distinct (linkList s f))
               (fun f => sumTo (NumInd P) (through s f)))
      by (intros f _; now apply (distinct_through P)).
    rewrite sumTo_swap.
    assert (H : sumTo (NumInd P) (fun i => 2 * (if inSomeLink P s i then 1 else 0))
                  <= sumTo (NumInd P)
                       (fun x => sumTo (NumFam P) (fun f => through s f x))).
    { apply sumTo_le. intros x Hx.
      destruct (inSomeLink P s x) eqn:E; [|lia].
      unfold inSomeLink in E. apply existsb_exists in E.
      destruct E as (f & Hf & Hin). apply in_seq in Hf.
      apply hasInd_true in Hin. unfold inds in Hin. apply in_map_iff in Hin.
      destruct Hin as ([y d] & Ey & Hk). simpl in Ey. subst y.
      pose proof (sh_sym P s HS f d x Hk) as Hk'.
      destruct (sh_bound P s HS f d x Hk) as (_ & Hd & _).
      assert (Hfd : f <> d) by (intros ->; exact (sh_noself P s HS d x Hk)).
      apply (sumTo_ge_two _ _ f d); try lia.
      - unfold through.
        assert (H1 : hasInd x (linkList s f) = true)
          by (apply hasInd_true; eapply in_inds; eauto).
        rewrite H1. lia.
      - unfold through.
        assert (H1 : hasInd x (linkList s d) = true)
          by (apply hasInd_true; eapply in_inds; eauto).
        rewrite H1. lia. }
    rewrite sumTo_double in H. exact H. }
  lia.
Qed.

Lemma pruneFam_inv (P : Pedigree) (s : LinkState) (i : nat) :
  i < NumFam P -> linkInv P s -> nlink s i = 1%Z -> linkInv P (pruneFam P s i).
Proof.
  intros Hi (HA & HB & HS) Hone. split; [|split].
  - now apply pruneFam_counts.
  - now apply pruneFam_lists.
  - now apply pruneFam_shape.
Qed.

Lemma makeLinks_inv (P : Pedigree) (fuel : nat) :
  wellFormed P -> totalLinks P (buildLinks P) < fuel ->
  exists s, makeLinks fuel P = Some s /\ linkInv P s /\
            forall i, i < NumFam P -> nlink s i <> 1%Z.
Proof.
  intros WF Hfuel. unfold makeLinks.
  apply (pruneLoop_spec P (linkInv P)); auto.
  - intros s H. apply H.
  - intros s i Hi H Hone. now apply pruneFam_inv.
  - now apply buildLinks_inv.
Qed.

Lemma findBreaks_spec (P : Pedigree) (s : LinkState) (junk : Z) :
  linkInv P s -> (forall i, i < NumFam P -> nlink s i <> 1%Z) ->
  findBreaks P s junk
  = (Z.of_nat (remainingArcs P s) - Z.of_nat (remainingNodes P s) + 1)%Z.
Proof.
  intros Hinv Hpruned. pose proof (arcs_ge_nodes P s Hinv Hpruned) as Hge.
  destruct Hinv as (HA & HB & HS).
  unfold findBreaks. rewrite countArcs_spec, countNodes_spec by assumption.
  destruct (Z.geb_spec (Z.of_nat (remainingArcs P s))
                       (Z.of_nat (remainingNodes P s))); [reflexivity | lia].
Qed.

Lemma pedArcs_spec (P : Pedigree) :
  pedArcs P = list_sum (map (fun f => fam_nkid P f + 2) (ped_fams P)).
Proof.
  unfold pedArcs.
  assert (H : forall l n,
            fold_left (fun n famp => n + (fam_nkid P famp + 2)) l n
            = n + list_sum (map (fun f => fam_nkid P f + 2) l)).
  { induction l as [|f l IH]; intros n; simpl; [lia|]. rewrite IH. lia. }
  now rewrite H.
Qed.

(** C4. The count stored for a pedigree is never negative, and a
    pedigree with fewer arcs than nodes gets [hasloops = FALSE] and a
    count of 0. *)
Theorem checkLooping_nonneg (P : Pedigree) (fuel : nat) (junk : Z) :
  wellFormed P ->
  totalLinks P (buildLinks P) < fuel ->
  exists r,
    checkLooping fuel P junk = Some r /\
    (0 <= nlbrk r)%Z /\
    (list_sum (map (fun f => fam_nkid P f + 2) (ped_fams P))
       < ped_nind P + ped_nfam P ->
     hasloops r = false /\ nlbrk r = 0%Z).
Proof.
  intros WF Hfuel. unfold checkLooping. rewrite pedArcs_spec.
  destruct (Nat.ltb_spec (list_sum (map (fun f => fam_nkid P f + 2) (ped_fams P)))
                         (ped_nind P + ped_nfam P)) as [Hlt|Hge].
  - eexists. split; [reflexivity|]. simpl. split; [lia | auto].
  - destruct (makeLinks_inv P fuel WF Hfuel) as (s & Hs & Hinv & Hpruned).
    rewrite Hs. eexists. split; [reflexivity|]. simpl.
    rewrite (findBreaks_spec P s junk Hinv Hpruned).
    pose proof (arcs_ge_nodes P s Hinv Hpruned). split; [lia|]. intros; lia.
Qed.

(** C10. [addLink] raises [nlink[f]] only for an individual not yet in
    the chain of [f]; [rmLink] lowers it only when the unlinked record
    was the last one of its individual; both keep [nlink[f]] equal to
    the number of distinct individuals in the chain of [f]; so does
    [makeLinks] as a whole, and the arcs [findBreaks] adds up are these
    numbers. *)
Theorem nlink_counts_distinct (P : Pedigree) (fuel : nat) :
  totalLinks P (buildLinks P) < fuel ->
  (forall s fam1 fam2 ind,
     nlink (addLink s fam1 fam2 ind) fam1
     = (nlink s fam1 + (if hasInd ind (linkList s fam1) then 0 else 1))%Z /\
     (countsDistinct s -> countsDistinct (addLink s fam1 fam2 ind))) /\
  (forall s fam1 fam2,
     nlink (rmLink s fam1 fam2) fam1
     = (if Z.eqb (nlink s fam1) 0 then nlink s fam1
        else match unlinkFirst fam2 (linkList s fam1) with
             | Some (ind, rest) =>
                 if hasInd ind rest then nlink s fam1 else (nlink s fam1 - 1)%Z
             | None => nlink s fam1
             end) /\
     (countsDistinct s -> countsDistinct (rmLink s fam1 fam2))) /\
  exists s,
    makeLinks fuel P = Some s /\
    (forall f, nlink s f = Z.of_nat (distinct (linkList s f))) /\
    countArcs P s
    = Z.of_nat (sumTo (NumFam P) (fun f => distinct (linkList s f))).
Proof.
  intros Hfuel. split; [|split].
  - intros s fam1 fam2 ind. split.
    + apply addLink_nlink.
    + apply addLink_counts.
  - intros s fam1 fam2. split.
    + unfold rmLink. destruct (Z.eqb (nlink s fam1) 0); [reflexivity|].
      destruct (unlinkFirst fam2 (linkList s fam1)) as [[ind rest]|];
        [|reflexivity].
      destruct (hasInd ind rest); simpl; [reflexivity | apply upd_same].
    + intros H. now apply rmLink_spec.
  - destruct (makeLinks_counts P fuel Hfuel) as (s & Hs & HA & _).
    exists s. split; [exact Hs|]. split; [exact HA|].
    now apply countArcs_spec.
Qed.

(** Scenario B of the design document: founders 0 and 1, their children
    2 and 3 (family 0), and the child 4 of the two siblings (family 1). *)
Definition sibMating : Pedigree :=
  {| NumInd := 5; NumFam := 2; IndSort := (fun i => i);
     ind_fam := (fun i => match i with
                          | 2 | 3 => Some 0
                          | 4 => Some 1
                          | _ => None
                          end);
     ind_seq := (fun i => i);
     fam_fa := (fun f => match f with 0 => 0 | _ => 2 end);
     fam_mo := (fun f => match f with 0 => 1 | _ => 3 end);
     fam_nkid := (fun f => match f with 0 => 2 | _ => 1 end);
     fam_seq := (fun f => f);
     ped_fams := [0; 1]; ped_nind := 5; ped_nfam := 2 |}.

Lemma sibMating_wellFormed : wellFormed sibMating.
Proof.
  assert (Hfam : forall f, inFams sibMating f -> f = 0 \/ f = 1).
  { intros f [H|[H|[]]]; auto. }
  assert (Hpar : forall p, isParent sibMating p -> p = 0 \/ p = 1 \/ p = 2 \/ p = 3).
  { intros p (f & Hf & Hp). destruct (Hfam f Hf) as [-> | ->]; simpl in Hp;
      destruct Hp as [<-|<-]; auto. }
  constructor.
  - repeat constructor; simpl; intros H; repeat destruct H as [H|H];
      try discriminate; assumption.
  - intros f g _ _ H. exact H.
  - intros f Hf. destruct (Hfam f Hf) as [-> | ->]; simpl; repeat constructor.
  - intros p q _ _ H. exact H.
  - intros p Hp. destruct (Hpar p Hp) as [->|[->|[->| ->]]]; simpl;
      repeat constructor.
  - intros f Hf. destruct (Hfam f Hf) as [-> | ->]; simpl; discriminate.
  - intros p g Hp Hg.
    destruct (Hpar p Hp) as [->|[->|[->| ->]]]; simpl in Hg;
      try discriminate; injection Hg as <-; left; reflexivity.
  - intros p g Hg.
    destruct p as [|[|[|[|[|p]]]]]; simpl in Hg; try discriminate;
      injection Hg as <-; simpl; split; discriminate.
Qed.

Lemma sibMating_fuel : totalLinks sibMating (buildLinks sibMating) < 5.
Proof. vm_compute. repeat constructor. Qed.

Lemma checkLooping_nonneg_witness :
  wellFormed sibMating /\
  totalLinks sibMating (buildLinks sibMating) < 5 /\
  exists r, checkLooping 5 sibMating (-7)%Z = Some r /\ (0 <= nlbrk r)%Z.
Proof.
  split; [exact sibMating_wellFormed|]. split; [exact sibMating_fuel|].
  destruct (checkLooping_nonneg sibMating 5 (-7)%Z sibMating_wellFormed
              sibMating_fuel) as (r & Hr & Hn & _).
  exists r. split; [exact Hr | exact Hn].
Defined.

Lemma nlink_counts_distinct_witness :
  totalLinks sibMating (buildLinks sibMating) < 5 /\
  exists s, makeLinks 5 sibMating = Some s /\
            nlink s 0 = 2%Z /\ nlink s 1 = 2%Z /\ countArcs sibMating s = 4%Z.
Proof.
  split; [exact sibMating_fuel|].
  destruct (nlink_counts_distinct sibMating 5 sibMating_fuel)
    as (_ & _ & s & Hs & Hn & Ha).
  exists s. split; [exact Hs|].
  vm_compute in Hs. injection Hs as <-.
  repeat split; reflexivity.
Defined.

End Loops.

(** ** The loop-breaker count and the family-link graph *)

Module LoopGraph.

Import Loops.

(** *** The graph of the design document *)

(** These definitions follow the words of the design document, not
    the code: "two families are linked (with the connecting individual
    recorded) whenever they share a father, share a mother, or one
    family's father/mother belongs to another family as a child". *)

Definition childOf (P : Pedigree) (x g : nat) : bool :=
  match ind_fam P x with
  | Some g' => Nat.eqb g' g
  | None => false
  end.

Definition parentIn (P : Pedigree) (x f : nat) : bool :=
  Nat.eqb (fam_fa P f) x || Nat.eqb (fam_mo P f) x.

(** The families [f] and [g] are linked through the individual [x]. *)
Definition linked (P : Pedigree) (f g x : nat) : bool :=
  negb (Nat.eqb f g) &&
  ((Nat.eqb (fam_fa P f) x && Nat.eqb (fam_fa P g) x) ||
   (Nat.eqb (fam_mo P f) x && Nat.eqb (fam_mo P g) x) ||
   (parentIn P x f && childOf P x g) ||
   (parentIn P x g && childOf P x f)).

Definition among (l : list nat) (a : nat) : bool := existsb (Nat.eqb a) l.

(** The link of [f] and [g] through [x] is there when the families of
    [R] have been taken out. *)
Definition remains (P : Pedigree) (R : list nat) (f g x : nat) : bool :=
  among (ped_fams P) f && among (ped_fams P) g &&
  negb (among R f) && negb (among R g) && linked P f g x.

(** The individual [x] connects the family [f] to some family. *)
Definition connects (P : Pedigree) (R : list nat) (f x : nat) : bool :=
  existsb (fun g => remains P R f g x) (ped_fams P).

(** A family with exactly one link left; the links of a family are
    counted by the individuals that connect it. *)
Definition leaf (P : Pedigree) (R : list nat) (f : nat) : Prop :=
  exists x, connects P R f x = true /\
            forall y, connects P R f y = true -> y = x.

(** [R] lists families taken out one after the other, the last first,
    each one a leaf of what remained. *)
Inductive stripped (P : Pedigree) : list nat -> Prop :=
| stripped_nil : stripped P []
| stripped_cons (R : list nat) (f : nat) :
    stripped P R -> leaf P R f -> stripped P (f :: R).

(** The parents of the families of the pedigree, each once. *)
Definition people (P : Pedigree) : list nat :=
  nodup Nat.eq_dec (flat_map (fun f => [fam_fa P f; fam_mo P f]) (ped_fams P)).

(** The arcs of what remains: for every family, the individuals that
    connect it. *)
Definition arcsLeft (P : Pedigree) (R : list nat) : nat :=
  list_sum (map (fun f => List.length (filter (connects P R f) (people P)))
                (ped_fams P)).

(** The nodes of what remains: the families with a link and the
    individuals of the links. *)
Definition nodesLeft (P : Pedigree) (R : list nat) : nat :=
  List.length (filter (fun f => existsb (connects P R f) (people P))
                      (ped_fams P)) +
  List.length (filter (fun x => existsb (fun f => connects P R f x) (ped_fams P))
                      (people P)).

(** The chains of [s] hold the links that remain, families and
    individuals being named by their [seq] numbers. *)
Definition represents (P : Pedigree) (R : list nat) (s : LinkState) : Prop :=
  forall f' g' x',
    In (x', g') (linkList s f') <->
    exists f g x, f' = fam_seq P f /\ g' = fam_seq P g /\ x' = ind_seq P x /\
                  remains P R f g x = true.

(** *** Reading the definitions *)

Lemma among_In (l : list nat) (a : nat) : among l a = true <-> In a l.
Proof.
  unfold among. rewrite existsb_exists. split.
  - intros (b & Hb & E). apply Nat.eqb_eq in E. now subst.
  - intros H. exists a. split; [exact H | apply Nat.eqb_refl].
Qed.

Lemma among_not (l : list nat) (a : nat) : negb (among l a) = true <-> ~ In a l.
Proof.
  rewrite negb_true_iff, <- among_In. destruct (among l a); split; congruence.
Qed.

Lemma parentIn_spec (P : Pedigree) (x f : nat) :
  parentIn P x f = true <-> fam_fa P f = x \/ fam_mo P f = x.
Proof. unfold parentIn. rewrite orb_true_iff, !Nat.eqb_eq. reflexivity. Qed.

Lemma childOf_spec (P : Pedigree) (x g : nat) :
  childOf P x g = true <-> ind_fam P x = Some g.
Proof.
  unfold childOf. destruct (ind_fam P x) as [g'|].
  - rewrite Nat.eqb_eq. split; congruence.
  - split; discriminate.
Qed.

Lemma linked_spec (P : Pedigree) (f g x : nat) :
  linked P f g x = true <->
  f <> g /\
  ((fam_fa P f = x /\ fam_fa P g = x) \/
   (fam_mo P f = x /\ fam_mo P g = x) \/
   ((fam_fa P f = x \/ fam_mo P f = x) /\ ind_fam P x = Some g) \/
   ((fam_fa P g = x \/ fam_mo P g = x) /\ ind_fam P x = Some f)).
Proof.
  unfold linked.
  rewrite andb_true_iff, negb_true_iff, Nat.eqb_neq, !orb_true_iff,
    !andb_true_iff, !Nat.eqb_eq, !parentIn_spec, !childOf_spec.
  tauto.
Qed.

Lemma remains_spec (P : Pedigree) (R : list nat) (f g x : nat) :
  remains P R f g x = true <->
  inFams P f /\ inFams P g /\ ~ In f R /\ ~ In g R /\ linked P f g x = true.
Proof.
  unfold remains, inFams.
  rewrite !andb_true_iff, !among_In, !among_not. tauto.
Qed.

Lemma remains_sym (P : Pedigree) (R : list nat) (f g x : nat) :
  remains P R f g x = true -> remains P R g f x = true.
Proof.
  rewrite !remains_spec, !linked_spec. intros (Hf & Hg & Rf & Rg & Hn & H).
  repeat split; auto. tauto.
Qed.

Lemma remains_parent (P : Pedigree) (R : list nat) (f g x : nat) :
  remains P R f g x = true -> isParent P x.
Proof.
  rewrite remains_spec, linked_spec. intros (Hf & Hg & _ & _ & _ & H).
  destruct H as [[H _]|[[H _]|[[H _]|[H _]]]].
  - exists f. auto.
  - exists f. auto.
  - exists f. auto.
  - exists g. auto.
Qed.

Lemma remains_cons (P : Pedigree) (R : list nat) (r f g x : nat) :
  remains P (r :: R) f g x = true <->
  remains P R f g x = true /\ f <> r /\ g <> r.
Proof.
  rewrite !remains_spec. cbn [In]. split.
  - intros (Hf & Hg & Rf & Rg & H). repeat split; auto.
  - intros ((Hf & Hg & Rf & Rg & H) & Nf & Ng). repeat split; auto; intros [E|E]; auto.
Qed.

Lemma connects_spec (P : Pedigree) (R : list nat) (f x : nat) :
  connects P R f x = true <-> exists g, remains P R f g x = true.
Proof.
  unfold connects. rewrite existsb_exists. split.
  - intros (g & _ & H). exists g. exact H.
  - intros (g & H). exists g. split; [|exact H].
    apply remains_spec in H. apply H.
Qed.

Lemma people_spec (P : Pedigree) (x : nat) : In x (people P) <-> isParent P x.
Proof.
  unfold people, isParent, inFams. rewrite nodup_In, in_flat_map. split.
  - intros (f & Hf & [E|[E|[]]]); exists f; auto.
  - intros (f & Hf & [E|E]); exists f; (split; [exact Hf|]); cbn [In]; auto.
Qed.

(** *** The links that [makeLinks] adds *)

Lemma addEdges_lists (P : Pedigree) (es : list Edge) :
  Forall (goodEdge P) es ->
  forall s c d x,
    In (x, d) (linkList (fold_left addEdge es s) c) <->
    In (x, d) (linkList s c) \/ In (c, d, x) es \/ In (d, c, x) es.
Proof.
  induction es as [|[[a b] y] es IH]; intros Hgood s c d x.
  - cbn [fold_left In]. tauto.
  - inversion Hgood as [|? ? Hg Hgood']; subst.
    cbn [goodEdge] in Hg. destruct Hg as (Hab & _).
    cbn [fold_left]. rewrite (IH Hgood'). cbn [addEdge In].
    rewrite addBoth_list by assumption.
    assert (E : In (x, d) (if Nat.eqb c a then linkList s a ++ [(y, b)]
                           else if Nat.eqb c b then linkList s b ++ [(y, a)]
                                else linkList s c) <->
                In (x, d) (linkList s c) \/
                (a, b, y) = (c, d, x) \/ (a, b, y) = (d, c, x)).
    { destruct (Nat.eqb_spec c a) as [->|Hca].
      - rewrite in_app_iff. cbn [In]. split.
        + intros [H|[H|[]]]; [auto|]. injection H as <- <-. auto.
        + intros [H|[H|H]]; [auto| |].
          * injection H as <- <-. auto.
          * injection H as -> -> ->. contradiction.
      - destruct (Nat.eqb_spec c b) as [->|Hcb].
        + rewrite in_app_iff. cbn [In]. split.
          * intros [H|[H|[]]]; [auto|]. injection H as <- <-. auto.
          * intros [H|[H|H]]; [auto| |].
            -- injection H as -> -> ->. contradiction.
            -- injection H as <- <-. auto.
        + split; [auto|]. intros [H|[H|H]]; [auto| |].
          * injection H as -> _ _. contradiction.
          * injection H as _ -> _. contradiction. }
    rewrite E. tauto.
Qed.

(** An edge is added when its family is reached, with the families
    ahead of it in the chain. *)
Lemma allEdges_split (P : Pedigree) (e : Edge) (r : list nat) : forall b,
  In e (allEdges P b r) <->
  exists r1 f r2, r = r1 ++ f :: r2 /\ In e (famEdges P (b ++ r1) f).
Proof.
  induction r as [|f r IH]; intros b; cbn [allEdges].
  - split; [intros []|]. intros (r1 & f & r2 & E & _).
    destruct r1; discriminate.
  - rewrite in_app_iff, IH. split.
    + intros [H|(r1 & f' & r2 & E & H)].
      * exists [], f, r. rewrite app_nil_r. auto.
      * exists (f :: r1), f', r2. rewrite E. split; [reflexivity|].
        rewrite <- app_assoc in H. exact H.
    + intros (r1 & f' & r2 & E & H). destruct r1 as [|f0 r1].
      * cbn [app] in E. injection E as <- <-. rewrite app_nil_r in H. auto.
      * cbn [app] in E. injection E as <- ->. right.
        exists r1, f', r2. split; [reflexivity|].
        rewrite <- app_assoc. exact H.
Qed.

Lemma famEdges_spec (P : Pedigree) (b : list nat) (f : nat) (e : Edge) :
  In e (famEdges P b f) <->
  (exists g, ind_fam P (fam_fa P f) = Some g /\
             e = (fam_seq P f, fam_seq P g, ind_seq P (fam_fa P f))) \/
  (exists g, ind_fam P (fam_mo P f) = Some g /\
             e = (fam_seq P f, fam_seq P g, ind_seq P (fam_mo P f))) \/
  (exists f2, In f2 b /\ fam_fa P f2 = fam_fa P f /\
              e = (fam_seq P f, fam_seq P f2, ind_seq P (fam_fa P f2))) \/
  (exists f2, In f2 b /\ fam_mo P f2 = fam_mo P f /\
              e = (fam_seq P f, fam_seq P f2, ind_seq P (fam_mo P f2))).
Proof.
  unfold famEdges, parentEdge. rewrite !in_app_iff, in_flat_map.
  assert (Hp : forall p,
            In e match ind_fam P p with
                 | Some g => [(fam_seq P f, fam_seq P g, ind_seq P p)]
                 | None => []
                 end <->
            exists g, ind_fam P p = Some g /\
                      e = (fam_seq P f, fam_seq P g, ind_seq P p)).
  { intros p. destruct (ind_fam P p) as [g|].
    - cbn [In]. split.
      + intros [<-|[]]. exists g. auto.
      + intros (g' & E & ->). injection E as <-. auto.
    - split; [intros []|]. intros (g' & E & _). discriminate. }
  rewrite !Hp.
  assert (Hs : (exists f2, In f2 b /\ In e (sibEdges P f f2)) <->
               (exists f2, In f2 b /\ fam_fa P f2 = fam_fa P f /\
                  e = (fam_seq P f, fam_seq P f2, ind_seq P (fam_fa P f2))) \/
               (exists f2, In f2 b /\ fam_mo P f2 = fam_mo P f /\
                  e = (fam_seq P f, fam_seq P f2, ind_seq P (fam_mo P f2)))).
  { unfold sibEdges. split.
    - intros (f2 & Hf2 & H). apply in_app_iff in H. destruct H as [H|H].
      + destruct (Nat.eqb_spec (fam_fa P f2) (fam_fa P f)); [|destruct H].
        destruct H as [<-|[]]. left. exists f2. auto.
      + destruct (Nat.eqb_spec (fam_mo P f2) (fam_mo P f)); [|destruct H].
        destruct H as [<-|[]]. right. exists f2. auto.
    - intros [(f2 & Hf2 & E & ->)|(f2 & Hf2 & E & ->)]; exists f2;
        (split; [exact Hf2|]); apply in_app_iff.
      + left. destruct (Nat.eqb_spec (fam_fa P f2) (fam_fa P f)); [|contradiction].
        now left.
      + right. destruct (Nat.eqb_spec (fam_mo P f2) (fam_mo P f)); [|contradiction].
        now left. }
  rewrite Hs. tauto.
Qed.

(** Two different members of a list: one stands ahead of the other. *)
Lemma two_in_list (l : list nat) (f g : nat) :
  In f l -> In g l -> f <> g ->
  (exists r1 r2, l = r1 ++ f :: r2 /\ In g r1) \/
  (exists r1 r2, l = r1 ++ g :: r2 /\ In f r1).
Proof.
  intros Hf Hg Hne. destruct (in_split f l Hf) as (r1 & r2 & E).
  rewrite E in Hg. apply in_app_iff in Hg. destruct Hg as [Hg|[Hg|Hg]].
  - left. exists r1, r2. auto.
  - contradiction.
  - right. destruct (in_split g r2 Hg) as (r3 & r4 & E2).
    exists (r1 ++ f :: r3), r4. split.
    + rewrite E, E2, <- app_assoc. reflexivity.
    + apply in_app_iff. right. now left.
Qed.

Section Built.

Variable P : Pedigree.
Hypothesis WF : wellFormed P.

Lemma allEdges_sound (e : Edge) :
  In e (allEdges P [] (ped_fams P)) ->
  exists f g x, e = (fam_seq P f, fam_seq P g, ind_seq P x) /\
                remains P [] f g x = true.
Proof.
  intros H. apply allEdges_split in H. destruct H as (r1 & f & r2 & E & H).
  cbn [app] in H.
  assert (Hf : inFams P f).
  { unfold inFams. rewrite E. apply in_app_iff. right. now left. }
  assert (Hr1 : forall f2, In f2 r1 -> inFams P f2 /\ f2 <> f).
  { intros f2 H2. split.
    - unfold inFams. rewrite E. apply in_app_iff. now left.
    - intros ->. pose proof (wf_chain P WF) as Hnd. rewrite E in Hnd.
      apply NoDup_remove_2 in Hnd. apply Hnd, in_app_iff. now left. }
  apply famEdges_spec in H.
  destruct H as [(g & Hg & ->)|[(g & Hg & ->)|[(f2 & H2 & Ef & ->)|(f2 & H2 & Ef & ->)]]].
  - exists f, g, (fam_fa P f). split; [reflexivity|].
    assert (Hp : isParent P (fam_fa P f)) by (exists f; auto).
    apply remains_spec. repeat split; auto.
    + exact (wf_birth P WF _ _ Hp Hg).
    + apply linked_spec. split.
      * intros <-. destruct (wf_ancestor P WF _ _ Hg). congruence.
      * right. right. left. auto.
  - exists f, g, (fam_mo P f). split; [reflexivity|].
    assert (Hp : isParent P (fam_mo P f)) by (exists f; auto).
    apply remains_spec. repeat split; auto.
    + exact (wf_birth P WF _ _ Hp Hg).
    + apply linked_spec. split.
      * intros <-. destruct (wf_ancestor P WF _ _ Hg). congruence.
      * right. right. left. auto.
  - destruct (Hr1 f2 H2) as [Hi Hne].
    exists f, f2, (fam_fa P f2). split; [reflexivity|].
    apply remains_spec. repeat split; auto.
    apply linked_spec. split; [congruence|]. left. auto.
  - destruct (Hr1 f2 H2) as [Hi Hne].
    exists f, f2, (fam_mo P f2). split; [reflexivity|].
    apply remains_spec. repeat split; auto.
    apply linked_spec. split; [congruence|]. right. left. auto.
Qed.

Lemma allEdges_complete (f g x : nat) :
  remains P [] f g x = true ->
  In (fam_seq P f, fam_seq P g, ind_seq P x) (allEdges P [] (ped_fams P)) \/
  In (fam_seq P g, fam_seq P f, ind_seq P x) (allEdges P [] (ped_fams P)).
Proof.
  intros H. apply remains_spec in H. destruct H as (Hf & Hg & _ & _ & H).
  apply linked_spec in H. destruct H as (Hne & H).
  assert (Hshare : forall (role : nat -> nat),
            (forall a b c,
               (exists f2, In f2 b /\ role f2 = role a /\
                  c = (fam_seq P a, fam_seq P f2, ind_seq P (role f2))) ->
               In c (famEdges P b a)) ->
            role f = x -> role g = x ->
            In (fam_seq P f, fam_seq P g, ind_seq P x) (allEdges P [] (ped_fams P)) \/
            In (fam_seq P g, fam_seq P f, ind_seq P x) (allEdges P [] (ped_fams P))).
  { intros role Hrole Ef Eg.
    destruct (two_in_list (ped_fams P) f g Hf Hg Hne)
      as [(r1 & r2 & E & Hin)|(r1 & r2 & E & Hin)].
    - left. apply allEdges_split. exists r1, f, r2. split; [exact E|].
      cbn [app]. apply Hrole. exists g. rewrite Eg, Ef. auto.
    - right. apply allEdges_split. exists r1, g, r2. split; [exact E|].
      cbn [app]. apply Hrole. exists f. rewrite Eg, Ef. auto. }
  destruct H as [[Ef Eg]|[[Ef Eg]|[[Hp Hc]|[Hp Hc]]]].
  - apply (Hshare (fam_fa P)); auto.
    intros a b c Hc. apply famEdges_spec. right. right. left. exact Hc.
  - apply (Hshare (fam_mo P)); auto.
    intros a b c Hc. apply famEdges_spec. right. right. right. exact Hc.
  - left. destruct (in_split f (ped_fams P) Hf) as (r1 & r2 & E).
    apply allEdges_split. exists r1, f, r2. split; [exact E|].
    apply famEdges_spec. destruct Hp as [<-|<-].
    + left. exists g. auto.
    + right. left. exists g. auto.
  - right. destruct (in_split g (ped_fams P) Hg) as (r1 & r2 & E).
    apply allEdges_split. exists r1, g, r2. split; [exact E|].
    apply famEdges_spec. destruct Hp as [<-|<-].
    + left. exists f. auto.
    + right. left. exists f. auto.
Qed.

(** The first loop of [makeLinks] builds the graph. *)
Lemma buildLinks_represents : represents P [] (buildLinks P).
Proof.
  intros f' g' x'. unfold buildLinks. rewrite linkFams_edges.
  destruct (allEdges_simple P WF [] (ped_fams P)) as [Hgood _].
  { intros f Hf. exact Hf. }
  { apply (wf_chain P WF). }
  rewrite (addEdges_lists P _ Hgood). cbn [noLinks linkList In]. split.
  - intros [[]|[H|H]].
    + destruct (allEdges_sound _ H) as (f & g & x & E & Hr).
      injection E as -> -> ->. exists f, g, x. auto.
    + destruct (allEdges_sound _ H) as (f & g & x & E & Hr).
      injection E as -> -> ->. exists g, f, x. repeat split; auto.
      now apply remains_sym.
  - intros (f & g & x & -> & -> & -> & Hr).
    right. destruct (allEdges_complete f g x Hr); auto.
Qed.

End Built.

(** *** Taking out a family with one link *)

Lemma distinct_all_equal (l : list Link) (x : nat) :
  l <> [] -> (forall y, In y (inds l) -> y = x) -> distinct l = 1.
Proof.
  intros Hne Hall. unfold distinct.
  assert (E : forall y, In y (inds l) <-> In y [x]).
  { intros y. cbn [In]. split.
    - intros H. left. symmetry. now apply Hall.
    - intros [<-|[]]. destruct l as [|[y d] l]; [contradiction|].
      cbn [inds map l_ind fst]. left. apply Hall. now left. }
  rewrite (nodup_length_ext _ _ E). reflexivity.
Qed.

Section Strip.

Variable P : Pedigree.
Hypothesis WF : wellFormed P.

Lemma without_spec (i : nat) (l : list Link) (k : Link) :
  NoDup l ->
  (forall x y, In (x, i) l -> In (y, i) l -> x = y) ->
  (In k (without i l) <-> In k l /\ l_fam k <> i).
Proof.
  intros Hnd Huniq. split.
  - intros H. split; [now apply (without_incl i l)|].
    destruct k as [x d]. cbn [l_fam snd]. intros ->.
    exact (without_no_target i l Hnd Huniq x H).
  - intros [H Hne]. now apply without_keeps.
Qed.

Lemma pruneFam_represents (R : list nat) (s : LinkState) (i : nat) :
  i < NumFam P -> linkInv P s -> represents P R s -> nlink s i = 1%Z ->
  exists f, fam_seq P f = i /\ leaf P R f /\
            represents P (f :: R) (pruneFam P s i).
Proof.
  intros Hi (HA & HB & HS) Hrep Hone.
  assert (Hd : distinct (linkList s i) = 1) by (rewrite HA in Hone; lia).
  destruct (linkList s i) as [|[x0 g0] rest] eqn:Ech.
  { discriminate Hd. }
  assert (Hin0 : In (x0, g0) (linkList s i)) by (rewrite Ech; now left).
  destruct (proj1 (Hrep i g0 x0) Hin0) as (f & g & x & Ei & Eg & Ex & Hr).
  exists f. split; [symmetry; exact Ei|].
  assert (Hf : inFams P f) by (apply remains_spec in Hr; apply Hr).
  assert (Hseq : forall a, inFams P a -> (fam_seq P a = i <-> a = f)).
  { intros a Ha. split.
    - intros E. apply (wf_seq_inj P WF); [exact Ha | exact Hf | congruence].
    - intros ->. symmetry. exact Ei. }
  split.
  - exists x. split; [apply connects_spec; exists g; exact Hr|].
    intros y Hy. apply connects_spec in Hy. destruct Hy as (g2 & Hr2).
    assert (H2 : In (ind_seq P y, fam_seq P g2) (linkList s i)).
    { apply Hrep. exists f, g2, y. auto. }
    apply (wf_rank_inj P WF).
    + exact (remains_parent P R f g2 y Hr2).
    + exact (remains_parent P R f g x Hr).
    + rewrite <- Ech in Hd.
      apply (distinct_one (linkList s i)); [exact Hd| |].
      * eapply in_inds. exact H2.
      * rewrite <- Ex. eapply in_inds. exact Hin0.
  - destruct (pruneFam_lists P s i Hi HA HB) as [_ HL].
    assert (Huniq : forall c x1 x2, In (x1, i) (linkList s c) ->
                      In (x2, i) (linkList s c) -> x1 = x2).
    { intros c x1 x2 H1 H2.
      apply (sh_sym P s HS) in H1. apply (sh_sym P s HS) in H2.
      rewrite <- Ech in Hd.
      apply (distinct_one (linkList s i)); eauto using in_inds. }
    assert (Hnew : forall f' g' x',
              In (x', g') (linkList (pruneFam P s i) f') <->
              In (x', g') (linkList s f') /\ f' <> i /\ g' <> i).
    { intros f' g' x'. rewrite HL.
      destruct (Nat.eqb_spec f' i) as [->|Hfi].
      - cbn [In]. tauto.
      - destruct (Nat.ltb_spec f' (NumFam P)) as [Hlt|Hge].
        + rewrite (without_spec i _ (x', g') (sh_nodup P s HS f') (Huniq f')).
          cbn [l_fam snd]. tauto.
        + split.
          * intros H. destruct (sh_bound P s HS _ _ _ H). lia.
          * tauto. }
    intros f' g' x'. rewrite Hnew. split.
    + intros (Hin & Hna & Hnb). apply Hrep in Hin.
      destruct Hin as (a & b & y & -> & -> & -> & Hr').
      exists a, b, y. repeat split; try reflexivity.
      apply remains_cons. split; [exact Hr'|].
      pose proof (proj1 (remains_spec _ _ _ _ _) Hr') as (Ha & Hb & _).
      split; intros ->; [apply Hna | apply Hnb]; now apply Hseq.
    + intros (a & b & y & -> & -> & -> & Hr').
      apply remains_cons in Hr'. destruct Hr' as (Hr' & Hna & Hnb).
      pose proof (proj1 (remains_spec _ _ _ _ _) Hr') as (Ha & Hb & _).
      split; [apply Hrep; exists a, b, y; auto|].
      split; intros E; [apply Hna | apply Hnb]; now apply Hseq.
Qed.

(** What the loops of [makeLinks] keep. *)
Definition graphInv (s : LinkState) : Prop :=
  linkInv P s /\ exists R, stripped P R /\ represents P R s.

Lemma makeLinks_graph (fuel : nat) :
  totalLinks P (buildLinks P) < fuel ->
  exists s R,
    makeLinks fuel P = Some s /\ linkInv P s /\
    stripped P R /\ represents P R s /\
    (forall f, ~ leaf P R f).
Proof.
  intros Hfuel.
  destruct (pruneLoop_spec P graphInv) with (fuel := fuel) (s := buildLinks P)
    as (s & Hs & (Hinv & R & HR & Hrep) & Hpruned).
  - intros s H. apply H.
  - intros s i Hi (Hinv & R & HR & Hrep) Hone.
    split; [now apply pruneFam_inv|].
    destruct (pruneFam_represents R s i Hi Hinv Hrep Hone) as (f & _ & Hl & Hrep').
    exists (f :: R). split; [now constructor | exact Hrep'].
  - split; [now apply buildLinks_inv|].
    exists []. split; [constructor | now apply buildLinks_represents].
  - exact Hfuel.
  - exists s, R. split; [exact Hs|]. split; [exact Hinv|].
    split; [exact HR|]. split; [exact Hrep|].
    intros f (x & Hx & Hall).
    apply connects_spec in Hx. destruct Hx as (g & Hr).
    pose proof (proj1 (remains_spec _ _ _ _ _) Hr) as (Hf & _).
    apply (Hpruned (fam_seq P f) (wf_seq_bound P WF f Hf)).
    destruct Hinv as (HA & _). rewrite HA.
    change 1%Z with (Z.of_nat 1). f_equal.
    apply (distinct_all_equal _ (ind_seq P x)).
    + intros E.
      assert (H : In (ind_seq P x, fam_seq P g) (linkList s (fam_seq P f))).
      { apply Hrep. exists f, g, x. auto. }
      rewrite E in H. destruct H.
    + intros y' Hy'. unfold inds in Hy'. apply in_map_iff in Hy'.
      destruct Hy' as ([y2 d2] & <- & Hin). cbn [l_ind fst].
      apply Hrep in Hin. destruct Hin as (a & b & y & Ea & -> & -> & Hr2).
      pose proof (proj1 (remains_spec _ _ _ _ _) Hr2) as (Ha & _).
      assert (a = f) by (apply (wf_seq_inj P WF); auto). subst a.
      f_equal. apply Hall. apply connects_spec. exists b. exact Hr2.
Qed.

(** *** The counts of [findBreaks], on the graph *)

Lemma sumTo_clear (n a : nat) (h : nat -> nat) :
  a < n -> sumTo n h = h a + sumTo n (fun k => if Nat.eqb k a then 0 else h k).
Proof.
  induction n as [|n IH]; intros Ha; [lia|]. cbn [sumTo].
  destruct (Nat.eqb_spec n a) as [->|Hne].
  - rewrite (sumTo_ext a (fun k => if Nat.eqb k a then 0 else h k) h); [lia|].
    intros k Hk. destruct (Nat.eqb_spec k a); [lia | reflexivity].
  - specialize (IH ltac:(lia)). lia.
Qed.

(** A sum over [0 .. n-1] whose terms vanish outside the image of a
    list under [phi], as a sum over the list. *)
Lemma sumTo_reindex (n : nat) (phi : nat -> nat) (l : list nat) : forall h,
  NoDup (map phi l) -> (forall a, In a l -> phi a < n) ->
  (forall k, k < n -> ~ In k (map phi l) -> h k = 0) ->
  sumTo n h = list_sum (map (fun a => h (phi a)) l).
Proof.
  induction l as [|a l IH]; intros h Hnd Hb Hz; cbn [map].
  - rewrite (sumTo_ext n h (fun _ => 0)); [apply sumTo_zero|].
    intros k Hk. apply Hz; [exact Hk | intros []].
  - cbn [map] in Hnd. inversion Hnd as [|? ? Hna Hnd']; subst.
    rewrite (sumTo_clear n (phi a) h) by (apply Hb; now left).
    change (list_sum (h (phi a) :: map (fun a0 => h (phi a0)) l))
      with (h (phi a) + list_sum (map (fun a0 => h (phi a0)) l)).
    f_equal.
    rewrite (IH (fun k => if Nat.eqb k (phi a) then 0 else h k)); try assumption.
    + f_equal. apply map_ext_in. intros b Hb'.
      destruct (Nat.eqb_spec (phi b) (phi a)) as [E|]; [|reflexivity].
      exfalso. apply Hna. rewrite <- E. now apply in_map.
    + intros b Hb'. apply Hb. now right.
    + intros k Hk Hn. destruct (Nat.eqb_spec k (phi a)) as [->|Hne]; [reflexivity|].
      apply Hz; [exact Hk|]. cbn [map In]. intros [E|E]; [congruence | contradiction].
Qed.

Lemma filter_length_sum {A : Type} (p : A -> bool) (l : list A) :
  List.length (filter p l) = list_sum (map (fun a => if p a then 1 else 0) l).
Proof.
  induction l as [|a l IH]; [reflexivity|]. cbn [filter map].
  change (list_sum ((if p a then 1 else 0) :: map (fun a0 => if p a0 then 1 else 0) l))
    with ((if p a then 1 else 0) + list_sum (map (fun a0 => if p a0 then 1 else 0) l)).
  destruct (p a); cbn [List.length]; lia.
Qed.

Lemma fams_NoDup : NoDup (map (fam_seq P) (ped_fams P)).
Proof.
  apply NoDup_map_NoDup_ForallPairs; [|apply (wf_chain P WF)].
  intros a b Ha Hb E. apply (wf_seq_inj P WF); assumption.
Qed.

Lemma people_NoDup : NoDup (map (ind_seq P) (people P)).
Proof.
  apply NoDup_map_NoDup_ForallPairs; [|apply NoDup_nodup].
  intros a b Ha Hb E. apply people_spec in Ha, Hb.
  apply (wf_rank_inj P WF); assumption.
Qed.

Section Counts.

Variables (R : list nat) (s : LinkState).
Hypothesis Hinv : linkInv P s.
Hypothesis Hrep : represents P R s.

Lemma chain_connects (f x : nat) :
  inFams P f -> isParent P x ->
  hasInd (ind_seq P x) (linkList s (fam_seq P f)) = connects P R f x.
Proof.
  intros Hf Hx. apply eq_true_iff_eq. rewrite hasInd_true, connects_spec. split.
  - intros H. unfold inds in H. apply in_map_iff in H.
    destruct H as ([x' g'] & E & Hin). cbn [l_ind fst] in E. subst x'.
    apply Hrep in Hin. destruct Hin as (a & b & y & Ea & -> & Ey & Hr).
    pose proof (proj1 (remains_spec _ _ _ _ _) Hr) as (Ha & _).
    assert (a = f) by (apply (wf_seq_inj P WF); auto). subst a.
    assert (y = x).
    { apply (wf_rank_inj P WF); [|exact Hx|congruence].
      exact (remains_parent _ _ _ _ _ Hr). }
    subst y. exists b. exact Hr.
  - intros (g & Hr). apply (in_inds _ (fam_seq P g)).
    apply Hrep. exists f, g, x. auto.
Qed.

Lemma chain_outside (f' : nat) :
  ~ In f' (map (fam_seq P) (ped_fams P)) -> linkList s f' = [].
Proof.
  intros Hn. destruct (linkList s f') as [|[x' g'] l] eqn:E; [reflexivity|].
  exfalso. apply Hn.
  assert (H : In (x', g') (linkList s f')) by (rewrite E; now left).
  apply Hrep in H. destruct H as (a & b & y & -> & _ & _ & Hr).
  apply in_map. apply remains_spec in Hr. apply Hr.
Qed.

Lemma chain_degree (f : nat) :
  inFams P f ->
  distinct (linkList s (fam_seq P f))
  = List.length (filter (connects P R f) (people P)).
Proof.
  intros Hf. unfold distinct.
  rewrite <- (length_map (ind_seq P) (filter (connects P R f) (people P))).
  apply Permutation_length, NoDup_Permutation.
  - apply NoDup_nodup.
  - apply NoDup_map_NoDup_ForallPairs.
    + intros a b Ha Hb E. apply filter_In in Ha, Hb.
      destruct Ha as [Ha _]. destruct Hb as [Hb _].
      apply people_spec in Ha, Hb. apply (wf_rank_inj P WF); assumption.
    + apply NoDup_filter, NoDup_nodup.
  - intros x'. rewrite nodup_In, in_map_iff. split.
    + intros H. unfold inds in H. apply in_map_iff in H.
      destruct H as ([x2 g'] & E & Hin). cbn [l_ind fst] in E. subst x2.
      pose proof Hin as Hin'.
      apply Hrep in Hin. destruct Hin as (a & b & y & Ea & -> & -> & Hr).
      pose proof (proj1 (remains_spec _ _ _ _ _) Hr) as (Ha & _).
      assert (a = f) by (apply (wf_seq_inj P WF); auto). subst a.
      exists y. split; [reflexivity|]. apply filter_In.
      pose proof (remains_parent _ _ _ _ _ Hr) as Hy.
      split; [now apply people_spec|].
      apply connects_spec. exists b. exact Hr.
    + intros (x & <- & Hx). apply filter_In in Hx. destruct Hx as [Hx Hc].
      apply people_spec in Hx.
      apply hasInd_true. rewrite (chain_connects f x Hf Hx). exact Hc.
Qed.

Lemma remainingArcs_graph : remainingArcs P s = arcsLeft P R.
Proof.
  unfold remainingArcs, arcsLeft.
  rewrite (sumTo_reindex (NumFam P) (fam_seq P) (ped_fams P)).
  - f_equal. apply map_ext_in. intros f Hf. now apply chain_degree.
  - apply fams_NoDup.
  - intros f Hf. now apply (wf_seq_bound P WF).
  - intros k _ Hk. rewrite (chain_outside k Hk). reflexivity.
Qed.

Lemma hasLinks_graph (f : nat) :
  inFams P f ->
  hasLinks s (fam_seq P f) = existsb (connects P R f) (people P).
Proof.
  intros Hf. rewrite hasLinks_distinct, (chain_degree f Hf).
  destruct (existsb (connects P R f) (people P)) eqn:E.
  - apply existsb_exists in E. destruct E as (x & Hx & Hc).
    destruct (filter (connects P R f) (people P)) as [|a l] eqn:F; [|reflexivity].
    assert (H : In x (filter (connects P R f) (people P)))
      by (apply filter_In; auto).
    rewrite F in H. destruct H.
  - destruct (filter (connects P R f) (people P)) as [|a l] eqn:F; [reflexivity|].
    assert (H : In a (filter (connects P R f) (people P))) by (rewrite F; now left).
    apply filter_In in H. destruct H as [Ha Hc].
    assert (existsb (connects P R f) (people P) = true)
      by (apply existsb_exists; exists a; auto).
    congruence.
Qed.

Lemma inSomeLink_graph (x : nat) :
  isParent P x ->
  inSomeLink P s (ind_seq P x)
  = existsb (fun f => connects P R f x) (ped_fams P).
Proof.
  intros Hx. apply eq_true_iff_eq. unfold inSomeLink.
  rewrite !existsb_exists. split.
  - intros (f' & _ & H).
    destruct (in_dec Nat.eq_dec f' (map (fam_seq P) (ped_fams P))) as [Hin|Hn].
    + apply in_map_iff in Hin. destruct Hin as (f & <- & Hf).
      exists f. split; [exact Hf|]. rewrite <- (chain_connects f x Hf Hx). exact H.
    + rewrite (chain_outside f' Hn) in H. discriminate.
  - intros (f & Hf & H). exists (fam_seq P f). split.
    + apply in_seq. pose proof (wf_seq_bound P WF f Hf). lia.
    + rewrite (chain_connects f x Hf Hx). exact H.
Qed.

Lemma inSomeLink_outside (x' : nat) :
  ~ In x' (map (ind_seq P) (people P)) -> inSomeLink P s x' = false.
Proof.
  intros Hn. unfold inSomeLink.
  destruct (existsb _ _) eqn:E; [|reflexivity].
  apply existsb_exists in E. destruct E as (f' & _ & H).
  apply hasInd_true in H. unfold inds in H. apply in_map_iff in H.
  destruct H as ([x2 g'] & E & Hin). cbn [l_ind fst] in E. subst x2.
  apply Hrep in Hin. destruct Hin as (a & b & y & _ & _ & -> & Hr).
  exfalso. apply Hn, in_map, people_spec. exact (remains_parent _ _ _ _ _ Hr).
Qed.

Lemma remainingNodes_graph : remainingNodes P s = nodesLeft P R.
Proof.
  unfold remainingNodes, nodesLeft. rewrite !filter_length_sumTo. f_equal.
  - rewrite (sumTo_reindex (NumFam P) (fam_seq P) (ped_fams P)).
    + rewrite filter_length_sum. f_equal. apply map_ext_in.
      intros f Hf. now rewrite hasLinks_graph.
    + apply fams_NoDup.
    + intros f Hf. now apply (wf_seq_bound P WF).
    + intros k _ Hk. unfold hasLinks. now rewrite (chain_outside k Hk).
  - rewrite (sumTo_reindex (NumInd P) (ind_seq P) (people P)).
    + rewrite filter_length_sum. f_equal. apply map_ext_in.
      intros x Hx. apply people_spec in Hx. now rewrite inSomeLink_graph.
    + apply people_NoDup.
    + intros x Hx. apply people_spec in Hx. now apply (wf_rank_bound P WF).
    + intros k _ Hk. now rewrite (inSomeLink_outside k Hk).
Qed.

End Counts.

End Strip.

(** C3. For a pedigree that fails the first test, [makeLinks] leaves
    in its chains the family-link graph of the pedigree with leaf
    families taken out one after the other until none is left with
    exactly one link, and the count [checkLooping] stores is the arcs
    of what remains minus its nodes plus one, whatever the
    uninitialised local of [findBreaks] held. *)
Theorem checkLooping_circuit_rank (P : Pedigree) (fuel : nat) (junk : Z) :
  wellFormed P ->
  totalLinks P (buildLinks P) < fuel ->
  ped_nind P + ped_nfam P
    <= list_sum (map (fun f => fam_nkid P f + 2) (ped_fams P)) ->
  exists R s r,
    stripped P R /\ (forall f, ~ leaf P R f) /\
    makeLinks fuel P = Some s /\ represents P R s /\
    checkLooping fuel P junk = Some r /\
    hasloops r = true /\
    nlbrk r = (Z.of_nat (arcsLeft P R) - Z.of_nat (nodesLeft P R) + 1)%Z.
Proof.
  intros WF Hfuel Hloops.
  destruct (makeLinks_graph P WF fuel Hfuel)
    as (s & R & Hs & Hinv & HR & Hrep & Hleaf).
  assert (Hpruned : forall i, i < NumFam P -> nlink s i <> 1%Z).
  { destruct (makeLinks_inv P fuel WF Hfuel) as (s' & Hs' & _ & Hp).
    rewrite Hs in Hs'. injection Hs' as <-. exact Hp. }
  exists R, s. eexists.
  split; [exact HR|]. split; [exact Hleaf|]. split; [exact Hs|].
  split; [exact Hrep|].
  unfold checkLooping. rewrite pedArcs_spec.
  destruct (Nat.ltb_spec (list_sum (map (fun f => fam_nkid P f + 2) (ped_fams P)))
                         (ped_nind P + ped_nfam P)); [lia|].
  rewrite Hs. split; [reflexivity|]. split; [reflexivity|]. cbn [nlbrk].
  rewrite (findBreaks_spec P s junk Hinv Hpruned).
  rewrite (remainingArcs_graph P WF R s Hrep).
  rewrite (remainingNodes_graph P WF R s Hrep). reflexivity.
Qed.

(** Two sibling matings, one after the other: founders 0 and 1, their
    children 2 and 3 (family 0), the children 4 and 5 of these two
    (family 1), and the child 6 of 4 and 5 (family 2). *)
Definition sibMatings : Pedigree :=
  {| NumInd := 7; NumFam := 3; IndSort := (fun i => i);
     ind_fam := (fun i => match i with
                          | 2 | 3 => Some 0
                          | 4 | 5 => Some 1
                          | 6 => Some 2
                          | _ => None
                          end);
     ind_seq := (fun i => i);
     fam_fa := (fun f => match f with 0 => 0 | 1 => 2 | _ => 4 end);
     fam_mo := (fun f => match f with 0 => 1 | 1 => 3 | _ => 5 end);
     fam_nkid := (fun f => match f with 0 => 2 | 1 => 2 | _ => 1 end);
     fam_seq := (fun f => f);
     ped_fams := [0; 1; 2]; ped_nind := 7; ped_nfam := 3 |}.

Lemma sibMatings_wellFormed : wellFormed sibMatings.
Proof.
  assert (Hfam : forall f, inFams sibMatings f -> f = 0 \/ f = 1 \/ f = 2).
  { intros f [H|[H|[H|[]]]]; auto. }
  assert (Hpar : forall p, isParent sibMatings p ->
                   p = 0 \/ p = 1 \/ p = 2 \/ p = 3 \/ p = 4 \/ p = 5).
  { intros p (f & Hf & Hp). destruct (Hfam f Hf) as [-> | [-> | ->]];
      cbn in Hp; destruct Hp as [<-|<-]; auto 7. }
  constructor.
  - repeat constructor; cbn; intros H; repeat destruct H as [H|H];
      try discriminate; assumption.
  - intros f g _ _ H. exact H.
  - intros f Hf. destruct (Hfam f Hf) as [-> | [-> | ->]]; cbn; repeat constructor.
  - intros p q _ _ H. exact H.
  - intros p Hp. destruct (Hpar p Hp) as [->|[->|[->|[->|[->| ->]]]]]; cbn;
      repeat constructor.
  - intros f Hf. destruct (Hfam f Hf) as [-> | [-> | ->]]; cbn; discriminate.
  - intros p g Hp Hg.
    destruct (Hpar p Hp) as [->|[->|[->|[->|[->| ->]]]]]; cbn in Hg;
      try discriminate; injection Hg as <-; cbn; auto.
  - intros p g Hg.
    destruct p as [|[|[|[|[|[|[|p]]]]]]]; cbn in Hg; try discriminate;
      injection Hg as <-; cbn; split; discriminate.
Qed.

Lemma sibMatings_fuel : totalLinks sibMatings (buildLinks sibMatings) < 9.
Proof. vm_compute. repeat constructor. Qed.

Lemma checkLooping_circuit_rank_witness :
  wellFormed sibMatings /\
  totalLinks sibMatings (buildLinks sibMatings) < 9 /\
  ped_nind sibMatings + ped_nfam sibMatings
    <= list_sum (map (fun f => fam_nkid sibMatings f + 2) (ped_fams sibMatings)) /\
  exists R r, stripped sibMatings R /\
              checkLooping 9 sibMatings 0%Z = Some r /\
              hasloops r = true /\ nlbrk r = 2%Z /\
              (Z.of_nat (arcsLeft sibMatings R)
               - Z.of_nat (nodesLeft sibMatings R) + 1 = 2)%Z.
Proof.
  assert (H3 : ped_nind sibMatings + ped_nfam sibMatings
               <= list_sum (map (fun f => fam_nkid sibMatings f + 2)
                                (ped_fams sibMatings)))
    by (vm_compute; repeat constructor).
  split; [exact sibMatings_wellFormed|]. split; [exact sibMatings_fuel|].
  split; [exact H3|].
  destruct (checkLooping_circuit_rank sibMatings 9 0%Z sibMatings_wellFormed
              sibMatings_fuel H3) as (R & s & r & HR & _ & _ & _ & Hr & Hh & Hn).
  exists R, r. split; [exact HR|]. split; [exact Hr|]. split; [exact Hh|].
  assert (E : nlbrk r = 2%Z).
  { vm_compute in Hr. injection Hr as <-. reflexivity. }
  split; [exact E|]. rewrite <- Hn. exact E.
Defined.

End LoopGraph.
(** ** The arithmetic of C on [float] and [double] *)

Module CFloat.

(** [float] is IEEE 754 binary32 and [double] binary64; results are
    rounded to the nearest value, ties to even, and every operation is
    rounded to the type it has in C ([FLT_EVAL_METHOD] 0, no fused
    operations, as on x86-64).  The numbers and operations are those of
    the Standard Library's [SpecFloat]. *)
Definition float : Type := spec_float.
Definition double : Type := spec_float.

(** A value rounded to the format of precision [prec] whose exponents
    stay below [emax]. *)
Definition rounded (prec emax : Z) (x : spec_float) : spec_float :=
  match x with
  | S754_finite s m e => binary_round prec emax s m e
  | _ => x
  end.

(** The conversion of an assignment to a [float], and the promotion of
    a [float] to [double] (which changes no value). *)
Definition toFloat (x : double) : float := rounded 24 128 x.
Definition toDouble (x : float) : double := rounded 53 1024 x.

(** An [int] converted to [float] and to [double]. *)
Definition fint (z : Z) : float := binary_normalize 24 128 z 0 false.
Definition dint (z : Z) : double := binary_normalize 53 1024 z 0 false.

Definition fadd (x y : float) : float := SFadd 24 128 x y.
Definition fmul (x y : float) : float := SFmul 24 128 x y.
Definition dadd (x y : double) : double := SFadd 53 1024 x y.
Definition dmul (x y : double) : double := SFmul 53 1024 x y.

(** The constants [.5] and [.25]. *)
Definition half : double := binary_normalize 53 1024 1 (-1) false.
Definition quarter : double := binary_normalize 53 1024 1 (-2) false.

(** [x == 0] on a [float]; [x > y] on [double]s.  A NaN is neither
    equal to nor greater than anything. *)
Definition isZero (x : float) : bool := SFeqb x (fint 0).
Definition dgt (x y : double) : bool := SFltb y x.

(** The number a finite value stands for (0 for the others). *)
Definition value (x : spec_float) : Q :=
  match x with
  | S754_finite s m e =>
      ((if s then -1 else 1) * inject_Z (Zpos m) * Qpower 2 e)%Q
  | _ => 0%Q
  end.

(** *** [printf] with [%10.7f] *)

(** [|x| 10^7] for [|x| = m 2^e], rounded to the nearest integer, ties
    to even: the GNU C library rounds the exact decimal expansion. *)
Definition scaled7 (m : positive) (e : Z) : N :=
  let num := (Zpos m * 10 ^ 7)%Z in
  match e with
  | Zneg p =>
      let den := (2 ^ Zpos p)%Z in
      let q := (num / den)%Z in
      let r := (num mod den)%Z in
      Z.to_N match (2 * r ?= den)%Z with
             | Lt => q
             | Gt => (q + 1)%Z
             | Eq => if Z.even q then q else (q + 1)%Z
             end
  | _ => Z.to_N (num * 2 ^ e)%Z
  end.

Fixpoint repeated (c : ascii) (n : nat) : string :=
  match n with
  | O => EmptyString
  | S k => String c (repeated c k)
  end.

Definition decimal (n : N) : string := NilZero.string_of_uint (N.to_uint n).

(** Sign, integer part, point and seven decimals of [n 10^-7]. *)
Definition fixed7 (neg : bool) (n : N) : string :=
  let frac := decimal (n mod 10 ^ 7) in
  append (if neg then "-" else "")%string
    (append (decimal (n / 10 ^ 7))
       (append "." (append (repeated "0" (7 - String.length frac)) frac))).

(** The text [%10.7f] gives for a [double]: blanks ahead of it up to
    the width of 10.  (The sign that the library prints for a NaN is
    not kept by [spec_float].) *)
Definition pct_10_7f (x : double) : string :=
  let text := match x with
              | S754_zero s => fixed7 s 0
              | S754_finite s m e => fixed7 s (scaled7 m e)
              | S754_infinity s => if s then "-inf"%string else "inf"%string
              | S754_nan => "nan"%string
              end in
  append (repeated " " (10 - String.length text)) text.

(** The number a text of [pct_10_7f] stands for, read from its
    digits: the sign, and the digits as an integer of [10^-7]. *)
Fixpoint digitsOf (s : string) (acc : Z) : Z :=
  match s with
  | String c s' =>
      let n := nat_of_ascii c in
      if Nat.leb 48 n && Nat.leb n 57
      then digitsOf s' (10 * acc + Z.of_nat (n - 48))%Z
      else digitsOf s' acc
  | EmptyString => acc
  end.

Fixpoint hasMinus (s : string) : bool :=
  match s with
  | String c s' => Ascii.eqb c "-" || hasMinus s'
  | EmptyString => false
  end.

Definition shown (text : string) : Q :=
  ((if hasMinus text then -1 else 1) * (digitsOf text 0 # 10000000))%Q.

(** *** Signs *)

(** The value is not below zero: a zero or a finite or infinite value
    without the sign bit, or a NaN. *)
Definition nonneg (x : spec_float) : bool :=
  match x with
  | S754_zero s | S754_infinity s | S754_finite s _ _ => negb s
  | S754_nan => true
  end.

Lemma binary_round_aux_nonneg (prec emax : Z) (m e : Z) (l : location) :
  nonneg (binary_round_aux prec emax false m e l) = true.
Proof.
  unfold binary_round_aux.
  destruct (shr_fexp prec emax m e l) as [mrs' e'].
  destruct (shr_fexp prec emax _ e' loc_Exact) as [mrs'' e''].
  destruct (shr_m mrs''); [reflexivity| |reflexivity].
  destruct (e'' <=? emax - prec)%Z; reflexivity.
Qed.

Lemma binary_round_nonneg (prec emax : Z) (m : positive) (e : Z) :
  nonneg (binary_round prec emax false m e) = true.
Proof.
  unfold binary_round. destruct (shl_align m e _) as [mz ez].
  apply binary_round_aux_nonneg.
Qed.

Lemma rounded_nonneg (prec emax : Z) (x : spec_float) :
  nonneg x = true -> nonneg (rounded prec emax x) = true.
Proof.
  destruct x as [s|s| |s m e]; cbn [rounded]; try (intros H; exact H).
  destruct s; [discriminate|]. intros _. apply binary_round_nonneg.
Qed.

Lemma SFmul_nonneg (prec emax : Z) (x y : spec_float) :
  nonneg x = true -> nonneg y = true -> nonneg (SFmul prec emax x y) = true.
Proof.
  destruct x as [[|]|[|]| |[|] mx ex]; try discriminate;
    destruct y as [[|]|[|]| |[|] my ey]; try discriminate;
    intros _ _; try reflexivity.
  cbn [SFmul xorb]. apply binary_round_aux_nonneg.
Qed.

Lemma SFadd_nonneg (prec emax : Z) (x y : spec_float) :
  nonneg x = true -> nonneg y = true -> nonneg (SFadd prec emax x y) = true.
Proof.
  destruct x as [[|]|[|]| |[|] mx ex]; try discriminate;
    destruct y as [[|]|[|]| |[|] my ey]; try discriminate;
    intros _ _; try reflexivity.
  cbn [SFadd cond_Zopp].
  destruct (shl_align mx ex (Z.min ex ey)) as [mx' ex'].
  destruct (shl_align my ey (Z.min ex ey)) as [my' ey'].
  cbn [fst Z.add binary_normalize]. apply binary_round_nonneg.
Qed.

Local Open Scope Z_scope.

(** *** Magnitudes *)

Lemma digits2_log2 (p : positive) : Zpos (digits2_pos p) = Z.log2 (Zpos p) + 1.
Proof.
  induction p as [p IH|p IH|]; cbn [digits2_pos].
  - rewrite Pos2Z.inj_succ, IH.
    change (Z.log2 (Zpos p~1)) with (Zpos (Pos.size p)).
    clear IH. induction p as [p IH|p IH|]; cbn [Pos.size Z.log2]; try reflexivity;
      rewrite Pos2Z.inj_succ; lia.
  - rewrite Pos2Z.inj_succ, IH.
    change (Z.log2 (Zpos p~0)) with (Zpos (Pos.size p)).
    clear IH. induction p as [p IH|p IH|]; cbn [Pos.size Z.log2]; try reflexivity;
      rewrite Pos2Z.inj_succ; lia.
  - reflexivity.
Qed.

Lemma Zdigits2_log2 (m : Z) : 0 < m -> Zdigits2 m = Z.log2 m + 1.
Proof. destruct m as [|p|p]; try lia. intros _. apply digits2_log2. Qed.

Lemma Zdigits2_mono (a b : Z) : 0 <= a <= b -> Zdigits2 a <= Zdigits2 b.
Proof.
  intros [Ha Hab]. destruct (Z.eq_dec a 0) as [->|Na].
  - destruct b; cbn [Zdigits2]; lia.
  - rewrite !Zdigits2_log2 by lia. pose proof (Z.log2_le_mono a b Hab). lia.
Qed.

Lemma Zdigits2_pos (m : Z) : 0 <= m -> 0 < Zdigits2 m -> 0 < m.
Proof. destruct m; cbn [Zdigits2]; lia. Qed.

Lemma shr_1_spec (mrs : shr_record) :
  0 <= shr_m mrs ->
  0 <= shr_m (shr_1 mrs) /\
  Zdigits2 (shr_m (shr_1 mrs)) = Z.max 0 (Zdigits2 (shr_m mrs) - 1).
Proof.
  destruct mrs as [m r s]. cbn [shr_m].
  destruct m as [|[p|p|]|p]; cbn [shr_1 shr_m Zdigits2 digits2_pos]; lia.
Qed.

Lemma iter_shr_1_spec (p : positive) : forall mrs,
  0 <= shr_m mrs ->
  0 <= shr_m (iter_pos shr_1 p mrs) /\
  Zdigits2 (shr_m (iter_pos shr_1 p mrs))
  = Z.max 0 (Zdigits2 (shr_m mrs) - Zpos p).
Proof.
  induction p as [p IH|p IH|]; intros mrs H; cbn [iter_pos].
  - destruct (shr_1_spec mrs H) as [H1 E1].
    destruct (IH _ H1) as [H2 E2]. destruct (IH _ H2) as [H3 E3].
    split; [exact H3|]. rewrite E3, E2, E1. lia.
  - destruct (IH _ H) as [H2 E2]. destruct (IH _ H2) as [H3 E3].
    split; [exact H3|]. rewrite E3, E2. lia.
  - apply shr_1_spec, H.
Qed.

(** What [shr_fexp] leaves of a positive [m] of magnitude
    [d = digits m + e] above [emin]: a positive mantissa of the same
    magnitude. *)
Lemma shr_fexp_spec (prec emax : Z) (m e : Z) (l : location) :
  0 < prec -> 0 < m -> emin prec emax < Zdigits2 m + e ->
  0 < shr_m (fst (shr_fexp prec emax m e l)) /\
  Zdigits2 (shr_m (fst (shr_fexp prec emax m e l)))
    + snd (shr_fexp prec emax m e l) = Zdigits2 m + e.
Proof.
  intros Hp Hm Hd. unfold shr_fexp, shr.
  set (d := Zdigits2 m + e) in *.
  assert (Hf : fexp prec emax d < d) by (unfold fexp; lia).
  assert (Hr : shr_m (shr_record_of_loc m l) = m)
    by (destruct l as [|[| |]]; reflexivity).
  destruct (fexp prec emax d - e) as [|p|p] eqn:En; cbn [fst snd];
    rewrite ?Hr; try (split; [exact Hm | reflexivity]).
  destruct (iter_shr_1_spec p (shr_record_of_loc m l)) as [H1 E1];
    [rewrite Hr; lia|].
  rewrite Hr in E1.
  assert (Hdig : Zdigits2 (shr_m (iter_pos shr_1 p (shr_record_of_loc m l)))
                 = Zdigits2 m - Zpos p) by (rewrite E1; unfold d in *; lia).
  split.
  - apply Zdigits2_pos; [exact H1|]. rewrite Hdig. unfold d in *. lia.
  - rewrite Hdig. unfold d. lia.
Qed.

Lemma round_nearest_even_ge (m : Z) (l : location) :
  m <= round_nearest_even m l <= m + 1.
Proof.
  destruct l as [|[| |]]; cbn [round_nearest_even]; try lia.
  destruct (Z.even m); lia.
Qed.

(** Rounding does not take a positive value below the power of two
    under it. *)
Lemma binary_round_aux_magnitude (prec emax : Z) (s : bool) (m e : Z)
      (l : location) (d0 : Z) :
  0 < prec -> 0 < m -> emin prec emax < d0 -> d0 <= Zdigits2 m + e ->
  binary_round_aux prec emax s m e l = S754_infinity s \/
  exists m' e', binary_round_aux prec emax s m e l = S754_finite s m' e' /\
                d0 <= Zpos (digits2_pos m') + e'.
Proof.
  intros Hp Hm Hd0 Hd. unfold binary_round_aux.
  destruct (shr_fexp_spec prec emax m e l Hp Hm ltac:(lia)) as [H1 E1].
  destruct (shr_fexp prec emax m e l) as [mrs1 e1]. cbn [fst snd] in H1, E1.
  set (m2 := round_nearest_even (shr_m mrs1) (loc_of_shr_record mrs1)).
  pose proof (round_nearest_even_ge (shr_m mrs1) (loc_of_shr_record mrs1)) as H2.
  fold m2 in H2.
  pose proof (Zdigits2_mono (shr_m mrs1) m2 ltac:(lia)) as Hmono.
  destruct (shr_fexp_spec prec emax m2 e1 loc_Exact Hp ltac:(lia) ltac:(lia))
    as [H3 E3].
  destruct (shr_fexp prec emax m2 e1 loc_Exact) as [mrs3 e3].
  cbn [fst snd] in H3, E3.
  destruct (shr_m mrs3) as [|m3|m3] eqn:Em3; try lia.
  destruct (e3 <=? emax - prec); [|left; reflexivity].
  right. exists m3, e3. split; [reflexivity|].
  cbn [Zdigits2] in E3. lia.
Qed.

Lemma shl_align_spec (m : positive) (e e' : Z) :
  Zpos (digits2_pos (fst (shl_align m e e'))) + snd (shl_align m e e')
  = Zpos (digits2_pos m) + e.
Proof.
  unfold shl_align. destruct (e' - e) as [|p|p] eqn:E; cbn [fst snd]; try reflexivity.
  assert (H : forall n, Zpos (digits2_pos (nat_rect (fun _ => positive) m
                                               (fun _ => xO) n))
                        = Zpos (digits2_pos m) + Z.of_nat n).
  { induction n as [|n IH].
    - cbn [nat_rect]. lia.
    - cbn [nat_rect digits2_pos]. rewrite Pos2Z.inj_succ, IH. lia. }
  rewrite Pos2Nat.inj_iter.
  rewrite H, positive_nat_Z. lia.
Qed.

Lemma binary_round_magnitude (prec emax : Z) (s : bool) (m : positive) (e d0 : Z) :
  0 < prec -> emin prec emax < d0 -> d0 <= Zpos (digits2_pos m) + e ->
  binary_round prec emax s m e = S754_infinity s \/
  exists m' e', binary_round prec emax s m e = S754_finite s m' e' /\
                d0 <= Zpos (digits2_pos m') + e'.
Proof.
  intros Hp Hd0 Hd. unfold binary_round.
  pose proof (shl_align_spec m e (fexp prec emax (Zpos (digits2_pos m) + e))) as E.
  destruct (shl_align m e _) as [mz ez]. cbn [fst snd] in E.
  apply binary_round_aux_magnitude; try assumption; [lia|].
  cbn [Zdigits2]. lia.
Qed.

(** Not below one: a positive value of at least 1, [+inf], or a NaN. *)
Definition notBelowOne (x : spec_float) : bool :=
  match x with
  | S754_finite false m e => 1 <=? Zpos (digits2_pos m) + e
  | S754_infinity false => true
  | S754_nan => true
  | _ => false
  end.

Lemma rounded_notBelowOne (prec emax : Z) (x : spec_float) :
  0 < prec -> emin prec emax < 1 ->
  notBelowOne x = true -> notBelowOne (rounded prec emax x) = true.
Proof.
  intros Hp He. destruct x as [s|[|]| |[|] m e]; cbn [notBelowOne rounded];
    try discriminate; try reflexivity.
  intros H. apply Z.leb_le in H.
  destruct (binary_round_magnitude prec emax false m e 1 Hp He H)
    as [E|(m' & e' & E & H')]; rewrite E; cbn [notBelowOne]; [reflexivity|].
  apply Z.leb_le. exact H'.
Qed.

(** [1 + y] in [double] for a [y] that is not below zero. *)
Lemma dadd_one_notBelowOne (y : double) :
  nonneg y = true -> notBelowOne (dadd (dint 1) y) = true.
Proof.
  change (dint 1) with (S754_finite false 4503599627370496 (-52)).
  destruct y as [[|]|[|]| |[|] my ey]; try discriminate; intros _;
    try reflexivity.
  unfold dadd. cbn [SFadd cond_Zopp].
  set (ez := Z.min (-52) ey).
  pose proof (shl_align_spec 4503599627370496 (-52) ez) as E1.
  assert (S1 : snd (shl_align 4503599627370496 (-52) ez) = ez).
  { unfold shl_align. destruct (ez - -52) as [|p|p] eqn:E; cbn [snd]; unfold ez in *; lia. }
  destruct (shl_align 4503599627370496 (-52) ez) as [m1 e1].
  destruct (shl_align my ey ez) as [m2 e2].
  cbn [fst snd] in *. subst e1.
  change (Zpos m1 + Zpos m2) with (Zpos (m1 + m2)). cbn [binary_normalize].
  assert (Hd : 1 <= Zpos (digits2_pos (m1 + m2)) + ez).
  { pose proof (Zdigits2_mono (Zpos m1) (Zpos (m1 + m2)) ltac:(lia)) as Hm.
    cbn [Zdigits2] in Hm. cbn [digits2_pos] in E1.
    change (Zpos (digits2_pos 4503599627370496)) with 53 in E1. lia. }
  destruct (binary_round_magnitude 53 1024 false (m1 + m2) ez 1
              ltac:(lia) ltac:(unfold emin; lia) Hd)
    as [E|(m' & e' & E & H')]; rewrite E; cbn [notBelowOne]; [reflexivity|].
  apply Z.leb_le. exact H'.
Qed.

Lemma notBelowOne_nonzero (x : float) : notBelowOne x = true -> isZero x = false.
Proof.
  destruct x as [s|[|]| |[|] m e]; cbn [notBelowOne]; try discriminate;
    intros _; reflexivity.
Qed.

Lemma notBelowOne_nonneg (x : spec_float) : notBelowOne x = true -> nonneg x = true.
Proof.
  destruct x as [s|[|]| |[|] m e]; cbn [notBelowOne]; try discriminate;
    intros _; reflexivity.
Qed.

Lemma isZero_zero : isZero (fint 0) = true.
Proof. reflexivity. Qed.

Lemma isZero_one : isZero (fint 1) = false.
Proof. reflexivity. Qed.

(** *** Values no larger than a power of two *)

(** [0 <= x <= 2^k], for a finite [x]. *)
Definition upTo (k : Z) (x : spec_float) : bool :=
  match x with
  | S754_zero false => true
  | S754_finite false m e => (e <=? k) && (Zpos m <=? 2 ^ (k - e))
  | _ => false
  end.

Lemma shr_1_value (mrs : shr_record) :
  0 <= shr_m mrs ->
  shr_m (shr_1 mrs) = shr_m mrs / 2 /\
  ((2 | shr_m mrs) -> shr_r mrs = false -> shr_s mrs = false ->
   shr_r (shr_1 mrs) = false /\ shr_s (shr_1 mrs) = false).
Proof.
  destruct mrs as [m r s]. cbn [shr_m shr_r shr_s].
  destruct m as [|[p|p|]|p]; cbn [shr_1 shr_m shr_r shr_s]; intros Hm; try lia.
  - split; [reflexivity|]. intros _ -> ->. auto.
  - split.
    + rewrite Pos2Z.inj_xI. apply Z.div_unique with (r := 1); lia.
    + intros [c Hc]. lia.
  - split.
    + rewrite Pos2Z.inj_xO. apply Z.div_unique with (r := 0); lia.
    + intros _ -> ->. auto.
  - split; [reflexivity|]. intros [c Hc]. lia.
Qed.

Lemma divide_split (a b m : Z) :
  0 < a -> 0 < b -> (a * b | m) -> (a | m) /\ (b | m / a).
Proof.
  intros Ha Hb [c Hc]. split.
  - exists (c * b). lia.
  - exists c. subst m. replace (c * (a * b)) with (c * b * a) by lia.
    rewrite Z.div_mul by lia. reflexivity.
Qed.

Lemma iter_shr_1_value (p : positive) : forall mrs,
  0 <= shr_m mrs ->
  shr_m (iter_pos shr_1 p mrs) = shr_m mrs / 2 ^ Zpos p /\
  ((2 ^ Zpos p | shr_m mrs) -> shr_r mrs = false -> shr_s mrs = false ->
   shr_r (iter_pos shr_1 p mrs) = false /\ shr_s (iter_pos shr_1 p mrs) = false).
Proof.
  induction p as [p IH|p IH|]; intros mrs H; cbn [iter_pos].
  - destruct (shr_1_value mrs H) as [E1 X1].
    assert (H1 : 0 <= shr_m (shr_1 mrs)) by (rewrite E1; apply Z.div_pos; lia).
    destruct (IH _ H1) as [E2 X2].
    assert (H2 : 0 <= shr_m (iter_pos shr_1 p (shr_1 mrs)))
      by (rewrite E2; apply Z.div_pos; [lia | apply Z.pow_pos_nonneg; lia]).
    destruct (IH _ H2) as [E3 X3].
    assert (Ep : 2 ^ Zpos p~1 = 2 * (2 ^ Zpos p * 2 ^ Zpos p)).
    { replace (Zpos p~1) with (1 + (Zpos p + Zpos p)) by lia.
      rewrite !Z.pow_add_r by lia. reflexivity. }
    assert (Hpp : 0 < 2 ^ Zpos p) by (apply Z.pow_pos_nonneg; lia).
    split.
    + rewrite E3, E2, E1, Ep, !Z.div_div by lia. reflexivity.
    + intros Hd Hr Hs. rewrite Ep in Hd.
      destruct (divide_split 2 (2 ^ Zpos p * 2 ^ Zpos p) _ ltac:(lia) ltac:(lia) Hd)
        as [D1 D2].
      destruct (X1 D1 Hr Hs) as [R1 S1].
      rewrite <- E1 in D2.
      destruct (divide_split _ _ _ Hpp Hpp D2) as [D3 D4].
      destruct (X2 D3 R1 S1) as [R2 S2].
      rewrite <- E2 in D4. exact (X3 D4 R2 S2).
  - destruct (IH _ H) as [E2 X2].
    assert (Hpp : 0 < 2 ^ Zpos p) by (apply Z.pow_pos_nonneg; lia).
    assert (H2 : 0 <= shr_m (iter_pos shr_1 p mrs))
      by (rewrite E2; apply Z.div_pos; lia).
    destruct (IH _ H2) as [E3 X3].
    assert (Ep : 2 ^ Zpos p~0 = 2 ^ Zpos p * 2 ^ Zpos p).
    { replace (Zpos p~0) with (Zpos p + Zpos p) by lia.
      apply Z.pow_add_r; lia. }
    split.
    + rewrite E3, E2, Ep, Z.div_div by lia. reflexivity.
    + intros Hd Hr Hs. rewrite Ep in Hd.
      destruct (divide_split _ _ _ Hpp Hpp Hd) as [D3 D4].
      destruct (X2 D3 Hr Hs) as [R2 S2].
      rewrite <- E2 in D4. exact (X3 D4 R2 S2).
  - change (2 ^ 1) with 2. apply shr_1_value, H.
Qed.

Lemma Zdigits2_le_pow (m K : Z) : 0 < m -> 0 <= K -> m <= 2 ^ K -> Zdigits2 m <= K + 1.
Proof.
  intros Hm HK H. rewrite Zdigits2_log2 by lia.
  pose proof (Z.log2_le_mono m (2 ^ K) H) as L.
  rewrite Z.log2_pow2 in L by lia. lia.
Qed.

(** One [shr_fexp] on an exact positive mantissa that is at most
    [2^(k-e)]: the mantissa left is the quotient, and the later
    rounding stays at most [2^(k-e')]. *)
Lemma shr_fexp_upTo (prec emax k m e : Z) :
  0 < prec -> emin prec emax <= k -> 0 < m -> e <= k -> m <= 2 ^ (k - e) ->
  let mrs := fst (shr_fexp prec emax m e loc_Exact) in
  let e' := snd (shr_fexp prec emax m e loc_Exact) in
  e <= e' <= k /\
  0 <= shr_m mrs <= 2 ^ (k - e') /\
  round_nearest_even (shr_m mrs) (loc_of_shr_record mrs) <= 2 ^ (k - e').
Proof.
  intros Hp Hemin Hm He Hb. unfold shr_fexp, shr.
  set (d := Zdigits2 m + e).
  assert (Hd : d <= k + 1).
  { pose proof (Zdigits2_le_pow m (k - e) Hm ltac:(lia) Hb). unfold d. lia. }
  assert (Hf : fexp prec emax d <= k) by (unfold fexp; lia).
  cbn [shr_record_of_loc].
  destruct (fexp prec emax d - e) as [|p|p] eqn:En; cbn [fst snd shr_m loc_of_shr_record
    round_nearest_even]; try (split; [lia|]; split; lia).
  destruct (iter_shr_1_value p (Build_shr_record m false false)) as [E X];
    [cbn [shr_m]; lia|].
  cbn [shr_m shr_r shr_s] in E, X.
  set (mrs := iter_pos shr_1 p (Build_shr_record m false false)) in *.
  assert (Hpp : 0 < 2 ^ Zpos p) by (apply Z.pow_pos_nonneg; lia).
  assert (Epow : 2 ^ (k - e) = 2 ^ (k - (e + Zpos p)) * 2 ^ Zpos p).
  { rewrite <- Z.pow_add_r by lia. f_equal. lia. }
  assert (Hq : 0 < 2 ^ (k - (e + Zpos p))) by (apply Z.pow_pos_nonneg; lia).
  assert (Hle : shr_m mrs <= 2 ^ (k - (e + Zpos p))).
  { rewrite E. apply Z.div_le_upper_bound; [lia|]. rewrite Epow in Hb. lia. }
  split; [lia|]. split.
  { split; [rewrite E; apply Z.div_pos; lia | exact Hle]. }
  destruct (Z.eq_dec m (2 ^ (k - e))) as [Em|Nm].
  - destruct X as [Xr Xs]; try reflexivity.
    { rewrite Em, Epow. exists (2 ^ (k - (e + Zpos p))). reflexivity. }
    destruct mrs as [m1 r1 s1]. cbn [shr_r shr_s shr_m] in *. subst r1 s1.
    cbn [loc_of_shr_record round_nearest_even]. exact Hle.
  - assert (Hlt : shr_m mrs < 2 ^ (k - (e + Zpos p))).
    { rewrite E. apply Z.div_lt_upper_bound; [lia|]. rewrite Epow in Hb, Nm. lia. }
    pose proof (round_nearest_even_ge (shr_m mrs) (loc_of_shr_record mrs)). lia.
Qed.

(** Rounding keeps a value at most [2^k] at most [2^k]. *)
Lemma binary_round_aux_upTo (prec emax k m e : Z) :
  0 < prec -> emin prec emax <= k -> k <= emax - prec ->
  0 < m -> e <= k -> m <= 2 ^ (k - e) ->
  upTo k (binary_round_aux prec emax false m e loc_Exact) = true.
Proof.
  intros Hp Hemin Hemax Hm He Hb. unfold binary_round_aux.
  destruct (shr_fexp_upTo prec emax k m e Hp Hemin Hm He Hb) as (He1 & Hm1 & Hm2).
  destruct (shr_fexp prec emax m e loc_Exact) as [mrs1 e1]. cbn [fst snd] in *.
  set (m2 := round_nearest_even (shr_m mrs1) (loc_of_shr_record mrs1)) in *.
  pose proof (round_nearest_even_ge (shr_m mrs1) (loc_of_shr_record mrs1)) as H2.
  fold m2 in H2.
  destruct (Z.eq_dec m2 0) as [E0|N0].
  - rewrite E0. unfold shr_fexp, shr. cbn [Zdigits2 shr_record_of_loc].
    destruct (fexp prec emax (0 + e1) - e1) as [|p|p]; cbn [shr_m]; try reflexivity.
    destruct (iter_shr_1_value p (Build_shr_record 0 false false)) as [E _];
      [cbn [shr_m]; lia|].
    rewrite E. cbn [shr_m]. rewrite Z.div_0_l; [reflexivity|].
    pose proof (Z.pow_pos_nonneg 2 (Zpos p)). lia.
  - destruct (shr_fexp_upTo prec emax k m2 e1 Hp Hemin ltac:(lia) ltac:(lia) Hm2)
      as (He3 & Hm3 & _).
    destruct (shr_fexp prec emax m2 e1 loc_Exact) as [mrs3 e3]. cbn [fst snd] in *.
    destruct (shr_m mrs3) as [|m3|m3]; try reflexivity; [|lia].
    destruct (Z.leb_spec e3 (emax - prec)); [|lia].
    cbn [upTo]. apply andb_true_intro. split; [apply Z.leb_le; lia|].
    apply Z.leb_le. lia.
Qed.

Lemma shl_align_value (m : positive) (e e' : Z) :
  snd (shl_align m e e') <= e /\
  Zpos (fst (shl_align m e e')) = Zpos m * 2 ^ (e - snd (shl_align m e e')).
Proof.
  unfold shl_align. destruct (e' - e) as [|p|p] eqn:E; cbn [fst snd].
  - rewrite Z.sub_diag. lia.
  - rewrite Z.sub_diag. lia.
  - split; [lia|].
    assert (H : forall n, Zpos (nat_rect (fun _ => positive) m (fun _ => xO) n)
                          = Zpos m * 2 ^ Z.of_nat n).
    { induction n as [|n IH].
      - cbn [nat_rect]. change (2 ^ Z.of_nat 0) with 1. lia.
      - cbn [nat_rect]. rewrite Pos2Z.inj_xO, IH, Nat2Z.inj_succ, Z.pow_succ_r by lia.
        lia. }
    rewrite Pos2Nat.inj_iter, H, positive_nat_Z. f_equal. f_equal. lia.
Qed.

Lemma binary_round_upTo (prec emax k : Z) (m : positive) (e : Z) :
  0 < prec -> emin prec emax <= k -> k <= emax - prec ->
  e <= k -> Zpos m <= 2 ^ (k - e) ->
  upTo k (binary_round prec emax false m e) = true.
Proof.
  intros Hp Hemin Hemax He Hb. unfold binary_round.
  destruct (shl_align_value m e (fexp prec emax (Zpos (digits2_pos m) + e)))
    as [Hz Ez].
  destruct (shl_align m e _) as [mz ez]. cbn [fst snd] in Hz, Ez.
  apply binary_round_aux_upTo; try assumption; try lia.
  rewrite Ez. replace (k - ez) with ((k - e) + (e - ez)) by lia.
  rewrite Z.pow_add_r by lia.
  apply Z.mul_le_mono_nonneg_r; [apply Z.pow_nonneg; lia | exact Hb].
Qed.

Lemma rounded_upTo (prec emax k : Z) (x : spec_float) :
  0 < prec -> emin prec emax <= k -> k <= emax - prec ->
  upTo k x = true -> upTo k (rounded prec emax x) = true.
Proof.
  intros Hp Hemin Hemax. destruct x as [s|s| |[|] m e]; cbn [rounded upTo];
    try (intros H; exact H); try discriminate.
  intros H. apply andb_prop in H. destruct H as [He Hb].
  apply Z.leb_le in He, Hb. now apply binary_round_upTo.
Qed.

Lemma upTo_more (k k' : Z) (x : spec_float) :
  k <= k' -> upTo k x = true -> upTo k' x = true.
Proof.
  intros Hk. destruct x as [[|]|s| |[|] m e]; cbn [upTo]; try (intros H; exact H).
  intros H. apply andb_prop in H. destruct H as [He Hb].
  apply Z.leb_le in He, Hb. apply andb_true_intro.
  split; apply Z.leb_le; [lia|].
  apply Z.le_trans with (1 := Hb). apply Z.pow_le_mono_r; lia.
Qed.

Lemma SFadd_upTo (prec emax k : Z) (x y : spec_float) :
  0 < prec -> emin prec emax <= k + 1 -> k + 1 <= emax - prec ->
  upTo k x = true -> upTo k y = true ->
  upTo (k + 1) (SFadd prec emax x y) = true.
Proof.
  intros Hp Hemin Hemax.
  destruct x as [[|]|sx| |[|] mx ex]; try discriminate;
    destruct y as [[|]|sy| |[|] my ey]; try discriminate;
    intros Hx Hy; try reflexivity;
    try (apply (upTo_more k); [lia | assumption]).
  cbn [upTo] in Hx, Hy. apply andb_prop in Hx, Hy.
  destruct Hx as [Hex Hbx]. destruct Hy as [Hey Hby].
  apply Z.leb_le in Hex, Hbx, Hey, Hby.
  cbn [SFadd cond_Zopp]. set (ez := Z.min ex ey).
  destruct (shl_align_value mx ex ez) as [Hzx Ezx].
  destruct (shl_align_value my ey ez) as [Hzy Ezy].
  assert (Sx : snd (shl_align mx ex ez) = ez).
  { unfold shl_align. destruct (ez - ex) as [|p|p] eqn:E; cbn [snd]; unfold ez in *; lia. }
  assert (Sy : snd (shl_align my ey ez) = ez).
  { unfold shl_align. destruct (ez - ey) as [|p|p] eqn:E; cbn [snd]; unfold ez in *; lia. }
  destruct (shl_align mx ex ez) as [mx' ex']. destruct (shl_align my ey ez) as [my' ey'].
  cbn [fst snd] in *. subst ex' ey'.
  change (Zpos mx' + Zpos my') with (Zpos (mx' + my')). cbn [binary_normalize].
  apply binary_round_upTo; try assumption; [unfold ez; lia|].
  rewrite Pos2Z.inj_add, Ezx, Ezy.
  assert (Hx' : Zpos mx * 2 ^ (ex - ez) <= 2 ^ (k - ez)).
  { replace (k - ez) with ((k - ex) + (ex - ez)) by lia.
    rewrite Z.pow_add_r by lia.
    apply Z.mul_le_mono_nonneg_r; [apply Z.pow_nonneg; lia | exact Hbx]. }
  assert (Hy' : Zpos my * 2 ^ (ey - ez) <= 2 ^ (k - ez)).
  { replace (k - ez) with ((k - ey) + (ey - ez)) by lia.
    rewrite Z.pow_add_r by lia.
    apply Z.mul_le_mono_nonneg_r; [apply Z.pow_nonneg; lia | exact Hby]. }
  replace (k + 1 - ez) with (Z.succ (k - ez)) by lia.
  rewrite Z.pow_succ_r by (unfold ez; lia). lia.
Qed.

Lemma SFmul_upTo (prec emax kx ky : Z) (x y : spec_float) :
  0 < prec -> emin prec emax <= kx + ky -> kx + ky <= emax - prec ->
  upTo kx x = true -> upTo ky y = true ->
  upTo (kx + ky) (SFmul prec emax x y) = true.
Proof.
  intros Hp Hemin Hemax.
  destruct x as [[|]|sx| |[|] mx ex]; try discriminate;
    destruct y as [[|]|sy| |[|] my ey]; try discriminate;
    intros Hx Hy; try reflexivity.
  cbn [upTo] in Hx, Hy. apply andb_prop in Hx, Hy.
  destruct Hx as [Hex Hbx]. destruct Hy as [Hey Hby].
  apply Z.leb_le in Hex, Hbx, Hey, Hby.
  cbn [SFmul xorb].
  apply binary_round_aux_upTo; try assumption; try lia.
  rewrite Pos2Z.inj_mul.
  replace (kx + ky - (ex + ey)) with ((kx - ex) + (ky - ey)) by lia.
  rewrite Z.pow_add_r by lia.
  apply Z.mul_le_mono_nonneg; lia.
Qed.

(** *** Values as numbers *)

Definition finite (x : spec_float) : bool :=
  match x with
  | S754_zero _ | S754_finite _ _ _ => true
  | _ => false
  end.

Lemma Qpower_2_pos (e : Z) : (0 < Qpower 2 e)%Q.
Proof. apply Qpower_0_lt. reflexivity. Qed.

Lemma upTo_value (k : Z) (x : spec_float) :
  upTo k x = true ->
  finite x = true /\ (0 <= value x)%Q /\ (value x <= Qpower 2 k)%Q.
Proof.
  destruct x as [[|]|s| |[|] m e]; cbn [upTo]; try discriminate.
  - intros _. cbn [finite value]. split; [reflexivity|].
    split; [apply Qle_refl | apply Qlt_le_weak, Qpower_2_pos].
  - intros H. apply andb_prop in H. destruct H as [He Hb].
    apply Z.leb_le in He, Hb. cbn [finite value].
    split; [reflexivity|].
    assert (Hpos : (0 < Qpower 2 e)%Q) by apply Qpower_2_pos.
    split.
    + rewrite Qmult_1_l. apply Qmult_le_0_compat; [|apply Qlt_le_weak, Hpos].
      unfold Qle. cbn. lia.
    + rewrite Qmult_1_l.
      assert (E : (Qpower 2 k == Qpower 2 (k - e) * Qpower 2 e)%Q).
      { rewrite <- Qpower_plus by discriminate. replace (k - e + e) with k by lia.
        reflexivity. }
      rewrite E. apply Qmult_le_compat_r; [|apply Qlt_le_weak, Hpos].
      assert (Ez : (Qpower 2 (k - e) == inject_Z (2 ^ (k - e)))%Q).
      { rewrite Zpower_Qpower by lia. reflexivity. }
      rewrite Ez. rewrite <- Zle_Qle. exact Hb.
Qed.

Lemma notBelowOne_value (x : spec_float) :
  finite x = true -> notBelowOne x = true -> (1 <= value x)%Q.
Proof.
  destruct x as [[|]|[|]| |[|] m e]; cbn [finite notBelowOne]; try discriminate.
  intros _ H. apply Z.leb_le in H. cbn [value]. rewrite Qmult_1_l.
  assert (Hm : 2 ^ Z.log2 (Zpos m) <= Zpos m) by (apply Z.log2_spec; lia).
  rewrite digits2_log2 in H.
  pose proof (Z.log2_nonneg (Zpos m)) as Hl.
  destruct (Z.le_gt_cases 0 e) as [He|He].
  - assert (E : (Qpower 2 e == inject_Z (2 ^ e))%Q)
      by (rewrite Zpower_Qpower by lia; reflexivity).
    rewrite E, <- inject_Z_mult.
    change 1%Q with (inject_Z 1). rewrite <- Zle_Qle.
    pose proof (Z.pow_pos_nonneg 2 e ltac:(lia) He). nia.
  - assert (E : (1 == Qpower 2 (- e) * Qpower 2 e)%Q).
    { rewrite <- Qpower_plus by discriminate. replace (- e + e) with 0 by lia.
      reflexivity. }
    rewrite E. apply Qmult_le_compat_r; [|apply Qlt_le_weak, Qpower_2_pos].
    assert (Ez : (Qpower 2 (- e) == inject_Z (2 ^ (- e)))%Q)
      by (rewrite Zpower_Qpower by lia; reflexivity).
    rewrite Ez, <- Zle_Qle.
    apply Z.le_trans with (2 := Hm). apply Z.pow_le_mono_r; lia.
Qed.

End CFloat.
(** ** Kinship engine: [calcKin2] *)

Module Kinship.

Import CFloat.

(** Individuals are named by their position [i] in [IndSeq]; [assignSeq]
    has set [IndArray[IndSeq[i]]->seq = i], so [fam->fa->seq] and
    [fam->mo->seq] are positions too.  The coefficients are [float]s,
    and every expression is evaluated as C evaluates it: the sum of two
    [float]s and their product in [float], a product with the constant
    [.5] or [.25] and a sum with 1 in [double], and the value stored
    rounded to [float]. *)
Record Pedigree : Type := {
  NumInd : nat;
  NumPed : nat;
  parents : nat -> option (nat * nat);  (* [fam->fa->seq], [fam->mo->seq] *)
  ind_ped : nat -> nat;                 (* [->ped] *)
  itwinid : nat -> nat                  (* [->itwinid], 0 for no twin *)
}.

(** Lines 2133-2146: the first member of each twin set represents it. *)
Definition twinStep (P : Pedigree) (acc : (nat -> nat) * (nat -> Z)) (i : nat)
  : (nat -> nat) * (nat -> Z) :=
  let (itwin, twin1) := acc in
  let itwin := upd itwin i i in
  let id := itwinid P i in
  if Nat.eqb id 0 then (itwin, twin1)
  else if negb (Z.eqb (twin1 (id - 1)) (-1))
       then (upd itwin i (Z.to_nat (twin1 (id - 1))), twin1)
       else (itwin, upd twin1 (id - 1) (Z.of_nat i)).

Definition collapseTwins (P : Pedigree) : nat -> nat :=
  fst (fold_left (twinStep P) (seq 0 (NumInd P))
                 (fun _ => 0, fun _ => (-1)%Z)).

(** [kin2[max(a,b)][min(a,b)]] *)
Definition sym (K : nat -> nat -> float) (a b : nat) : float :=
  K (Nat.max a b) (Nat.min a b).

Definition isFounder (P : Pedigree) (i : nat) : bool :=
  match parents P i with None => true | Some _ => false end.

(** Lines 2148-2160: the rows are cleared, founders get 1 on the
    diagonal; [count] is the number of founders, [n] of representatives. *)
Definition kinInit (P : Pedigree) : nat -> nat -> float :=
  fun i j => if Nat.eqb i j && isFounder P i then fint 1 else fint 0.

Definition countInit (P : Pedigree) : nat :=
  List.length (filter (isFounder P) (seq 0 (NumInd P))).

Definition numReps (P : Pedigree) (itwin : nat -> nat) : nat :=
  List.length (filter (fun i => Nat.eqb (itwin i) i) (seq 0 (NumInd P))).

(** [.5 * (a + b)] stored in a [float], for [float]s [a] and [b]. *)
Definition crossTerm (a b : float) : float :=
  toFloat (dmul half (toDouble (fadd a b))).

(** [1 + .5 * x] stored in a [float], for a [float] [x]. *)
Definition selfTerm (x : float) : float :=
  toFloat (dadd (dint 1) (dmul half (toDouble x))).

(** The inner [for (j ...)] of the recurrence, for one [j]. *)
Definition crossStep (itwin : nat -> nat) (i ifa imo : nat)
           (K : nat -> nat -> float) (j : nat) : nat -> nat -> float :=
  if negb (Nat.eqb (itwin j) j) || isZero (K j j) then K
  else upd2 K (Nat.max i j) (Nat.min i j)
            (crossTerm (sym K ifa j) (sym K imo j)).

(** The body of [for (i ...)] inside the [do] loop. *)
Definition kinStep (P : Pedigree) (itwin : nat -> nat)
           (acc : (nat -> nat -> float) * nat) (i : nat)
  : (nat -> nat -> float) * nat :=
  let (K, count) := acc in
  if negb (Nat.eqb (itwin i) i) || negb (isZero (K i i)) then acc
  else
    match parents P i with
    | None => acc
    | Some (fa, mo) =>
        let ifa := itwin fa in
        let imo := itwin mo in
        if isZero (K ifa ifa) || isZero (K imo imo) then acc
        else
          let K1 := fold_left (crossStep itwin i ifa imo) (seq 0 (NumInd P)) K in
          (upd2 K1 i i (selfTerm (sym K1 ifa imo)), S count)
    end.

Arguments kinStep : simpl never.

Definition kinPass (P : Pedigree) (itwin : nat -> nat)
           (acc : (nat -> nat -> float) * nat) : (nat -> nat -> float) * nat :=
  fold_left (kinStep P itwin) (seq 0 (NumInd P)) acc.

(** [do { ... } while (count < n)] *)
Fixpoint kinLoop (fuel : nat) (P : Pedigree) (itwin : nat -> nat) (n : nat)
         (acc : (nat -> nat -> float) * nat) : option (nat -> nat -> float) :=
  match fuel with
  | O => None
  | S fuel' =>
      let acc' := kinPass P itwin acc in
      if snd acc' <? n then kinLoop fuel' P itwin n acc'
      else Some (fst acc')
  end.

(** Lines 2180-2184: every individual gets the row of its representative. *)
Definition expandRow (itwin : nat -> nat) (K : nat -> nat -> float) (i : nat)
  : nat -> nat -> float :=
  let K1 := fold_left (fun K j => upd2 K i j (sym K (itwin i) (itwin j)))
                      (seq 0 i) K in
  upd2 K1 i i (K1 (itwin i) (itwin i)).

Definition expandTwins (P : Pedigree) (itwin : nat -> nat)
           (K : nat -> nat -> float) : nat -> nat -> float :=
  fold_left (expandRow itwin) (seq 0 (NumInd P)) K.

(** [.25 * (a * b + c * d)] stored in a [float], for [float]s. *)
Definition quarterOf (a b c d : float) : float :=
  toFloat (dmul quarter (toDouble (fadd (fmul a b) (fmul c d)))).

(** [delta7] as lines 2197-2213 compute it for the pair [i], [j]. *)
Definition delta7 (P : Pedigree) (itwin : nat -> nat) (K : nat -> nat -> float)
           (i j : nat) : float :=
  if Nat.eqb (itwin i) (itwin j) then fint 1
  else
    match parents P i, parents P j with
    | Some (ifa, imo), Some (jfa, jmo) =>
        quarterOf (sym K ifa jfa) (sym K imo jmo) (sym K ifa jmo) (sym K imo jfa)
    | _, _ => fint 0
    end.

(** A line of the file [phi2]: the two 1-based sequence numbers, which
    [%8d] writes, and the texts that [%10.7f] writes for the
    coefficient and for delta7. *)
Definition Line : Type := (nat * nat * string * string)%type.

(** The text written for a [float] argument, which is passed as a
    [double]. *)
Definition written (x : float) : string := pct_10_7f (toDouble x).

(** [kin2[i][i] > 1.] *)
Definition aboveOne (x : float) : bool := dgt (toDouble x) (dint 1).

Record Report : Type := {
  phi2 : list Line;
  isInbred : bool;
  inbred : nat -> bool         (* [PedArray[p]->inbred] *)
}.

Definition pairStep (P : Pedigree) (itwin : nat -> nat) (K : nat -> nat -> float)
           (i : nat) (out : list Line) (j : nat) : list Line :=
  if negb (Nat.eqb (ind_ped P i) (ind_ped P j)) then out
  else
    let d7 := delta7 P itwin K i j in
    if negb (isZero (K i j))
    then out ++ [(i + 1, j + 1, written (K i j), written d7)]
    else out.

Definition reportStep (P : Pedigree) (itwin : nat -> nat) (K : nat -> nat -> float)
           (R : Report) (i : nat) : Report :=
  let out := fold_left (pairStep P itwin K i) (seq 0 i) (phi2 R) in
  let out := out ++ [(i + 1, i + 1, written (K i i), pct_10_7f (dint 1))] in
  if aboveOne (K i i)
  then {| phi2 := out; isInbred := true;
          inbred := upd (inbred R) (ind_ped P i) true |}
  else {| phi2 := out; isInbred := isInbred R; inbred := inbred R |}.

(** [inbred0] is what the [inbred] fields hold on entry; those of the
    [NumPed] pedigrees are cleared first. *)
Definition report (P : Pedigree) (itwin : nat -> nat) (K : nat -> nat -> float)
           (inbred0 : nat -> bool) : Report :=
  fold_left (reportStep P itwin K) (seq 0 (NumInd P))
            {| phi2 := []; isInbred := false;
               inbred := fun p => if p <? NumPed P then false else inbred0 p |}.

Record Result : Type := {
  itwin_of : nat -> nat;
  kin2 : nat -> nat -> float;
  rep : Report
}.

Definition calcKin2 (fuel : nat) (P : Pedigree) (inbred0 : nat -> bool)
  : option Result :=
  let itwin := collapseTwins P in
  match kinLoop fuel P itwin (numReps P itwin) (kinInit P, countInit P) with
  | None => None
  | Some K =>
      let K := expandTwins P itwin K in
      Some {| itwin_of := itwin; kin2 := K; rep := report P itwin K inbred0 |}
  end.

(** [Phi2(a,b)] read from the stored triangle. *)
Definition Phi2 (r : Result) (a b : nat) : float := sym (kin2 r) a b.

(** Sequence order puts every parent before its children. *)
Definition parentsFirst (P : Pedigree) : Prop :=
  forall i fa mo, i < NumInd P -> parents P i = Some (fa, mo) -> fa < i /\ mo < i.

(** ** Proofs: twin representatives *)

Definition twinInv (m : nat) (acc : (nat -> nat) * (nat -> Z)) : Prop :=
  (forall i, i < m -> fst acc i <= i /\ fst acc (fst acc i) = fst acc i) /\
  (forall k, snd acc k = (-1)%Z \/
             exists r, snd acc k = Z.of_nat r /\ r < m /\ fst acc r = r).

Ltac eqb_cases :=
  repeat match goal with
         | |- context [Nat.eqb ?a ?b] => destruct (Nat.eqb_spec a b)
         | H : context [Nat.eqb ?a ?b] |- _ => destruct (Nat.eqb_spec a b)
         end.

Lemma twinStep_inv (P : Pedigree) (m : nat) (acc : (nat -> nat) * (nat -> Z)) :
  twinInv m acc -> twinInv (S m) (twinStep P acc m).
Proof.
  destruct acc as [itwin twin1]. intros [Hrep Htw]. simpl in Hrep, Htw.
  unfold twinStep.
  assert (Hkeep : forall i, i < S m ->
            upd itwin m m i <= i /\
            upd itwin m m (upd itwin m m i) = upd itwin m m i).
  { intros i Hi. unfold upd. destruct (Nat.eqb_spec i m) as [->|Hne].
    - rewrite Nat.eqb_refl. auto.
    - destruct (Hrep i ltac:(lia)) as [Hle Hid].
      destruct (Nat.eqb_spec (itwin i) m); [lia | auto]. }
  assert (Htw' : forall k, twin1 k = (-1)%Z \/
             exists r, twin1 k = Z.of_nat r /\ r < S m /\ upd itwin m m r = r).
  { intros k. destruct (Htw k) as [H|(r & H1 & H2 & H3)]; [left; exact H|].
    right. exists r. rewrite upd_other by lia. repeat split; auto. }
  destruct (Nat.eqb_spec (itwinid P m) 0) as [Hz|Hnz].
  - split; simpl; assumption.
  - destruct (Z.eqb_spec (twin1 (itwinid P m - 1)) (-1)) as [Hfree|Hused]; simpl.
    + split; simpl; [assumption|].
      intros k. unfold upd at 1 2.
      destruct (Nat.eqb_spec k (itwinid P m - 1)) as [_|_]; [|apply Htw'].
      right. exists m. rewrite upd_same. repeat split; auto.
    + destruct (Htw (itwinid P m - 1)) as [H|(r & H1 & H2 & H3)];
        [contradiction|].
      rewrite H1, Nat2Z.id.
      split; simpl.
      * intros i Hi. unfold upd. destruct (Nat.eqb_spec i m) as [->|Hne].
        -- destruct (Nat.eqb_spec r m); [lia|]. split; [lia | exact H3].
        -- destruct (Hrep i ltac:(lia)) as [Hle Hid].
           destruct (Nat.eqb_spec (itwin i) m); [lia | auto].
      * intros k. destruct (Htw k) as [H|(r' & H1' & H2' & H3')]; [left; exact H|].
        right. exists r'. unfold upd. destruct (Nat.eqb_spec r' m); [lia|].
        repeat split; auto.
Qed.

Lemma collapseTwins_rep (P : Pedigree) (i : nat) :
  i < NumInd P ->
  collapseTwins P i <= i /\
  collapseTwins P (collapseTwins P i) = collapseTwins P i.
Proof.
  intros Hi. unfold collapseTwins.
  pose proof (fold_seq_invariant (twinStep P) twinInv (NumInd P)
                (fun _ => 0, fun _ => (-1)%Z)) as H.
  destruct H as [Hrep _].
  - split; [intros k Hk; lia | intros k; left; reflexivity].
  - intros m s _ Hs. now apply twinStep_inv.
  - exact (Hrep i Hi).
Qed.

(** ** Proofs: one pass of the recurrence *)

Lemma crossTerm_nonneg (a b : float) :
  nonneg a = true -> nonneg b = true -> nonneg (crossTerm a b) = true.
Proof.
  intros Ha Hb. unfold crossTerm, toFloat, toDouble, dmul, fadd.
  apply rounded_nonneg, SFmul_nonneg; [reflexivity|].
  apply rounded_nonneg, SFadd_nonneg; assumption.
Qed.

(** A self-coefficient just computed is not below 1, so that it is
    not taken for one that is still to be computed. *)
Lemma selfTerm_notBelowOne (x : float) :
  nonneg x = true -> notBelowOne (selfTerm x) = true.
Proof.
  intros Hx. unfold selfTerm, toFloat.
  apply rounded_notBelowOne; [lia | unfold emin; lia |].
  apply dadd_one_notBelowOne. unfold dmul, toDouble.
  apply SFmul_nonneg; [reflexivity|]. apply rounded_nonneg, Hx.
Qed.

Lemma sym_frame (K K' : nat -> nat -> float) (m x y : nat) :
  (forall a b, a <> m -> b <> m -> K' a b = K a b) ->
  x <> m -> y <> m -> sym K' x y = sym K x y.
Proof. intros H Hx Hy. unfold sym. apply H; lia. Qed.

Section CrossFold.

Variables (itwin : nat -> nat) (i ifa imo : nat) (K : nat -> nat -> float) (N : nat).
Hypothesis Hzero : isZero (K i i) = true.
Hypothesis Hifa : ifa <> i.
Hypothesis Himo : imo <> i.
Hypothesis Hnonneg : forall a b, nonneg (K a b) = true.

Definition crossInv (n : nat) (K1 : nat -> nat -> float) : Prop :=
  (forall a b, a <> i -> b <> i -> K1 a b = K a b) /\
  K1 i i = K i i /\
  (forall j, j < n -> itwin j = j -> isZero (K j j) = false ->
     sym K1 i j = crossTerm (sym K ifa j) (sym K imo j)) /\
  (forall a b, nonneg (K1 a b) = true).

Lemma crossStep_inv (n : nat) (K1 : nat -> nat -> float) :
  crossInv n K1 -> crossInv (S n) (crossStep itwin i ifa imo K1 n).
Proof.
  intros (Hfr & Hd & Hc & Hnn). unfold crossStep.
  assert (Hdiag : K1 n n = K n n).
  { destruct (Nat.eq_dec n i) as [->|Hne]; [exact Hd | apply Hfr; assumption]. }
  destruct (Nat.eqb_spec (itwin n) n) as [Hrep|Hnrep]; simpl.
  2:{ split; [exact Hfr|]. split; [exact Hd|]. split; [|exact Hnn].
      intros j Hj Hr Hz. apply Hc; try assumption.
      destruct (Nat.eq_dec j n) as [->|]; [contradiction | lia]. }
  destruct (isZero (K1 n n)) eqn:Hz1.
  { split; [exact Hfr|]. split; [exact Hd|]. split; [|exact Hnn].
    intros j Hj Hr Hz. apply Hc; try assumption.
    destruct (Nat.eq_dec j n) as [->|]; [|lia].
    rewrite Hdiag in Hz1. congruence. }
  assert (Hni : n <> i).
  { intros ->. rewrite Hd in Hz1. congruence. }
  assert (Hv : crossTerm (sym K1 ifa n) (sym K1 imo n)
               = crossTerm (sym K ifa n) (sym K imo n)).
  { rewrite (sym_frame K K1 i ifa n Hfr Hifa Hni).
    rewrite (sym_frame K K1 i imo n Hfr Himo Hni). reflexivity. }
  split; [|split; [|split]].
  - intros a b Ha Hb. rewrite upd2_other by lia. now apply Hfr.
  - rewrite upd2_other by lia. exact Hd.
  - intros j Hj Hr Hz. unfold sym at 1.
    destruct (Nat.eq_dec j n) as [->|Hne].
    + rewrite upd2_same. exact Hv.
    + assert (Hji : j <> i) by (intros ->; congruence).
      rewrite upd2_other by lia. apply Hc; try assumption. lia.
  - intros a b. unfold upd2.
    destruct (Nat.eqb a (Nat.max i n) && Nat.eqb b (Nat.min i n)); [|apply Hnn].
    apply crossTerm_nonneg; apply Hnn.
Qed.

Lemma crossFold_spec :
  crossInv N (fold_left (crossStep itwin i ifa imo) (seq 0 N) K).
Proof.
  apply (fold_seq_invariant (crossStep itwin i ifa imo) crossInv).
  - split; [reflexivity|]. split; [reflexivity|]. split; [|exact Hnonneg].
    intros j Hj. lia.
  - intros m s _ Hs. now apply crossStep_inv.
Qed.

End CrossFold.

Definition repNF (P : Pedigree) (itwin : nat -> nat) (i : nat) : bool :=
  Nat.eqb (itwin i) i && negb (isFounder P i).

Record passInv (P : Pedigree) (itwin : nat -> nat) (m : nat)
       (K : nat -> nat -> float) (c : nat) : Prop := {
  pi_nonneg : forall a b, nonneg (K a b) = true;
  pi_founder : forall i, isFounder P i = true -> K i i = fint 1;
  pi_undone : forall i, isFounder P i = false -> itwin i <> i \/ m <= i ->
                        K i i = fint 0;
  pi_done : forall i, i < m -> itwin i = i -> isZero (K i i) = false;
  pi_rec : forall i fa mo,
      i < m -> itwin i = i -> parents P i = Some (fa, mo) ->
      K i i = selfTerm (sym K (itwin fa) (itwin mo)) /\
      forall j, j < NumInd P -> itwin j = j ->
                isFounder P j = true \/ j < i ->
                sym K i j = crossTerm (sym K (itwin fa) j) (sym K (itwin mo) j);
  pi_count : c = countInit P + List.length (filter (repNF P itwin) (seq 0 m))
}.

Lemma filter_seq_S (f : nat -> bool) (m : nat) :
  List.length (filter f (seq 0 (S m)))
  = List.length (filter f (seq 0 m)) + (if f m then 1 else 0).
Proof.
  rewrite seq_S, filter_app, length_app. simpl. destruct (f m); reflexivity.
Qed.

Section Pass.

Variables (P : Pedigree) (itwin : nat -> nat).
Hypothesis Hfirst : parentsFirst P.
Hypothesis Hrep : forall x, x < NumInd P ->
                            itwin x <= x /\ itwin (itwin x) = itwin x.

Lemma kinStep_inv (m : nat) (K : nat -> nat -> float) (c : nat) :
  m < NumInd P ->
  passInv P itwin m K c ->
  passInv P itwin (S m) (fst (kinStep P itwin (K, c) m))
          (snd (kinStep P itwin (K, c) m)).
Proof.
  intros Hm [Hnn Hfo Hun Hdn Hrec Hcnt].
  assert (Hskip : forall rnf, repNF P itwin m = rnf ->
            (forall i, i < S m -> itwin i = i -> isZero (K i i) = false) ->
            (rnf = false) ->
            passInv P itwin (S m) K c).
  { intros rnf Hr Hd Hf. subst rnf. constructor; try assumption.
    - intros i Hi [H|H]; apply Hun; auto. right. lia.
    - intros i fa mo Hi Hri Hpar.
      assert (Him : i < m).
      { destruct (Nat.eq_dec i m) as [->|]; [|lia].
        unfold repNF, isFounder in Hf. rewrite Hpar in Hf.
        rewrite Hri, Nat.eqb_refl in Hf. discriminate. }
      now apply Hrec.
    - rewrite filter_seq_S, Hf. lia. }
  unfold kinStep.
  destruct (Nat.eqb_spec (itwin m) m) as [Hrm|Hnrm]; simpl.
  2:{ apply (Hskip false).
      - unfold repNF. destruct (Nat.eqb_spec (itwin m) m); [contradiction|reflexivity].
      - intros i Hi Hri. apply Hdn; [|exact Hri].
        destruct (Nat.eq_dec i m) as [->|]; [contradiction|lia].
      - reflexivity. }
  destruct (isZero (K m m)) eqn:Hz; simpl.
  2:{ assert (Hfm : isFounder P m = true).
      { destruct (isFounder P m) eqn:E; [reflexivity|].
        rewrite (Hun m E) in Hz by (right; lia). discriminate. }
      apply (Hskip false).
      - unfold repNF. rewrite Hfm. apply andb_false_r.
      - intros i Hi Hri. destruct (Nat.eq_dec i m) as [->|]; [exact Hz|].
        apply Hdn; [lia | exact Hri].
      - reflexivity. }
  destruct (parents P m) as [[fa mo]|] eqn:Hpar.
  2:{ assert (Hfm : isFounder P m = true) by (unfold isFounder; now rewrite Hpar).
      rewrite (Hfo m Hfm) in Hz. discriminate. }
  assert (Hnf : isFounder P m = false) by (unfold isFounder; now rewrite Hpar).
  destruct (Hfirst m fa mo Hm Hpar) as [Hfa Hmo].
  destruct (Hrep fa ltac:(lia)) as [Hfa1 Hfa2].
  destruct (Hrep mo ltac:(lia)) as [Hmo1 Hmo2].
  set (ifa := itwin fa) in *. set (imo := itwin mo) in *.
  rewrite (Hdn ifa ltac:(lia) Hfa2), (Hdn imo ltac:(lia) Hmo2). simpl.
  destruct (crossFold_spec itwin m ifa imo K (NumInd P) Hz
              ltac:(lia) ltac:(lia) Hnn) as (Cfr & Cd & Cc & Cnn).
  set (K1 := fold_left (crossStep itwin m ifa imo) (seq 0 (NumInd P)) K) in *.
  set (v := selfTerm (sym K1 ifa imo)).
  assert (Hvpos : notBelowOne v = true).
  { unfold v, sym. apply selfTerm_notBelowOne, Cnn. }
  assert (Hframe : forall a b, a <> m -> b <> m -> upd2 K1 m m v a b = K a b).
  { intros a b Ha Hb. rewrite upd2_other by lia. now apply Cfr. }
  constructor.
  - intros a b. unfold upd2.
    destruct (Nat.eqb a m && Nat.eqb b m);
      [apply notBelowOne_nonneg, Hvpos | apply Cnn].
  - intros i Hi. assert (i <> m) by (intros ->; congruence).
    rewrite Hframe by assumption. now apply Hfo.
  - intros i Hi Hor. assert (i <> m) by (destruct Hor; [congruence | lia]).
    rewrite Hframe by assumption. apply Hun; [exact Hi|].
    destruct Hor; [left; assumption | right; lia].
  - intros i Hi Hri. destruct (Nat.eq_dec i m) as [->|Hne].
    + rewrite upd2_same. apply notBelowOne_nonzero, Hvpos.
    + rewrite Hframe by assumption. apply Hdn; [lia | exact Hri].
  - intros i fa' mo' Hi Hri Hpar'.
    destruct (Nat.eq_dec i m) as [->|Hne].
    + rewrite Hpar in Hpar'. injection Hpar' as <- <-. fold ifa imo.
      split.
      * rewrite upd2_same.
        rewrite (sym_frame K (upd2 K1 m m v) m ifa imo Hframe) by lia.
        unfold v. rewrite (sym_frame K K1 m ifa imo Cfr) by lia. reflexivity.
      * intros j Hj Hrj Hjd.
        assert (Hjm : j <> m) by (destruct Hjd; [congruence | lia]).
        assert (Hjz : isZero (K j j) = false).
        { destruct Hjd as [Hjf|Hjlt].
          - rewrite (Hfo j Hjf). reflexivity.
          - apply Hdn; assumption. }
        rewrite (sym_frame K (upd2 K1 m m v) m ifa j Hframe) by lia.
        rewrite (sym_frame K (upd2 K1 m m v) m imo j Hframe) by lia.
        rewrite <- (Cc j Hj Hrj Hjz).
        unfold sym. rewrite upd2_other by lia. reflexivity.
    + assert (Him : i < m) by lia.
      destruct (Hfirst i fa' mo' ltac:(lia) Hpar') as [Hfa' Hmo'].
      destruct (Hrep fa' ltac:(lia)) as [Hfa1' _].
      destruct (Hrep mo' ltac:(lia)) as [Hmo1' _].
      destruct (Hrec i fa' mo' Him Hri Hpar') as [Hself Hcross].
      split.
      * rewrite Hframe by assumption.
        rewrite (sym_frame K (upd2 K1 m m v) m _ _ Hframe) by lia.
        exact Hself.
      * intros j Hj Hrj Hjd.
        assert (Hjm : j <> m) by (destruct Hjd; [congruence | lia]).
        rewrite !(sym_frame K (upd2 K1 m m v) m _ _ Hframe) by lia.
        now apply Hcross.
  - cbn [snd fst]. rewrite filter_seq_S. unfold repNF at 2.
    rewrite Hrm, Nat.eqb_refl, Hnf. simpl. lia.
Qed.

Lemma kinPass_inv (K : nat -> nat -> float) (c : nat) :
  passInv P itwin 0 K c ->
  passInv P itwin (NumInd P) (fst (kinPass P itwin (K, c)))
          (snd (kinPass P itwin (K, c))).
Proof.
  intros H0. unfold kinPass.
  apply (fold_seq_invariant (kinStep P itwin)
           (fun m acc => passInv P itwin m (fst acc) (snd acc))).
  - exact H0.
  - intros m [K' c'] Hm Hinv. now apply kinStep_inv.
Qed.

End Pass.

(** ** Proofs: the loop stops after one pass; twin expansion *)

Lemma passInv_init (P : Pedigree) (itwin : nat -> nat) :
  passInv P itwin 0 (kinInit P) (countInit P).
Proof.
  constructor.
  - intros a b. unfold kinInit.
    destruct (Nat.eqb a b && isFounder P a); reflexivity.
  - intros i Hi. unfold kinInit. now rewrite Nat.eqb_refl, Hi.
  - intros i Hi _. unfold kinInit. now rewrite Hi, andb_false_r.
  - intros i Hi. lia.
  - intros i fa mo Hi. lia.
  - simpl. lia.
Qed.

Lemma reps_bound (P : Pedigree) (itwin : nat -> nat) (l : list nat) :
  List.length (filter (fun i => Nat.eqb (itwin i) i) l)
  <= List.length (filter (isFounder P) l)
     + List.length (filter (repNF P itwin) l).
Proof.
  induction l as [|a l IH]; simpl; [lia|].
  unfold repNF at 1.
  destruct (Nat.eqb (itwin a) a), (isFounder P a); simpl; lia.
Qed.

Lemma kinLoop_one_pass (P : Pedigree) (fuel : nat) :
  parentsFirst P ->
  let itwin := collapseTwins P in
  let acc := kinPass P itwin (kinInit P, countInit P) in
  kinLoop (S fuel) P itwin (numReps P itwin) (kinInit P, countInit P)
    = Some (fst acc) /\
  passInv P itwin (NumInd P) (fst acc) (snd acc).
Proof.
  intros Hfirst itwin acc.
  pose proof (kinPass_inv P itwin Hfirst (collapseTwins_rep P)
                (kinInit P) (countInit P) (passInv_init P itwin)) as Hinv.
  fold acc in Hinv. split; [|exact Hinv].
  simpl. fold acc.
  destruct (Nat.ltb_spec (snd acc) (numReps P itwin)) as [Hlt|_]; [|reflexivity].
  exfalso. pose proof (pi_count _ _ _ _ _ Hinv) as Hc.
  pose proof (reps_bound P itwin (seq 0 (NumInd P))) as Hb.
  unfold numReps, countInit in *. lia.
Qed.

Lemma expandCols_cell (itwin : nat -> nat) (a b i : nat) (l : list nat)
      (K : nat -> nat -> float) :
  itwin a = a -> itwin b = b -> b <= a ->
  fold_left (fun K j => upd2 K i j (sym K (itwin i) (itwin j))) l K a b = K a b.
Proof.
  intros Ha Hb Hab.
  revert K. induction l as [|j l IH]; intros K; simpl; [reflexivity|].
  rewrite IH. unfold upd2.
  destruct (Nat.eqb_spec a i) as [Ei|]; [|reflexivity].
  destruct (Nat.eqb_spec b j) as [Ej|]; [|reflexivity].
  simpl. rewrite <- Ei, <- Ej, Ha, Hb. unfold sym. f_equal; lia.
Qed.

Lemma expandRow_cell (itwin : nat -> nat) (a b : nat) (K : nat -> nat -> float)
      (i : nat) :
  itwin a = a -> itwin b = b -> b <= a ->
  expandRow itwin K i a b = K a b.
Proof.
  intros Ha Hb Hab.
  unfold expandRow. unfold upd2 at 1.
  destruct (Nat.eqb_spec a i) as [Ei|]; simpl;
    [|now apply expandCols_cell].
  destruct (Nat.eqb_spec b i) as [Ej|]; simpl;
    [|now apply expandCols_cell].
  subst a b.
  set (F := fun (K0 : nat -> nat -> float) (j : nat) =>
              upd2 K0 i j (sym K0 (itwin i) (itwin j))).
  rewrite Ha. unfold F. now apply expandCols_cell.
Qed.

Lemma expandTwins_cell (itwin : nat -> nat) (a b : nat) (P : Pedigree)
      (K : nat -> nat -> float) :
  itwin a = a -> itwin b = b -> b <= a ->
  expandTwins P itwin K a b = K a b.
Proof.
  intros Ha Hb Hab.
  unfold expandTwins. generalize (seq 0 (NumInd P)) as l. intros l.
  revert K. induction l as [|i l IH]; intros K; simpl; [reflexivity|].
  rewrite IH. now apply expandRow_cell.
Qed.

Lemma expandTwins_sym (P : Pedigree) (itwin : nat -> nat) (K : nat -> nat -> float)
      (x y : nat) :
  itwin x = x -> itwin y = y ->
  sym (expandTwins P itwin K) x y = sym K x y.
Proof.
  intros Hx Hy. unfold sym.
  destruct (Nat.le_ge_cases x y) as [H|H].
  - rewrite Nat.max_r, Nat.min_l by lia. now apply expandTwins_cell.
  - rewrite Nat.max_l, Nat.min_r by lia. now apply expandTwins_cell.
Qed.

Lemma sym_max_min (K : nat -> nat -> float) (x y : nat) :
  sym K (Nat.max x y) (Nat.min x y) = sym K x y.
Proof. unfold sym. f_equal; lia. Qed.

(** C1, as the code has it.  With every parent ahead of its children
    in sequence order, [calcKin2] returns, and for every twin
    representative [i] the matrix has [Phi2(i,i) = 1] when [i] is a
    founder and otherwise the [float] that the assignment of
    [1 + .5 * Phi2(fa,mo)] stores, and for every representative [j]
    resolved before [i] (a founder, or ahead of [i]) the entry
    [Phi2(max(i,j),min(i,j))] is the [float] that the assignment of
    [.5 * (Phi2(fa,j) + Phi2(mo,j))] stores, where [fa] and [mo] are
    the representatives of the parents of [i]: the sum is made in
    [float], the products with [.5] and the sum with 1 in [double], and
    the result is rounded to [float]. *)
Theorem calcKin2_recurrence (P : Pedigree) (fuel : nat) (inbred0 : nat -> bool) :
  parentsFirst P ->
  exists r,
    calcKin2 (S fuel) P inbred0 = Some r /\
    forall i, i < NumInd P -> itwin_of r i = i ->
      match parents P i with
      | None => Phi2 r i i = fint 1
      | Some (fa, mo) =>
          Phi2 r i i = selfTerm (Phi2 r (itwin_of r fa) (itwin_of r mo)) /\
          forall j, j < NumInd P -> itwin_of r j = j ->
            parents P j = None \/ j < i ->
            Phi2 r (Nat.max i j) (Nat.min i j)
            = crossTerm (Phi2 r (itwin_of r fa) j) (Phi2 r (itwin_of r mo) j)
      end.
Proof.
  intros Hfirst.
  destruct (kinLoop_one_pass P fuel Hfirst) as [Hloop Hinv].
  unfold calcKin2. rewrite Hloop.
  set (itwin := collapseTwins P) in *.
  set (K := fst (kinPass P itwin (kinInit P, countInit P))) in *.
  eexists. split; [reflexivity|].
  unfold Phi2. simpl.
  intros i Hi Hri.
  destruct (parents P i) as [[fa mo]|] eqn:Hpar.
  - destruct (Hfirst i fa mo Hi Hpar) as [Hfa Hmo].
    destruct (collapseTwins_rep P fa ltac:(lia)) as [_ Hfa2].
    destruct (collapseTwins_rep P mo ltac:(lia)) as [_ Hmo2].
    fold itwin in Hfa2, Hmo2.
    destruct (pi_rec _ _ _ _ _ Hinv i fa mo Hi Hri Hpar) as [Hself Hcross].
    split.
    + rewrite !expandTwins_sym by assumption.
      unfold sym at 1. rewrite Nat.max_id, Nat.min_id. exact Hself.
    + intros j Hj Hrj Hjd. rewrite sym_max_min.
      rewrite !expandTwins_sym by assumption.
      apply Hcross; try assumption.
      destruct Hjd as [Hn|Hlt]; [left | right; exact Hlt].
      unfold isFounder. now rewrite Hn.
  - rewrite expandTwins_sym by assumption.
    unfold sym. rewrite Nat.max_id, Nat.min_id.
    apply (pi_founder _ _ _ _ _ Hinv). unfold isFounder. now rewrite Hpar.
Qed.

(** ** Proofs: the report (delta7 and the inbreeding flags) *)

Definition pairLine (P : Pedigree) (itwin : nat -> nat) (K : nat -> nat -> float)
           (i j : nat) : Line :=
  (i + 1, j + 1, written (K i j), written (delta7 P itwin K i j)).

Lemma pairFold_In (P : Pedigree) (itwin : nat -> nat) (K : nat -> nat -> float)
      (i : nat) (l : list nat) (out : list Line) (line : Line) :
  In line (fold_left (pairStep P itwin K i) l out) <->
  In line out \/
  exists j, In j l /\ ind_ped P i = ind_ped P j /\ isZero (K i j) = false /\
            line = pairLine P itwin K i j.
Proof.
  revert out. induction l as [|j l IH]; intros out; simpl.
  - split; [auto | intros [H|(j & [] & _)]; exact H].
  - rewrite IH. unfold pairStep at 1.
    destruct (Nat.eqb_spec (ind_ped P i) (ind_ped P j)) as [Hp|Hp]; simpl.
    + destruct (isZero (K i j)) eqn:Hz; simpl.
      * split.
        -- intros [H|(j' & Hj' & H)]; [auto|]. right. exists j'. tauto.
        -- intros [H|(j' & [<-|Hj'] & Hp' & Hz' & H)]; [auto| congruence |].
           right. exists j'. tauto.
      * rewrite in_app_iff. simpl. split.
        -- intros [[H|[H|[]]]|(j' & Hj' & H)]; [auto| |].
           ++ right. exists j. subst line. unfold pairLine. auto.
           ++ right. exists j'. tauto.
        -- intros [H|(j' & [<-|Hj'] & Hp' & Hz' & H)]; [auto| |].
           ++ left. right. left. subst line. reflexivity.
           ++ right. exists j'. tauto.
    + split.
      * intros [H|(j' & Hj' & H)]; [auto|]. right. exists j'. tauto.
      * intros [H|(j' & [<-|Hj'] & Hp' & Hz' & H)]; [auto| contradiction |].
        right. exists j'. tauto.
Qed.

Definition reportInv (P : Pedigree) (itwin : nat -> nat) (K : nat -> nat -> float)
           (m : nat) (R : Report) : Prop :=
  (forall line, In line (phi2 R) <->
     (exists i, i < m /\ line = (i + 1, i + 1, written (K i i), pct_10_7f (dint 1))) \/
     (exists i j, i < m /\ j < i /\ ind_ped P i = ind_ped P j /\
                  isZero (K i j) = false /\ line = pairLine P itwin K i j)) /\
  (forall p, p < NumPed P ->
     (inbred R p = true <-> exists i, i < m /\ ind_ped P i = p /\ aboveOne (K i i) = true)) /\
  (isInbred R = true <-> exists i, i < m /\ aboveOne (K i i) = true).

Lemma reportStep_inv (P : Pedigree) (itwin : nat -> nat) (K : nat -> nat -> float)
      (m : nat) (R : Report) :
  reportInv P itwin K m R -> reportInv P itwin K (S m) (reportStep P itwin K R m).
Proof.
  intros (Hl & Hp & Hi).
  assert (Hlines : forall line,
     In line (fold_left (pairStep P itwin K m) (seq 0 m) (phi2 R)
              ++ [(m + 1, m + 1, written (K m m), pct_10_7f (dint 1))]) <->
     (exists i, i < S m /\ line = (i + 1, i + 1, written (K i i), pct_10_7f (dint 1))) \/
     (exists i j, i < S m /\ j < i /\ ind_ped P i = ind_ped P j /\
                  isZero (K i j) = false /\ line = pairLine P itwin K i j)).
  { intros line. rewrite in_app_iff, pairFold_In, Hl. simpl. split.
    - intros [[[(i & Hi1 & Hi2)|(i & j & H1 & H2)]|(j & Hj & H)]|[H|[]]].
      + left. exists i. split; [lia | exact Hi2].
      + right. exists i, j. split; [lia | exact H2].
      + right. exists m, j. apply in_seq in Hj. split; [lia|]. split; [lia | exact H].
      + left. exists m. split; [lia | now rewrite H].
    - intros [(i & Hi1 & Hi2)|(i & j & H1 & H2 & H3)].
      + destruct (Nat.eq_dec i m) as [->|Hne].
        * right. left. now rewrite Hi2.
        * left. left. left. exists i. split; [lia | exact Hi2].
      + destruct (Nat.eq_dec i m) as [->|Hne].
        * left. right. exists j. split; [apply in_seq; lia | exact H3].
        * left. left. right. exists i, j. split; [lia|]. split; assumption. }
  unfold reportStep.
  destruct (aboveOne (K m m)) eqn:Hgt; simpl.
  - split; [exact Hlines|]. split; simpl.
    + intros p Hpn. unfold upd.
      destruct (Nat.eqb_spec p (ind_ped P m)) as [->|Hne].
      * split; [|reflexivity]. intros _. exists m. split; [lia|]. split; auto.
      * rewrite (Hp p Hpn). split.
        -- intros (i & H1 & H2). exists i. split; [lia | exact H2].
        -- intros (i & H1 & H2 & H3).
           destruct (Nat.eq_dec i m) as [->|]; [congruence|].
           exists i. split; [lia|]. split; assumption.
    + split; [|reflexivity]. intros _. exists m. split; [lia | exact Hgt].
  - assert (Hngt : aboveOne (K m m) <> true) by congruence.
    split; [exact Hlines|]. split; simpl.
    + intros p Hpn. rewrite (Hp p Hpn). split.
      * intros (i & H1 & H2). exists i. split; [lia | exact H2].
      * intros (i & H1 & H2 & H3).
        destruct (Nat.eq_dec i m) as [->|]; [contradiction|].
        exists i. split; [lia|]. split; assumption.
    + rewrite Hi. split.
      * intros (i & H1 & H2). exists i. split; [lia | exact H2].
      * intros (i & H1 & H2).
        destruct (Nat.eq_dec i m) as [->|]; [contradiction|].
        exists i. split; [lia | exact H2].
Qed.

Lemma report_spec (P : Pedigree) (itwin : nat -> nat) (K : nat -> nat -> float)
      (inbred0 : nat -> bool) :
  reportInv P itwin K (NumInd P) (report P itwin K inbred0).
Proof.
  unfold report.
  apply (fold_seq_invariant (reportStep P itwin K) (reportInv P itwin K)).
  - split; [|split]; simpl.
    + intros line. split; [intros []|].
      intros [(i & H & _)|(i & j & H & _)]; lia.
    + intros p Hp. destruct (Nat.ltb_spec p (NumPed P)); [|lia].
      split; [discriminate|]. intros (i & Hi0 & _). lia.
    + split; [discriminate|]. intros (i & H & _). lia.
  - intros m s _ Hs. now apply reportStep_inv.
Qed.

Lemma calcKin2_returns (P : Pedigree) (fuel : nat) (inbred0 : nat -> bool) :
  parentsFirst P ->
  exists K,
    calcKin2 (S fuel) P inbred0
    = Some {| itwin_of := collapseTwins P; kin2 := K;
              rep := report P (collapseTwins P) K inbred0 |}.
Proof.
  intros Hfirst.
  destruct (kinLoop_one_pass P fuel Hfirst) as [Hloop _].
  unfold calcKin2. rewrite Hloop. eexists. reflexivity.
Qed.



(** C6, as the code has it.  [calcKin2] returns, and the lines of
    [phi2] for two different individuals are exactly the pairs [j < i]
    of one pedigree with a non-zero coefficient; the delta7 of such a
    line is the text [%10.7f] gives, seven decimals, for the [float]
    delta7: 1 for co-twins, else the [float] that the assignment of
    [.25 * (Phi2(fa_i,fa_j) * Phi2(mo_i,mo_j)
            + Phi2(fa_i,mo_j) * Phi2(mo_i,fa_j))]
    stores when both have parents (products and sum in [float], the
    product with [.25] in [double]), else 0. *)
Theorem calcKin2_delta7 (P : Pedigree) (fuel : nat) (inbred0 : nat -> bool) :
  parentsFirst P ->
  exists r,
    calcKin2 (S fuel) P inbred0 = Some r /\
    forall a b phi d7, a <> b ->
      (In (a, b, phi, d7) (phi2 (rep r)) <->
       exists i j,
         j < i /\ i < NumInd P /\ a = i + 1 /\ b = j + 1 /\
         ind_ped P i = ind_ped P j /\
         isZero (kin2 r i j) = false /\ phi = written (kin2 r i j) /\
         d7 = written
                (if Nat.eqb (itwin_of r i) (itwin_of r j) then fint 1
                 else match parents P i, parents P j with
                      | Some (ifa, imo), Some (jfa, jmo) =>
                          quarterOf (Phi2 r ifa jfa) (Phi2 r imo jmo)
                                    (Phi2 r ifa jmo) (Phi2 r imo jfa)
                      | _, _ => fint 0
                      end)).
Proof.
  intros Hfirst. destruct (calcKin2_returns P fuel inbred0 Hfirst) as [K HK].
  eexists. split; [exact HK|].
  destruct (report_spec P (collapseTwins P) K inbred0) as (Hl & _ & _).
  intros a b phi d7 Hab. cbn [rep itwin_of kin2]. rewrite Hl. split.
  - intros [(i & _ & E)|(i & j & H1 & H2 & H3 & H4 & E)].
    + injection E as -> -> _ _. contradiction.
    + unfold pairLine in E. injection E as -> -> -> ->.
      exists i, j. repeat split; assumption.
  - intros (i & j & H1 & H2 & -> & -> & H3 & H4 & -> & ->).
    right. exists i, j. repeat split; assumption.
Qed.

(** Scenario B of the design document: two founders (0, 1), their
    children (2, 3), and the child (4) of the two siblings. *)
Definition sibMating : Pedigree :=
  {| NumInd := 5; NumPed := 1;
     parents := (fun i => match i with
                          | 2 | 3 => Some (0, 1)
                          | 4 => Some (2, 3)
                          | _ => None
                          end);
     ind_ped := (fun _ => 0);
     itwinid := (fun _ => 0) |}.

Lemma sibMating_parentsFirst : parentsFirst sibMating.
Proof.
  intros i fa mo Hi Hpar.
  destruct i as [|[|[|[|[|i]]]]]; simpl in Hpar; try discriminate;
    injection Hpar as <- <-; split; repeat constructor.
Defined.

Lemma calcKin2_recurrence_witness :
  parentsFirst sibMating /\
  exists r, calcKin2 1 sibMating (fun _ => false) = Some r /\
            (value (Phi2 r 4 4) == 5 # 4)%Q /\ (value (Phi2 r 4 2) == 3 # 4)%Q.
Proof.
  split; [exact sibMating_parentsFirst|].
  destruct (calcKin2_recurrence sibMating 0 (fun _ => false)
              sibMating_parentsFirst) as (r & Hr & Hrec).
  exists r. split; [exact Hr|].
  vm_compute in Hr. injection Hr as <-.
  split; vm_compute; reflexivity.
Defined.


Lemma calcKin2_delta7_witness :
  parentsFirst sibMating /\
  exists r, calcKin2 1 sibMating (fun _ => false) = Some r /\
            In (4, 3, " 0.5000000", " 0.2500000")%string (phi2 (rep r)).
Proof.
  split; [exact sibMating_parentsFirst|].
  destruct (calcKin2_delta7 sibMating 0 (fun _ => false)
              sibMating_parentsFirst) as (r & Hr & Hl).
  exists r. split; [exact Hr|].
  vm_compute in Hr. injection Hr as <-.
  vm_compute. do 7 right. left. reflexivity.
Defined.

(** *** Where the arithmetic of [float] shows *)

(** A sire (0) mated with a dam (1), then with his daughter, then with
    hers, and so on: individual [k+1] is the child of 0 and [k]. *)
Definition backcross (n : nat) : Pedigree :=
  {| NumInd := n; NumPed := 1;
     parents := (fun i => match i with
                          | 0 | 1 => None
                          | S k => Some (0, k)
                          end);
     ind_ped := (fun _ => 0);
     itwinid := (fun _ => 0) |}.

Lemma backcross_parentsFirst (n : nat) : parentsFirst (backcross n).
Proof.
  intros i fa mo Hi Hpar. cbn [backcross parents] in Hpar.
  destruct i as [|[|k]]; try discriminate.
  injection Hpar as <- <-. lia.
Qed.

Definition noResult : Result :=
  {| itwin_of := fun i => i; kin2 := fun _ _ => fint 0;
     rep := {| phi2 := []; isInbred := false; inbred := fun _ => false |} |}.

Definition backcross26 : Result :=
  match calcKin2 1 (backcross 26) (fun _ => false) with
  | Some r => r
  | None => noResult
  end.

Definition backcross7 : Result :=
  match calcKin2 1 (backcross 7) (fun _ => false) with
  | Some r => r
  | None => noResult
  end.

(** C1, as the spec has it, fails: after 24 generations of
    backcrossing the coefficient of the sire with the last dam is
    [1 - 2^-23], and the self-coefficient stored for their child is
    3/2, not [1 + (1 - 2^-23)/2], which no [float] holds. *)
Lemma calcKin2_recurrence_rounds :
  parentsFirst (backcross 26) /\
  calcKin2 1 (backcross 26) (fun _ => false) = Some backcross26 /\
  itwin_of backcross26 25 = 25 /\
  parents (backcross 26) 25 = Some (0, 24) /\
  (value (Phi2 backcross26 (itwin_of backcross26 0) (itwin_of backcross26 24))
   == 8388607 # 8388608)%Q /\
  (value (Phi2 backcross26 25 25) == 3 # 2)%Q /\
  ~ (value (Phi2 backcross26 25 25)
     == 1 + (1 # 2) * value (Phi2 backcross26 (itwin_of backcross26 0)
                                              (itwin_of backcross26 24)))%Q.
Proof.
  split; [apply backcross_parentsFirst|].
  split; [vm_compute; reflexivity|].
  split; [vm_compute; reflexivity|].
  split; [reflexivity|].
  assert (E1 : value (Phi2 backcross26 (itwin_of backcross26 0)
                                       (itwin_of backcross26 24))
               = value (S754_finite false 16777214 (-24)))
    by (vm_compute; reflexivity).
  assert (E2 : value (Phi2 backcross26 25 25)
               = value (S754_finite false 12582912 (-23)))
    by (vm_compute; reflexivity).
  rewrite E1, E2.
  split; [vm_compute; reflexivity|].
  split; [vm_compute; reflexivity|].
  vm_compute. discriminate.
Qed.

(** C6, as the spec has it, fails: for the pair (7, 6) of the same
    pedigree the stored coefficients give a delta7 of 249/512, that
    is 0.486328125, and the line of [phi2] says 0.4863281. *)
Lemma calcKin2_delta7_rounds :
  parentsFirst (backcross 7) /\
  calcKin2 1 (backcross 7) (fun _ => false) = Some backcross7 /\
  In (7, 6, " 1.1875000", " 0.4863281")%string (phi2 (rep backcross7)) /\
  itwin_of backcross7 6 <> itwin_of backcross7 5 /\
  parents (backcross 7) 6 = Some (0, 5) /\
  parents (backcross 7) 5 = Some (0, 4) /\
  ((1 # 4) * (value (Phi2 backcross7 0 0) * value (Phi2 backcross7 5 4)
              + value (Phi2 backcross7 0 4) * value (Phi2 backcross7 5 0))
   == 249 # 512)%Q /\
  ~ (shown " 0.4863281" == 249 # 512)%Q.
Proof.
  split; [apply backcross_parentsFirst|].
  split; [vm_compute; reflexivity|].
  split; [vm_compute; tauto|].
  split; [vm_compute; discriminate|].
  split; [reflexivity|]. split; [reflexivity|].
  split; [vm_compute; reflexivity|].
  vm_compute. discriminate.
Qed.

End Kinship.
(** ** The generic sort: [qSort] *)

Module Sort.

(** Arrays indexed and filled by C [int]s. *)
Definition Arr : Type := Z -> Z.

Definition updZ (a : Arr) (i v : Z) : Arr :=
  fun k => if Z.eqb k i then v else a k.

(** *** The two comparisons *)

(** The byte at the head of a C string (0 at its end) and the rest. *)
Definition headByte (s : string) : Z :=
  match s with
  | EmptyString => 0%Z
  | String c _ => Z.of_nat (nat_of_ascii c)
  end.

(** [strcmp]: the difference of the first bytes that differ, the
    terminating 0 included. *)
Fixpoint strcmp (a b : string) : Z :=
  let c := headByte a in
  let d := headByte b in
  if negb (Z.eqb c d) then (c - d)%Z
  else
    match a, b with
    | String _ a', String _ b' => if Z.eqb c 0 then 0%Z else strcmp a' b'
    | _, _ => 0%Z
    end.

Definition isSpace (c : ascii) : bool :=
  let n := nat_of_ascii c in
  Nat.eqb n 32 || (Nat.leb 9 n && Nat.leb n 13).

Definition digitOf (c : ascii) : option Z :=
  let n := nat_of_ascii c in
  if Nat.leb 48 n && Nat.leb n 57 then Some (Z.of_nat (n - 48)) else None.

Fixpoint digits (s : string) (acc : Z) : Z :=
  match s with
  | String c s' =>
      match digitOf c with
      | Some d => digits s' (10 * acc + d)%Z
      | None => acc
      end
  | EmptyString => acc
  end.

Fixpoint skipSpace (s : string) : string :=
  match s with
  | String c s' => if isSpace c then skipSpace s' else s
  | EmptyString => s
  end.

(** [strtol(s, NULL, 10)]: blanks, an optional sign, then the digits;
    a value that does not fit a [long] of 64 bits gives [LONG_MIN] or
    [LONG_MAX]. *)
Definition LONG_MAX : Z := 9223372036854775807%Z.
Definition LONG_MIN : Z := (-9223372036854775808)%Z.

Definition strtol (s : string) : Z :=
  let v := match skipSpace s with
           | String "-" s' => (- digits s' 0)%Z
           | String "+" s' => digits s' 0%Z
           | s' => digits s' 0%Z
           end in
  Z.max LONG_MIN (Z.min LONG_MAX v).

(** The conversion of a [long] to an [int] of 32 bits: the low 32 bits,
    read in two's complement. *)
Definition toInt (v : Z) : Z := ((v + 2 ^ 31) mod 2 ^ 32 - 2 ^ 31)%Z.

(** [atoi], as the GNU C library has it: [(int) strtol(s, NULL, 10)].
    So [atoi("4294967303")] is 7 and [atoi("3000000000")] is negative. *)
Definition atoi (s : string) : Z := toInt (strtol s).

(** [a < b] in the mode chosen by [numeric]. *)
Definition keyLt (numeric : bool) (a b : string) : bool :=
  if numeric then (atoi a <? atoi b)%Z else (strcmp a b <? 0)%Z.

(** *** The sort, over any key and comparison *)

Definition STKSIZE : Z := 1000%Z.

Section QSort.

Variable K : Type.
Variable ltb : K -> K -> bool.
(** [key k] is [vals[k]]. *)
Variable key : Z -> K.
(** The number of trips any of the loops can take, plus one. *)
Variable fuel : nat.

(** [while (vals[ord[i]] < mid) i++;] *)
Fixpoint scanUp (n : nat) (ord : Arr) (mid : K) (i : Z) : option Z :=
  match n with
  | O => None
  | S n' => if ltb (key (ord i)) mid then scanUp n' ord mid (i + 1)%Z else Some i
  end.

(** [while (mid < vals[ord[j]]) j--;] *)
Fixpoint scanDown (n : nat) (ord : Arr) (mid : K) (j : Z) : option Z :=
  match n with
  | O => None
  | S n' => if ltb mid (key (ord j)) then scanDown n' ord mid (j - 1)%Z else Some j
  end.

(** [ip = ord[i]; ord[i] = ord[j]; ord[j] = ip;] *)
Definition swap (ord : Arr) (i j : Z) : Arr :=
  let ip := ord i in updZ (updZ ord i (ord j)) j ip.

(** The innermost [do ... while (i <= j)]. *)
Fixpoint partLoop (n : nat) (ord : Arr) (mid : K) (i j : Z)
  : option (Arr * Z * Z) :=
  match n with
  | O => None
  | S n' =>
      match scanUp fuel ord mid i with
      | None => None
      | Some i1 =>
          match scanDown fuel ord mid j with
          | None => None
          | Some j1 =>
              let '(ord', i2, j2) :=
                if (i1 <=? j1)%Z then (swap ord i1 j1, (i1 + 1)%Z, (j1 - 1)%Z)
                else (ord, i1, j1) in
              if (i2 <=? j2)%Z then partLoop n' ord' mid i2 j2
              else Some (ord', i2, j2)
          end
      end
  end.

(** The stack [lo[0..t]], [hi[0..t]], top first; [t] is its length
    minus one. *)
Definition Stack : Type := list (Z * Z).

(** The middle [do ... while (l < h)]. *)
Fixpoint segLoop (n : nat) (ord : Arr) (stk : Stack) (l h : Z)
  : outcome (Arr * Stack) :=
  match n with
  | O => OutOfFuel
  | S n' =>
      let mid := key (ord ((l + h) / 2 + 1)%Z) in
      match partLoop fuel ord mid l h with
      | None => OutOfFuel
      | Some (ord', i, j) =>
          let pushed :=
            if (i <? h)%Z then
              if (Z.of_nat (List.length stk) >=? STKSIZE)%Z then None
              else Some ((i, h) :: stk)
            else Some stk in
          match pushed with
          | None => Fatal QSortStackExceeded
          | Some stk' =>
              if (l <? j)%Z then segLoop n' ord' stk' l j
              else Ok (ord', stk')
          end
      end
  end.

(** The outer [do ... while (t >= 0)]. *)
Fixpoint sortLoop (n : nat) (ord : Arr) (stk : Stack) : outcome Arr :=
  match n with
  | O => OutOfFuel
  | S n' =>
      match stk with
      | [] => Ok ord      (* not reached: the loop is entered with [t = 0] *)
      | (l, h) :: stk' =>
          match segLoop fuel ord stk' l h with
          | Ok (ord', stk'') =>
              match stk'' with
              | [] => Ok ord'
              | _ :: _ => sortLoop n' ord' stk''
              end
          | Fatal m => Fatal m
          | OutOfFuel => OutOfFuel
          end
      end
  end.

End QSort.

(** [for (i = 0; i < nvals; i++) ord[i] = i;] *)
Definition identity (n : nat) (ord0 : Arr) : Arr :=
  fun k => if ((0 <=? k) && (k <? Z.of_nat n))%Z then k else ord0 k.

(** [vals[k]] *)
Definition valAt (vals : list string) (k : Z) : string :=
  nth (Z.to_nat k) vals EmptyString.

(** The sort of [qSort] when no key is longer than the [vlen] bytes of
    its buffer [mid], as it is for [sortInds], [sortPids] and [makeFams],
    whose keys have the width they pass; [nvals] is the length of
    [vals], [ord0] what the array [ord] holds on entry.  No loop takes
    more than [nvals] trips. *)
Definition qSortFit (vals : list string) (vlen : Z) (numeric : bool) (ord0 : Arr)
  : outcome Arr :=
  let nvals := List.length vals in
  if Nat.eqb nvals 0 || Z.eqb vlen 0 then Ok ord0
  else if Nat.eqb nvals 1 then Ok (identity nvals ord0)
  else
    sortLoop string (keyLt numeric) (valAt vals)
             (S nvals) (S nvals) (identity nvals ord0)
             [(0, Z.of_nat nvals - 1)%Z].

(** *** The sort with its buffer [mid] *)

(** How [qSort] ends: it returns, it stops on its full stack, it stops
    in [allocMem], or [strcpy] stores past the end of [mid]; [NoFuel]
    is the model's own. *)
Inductive ending (A : Type) : Type :=
| Returns (a : A)
| StackFull
| NoMemory
| PastMid
| NoFuel.

Arguments Returns {A} a.
Arguments StackFull {A}.
Arguments NoMemory {A}.
Arguments PastMid {A}.
Arguments NoFuel {A}.

(** [strlen]: the bytes ahead of the first 0. *)
Fixpoint strlen (s : string) : nat :=
  match s with
  | String c s' => if Nat.eqb (nat_of_ascii c) 0 then 0%nat else S (strlen s')
  | EmptyString => 0%nat
  end.

Section Mid.

Variable K : Type.
Variable ltb : K -> K -> bool.
Variable key : Z -> K.
Variable fuel : nat.
(** [fits k]: the key with its final 0 is no longer than [mid]. *)
Variable fits : K -> bool.

(** The middle loop; [strcpy(mid, vals[ord[(i+j)/2+1]])] comes first. *)
Fixpoint segLoopMid (n : nat) (ord : Arr) (stk : Stack) (l h : Z)
  : ending (Arr * Stack) :=
  match n with
  | O => NoFuel
  | S n' =>
      let mid := key (ord ((l + h) / 2 + 1)%Z) in
      if negb (fits mid) then PastMid
      else
        match partLoop K ltb key fuel fuel ord mid l h with
        | None => NoFuel
        | Some (ord', i, j) =>
            let pushed :=
              if (i <? h)%Z then
                if (Z.of_nat (List.length stk) >=? STKSIZE)%Z then None
                else Some ((i, h) :: stk)
              else Some stk in
            match pushed with
            | None => StackFull
            | Some stk' =>
                if (l <? j)%Z then segLoopMid n' ord' stk' l j
                else Returns (ord', stk')
            end
        end
  end.

(** The outer loop. *)
Fixpoint sortLoopMid (n : nat) (ord : Arr) (stk : Stack) : ending Arr :=
  match n with
  | O => NoFuel
  | S n' =>
      match stk with
      | [] => Returns ord   (* not reached: the loop is entered with [t = 0] *)
      | (l, h) :: stk' =>
          match segLoopMid fuel ord stk' l h with
          | Returns (ord', stk'') =>
              match stk'' with
              | [] => Returns ord'
              | _ :: _ => sortLoopMid n' ord' stk''
              end
          | StackFull => StackFull
          | NoMemory => NoMemory
          | PastMid => PastMid
          | NoFuel => NoFuel
          end
      end
  end.

End Mid.

(** [qSort(vals, vlen, nvals, ord, numeric)], [nvals] being the length
    of [vals] and [ord0] what the array [ord] holds on entry.  The
    buffer [mid] has [vlen+1] bytes; with [vlen+1] negative the request
    to [malloc] is for more than the address space and [allocMem] stops
    the program, and with [vlen+1] zero the GNU C library gives a
    buffer that holds no byte.  No loop takes more than [nvals]
    trips. *)
Definition qSort (vals : list string) (vlen : Z) (numeric : bool) (ord0 : Arr)
  : ending Arr :=
  let nvals := List.length vals in
  if Nat.eqb nvals 0 || Z.eqb vlen 0 then Returns ord0
  else if (vlen + 1 <? 0)%Z then NoMemory
  else if Nat.eqb nvals 1 then Returns (identity nvals ord0)
  else
    sortLoopMid string (keyLt numeric) (valAt vals) (S nvals)
                (fun k => (Z.of_nat (strlen k) <=? vlen)%Z)
                (S nvals) (identity nvals ord0)
                [(0, Z.of_nat nvals - 1)%Z].

(** The first [n] entries of [ord], as a list. *)
Definition entries (n : nat) (ord : Arr) : list Z :=
  map (fun p => ord (Z.of_nat p)) (seq 0 n).

(** The keys compare equal in the mode chosen by [numeric]. *)
Definition keyEq (numeric : bool) (a b : string) : bool :=
  if numeric then (atoi a =? atoi b)%Z else (strcmp a b =? 0)%Z.

(** What a stable sort would give: entries with equal keys come in
    the order of the input. *)
Definition stable (vals : list string) (numeric : bool) (ord : Arr) : Prop :=
  forall p q, (p < q < List.length vals)%nat ->
    keyEq numeric (valAt vals (ord (Z.of_nat p)))
                  (valAt vals (ord (Z.of_nat q))) = true ->
    (ord (Z.of_nat p) < ord (Z.of_nat q))%Z.

(** The keys of the entries of [ord] never go down. *)
Definition ordered (vals : list string) (numeric : bool) (ord : Arr) : Prop :=
  forall p q, (p < q < List.length vals)%nat ->
    keyLt numeric (valAt vals (ord (Z.of_nat q)))
                  (valAt vals (ord (Z.of_nat p))) = false.

(** *** The comparisons are strict weak orders *)

Local Open Scope Z_scope.

Lemma headByte_nonneg s : 0 <= headByte s.
Proof. destruct s; cbn [headByte]; lia. Qed.

Lemma strcmp_eq a b :
  strcmp a b =
  if negb (headByte a =? headByte b) then headByte a - headByte b
  else match a, b with
       | String _ a', String _ b' =>
           if headByte a =? 0 then 0 else strcmp a' b'
       | _, _ => 0
       end.
Proof. destruct a; reflexivity. Qed.

Lemma strcmp_opp a : forall b, strcmp b a = - strcmp a b.
Proof.
  induction a as [|c a IH]; intros b; rewrite (strcmp_eq b), (strcmp_eq _ b).
  - rewrite (Z.eqb_sym (headByte b)).
    destruct (negb _); [lia|]. destruct b; reflexivity.
  - rewrite (Z.eqb_sym (headByte b)).
    destruct (Z.eqb_spec (headByte (String c a)) (headByte b)) as [E|E];
      cbn [negb]; [|lia].
    destruct b as [|d b]; [reflexivity|].
    rewrite <- E. destruct (_ =? 0); [reflexivity|]. apply IH.
Qed.

Lemma strcmp_le_trans a : forall b c,
  strcmp a b <= 0 -> strcmp b c <= 0 -> strcmp a c <= 0.
Proof.
  induction a as [|x a IH]; intros b c; rewrite (strcmp_eq _ b), (strcmp_eq b c), (strcmp_eq _ c).
  - pose proof (headByte_nonneg b). pose proof (headByte_nonneg c).
    cbn [headByte].
    destruct (Z.eqb_spec 0 (headByte b)), (Z.eqb_spec (headByte b) (headByte c)),
      (Z.eqb_spec 0 (headByte c)); cbn [negb]; lia.
  - set (hx := headByte (String x a)).
    assert (Hx : 0 <= hx) by apply headByte_nonneg.
    pose proof (headByte_nonneg b) as Hb. pose proof (headByte_nonneg c) as Hc.
    destruct (Z.eqb_spec hx (headByte b)) as [E1|E1],
      (Z.eqb_spec (headByte b) (headByte c)) as [E2|E2],
      (Z.eqb_spec hx (headByte c)) as [E3|E3]; cbn [negb]; try lia.
    destruct (Z.eqb_spec hx 0) as [E0|E0].
    + intros _ _. destruct c; lia.
    + destruct b as [|y b]; [cbn [headByte] in E1; lia|].
      destruct c as [|z c]; [cbn [headByte] in E3; lia|].
      rewrite <- E1.
      destruct (Z.eqb_spec hx 0); [lia|]. apply IH.
Qed.

Lemma keyLt_asym numeric a b : keyLt numeric a b = true -> keyLt numeric b a = false.
Proof.
  unfold keyLt. destruct numeric; intros H.
  - apply Z.ltb_lt in H. apply Z.ltb_ge. lia.
  - apply Z.ltb_lt in H. apply Z.ltb_ge. rewrite strcmp_opp. lia.
Qed.

Lemma keyLt_trans numeric a b c :
  keyLt numeric b a = false -> keyLt numeric c b = false -> keyLt numeric c a = false.
Proof.
  unfold keyLt. destruct numeric; intros H1 H2.
  - apply Z.ltb_ge in H1, H2. apply Z.ltb_ge. lia.
  - apply Z.ltb_ge in H1, H2. apply Z.ltb_ge.
    rewrite strcmp_opp in H1, H2. rewrite strcmp_opp.
    pose proof (strcmp_le_trans a b c). lia.
Qed.

(** *** Exchanging two entries *)

Lemma swap_eq ord i j k :
  swap ord i j k = ord (if k =? j then i else if k =? i then j else k).
Proof.
  unfold swap, updZ. destruct (Z.eqb_spec k j) as [->|]; [reflexivity|].
  destruct (Z.eqb_spec k i) as [->|]; reflexivity.
Qed.

(** [ord] lists [0 .. N-1] without repetition. *)
Definition perm (N : Z) (ord : Arr) : Prop :=
  (forall p, 0 <= p < N -> 0 <= ord p < N) /\
  (forall p q, 0 <= p < N -> 0 <= q < N -> ord p = ord q -> p = q).

(** [ord] is [ord0] with the entries at [l .. h] rearranged. *)
Definition within (l h : Z) (ord0 ord : Arr) : Prop :=
  (forall k, ~ (l <= k <= h) -> ord k = ord0 k) /\
  (forall p, l <= p <= h -> exists p', l <= p' <= h /\ ord p = ord0 p').

Lemma perm_swap N ord i j :
  perm N ord -> 0 <= i < N -> 0 <= j < N -> perm N (swap ord i j).
Proof.
  intros [Hr Hi] Hi' Hj'. split.
  - intros p Hp. rewrite swap_eq. apply Hr.
    destruct (Z.eqb_spec p j); [lia|]. destruct (Z.eqb_spec p i); lia.
  - intros p q Hp Hq. rewrite !swap_eq. intros E. apply Hi in E.
    + destruct (Z.eqb_spec p j), (Z.eqb_spec p i), (Z.eqb_spec q j), (Z.eqb_spec q i); lia.
    + destruct (Z.eqb_spec p j); [lia|]. destruct (Z.eqb_spec p i); lia.
    + destruct (Z.eqb_spec q j); [lia|]. destruct (Z.eqb_spec q i); lia.
Qed.

Lemma within_refl l h ord : within l h ord ord.
Proof. split; [reflexivity|]. intros p Hp. exists p. auto. Qed.

Lemma within_swap l h ord0 ord i j :
  within l h ord0 ord -> l <= i <= h -> l <= j <= h ->
  within l h ord0 (swap ord i j).
Proof.
  intros [Ho Hw] Hi Hj. split.
  - intros k Hk. rewrite swap_eq.
    destruct (Z.eqb_spec k j); [lia|]. destruct (Z.eqb_spec k i); [lia|]. auto.
  - intros p Hp. rewrite swap_eq. apply Hw.
    destruct (Z.eqb_spec p j); [lia|]. destruct (Z.eqb_spec p i); lia.
Qed.

(** *** The three loops *)

Section Correct.

Variable K : Type.
Variable ltb : K -> K -> bool.
Variable key : Z -> K.
Variable fuel : nat.
Variable N : Z.

Hypothesis ltb_asym : forall a b, ltb a b = true -> ltb b a = false.
Hypothesis ltb_trans :
  forall a b c, ltb b a = false -> ltb c b = false -> ltb c a = false.
Hypothesis fuel_enough : N < Z.of_nat fuel.

Lemma ltb_irrefl a : ltb a a = false.
Proof.
  destruct (ltb a a) eqn:E; [|reflexivity].
  pose proof (ltb_asym _ _ E). congruence.
Qed.

Lemma scanUp_spec ord mid : forall n i s,
  i <= s -> ltb (key (ord s)) mid = false -> s - i < Z.of_nat n ->
  exists i1, scanUp K ltb key n ord mid i = Some i1 /\ i <= i1 <= s /\
    ltb (key (ord i1)) mid = false /\
    forall p, i <= p < i1 -> ltb (key (ord p)) mid = true.
Proof.
  induction n as [|n IH]; intros i s His Hs Hn; [lia|].
  cbn [scanUp]. destruct (ltb (key (ord i)) mid) eqn:E.
  - assert (i <> s) by congruence.
    destruct (IH (i + 1) s) as (i1 & H1 & H2 & H3 & H4); [lia|assumption|lia|].
    exists i1. split; [assumption|]. split; [lia|]. split; [assumption|].
    intros p Hp. destruct (Z.eq_dec p i) as [->|]; [assumption|]. apply H4; lia.
  - exists i. split; [reflexivity|]. split; [lia|]. split; [assumption|].
    intros; lia.
Qed.

Lemma scanDown_spec ord mid : forall n j s,
  s <= j -> ltb mid (key (ord s)) = false -> j - s < Z.of_nat n ->
  exists j1, scanDown K ltb key n ord mid j = Some j1 /\ s <= j1 <= j /\
    ltb mid (key (ord j1)) = false /\
    forall q, j1 < q <= j -> ltb mid (key (ord q)) = true.
Proof.
  induction n as [|n IH]; intros j s Hsj Hs Hn; [lia|].
  cbn [scanDown]. destruct (ltb mid (key (ord j))) eqn:E.
  - assert (j <> s) by congruence.
    destruct (IH (j - 1) s) as (j1 & H1 & H2 & H3 & H4); [lia|assumption|lia|].
    exists j1. split; [assumption|]. split; [lia|]. split; [assumption|].
    intros q Hq. destruct (Z.eq_dec q j) as [->|]; [assumption|]. apply H4; lia.
  - exists j. split; [reflexivity|]. split; [lia|]. split; [assumption|].
    intros; lia.
Qed.

(** What the partition of [l .. h] around [mid] has reached when
    the scans stand at [i] and [j]. *)
Record PInv (l h : Z) (ord0 : Arr) (mid : K) (ord : Arr) (i j : Z) : Prop := {
  pi_perm : perm N ord;
  pi_within : within l h ord0 ord;
  pi_low : forall p, l <= p < i -> ltb mid (key (ord p)) = false;
  pi_high : forall q, j < q <= h -> ltb (key (ord q)) mid = false;
  pi_bounds : l <= i /\ j <= h
}.

(** Entries that stop the two scans inside [l .. h]. *)
Definition sentinels (l h : Z) (mid : K) (ord : Arr) (i j : Z) : Prop :=
  exists su sd, i <= su <= h /\ l <= sd <= j /\
    ltb (key (ord su)) mid = false /\ ltb mid (key (ord sd)) = false /\
    ((l < i /\ j < h) \/ su <= sd).

Lemma partLoop_spec l h ord0 mid (Hl : 0 <= l) (Hh : h < N) : forall n ord i j,
  PInv l h ord0 mid ord i j -> sentinels l h mid ord i j ->
  i <= j -> j - i < Z.of_nat n ->
  exists ord' i' j',
    partLoop K ltb key fuel n ord mid i j = Some (ord', i', j') /\
    PInv l h ord0 mid ord' i' j' /\ j' < i' /\ l < i' /\ j' < h.
Proof.
  induction n as [|n IH]; intros ord i j HP HS Hij Hn; [lia|].
  destruct HS as (su & sd & Hsu & Hsd & Esu & Esd & Hfirst).
  destruct HP as [Hperm Hwith Hlow Hhigh Hb].
  destruct (scanUp_spec ord mid fuel i su) as (i1 & E1 & Hi1 & Ei1 & Hup);
    [lia|assumption|lia|].
  destruct (scanDown_spec ord mid fuel j sd) as (j1 & E2 & Hj1 & Ej1 & Hdn);
    [lia|assumption|lia|].
  cbn [partLoop]. rewrite E1, E2.
  assert (Hlow1 : forall p, l <= p < i1 -> ltb mid (key (ord p)) = false).
  { intros p Hp. destruct (Z_lt_le_dec p i); [apply Hlow; lia|].
    apply ltb_asym, Hup. lia. }
  assert (Hhigh1 : forall q, j1 < q <= h -> ltb (key (ord q)) mid = false).
  { intros q Hq. destruct (Z_lt_le_dec j q); [apply Hhigh; lia|].
    apply ltb_asym, Hdn. lia. }
  destruct (Z.leb_spec i1 j1) as [Hle|Hgt].
  - set (ord' := swap ord i1 j1).
    assert (HP' : PInv l h ord0 mid ord' (i1 + 1) (j1 - 1)).
    { split.
      - apply perm_swap; [assumption|lia|lia].
      - apply within_swap; [assumption|lia|lia].
      - intros p Hp. unfold ord'. rewrite swap_eq.
        destruct (Z.eqb_spec p j1) as [->|]; [|destruct (Z.eqb_spec p i1) as [->|]].
        + assert (i1 = j1) by lia. subst i1. assumption.
        + assumption.
        + apply Hlow1. lia.
      - intros q Hq. unfold ord'. rewrite swap_eq.
        destruct (Z.eqb_spec q j1) as [->|]; [|destruct (Z.eqb_spec q i1) as [->|]].
        + assumption.
        + assert (i1 = j1) by lia. subst i1. assumption.
        + apply Hhigh1. lia.
      - lia. }
    destruct (Z.leb_spec (i1 + 1) (j1 - 1)) as [Hgo|Hstop].
    + apply IH; [assumption| |lia|lia].
      exists j1, i1. split; [lia|]. split; [lia|].
      unfold ord'. rewrite !swap_eq, Z.eqb_refl.
      destruct (Z.eqb_spec i1 j1); [lia|]. rewrite Z.eqb_refl.
      split; [assumption|]. split; [assumption|]. left. lia.
    + exists ord', (i1 + 1), (j1 - 1). split; [reflexivity|].
      split; [assumption|]. lia.
  - destruct (Z.leb_spec i1 j1) as [|_]; [lia|].
    exists ord, i1, j1. split; [reflexivity|]. split; [|lia].
    split; try assumption. lia.
Qed.

(** The pair of positions [p < q] lies in one pending range. *)
Definition covered (S : Stack) (p q : Z) : Prop :=
  exists l h, In (l, h) S /\ l <= p /\ q <= h.

(** The pending ranges, top first, are proper, inside [0 .. N-1] and
    each to the left of those below it. *)
Fixpoint ascending (S : Stack) : Prop :=
  match S with
  | [] => True
  | (l, h) :: S' =>
      0 <= l /\ l < h /\ h < N /\
      (forall l' h', In (l', h') S' -> h < l') /\ ascending S'
  end.

Fixpoint weight (S : Stack) : Z :=
  match S with
  | [] => 0
  | (l, h) :: S' => (h - l) + weight S'
  end.

(** Outside the pending ranges the keys are already in order. *)
Record GInv (ord : Arr) (S : Stack) : Prop := {
  gi_perm : perm N ord;
  gi_pairs : forall p q, 0 <= p -> p < q -> q < N ->
    ltb (key (ord q)) (key (ord p)) = false \/ covered S p q;
  gi_asc : ascending S
}.

Lemma weight_nonneg S : ascending S -> 0 <= weight S.
Proof.
  induction S as [|[l h] S IH]; cbn [ascending weight]; [lia|].
  intros (_ & ? & _ & _ & HS). specialize (IH HS). lia.
Qed.

Lemma ascending_depth S : ascending S -> forall lo,
  (forall l h, In (l, h) S -> lo <= l) ->
  S = [] \/ lo + 2 * Z.of_nat (List.length S) <= N.
Proof.
  induction S as [|[l h] S IH]; intros HA lo Hlo; [left; reflexivity|right].
  cbn [ascending] in HA. destruct HA as (H0 & Hlh & HhN & Hright & HS).
  assert (lo <= l) by (apply (Hlo l h); left; reflexivity).
  destruct (IH HS (lo + 2)) as [->|Hd].
  - intros l' h' Hin. specialize (Hright l' h' Hin). lia.
  - cbn [List.length]. lia.
  - cbn [List.length]. lia.
Qed.

(** After the partition of the top range the order holds outside the
    pending ranges [T], if [T] keeps the ranges below and the two parts. *)
Lemma partition_pairs ord ord' stk l h mid i j T :
  GInv ord ((l, h) :: stk) -> PInv l h ord mid ord' i j ->
  j < i ->
  (forall p q, covered stk p q -> covered T p q) ->
  (forall p q, l <= p -> p < q -> q <= j -> covered T p q) ->
  (forall p q, i <= p -> p < q -> q <= h -> covered T p q) ->
  forall p q, 0 <= p -> p < q -> q < N ->
    ltb (key (ord' q)) (key (ord' p)) = false \/ covered T p q.
Proof.
  intros [_ Hpairs HA] [_ [Hout Hin] Hlow Hhigh _] Hji Hstk Hleft Hright p q Hp Hpq Hq.
  cbn [ascending] in HA. destruct HA as (H0 & Hlh & HhN & Hsep & _).
  assert (Hold : forall p' q', 0 <= p' -> p' < q' -> q' < N ->
            ~ (l <= p' /\ q' <= h) -> (l <= p' <= h \/ l <= q' <= h) ->
            ltb (key (ord q')) (key (ord p')) = false).
  { intros p' q' Hp' Hpq' Hq' Hnot Hone.
    destruct (Hpairs p' q' Hp' Hpq' Hq') as [|(l' & h' & [E|Hin'] & Hl' & Hh')];
      [assumption| |].
    - injection E as <- <-. lia.
    - specialize (Hsep l' h' Hin'). lia. }
  assert (Dp : l <= p <= h \/ ~ l <= p <= h) by lia.
  assert (Dq : l <= q <= h \/ ~ l <= q <= h) by lia.
  destruct Dp as [Dp|Dp], Dq as [Dq|Dq].
  - destruct (Z_le_dec q j); [right; apply Hleft; lia|].
    destruct (Z_le_dec i p); [right; apply Hright; lia|].
    left. apply ltb_trans with mid; [apply Hlow|apply Hhigh]; lia.
  - left. rewrite (Hout q) by assumption.
    destruct (Hin p) as (p' & Hp' & ->); [assumption|]. apply Hold; lia.
  - left. rewrite (Hout p) by assumption.
    destruct (Hin q) as (q' & Hq' & ->); [assumption|]. apply Hold; lia.
  - rewrite (Hout p), (Hout q) by assumption.
    destruct (Hpairs p q Hp Hpq Hq) as [|(l' & h' & [E|Hin'] & Hl' & Hh')].
    + left. assumption.
    + injection E as <- <-. lia.
    + right. apply Hstk. exists l', h'. auto.
Qed.

Lemma covered_one S l h p q :
  In (l, h) S -> l <= p -> q <= h -> covered S p q.
Proof. intros. exists l, h. auto. Qed.

Lemma covered_more S T p q :
  (forall s, In s S -> In s T) -> covered S p q -> covered T p q.
Proof. intros HST (l & h & Hin & ?). exists l, h. auto. Qed.

Lemma segLoop_spec : forall n ord stk l h,
  GInv ord ((l, h) :: stk) -> h - l < Z.of_nat n ->
  (segLoop K ltb key fuel n ord stk l h = Fatal QSortStackExceeded /\
   2 * STKSIZE < N) \/
  exists ord' stk',
    segLoop K ltb key fuel n ord stk l h = Ok (ord', stk') /\
    GInv ord' stk' /\ weight stk' < weight stk + (h - l).
Proof.
  induction n as [|n IH]; intros ord stk l h HG Hn.
  { destruct HG as [_ _ HA]. cbn [ascending] in HA. lia. }
  pose proof (gi_asc _ _ HG) as HA. cbn [ascending] in HA.
  destruct HA as (H0 & Hlh & HhN & Hsep & Hstk).
  set (mid := key (ord ((l + h) / 2 + 1))).
  assert (Hpiv : l < (l + h) / 2 + 1 <= h).
  { pose proof (Z.div_le_lower_bound (l + h) 2 l).
    pose proof (Z.div_lt_upper_bound (l + h) 2 h). lia. }
  destruct (partLoop_spec l h ord mid H0 HhN fuel ord l h)
    as (ord' & i & j & EP & HP & Hji & Hli & Hjh).
  { split; [apply (gi_perm _ _ HG)|apply within_refl| | |]; intros; lia. }
  { exists ((l + h) / 2 + 1), ((l + h) / 2 + 1).
    split; [lia|]. split; [lia|]. fold mid.
    split; [apply ltb_irrefl|]. split; [apply ltb_irrefl|]. right. lia. }
  { lia. }
  { lia. }
  cbn [segLoop]. fold mid. rewrite EP.
  pose proof (partition_pairs ord ord' stk l h mid i j) as Hpart.
  assert (Hperm' : perm N ord') by apply (pi_perm _ _ _ _ _ _ _ HP).
  destruct (Z.ltb_spec i h) as [Hih|Hih].
  - destruct (Z.geb_spec (Z.of_nat (List.length stk)) STKSIZE) as [Hfull|Hroom].
    + left. split; [reflexivity|].
      destruct (ascending_depth ((i, h) :: stk)) with (lo := 0) as [E|Hd];
        [| |discriminate E|].
      * cbn [ascending]. repeat split; try lia; assumption.
      * intros l' h' [E|Hin]; [injection E as <- <-; lia|].
        specialize (Hsep l' h' Hin). lia.
      * cbn [List.length] in Hd. lia.
    + assert (HA1 : ascending ((i, h) :: stk)).
      { cbn [ascending]. repeat split; try lia; assumption. }
      destruct (Z.ltb_spec l j) as [Hlj|Hlj].
      * destruct (IH ord' ((i, h) :: stk) l j) as [[EF HF]|(o2 & s2 & E2 & HG2 & Hw2)].
        { split; [assumption| |].
          - apply (Hpart ((l, j) :: (i, h) :: stk) HG HP Hji).
            + intros p q. apply covered_more. intros s Hs. right; right; exact Hs.
            + intros p q ? ? ?. apply (covered_one _ l j); [left; reflexivity|lia|lia].
            + intros p q ? ? ?.
              apply (covered_one _ i h); [right; left; reflexivity|lia|lia].
          - cbn [ascending]. repeat split; try lia; try assumption.
            intros l' h' [E|Hin]; [injection E as <- <-; lia|].
            specialize (Hsep l' h' Hin). lia. }
        { lia. }
        { left. auto. }
        { right. exists o2, s2. split; [assumption|]. split; [assumption|].
          cbn [weight] in Hw2. lia. }
      * right. exists ord', ((i, h) :: stk). split; [reflexivity|]. split.
        { split; [assumption| |assumption].
          apply (Hpart ((i, h) :: stk) HG HP Hji).
          - intros p q. apply covered_more. intros s Hs. right; exact Hs.
          - intros p q ? ? ?. lia.
          - intros p q ? ? ?. apply (covered_one _ i h); [left; reflexivity|lia|lia]. }
        { cbn [weight]. lia. }
  - destruct (Z.ltb_spec l j) as [Hlj|Hlj].
    + destruct (IH ord' stk l j) as [[EF HF]|(o2 & s2 & E2 & HG2 & Hw2)].
      { split; [assumption| |].
        - apply (Hpart ((l, j) :: stk) HG HP Hji).
          + intros p q. apply covered_more. intros s Hs. right; exact Hs.
          + intros p q ? ? ?. apply (covered_one _ l j); [left; reflexivity|lia|lia].
          + intros p q ? ? ?. lia.
        - cbn [ascending]. repeat split; try lia; try assumption.
          intros l' h' Hin. specialize (Hsep l' h' Hin). lia. }
      { lia. }
      { left. auto. }
      { right. exists o2, s2. split; [assumption|]. split; [assumption|]. lia. }
    + right. exists ord', stk. split; [reflexivity|]. split.
      { split; [assumption| |assumption].
        apply (Hpart stk HG HP Hji).
        - auto.
        - intros p q ? ? ?. lia.
        - intros p q ? ? ?. lia. }
      { lia. }
Qed.

Lemma sortLoop_spec : forall n ord stk,
  stk <> [] -> GInv ord stk -> weight stk < Z.of_nat n ->
  (sortLoop K ltb key fuel n ord stk = Fatal QSortStackExceeded /\
   2 * STKSIZE < N) \/
  exists ord', sortLoop K ltb key fuel n ord stk = Ok ord' /\ GInv ord' [].
Proof.
  induction n as [|n IH]; intros ord stk Hne HG Hn.
  { pose proof (weight_nonneg _ (gi_asc _ _ HG)). lia. }
  destruct stk as [|[l h] stk]; [congruence|].
  pose proof (gi_asc _ _ HG) as HA. cbn [ascending] in HA.
  destruct HA as (H0 & Hlh & HhN & _ & _).
  cbn [sortLoop weight] in *.
  destruct (segLoop_spec fuel ord stk l h HG) as [[EF HF]|(o2 & s2 & E2 & HG2 & Hw2)];
    [lia| |].
  - rewrite EF. left. auto.
  - rewrite E2. destruct s2 as [|s s2].
    + right. exists o2. auto.
    + apply IH; [discriminate|assumption|lia].
Qed.

End Correct.
(** *** The sort as a whole *)

Lemma identity_perm n ord0 : perm (Z.of_nat n) (identity n ord0).
Proof.
  unfold identity. split.
  - intros p Hp.
    destruct (Z.leb_spec 0 p); [|lia]. destruct (Z.ltb_spec p (Z.of_nat n)); [|lia].
    cbn [andb]. lia.
  - intros p q Hp Hq.
    destruct (Z.leb_spec 0 p); [|lia]. destruct (Z.ltb_spec p (Z.of_nat n)); [|lia].
    destruct (Z.leb_spec 0 q); [|lia]. destruct (Z.ltb_spec q (Z.of_nat n)); [|lia].
    cbn [andb]. auto.
Qed.

Lemma perm_entries n ord :
  perm (Z.of_nat n) ord -> Permutation (entries n ord) (map Z.of_nat (seq 0 n)).
Proof.
  intros [Hr Hi]. unfold entries. apply NoDup_Permutation_bis.
  - apply NoDup_map_NoDup_ForallPairs; [|apply seq_NoDup].
    intros p q Hp Hq E. apply in_seq in Hp, Hq.
    apply Hi in E; lia.
  - rewrite !length_map. reflexivity.
  - intros v Hv. apply in_map_iff in Hv. destruct Hv as (p & <- & Hp).
    apply in_seq in Hp. specialize (Hr (Z.of_nat p)).
    apply in_map_iff. exists (Z.to_nat (ord (Z.of_nat p))).
    split; [lia|]. apply in_seq. lia.
Qed.

(** The sort proper: handed keys of nonzero width, it leaves in [ord]
    the indices [0 .. nvals-1], each once, with their keys in
    non-decreasing order; only with more than 2000 values can it stop
    on its full stack. *)
Lemma qSortFit_spec (vals : list string) (vlen : Z) (numeric : bool) (ord0 : Arr) :
  vlen <> 0 ->
  (qSortFit vals vlen numeric ord0 = Fatal QSortStackExceeded /\
   (2000 < List.length vals)%nat) \/
  exists ord,
    qSortFit vals vlen numeric ord0 = Ok ord /\
    Permutation (entries (List.length vals) ord)
                (map Z.of_nat (seq 0 (List.length vals))) /\
    ordered vals numeric ord.
Proof.
  intros Hv. unfold qSortFit.
  destruct (Z.eqb_spec vlen 0) as [|_]; [contradiction|].
  rewrite orb_false_r.
  destruct (Nat.eqb_spec (List.length vals) 0) as [E0|N0].
  { right. exists ord0. split; [reflexivity|]. rewrite E0. split.
    - apply perm_nil.
    - intros p q Hpq. rewrite E0 in Hpq. lia. }
  destruct (Nat.eqb_spec (List.length vals) 1) as [E1|N1].
  { right. exists (identity (List.length vals) ord0). split; [reflexivity|]. split.
    - apply perm_entries, identity_perm.
    - intros p q Hpq. rewrite E1 in Hpq. lia. }
  set (n := List.length vals) in *.
  destruct (sortLoop_spec string (keyLt numeric) (valAt vals) (S n) (Z.of_nat n)
              (keyLt_asym numeric) (keyLt_trans numeric) ltac:(lia)
              (S n) (identity n ord0) [(0, Z.of_nat n - 1)])
    as [[EF HF]|(ord & EO & HG)].
  - discriminate.
  - split.
    + apply identity_perm.
    + intros p q Hp Hpq Hq. right. exists 0, (Z.of_nat n - 1).
      split; [left; reflexivity|lia].
    + cbn [ascending]. repeat split; try lia. intros l' h' [].
  - cbn [weight]. lia.
  - left. split; [assumption|]. unfold STKSIZE in HF. lia.
  - right. exists ord. split; [assumption|]. split.
    + apply perm_entries, (gi_perm _ _ _ _ _ _ HG).
    + intros p q Hpq.
      destruct (gi_pairs _ _ _ _ _ _ HG (Z.of_nat p) (Z.of_nat q)) as [|(l & h & [] & _)];
        [lia|lia|fold n; lia|assumption].
Qed.

(** *** The buffer [mid] *)

(** The ending that goes with a result of the sort proper. *)
Definition ended {A : Type} (o : outcome A) : ending A :=
  match o with
  | Ok a => Returns a
  | Fatal _ => StackFull
  | OutOfFuel => NoFuel
  end.

Section MidFacts.

Variable K : Type.
Variable ltb : K -> K -> bool.
Variable key : Z -> K.
Variable fuel : nat.
Variable fits : K -> bool.

(** Until a key does not fit, the sort goes as without the buffer. *)
Lemma segLoopMid_cases : forall n ord stk l h,
  segLoopMid K ltb key fuel fits n ord stk l h = PastMid \/
  segLoopMid K ltb key fuel fits n ord stk l h
  = ended (segLoop K ltb key fuel n ord stk l h).
Proof.
  induction n as [|n IH]; intros ord stk l h; cbn [segLoopMid segLoop].
  - right. reflexivity.
  - destruct (fits (key (ord ((l + h) / 2 + 1)))); cbn [negb]; [|left; reflexivity].
    destruct (partLoop K ltb key fuel fuel ord (key (ord ((l + h) / 2 + 1))) l h)
      as [[[ord' i] j]|]; [|right; reflexivity].
    destruct (i <? h).
    + destruct (Z.of_nat (List.length stk) >=? STKSIZE); [right; reflexivity|].
      destruct (l <? j); [apply IH | right; reflexivity].
    + destruct (l <? j); [apply IH | right; reflexivity].
Qed.

Lemma sortLoopMid_cases : forall n ord stk,
  sortLoopMid K ltb key fuel fits n ord stk = PastMid \/
  sortLoopMid K ltb key fuel fits n ord stk
  = ended (sortLoop K ltb key fuel n ord stk).
Proof.
  induction n as [|n IH]; intros ord stk; cbn [sortLoopMid sortLoop].
  - right. reflexivity.
  - destruct stk as [|[l h] stk]; [right; reflexivity|].
    destruct (segLoopMid_cases fuel ord stk l h) as [E|E]; rewrite E.
    + left. reflexivity.
    + destruct (segLoop K ltb key fuel fuel ord stk l h) as [[ord' stk']| |];
        cbn [ended]; [|right; reflexivity|right; reflexivity].
      destruct stk' as [|s stk']; [right; reflexivity | apply IH].
Qed.

Hypothesis all_fit : forall k, fits (key k) = true.

Lemma segLoopMid_fits : forall n ord stk l h,
  segLoopMid K ltb key fuel fits n ord stk l h
  = ended (segLoop K ltb key fuel n ord stk l h).
Proof.
  induction n as [|n IH]; intros ord stk l h; cbn [segLoopMid segLoop].
  - reflexivity.
  - rewrite all_fit. cbn [negb].
    destruct (partLoop K ltb key fuel fuel ord (key (ord ((l + h) / 2 + 1))) l h)
      as [[[ord' i] j]|]; [|reflexivity].
    destruct (i <? h).
    + destruct (Z.of_nat (List.length stk) >=? STKSIZE); [reflexivity|].
      destruct (l <? j); [apply IH | reflexivity].
    + destruct (l <? j); [apply IH | reflexivity].
Qed.

Lemma sortLoopMid_fits : forall n ord stk,
  sortLoopMid K ltb key fuel fits n ord stk
  = ended (sortLoop K ltb key fuel n ord stk).
Proof.
  induction n as [|n IH]; intros ord stk; cbn [sortLoopMid sortLoop].
  - reflexivity.
  - destruct stk as [|[l h] stk]; [reflexivity|].
    rewrite segLoopMid_fits.
    destruct (segLoop K ltb key fuel fuel ord stk l h) as [[ord' stk']| |];
      cbn [ended]; [|reflexivity|reflexivity].
    destruct stk' as [|s stk']; [reflexivity | apply IH].
Qed.

End MidFacts.

Lemma forallb_false {A : Type} (f : A -> bool) (l : list A) :
  forallb f l = false -> exists x, In x l /\ f x = false.
Proof.
  induction l as [|a l IH]; cbn [forallb]; [discriminate|].
  destruct (f a) eqn:E; cbn [andb].
  - intros H. destruct (IH H) as (x & Hx & Ex). exists x. split; [now right | exact Ex].
  - intros _. exists a. split; [now left | exact E].
Qed.

(** Keys that fit, and a width of nonzero, give the sort proper. *)
Lemma qSort_fit (vals : list string) (vlen : Z) (numeric : bool) (ord0 : Arr) :
  0 <= vlen ->
  forallb (fun k => Z.of_nat (strlen k) <=? vlen) vals = true ->
  qSort vals vlen numeric ord0 = ended (qSortFit vals vlen numeric ord0).
Proof.
  intros Hv Hall. unfold qSort, qSortFit.
  destruct (Nat.eqb (List.length vals) 0 || (vlen =? 0)); [reflexivity|].
  destruct (Z.ltb_spec (vlen + 1) 0); [lia|].
  destruct (Nat.eqb (List.length vals) 1); [reflexivity|].
  apply sortLoopMid_fits. intros k. unfold valAt.
  destruct (nth_in_or_default (Z.to_nat k) vals EmptyString) as [Hin| ->].
  - exact (proj1 (forallb_forall _ _) Hall _ Hin).
  - cbn [strlen]. apply Z.leb_le. lia.
Qed.

(** When [qSort] returns, it returns what the sort proper gives. *)
Lemma qSort_returns (vals : list string) (vlen : Z) (numeric : bool)
      (ord0 ord : Arr) :
  qSort vals vlen numeric ord0 = Returns ord ->
  qSortFit vals vlen numeric ord0 = Ok ord.
Proof.
  unfold qSort, qSortFit.
  destruct (Nat.eqb (List.length vals) 0 || (vlen =? 0)).
  { intros E. injection E as <-. reflexivity. }
  destruct (vlen + 1 <? 0); [discriminate|].
  destruct (Nat.eqb (List.length vals) 1).
  { intros E. injection E as <-. reflexivity. }
  intros E.
  destruct (sortLoopMid_cases string (keyLt numeric) (valAt vals)
              (S (List.length vals))
              (fun k => Z.of_nat (strlen k) <=? vlen)
              (S (List.length vals)) (identity (List.length vals) ord0)
              [(0, Z.of_nat (List.length vals) - 1)]) as [EP|EP];
    rewrite E in EP; [discriminate EP|].
  destruct (sortLoop string (keyLt numeric) (valAt vals) (S (List.length vals))
              (S (List.length vals)) (identity (List.length vals) ord0)
              [(0, Z.of_nat (List.length vals) - 1)]); cbn [ended] in EP;
    try discriminate EP.
  injection EP as <-. reflexivity.
Qed.

(** C9, as the code has it: handed keys of nonzero width, none longer
    than that width, [qSort] in either comparison mode leaves in [ord]
    the indices [0 .. nvals-1], each once, with their keys in
    non-decreasing order ([strcmp] order, or the order of the [atoi]
    values in numeric mode); only with more than 2000 values can it
    stop on its full stack, only with a key longer than [vlen] does it
    store past the end of [mid], and only with a width below -1 does
    it stop for want of memory.  The order among equal keys is not
    kept. *)
Theorem qSort_sorts (vals : list string) (vlen : Z) (numeric : bool) (ord0 : Arr) :
  vlen <> 0 ->
  match qSort vals vlen numeric ord0 with
  | Returns ord =>
      Permutation (entries (List.length vals) ord)
                  (map Z.of_nat (seq 0 (List.length vals))) /\
      ordered vals numeric ord
  | StackFull => (2000 < List.length vals)%nat
  | NoMemory => vlen < -1
  | PastMid => exists k, In k vals /\ vlen < Z.of_nat (strlen k)
  | NoFuel => False
  end.
Proof.
  intros Hv.
  assert (Hfit : forall o, qSort vals vlen numeric ord0
                           = ended (qSortFit vals vlen numeric ord0) ->
                 qSort vals vlen numeric ord0 = o ->
                 match o with
                 | Returns ord =>
                     Permutation (entries (List.length vals) ord)
                                 (map Z.of_nat (seq 0 (List.length vals))) /\
                     ordered vals numeric ord
                 | StackFull => (2000 < List.length vals)%nat
                 | NoMemory => vlen < -1
                 | PastMid => exists k, In k vals /\ vlen < Z.of_nat (strlen k)
                 | NoFuel => False
                 end).
  { intros o E Eo. rewrite E in Eo. subst o.
    destruct (qSortFit_spec vals vlen numeric ord0 Hv) as [[EF HF]|(ord & EO & HP & HO)].
    - rewrite EF. exact HF.
    - rewrite EO. split; assumption. }
  destruct (qSort vals vlen numeric ord0) as [ord| | | |] eqn:E.
  all: revert E; unfold qSort.
  all: destruct (Z.eqb_spec vlen 0) as [|_]; [contradiction|]; rewrite orb_false_r.
  all: destruct (Nat.eqb_spec (List.length vals) 0) as [E0|N0].
  all: try (intros E; apply (Hfit _ (eq_trans (eq_sym E) ?[x]) eq_refl); fail).
  all: try discriminate.
  all: try (intros E; injection E as <-; rewrite E0; split;
            [apply perm_nil | intros p q Hpq; rewrite E0 in Hpq; lia]).
  all: destruct (Z.ltb_spec (vlen + 1) 0) as [Hneg|Hpos]; try discriminate.
  all: try (intros _; lia).
  all: destruct (Nat.eqb_spec (List.length vals) 1) as [E1|N1]; try discriminate.
  all: try (intros E; injection E as <-; split;
            [apply perm_entries, identity_perm
            |intros p q Hpq; rewrite E1 in Hpq; lia]).
  all: intros E.
  all: assert (Hun : qSortFit vals vlen numeric ord0
                     = sortLoop string (keyLt numeric) (valAt vals)
                         (S (List.length vals)) (S (List.length vals))
                         (identity (List.length vals) ord0)
                         [(0, Z.of_nat (List.length vals) - 1)]).
  all: try (unfold qSortFit;
            destruct (Z.eqb_spec vlen 0) as [|_]; [contradiction|];
            rewrite orb_false_r;
            destruct (Nat.eqb_spec (List.length vals) 0); [contradiction|];
            destruct (Nat.eqb_spec (List.length vals) 1); [contradiction|];
            reflexivity).
  all: destruct (sortLoopMid_cases string (keyLt numeric) (valAt vals)
                   (S (List.length vals))
                   (fun k => Z.of_nat (strlen k) <=? vlen)
                   (S (List.length vals)) (identity (List.length vals) ord0)
                   [(0, Z.of_nat (List.length vals) - 1)]) as [EP|EP];
    rewrite E in EP; try discriminate EP.
  all: try (destruct (qSortFit_spec vals vlen numeric ord0 Hv)
              as [[EF HF]|(ord' & EO & HP & HO)];
            rewrite Hun in *;
            [rewrite EF in EP; cbn [ended] in EP; try discriminate EP; exact HF
            |rewrite EO in EP; cbn [ended] in EP; try discriminate EP;
             injection EP as <-; split; assumption]).
  (* [PastMid]: some key does not fit *)
  destruct (forallb (fun k => Z.of_nat (strlen k) <=? vlen) vals) eqn:F.
  - destruct (Z.ltb_spec vlen 0) as [Hm|Hm].
    + destruct vals as [|k vals]; [cbn in N0; contradiction|].
      exists k. split; [now left | lia].
    + pose proof (qSort_fit vals vlen numeric ord0 Hm F) as Eq.
      unfold qSort in Eq.
      destruct (Z.eqb_spec vlen 0) as [|_]; [contradiction|].
      rewrite orb_false_r in Eq.
      destruct (Nat.eqb_spec (List.length vals) 0); [contradiction|].
      destruct (Z.ltb_spec (vlen + 1) 0); [lia|].
      destruct (Nat.eqb_spec (List.length vals) 1); [contradiction|].
      rewrite E in Eq. destruct (qSortFit vals vlen numeric ord0); discriminate Eq.
  - destruct (forallb_false _ _ F) as (k & Hk & Ek).
    exists k. split; [exact Hk|]. apply Z.leb_gt in Ek. exact Ek.
Qed.

Lemma qSort_sorts_witness :
  exists ord,
    qSort ["b"; "a"; "c"; "a"]%string 1 false (fun _ => 0) = Returns ord /\
    entries 4 ord = [3; 1; 0; 2] /\
    ordered ["b"; "a"; "c"; "a"]%string false ord.
Proof.
  pose proof (qSort_sorts ["b"; "a"; "c"; "a"]%string 1 false (fun _ => 0)
                ltac:(lia)) as H.
  destruct (qSort ["b"; "a"; "c"; "a"]%string 1 false (fun _ => 0))
    as [ord| | | |] eqn:E; try (vm_compute in E; discriminate E).
  exists ord. split; [reflexivity|]. split; [|exact (proj2 H)].
  vm_compute in E. injection E as <-. reflexivity.
Defined.

(** C9, as the spec has it, fails: of two equal keys the sort puts the
    second first, in both comparison modes. *)
Lemma qSort_not_stable :
  (exists ord, qSort ["a"; "a"]%string 1 false (fun _ => 0) = Returns ord /\
               ~ stable ["a"; "a"]%string false ord) /\
  (exists ord, qSort ["7"; "7"]%string 1 true (fun _ => 0) = Returns ord /\
               ~ stable ["7"; "7"]%string true ord).
Proof.
  split; (eexists; split; [reflexivity|]); intros H;
    pose proof (H 0%nat 1%nat ltac:(cbn; lia) eq_refl) as H';
    vm_compute in H'; discriminate H'.
Qed.

End Sort.
(** ** Equal C strings *)

Module CStr.

Import Sort.

Lemma strcmp_refl a : strcmp a a = 0%Z.
Proof. pose proof (strcmp_opp a a). lia. Qed.

Lemma strcmp_sym a b : strcmp a b = 0%Z -> strcmp b a = 0%Z.
Proof. rewrite (strcmp_opp a b). lia. Qed.

Lemma strcmp_eq_trans a b c :
  strcmp a b = 0%Z -> strcmp b c = 0%Z -> strcmp a c = 0%Z.
Proof.
  intros H1 H2.
  pose proof (strcmp_le_trans a b c ltac:(lia) ltac:(lia)).
  pose proof (strcmp_le_trans c b a ltac:(rewrite strcmp_opp; lia)
                ltac:(rewrite strcmp_opp; lia)) as H3.
  rewrite strcmp_opp in H3. lia.
Qed.

End CStr.

(** ** The sorted indices: [sortInds], [findInd], [findPid], [findAllele] *)

Module Lookup.

Import Sort.
Import CStr.

Local Open Scope Z_scope.

(** The loop shared by [findInd], [findPid] and [findAllele]:
    [cmp ndx] is the comparison of the key looked for with the key at
    place [ndx] of the sorted index, [hit ndx] the value returned when
    they are equal; [-1] is returned when the interval is empty. *)
Fixpoint search (fuel : nat) (cmp hit : Z -> Z) (lo hi : Z) : option Z :=
  match fuel with
  | O => None
  | S fuel' =>
      if hi >=? lo then
        let ndx := (lo + hi) / 2 in
        let c := cmp ndx in
        if c =? 0 then Some (hit ndx)
        else if c <? 0 then search fuel' cmp hit lo (ndx - 1)
        else search fuel' cmp hit (ndx + 1) hi
      else Some (-1)
  end.

(** [findInd(id)]: [ids] are the [id] fields of [IndArray], in order. *)
Definition findInd (ids : list string) (IndSort : Arr) (id : string) : option Z :=
  let NumInd := Z.of_nat (List.length ids) in
  search (S (List.length ids))
         (fun ndx => strcmp id (valAt ids (IndSort ndx)))
         IndSort 0 (NumInd - 1).

(** [findPid(pid)]: the keys are the [id] fields when [inMrkFile] is
    set and the [pid] fields otherwise. *)
Definition findPid (inMrkFile : bool) (ids pids : list string) (PidSort : Arr)
    (pid : string) : option Z :=
  let NumInd := Z.of_nat (List.length ids) in
  search (S (List.length ids))
         (fun ndx => if inMrkFile then strcmp pid (valAt ids (PidSort ndx))
                     else strcmp pid (valAt pids (PidSort ndx)))
         PidSort 0 (NumInd - 1).

(** [findAllele(loc, allele)] on the fields of [LocArray[loc]]: in
    numeric mode the comparison is that of the [atoi] values; the place
    in [allSort] is returned, not the allele found there. *)
Definition findAllele (allNumeric : bool) (allList : list string) (allSort : Arr)
    (allele : string) : option Z :=
  let numAll := Z.of_nat (List.length allList) in
  search (S (List.length allList))
         (fun ndx =>
            if allNumeric then
              let a0 := atoi allele in
              let a1 := atoi (valAt allList (allSort ndx)) in
              if a0 <? a1 then -1 else if a0 >? a1 then 1 else 0
            else strcmp allele (valAt allList (allSort ndx)))
         (fun ndx => ndx) 0 (numAll - 1).

(** [sortPids]: the keys are copied into buffers of [PidLen+1] bytes
    and sorted into [PidSort]; they are [PidLen] wide, so the sort is
    [qSortFit]. *)
Definition sortPids (inMrkFile : bool) (ids pids : list string) (PidLen : Z)
    (PidSort0 : Arr) : outcome Arr :=
  qSortFit (if inMrkFile then ids else pids) PidLen false PidSort0.

(** What [sortInds] leaves: the index [IndSort], the [seq] field of
    every individual, and the individuals reported as appearing more
    than once, in the order of the reports. *)
Record Sorted : Type := {
  IndSort : Arr;
  seq : Arr;
  dups : list Z
}.

(** The test of the second loop, at [i]. *)
Definition dupStep (ids : list string) (ord : Arr) (log : list Z) (i : nat)
  : list Z :=
  let i := Z.of_nat i in
  if strcmp (valAt ids (ord i)) (valAt ids (ord (i - 1))) =? 0
  then log ++ [ord i] else log.

(** [IndArray[IndSort[i]]->seq = i] *)
Definition seqStep (ord : Arr) (sq : Arr) (i : nat) : Arr :=
  updZ sq (ord (Z.of_nat i)) (Z.of_nat i).

(** [sortInds]: [vlen] is [FamidLen+IdLen], [IndSort0] and [seq0] what
    the index and the [seq] fields hold on entry, [ErrCnt] the number of
    errors logged so far.  The ids are copied into buffers of [vlen+1]
    bytes before they are sorted; they are [vlen] wide, so the sort is
    [qSortFit]. *)
Definition sortInds (ids : list string) (vlen : Z) (IndSort0 seq0 : Arr)
    (ErrCnt : nat) : outcome Sorted :=
  let NumInd := List.length ids in
  match qSortFit ids vlen false IndSort0 with
  | Ok ord =>
      let log := fold_left (dupStep ids ord) (List.seq 1 (NumInd - 1)) [] in
      let sq := fold_left (seqStep ord) (List.seq 0 NumInd) seq0 in
      let cnt := (ErrCnt + List.length log)%nat in
      if Nat.eqb cnt 0 then Ok {| IndSort := ord; seq := sq; dups := log |}
      else Fatal (DataErrorsFound cnt ERRFILE)
  | Fatal m => Fatal m
  | OutOfFuel => OutOfFuel
  end.

(** *** The search loop *)

Section Search.

Variables cmp hit : Z -> Z.

Lemma search_sound : forall fuel lo hi,
  0 <= hi - lo + 1 < Z.of_nat fuel ->
  search fuel cmp hit lo hi = Some (-1) \/
  exists ndx, lo <= ndx <= hi /\ cmp ndx = 0 /\
              search fuel cmp hit lo hi = Some (hit ndx).
Proof.
  induction fuel as [|fuel IH]; intros lo hi Hf; cbn [search].
  - lia.
  - destruct (Z.geb_spec hi lo) as [Hge|Hlt]; [|left; reflexivity].
    assert (Hm : lo <= (lo + hi) / 2 <= hi).
    { pose proof (Z.div_le_lower_bound (lo + hi) 2 lo).
      pose proof (Z.div_le_upper_bound (lo + hi) 2 hi). lia. }
    destruct (Z.eqb_spec (cmp ((lo + hi) / 2)) 0) as [E|NE].
    + right. exists ((lo + hi) / 2). auto.
    + destruct (Z.ltb_spec (cmp ((lo + hi) / 2)) 0).
      * destruct (IH lo ((lo + hi) / 2 - 1)) as [H1|(ndx & H1 & H2 & H3)];
          [lia|left; exact H1|].
        right. exists ndx. split; [lia|]. auto.
      * destruct (IH ((lo + hi) / 2 + 1) hi) as [H1|(ndx & H1 & H2 & H3)];
          [lia|left; exact H1|].
        right. exists ndx. split; [lia|]. auto.
Qed.

(** Along the index the comparison goes from positive through zero to
    negative. *)
Definition descending (lo hi : Z) : Prop :=
  forall p q, lo <= p -> p <= q -> q <= hi ->
    (cmp p < 0 -> cmp q < 0) /\ (0 < cmp q -> 0 < cmp p).

Lemma search_complete LO HI (Hd : descending LO HI) : forall fuel lo hi,
  LO <= lo -> hi <= HI ->
  0 <= hi - lo + 1 < Z.of_nat fuel ->
  search fuel cmp hit lo hi = Some (-1) ->
  (exists ndx, lo <= ndx <= hi /\ cmp ndx = 0 /\
               search fuel cmp hit lo hi = Some (hit ndx)) \/
  forall ndx, lo <= ndx <= hi -> cmp ndx <> 0.
Proof.
  induction fuel as [|fuel IH]; intros lo hi HLO HHI Hf; cbn [search].
  - lia.
  - destruct (Z.geb_spec hi lo) as [Hge|Hlt]; [|intros _; right; intros; lia].
    assert (Hm : lo <= (lo + hi) / 2 <= hi).
    { pose proof (Z.div_le_lower_bound (lo + hi) 2 lo).
      pose proof (Z.div_le_upper_bound (lo + hi) 2 hi). lia. }
    set (m := (lo + hi) / 2) in *.
    destruct (Z.eqb_spec (cmp m) 0) as [E|NE].
    + intros _. left. exists m. auto.
    + destruct (Z.ltb_spec (cmp m) 0) as [Hneg|Hpos]; intros Hs.
      * destruct (IH lo (m - 1)) as [(ndx & H1 & H2 & H3)|Hnone];
          [lia|lia|lia|exact Hs| |].
        -- left. exists ndx. split; [lia|]. auto.
        -- right. intros ndx Hn. destruct (Z_lt_le_dec ndx m); [apply Hnone; lia|].
           destruct (Hd m ndx) as [Hd1 _]; [lia|lia|lia|].
           specialize (Hd1 Hneg). lia.
      * destruct (IH (m + 1) hi) as [(ndx & H1 & H2 & H3)|Hnone];
          [lia|lia|lia|exact Hs| |].
        -- left. exists ndx. split; [lia|]. auto.
        -- right. intros ndx Hn. destruct (Z_lt_le_dec m ndx); [apply Hnone; lia|].
           destruct (Hd ndx m) as [_ Hd2]; [lia|lia|lia|].
           assert (0 < cmp m) by lia. specialize (Hd2 H). lia.
Qed.

(** On a descending comparison the search ends on a place where the
    comparison is zero, or with [-1] when there is none. *)
Lemma search_spec n (Hd : descending 0 (Z.of_nat n - 1)) :
  (exists ndx, 0 <= ndx < Z.of_nat n /\ cmp ndx = 0 /\
     search (S n) cmp hit 0 (Z.of_nat n - 1) = Some (hit ndx)) \/
  ((forall ndx, 0 <= ndx < Z.of_nat n -> cmp ndx <> 0) /\
   search (S n) cmp hit 0 (Z.of_nat n - 1) = Some (-1)).
Proof.
  destruct (search_sound (S n) 0 (Z.of_nat n - 1)) as [Hmiss|(ndx & H1 & H2 & H3)];
    [lia| |].
  - destruct (search_complete 0 (Z.of_nat n - 1) Hd (S n) 0 (Z.of_nat n - 1))
      as [(ndx & H1 & H2 & H3)|Hnone]; [lia|lia|lia|exact Hmiss| |].
    + left. exists ndx. split; [lia|]. auto.
    + right. split; [|exact Hmiss]. intros ndx Hn. apply Hnone. lia.
  - left. exists ndx. split; [lia|]. auto.
Qed.

End Search.

(** *** Keys in order *)

Lemma keyLt_irrefl numeric a : keyLt numeric a a = false.
Proof.
  destruct (keyLt numeric a a) eqn:E; [|reflexivity].
  pose proof (keyLt_asym numeric a a E). congruence.
Qed.

Lemma ordered_Z vals numeric ord :
  ordered vals numeric ord ->
  forall p q, 0 <= p -> p <= q -> q < Z.of_nat (List.length vals) ->
    keyLt numeric (valAt vals (ord q)) (valAt vals (ord p)) = false.
Proof.
  intros Ho p q Hp Hpq Hq.
  destruct (Z.eq_dec p q) as [->|Hne]; [apply keyLt_irrefl|].
  specialize (Ho (Z.to_nat p) (Z.to_nat q)).
  rewrite !Z2Nat.id in Ho by lia. apply Ho. lia.
Qed.

(** The comparison of [findInd] and [findPid] descends along an index
    in [strcmp] order. *)
Lemma strcmp_descending vals ord key :
  ordered vals false ord ->
  descending (fun ndx => strcmp key (valAt vals (ord ndx)))
             0 (Z.of_nat (List.length vals) - 1).
Proof.
  intros Ho p q Hp Hpq Hq.
  pose proof (ordered_Z vals false ord Ho p q Hp Hpq ltac:(lia)) as H.
  unfold keyLt in H. apply Z.ltb_ge in H.
  set (kp := valAt vals (ord p)) in *. set (kq := valAt vals (ord q)) in *.
  rewrite strcmp_opp in H.
  split; intros Hc.
  - destruct (Z_lt_le_dec (strcmp key kq) 0) as [|Hge]; [assumption|exfalso].
    pose proof (strcmp_le_trans kp kq key ltac:(lia)
                  ltac:(rewrite strcmp_opp; lia)) as Ht.
    rewrite strcmp_opp in Ht. lia.
  - destruct (Z_lt_le_dec 0 (strcmp key kp)) as [|Hle]; [assumption|exfalso].
    pose proof (strcmp_le_trans key kp kq Hle ltac:(lia)). lia.
Qed.

(** Every index below [n] is an entry of a permutation of them. *)
Lemma perm_onto n ord k :
  perm (Z.of_nat n) ord -> 0 <= k < Z.of_nat n ->
  exists p, 0 <= p < Z.of_nat n /\ ord p = k.
Proof.
  intros Hp Hk. apply perm_entries in Hp.
  assert (Hin : In k (map Z.of_nat (List.seq 0 n))).
  { apply in_map_iff. exists (Z.to_nat k). split; [lia|]. apply in_seq. lia. }
  apply (Permutation_in _ (Permutation_sym Hp)) in Hin.
  unfold entries in Hin. apply in_map_iff in Hin.
  destruct Hin as (p & E & Hin). apply in_seq in Hin.
  exists (Z.of_nat p). split; [lia|exact E].
Qed.

(** What the sort returns, in the form the searches use. *)
Lemma qSortFit_index vals vlen numeric ord0 :
  vlen <> 0 ->
  qSortFit vals vlen numeric ord0 = Fatal QSortStackExceeded \/
  exists ord, qSortFit vals vlen numeric ord0 = Ok ord /\
    perm (Z.of_nat (List.length vals)) ord /\ ordered vals numeric ord.
Proof.
  intros Hv. unfold qSortFit.
  destruct (Z.eqb_spec vlen 0) as [|_]; [contradiction|].
  rewrite orb_false_r.
  destruct (Nat.eqb_spec (List.length vals) 0) as [E0|N0].
  { right. exists ord0. split; [reflexivity|]. rewrite E0. split.
    - split; intros; lia.
    - intros p q Hpq. rewrite E0 in Hpq. lia. }
  destruct (Nat.eqb_spec (List.length vals) 1) as [E1|N1].
  { right. exists (identity (List.length vals) ord0). split; [reflexivity|]. split.
    - apply identity_perm.
    - intros p q Hpq. rewrite E1 in Hpq. lia. }
  set (n := List.length vals) in *.
  destruct (sortLoop_spec string (keyLt numeric) (valAt vals) (S n) (Z.of_nat n)
              (keyLt_asym numeric) (keyLt_trans numeric) ltac:(lia)
              (S n) (identity n ord0) [(0, Z.of_nat n - 1)])
    as [[EF HF]|(ord & EO & HG)].
  - discriminate.
  - split.
    + apply identity_perm.
    + intros p q Hp Hpq Hq. right. exists 0, (Z.of_nat n - 1).
      split; [left; reflexivity|lia].
    + cbn [ascending]. repeat split; try lia. intros l' h' [].
  - cbn [weight]. lia.
  - left. assumption.
  - right. exists ord. split; [assumption|]. split.
    + apply (gi_perm _ _ _ _ _ _ HG).
    + intros p q Hpq.
      destruct (gi_pairs _ _ _ _ _ _ HG (Z.of_nat p) (Z.of_nat q)) as [|(l & h & [] & _)];
        [lia|lia|fold n; lia|assumption].
Qed.

(** *** [findInd] *)

Lemma findInd_spec ids ord id :
  perm (Z.of_nat (List.length ids)) ord -> ordered ids false ord ->
  (exists ndx, 0 <= ndx < Z.of_nat (List.length ids) /\
     strcmp id (valAt ids (ord ndx)) = 0 /\ findInd ids ord id = Some (ord ndx)) \/
  ((forall k, 0 <= k < Z.of_nat (List.length ids) -> strcmp id (valAt ids k) <> 0) /\
   findInd ids ord id = Some (-1)).
Proof.
  intros Hp Ho. unfold findInd.
  destruct (search_spec (fun ndx => strcmp id (valAt ids (ord ndx))) ord
              (List.length ids) (strcmp_descending ids ord id Ho))
    as [(ndx & H1 & H2 & H3)|[Hnone Hs]].
  - left. exists ndx. auto.
  - right. split; [|exact Hs]. intros k Hk.
    destruct (perm_onto _ ord k Hp Hk) as (p & Hpr & <-). apply Hnone, Hpr.
Qed.

(** *** [sortInds] *)

Lemma dups_spec ids ord : forall l log x,
  In x (fold_left (dupStep ids ord) l log) <->
  In x log \/
  exists i, In i l /\
    strcmp (valAt ids (ord (Z.of_nat i))) (valAt ids (ord (Z.of_nat i - 1))) = 0 /\
    x = ord (Z.of_nat i).
Proof.
  induction l as [|i l IH]; intros log x; cbn [fold_left].
  - split; [auto|]. intros [H|(i & [] & _)]. exact H.
  - rewrite IH. unfold dupStep.
    destruct (Z.eqb_spec (strcmp (valAt ids (ord (Z.of_nat i)))
                                 (valAt ids (ord (Z.of_nat i - 1)))) 0) as [E|NE].
    + rewrite in_app_iff. cbn [In]. split.
      * intros [[H|[H|[]]]|(j & Hj & Hc & Hx)].
        -- left. exact H.
        -- right. exists i. auto.
        -- right. exists j. auto.
      * intros [H|(j & [<-|Hj] & Hc & Hx)].
        -- left. left. exact H.
        -- left. right. left. auto.
        -- right. exists j. auto.
    + split.
      * intros [H|(j & Hj & Hc & Hx)]; [left; exact H|]. right. exists j.
        split; [right; exact Hj|auto].
      * intros [H|(j & [<-|Hj] & Hc & Hx)]; [left; exact H|contradiction|].
        right. exists j. auto.
Qed.

Lemma seq_spec ord n sq0 :
  perm (Z.of_nat n) ord ->
  forall i, 0 <= i < Z.of_nat n ->
    fold_left (seqStep ord) (List.seq 0 n) sq0 (ord i) = i.
Proof.
  intros [_ Hinj].
  assert (H : forall m, (m <= n)%nat -> forall i, 0 <= i < Z.of_nat m ->
            fold_left (seqStep ord) (List.seq 0 m) sq0 (ord i) = i).
  { induction m as [|m IH]; intros Hm i Hi; [lia|].
    rewrite seq_S, fold_left_app. cbn [fold_left Nat.add]. unfold seqStep at 1.
    unfold updZ. destruct (Z.eqb_spec (ord i) (ord (Z.of_nat m))) as [E|NE].
    - apply Hinj in E; lia.
    - apply IH; [lia|]. assert (i <> Z.of_nat m) by congruence. lia. }
  apply H. lia.
Qed.

(** In an index in [strcmp] order two individuals with the same id
    stand side by side somewhere. *)
Lemma adjacent_equal ids ord a b :
  perm (Z.of_nat (List.length ids)) ord -> ordered ids false ord ->
  0 <= a < Z.of_nat (List.length ids) -> 0 <= b < Z.of_nat (List.length ids) ->
  a <> b -> strcmp (valAt ids a) (valAt ids b) = 0 ->
  exists i, 1 <= i < Z.of_nat (List.length ids) /\
    strcmp (valAt ids (ord i)) (valAt ids (ord (i - 1))) = 0.
Proof.
  intros Hp Ho Ha Hb Hab E.
  assert (W : forall p q, 0 <= p -> p < q -> q < Z.of_nat (List.length ids) ->
            strcmp (valAt ids (ord p)) (valAt ids (ord q)) = 0 ->
            strcmp (valAt ids (ord (p + 1))) (valAt ids (ord p)) = 0).
  { intros p q Hp0 Hpq Hq Epq.
    pose proof (ordered_Z ids false ord Ho p (p + 1) ltac:(lia) ltac:(lia) ltac:(lia)) as H1.
    pose proof (ordered_Z ids false ord Ho (p + 1) q ltac:(lia) ltac:(lia) ltac:(lia)) as H2.
    unfold keyLt in H1, H2. apply Z.ltb_ge in H1, H2.
    rewrite strcmp_opp in H2.
    pose proof (strcmp_le_trans (valAt ids (ord (p + 1))) (valAt ids (ord q))
                  (valAt ids (ord p)) ltac:(lia)
                  ltac:(rewrite strcmp_opp; lia)). lia. }
  destruct (perm_onto _ ord a Hp Ha) as (pa & Hpa & Ea).
  destruct (perm_onto _ ord b Hp Hb) as (pb & Hpb & Eb).
  subst a b. assert (pa <> pb) by congruence.
  destruct (Z_lt_le_dec pa pb).
  - exists (pa + 1). split; [lia|]. replace (pa + 1 - 1) with pa by lia.
    apply (W pa pb); [lia|lia|lia|exact E].
  - exists (pb + 1). split; [lia|]. replace (pb + 1 - 1) with pb by lia.
    apply (W pb pa); [lia|lia|lia|]. rewrite strcmp_opp. lia.
Qed.

Lemma sortInds_cases ids vlen I0 s0 cnt0 :
  vlen <> 0 ->
  sortInds ids vlen I0 s0 cnt0 = Fatal QSortStackExceeded \/
  exists ord,
    qSortFit ids vlen false I0 = Ok ord /\
    perm (Z.of_nat (List.length ids)) ord /\ ordered ids false ord /\
    let log := fold_left (dupStep ids ord)
                 (List.seq 1 (List.length ids - 1)) [] in
    sortInds ids vlen I0 s0 cnt0 =
      if Nat.eqb (cnt0 + List.length log) 0
      then Ok {| IndSort := ord;
                 seq := fold_left (seqStep ord) (List.seq 0 (List.length ids)) s0;
                 dups := log |}
      else Fatal (DataErrorsFound (cnt0 + List.length log) ERRFILE).
Proof.
  intros Hv. unfold sortInds.
  destruct (qSortFit_index ids vlen false I0 Hv) as [E|(ord & E & Hp & Ho)]; rewrite E.
  - left. reflexivity.
  - right. exists ord. auto.
Qed.

Lemma no_dups_distinct ids ord :
  perm (Z.of_nat (List.length ids)) ord -> ordered ids false ord ->
  fold_left (dupStep ids ord) (List.seq 1 (List.length ids - 1)) [] = [] ->
  forall a b, 0 <= a < Z.of_nat (List.length ids) ->
    0 <= b < Z.of_nat (List.length ids) -> a <> b ->
    strcmp (valAt ids a) (valAt ids b) <> 0.
Proof.
  intros Hp Ho Hlog a b Ha Hb Hab E.
  destruct (adjacent_equal ids ord a b Hp Ho Ha Hb Hab E) as (i & Hi & Ei).
  assert (Hin : In (ord i) (fold_left (dupStep ids ord)
                              (List.seq 1 (List.length ids - 1)) [])).
  { apply dups_spec. right. exists (Z.to_nat i).
    rewrite Z2Nat.id by lia. split; [apply in_seq; lia|]. auto. }
  rewrite Hlog in Hin. destruct Hin.
Qed.

Lemma dups_duplicate ids ord :
  perm (Z.of_nat (List.length ids)) ord ->
  fold_left (dupStep ids ord) (List.seq 1 (List.length ids - 1)) [] <> [] ->
  exists a b, 0 <= a < Z.of_nat (List.length ids) /\
    0 <= b < Z.of_nat (List.length ids) /\ a <> b /\
    strcmp (valAt ids a) (valAt ids b) = 0.
Proof.
  intros [Hr Hinj] Hlog.
  destruct (fold_left (dupStep ids ord) (List.seq 1 (List.length ids - 1)) [])
    as [|x log] eqn:E; [congruence|].
  assert (Hin : In x (fold_left (dupStep ids ord)
                        (List.seq 1 (List.length ids - 1)) []))
    by (rewrite E; left; reflexivity).
  apply dups_spec in Hin. destruct Hin as [[]|(i & Hi & Ei & _)].
  apply in_seq in Hi.
  exists (ord (Z.of_nat i)), (ord (Z.of_nat i - 1)).
  split; [apply Hr; lia|]. split; [apply Hr; lia|]. split; [|exact Ei].
  intros Eq. apply Hinj in Eq; lia.
Qed.

(** X1. On an index that lists the individuals once each in [strcmp]
    order, [findInd] returns an individual whose id is the one looked
    for (the comment over it: [IndArray[findInd(id)] = id]) and returns
    [-1] only when no individual has it. *)
Theorem findInd_finds (ids : list string) (ord : Arr) (id : string) :
  perm (Z.of_nat (List.length ids)) ord -> ordered ids false ord ->
  exists r, findInd ids ord id = Some r /\
    ((0 <= r < Z.of_nat (List.length ids) /\ strcmp id (valAt ids r) = 0) \/
     (r = -1 /\
      forall k, 0 <= k < Z.of_nat (List.length ids) ->
        strcmp id (valAt ids k) <> 0)).
Proof.
  intros Hp Ho.
  destruct (findInd_spec ids ord id Hp Ho) as [(ndx & H1 & H2 & H3)|[Hnone Hs]].
  - exists (ord ndx). split; [exact H3|]. left. split; [|exact H2].
    apply (proj1 Hp), H1.
  - exists (-1). split; [exact Hs|]. right. auto.
Qed.

(** X2. With no error logged before and keys of nonzero width,
    [sortInds] stops with the data-error message exactly when two
    individuals have the same id, and returns otherwise; only the full
    stack of [qSort] can stop it before. *)
Theorem sortInds_duplicates (ids : list string) (vlen : Z) (I0 s0 : Arr) :
  vlen <> 0 ->
  sortInds ids vlen I0 s0 0 = Fatal QSortStackExceeded \/
  (exists cnt,
     sortInds ids vlen I0 s0 0 = Fatal (DataErrorsFound cnt ERRFILE) /\
     cnt <> 0%nat /\
     exists a b, 0 <= a < Z.of_nat (List.length ids) /\
       0 <= b < Z.of_nat (List.length ids) /\ a <> b /\
       strcmp (valAt ids a) (valAt ids b) = 0) \/
  (exists s,
     sortInds ids vlen I0 s0 0 = Ok s /\
     forall a b, 0 <= a < Z.of_nat (List.length ids) ->
       0 <= b < Z.of_nat (List.length ids) -> a <> b ->
       strcmp (valAt ids a) (valAt ids b) <> 0).
Proof.
  intros Hv.
  destruct (sortInds_cases ids vlen I0 s0 0 Hv) as [E|(ord & _ & Hp & Ho & E)];
    [left; exact E|right].
  cbv zeta in E. rewrite E. clear E. cbn [Nat.add].
  destruct (fold_left (dupStep ids ord) (List.seq 1 (List.length ids - 1)) [])
    as [|x log] eqn:Elog.
  - right. eexists. split; [reflexivity|].
    apply (no_dups_distinct ids ord Hp Ho Elog).
  - left. exists (List.length (x :: log)). split; [reflexivity|].
    split; [discriminate|].
    apply (dups_duplicate ids ord Hp). rewrite Elog. discriminate.
Qed.

Lemma sortInds_ok ids vlen I0 s0 cnt0 s :
  vlen <> 0 -> sortInds ids vlen I0 s0 cnt0 = Ok s ->
  perm (Z.of_nat (List.length ids)) (IndSort s) /\
  ordered ids false (IndSort s) /\
  seq s = fold_left (seqStep (IndSort s)) (List.seq 0 (List.length ids)) s0 /\
  forall a b, 0 <= a < Z.of_nat (List.length ids) ->
    0 <= b < Z.of_nat (List.length ids) -> a <> b ->
    strcmp (valAt ids a) (valAt ids b) <> 0.
Proof.
  intros Hv Hs.
  destruct (sortInds_cases ids vlen I0 s0 cnt0 Hv) as [E|(ord & _ & Hp & Ho & E)];
    [congruence|].
  cbv zeta in E. rewrite E in Hs. clear E.
  destruct (Nat.eqb_spec (cnt0 + List.length
              (fold_left (dupStep ids ord) (List.seq 1 (List.length ids - 1)) [])) 0)
    as [E0|]; [|discriminate].
  injection Hs as <-. cbn [IndSort seq].
  split; [exact Hp|]. split; [exact Ho|]. split; [reflexivity|].
  apply (no_dups_distinct ids ord Hp Ho).
  apply length_zero_iff_nil. lia.
Qed.

(** X3. When [sortInds] returns, [IndSort] lists the individuals once
    each, the [seq] field of an individual is its place in [IndSort],
    and the [seq] fields order the individuals as [strcmp] orders their
    ids. *)
Theorem sortInds_seq (ids : list string) (vlen : Z) (I0 s0 : Arr) (cnt0 : nat)
    (s : Sorted) :
  vlen <> 0 -> sortInds ids vlen I0 s0 cnt0 = Ok s ->
  perm (Z.of_nat (List.length ids)) (IndSort s) /\
  (forall i, 0 <= i < Z.of_nat (List.length ids) -> seq s (IndSort s i) = i) /\
  (forall k, 0 <= k < Z.of_nat (List.length ids) ->
     0 <= seq s k < Z.of_nat (List.length ids) /\ IndSort s (seq s k) = k) /\
  (forall a b, 0 <= a < Z.of_nat (List.length ids) ->
     0 <= b < Z.of_nat (List.length ids) ->
     (seq s a < seq s b <-> strcmp (valAt ids a) (valAt ids b) < 0)).
Proof.
  intros Hv Hs.
  destruct (sortInds_ok ids vlen I0 s0 cnt0 s Hv Hs) as (Hp & Ho & Eseq & Hdist).
  assert (Hseq : forall i, 0 <= i < Z.of_nat (List.length ids) ->
            seq s (IndSort s i) = i).
  { intros i Hi. rewrite Eseq. apply seq_spec; assumption. }
  assert (Hinv : forall k, 0 <= k < Z.of_nat (List.length ids) ->
            0 <= seq s k < Z.of_nat (List.length ids) /\ IndSort s (seq s k) = k).
  { intros k Hk. destruct (perm_onto _ _ k Hp Hk) as (p & Hpr & <-).
    rewrite Hseq by assumption. auto. }
  assert (Hlt : forall a b, 0 <= a < Z.of_nat (List.length ids) ->
            0 <= b < Z.of_nat (List.length ids) ->
            seq s a < seq s b -> strcmp (valAt ids a) (valAt ids b) < 0).
  { intros a b Ha Hb Hab.
    destruct (Hinv a Ha) as [Ra Ea]. destruct (Hinv b Hb) as [Rb Eb].
    pose proof (ordered_Z ids false _ Ho (seq s a) (seq s b)
                  ltac:(lia) ltac:(lia) ltac:(lia)) as H.
    rewrite Ea, Eb in H. unfold keyLt in H. apply Z.ltb_ge in H.
    rewrite strcmp_opp in H.
    assert (a <> b) by (intros ->; lia).
    pose proof (Hdist a b Ha Hb ltac:(assumption)). lia. }
  split; [exact Hp|]. split; [exact Hseq|]. split; [exact Hinv|].
  intros a b Ha Hb. split; [apply Hlt; assumption|].
  intros Hc. destruct (Z_lt_le_dec (seq s a) (seq s b)) as [|Hge]; [assumption|exfalso].
  destruct (Z.eq_dec (seq s a) (seq s b)) as [E|NE].
  - destruct (Hinv a Ha) as [_ Ea]. destruct (Hinv b Hb) as [_ Eb].
    rewrite E, Eb in Ea. subst b. rewrite strcmp_refl in Hc. lia.
  - pose proof (Hlt b a Hb Ha ltac:(lia)) as H. rewrite strcmp_opp in H. lia.
Qed.

(** X4. After [sortInds] has returned, [findInd] gives back every
    individual from its own id, and [-1] for an id that no individual
    has. *)
Theorem findInd_after_sortInds (ids : list string) (vlen : Z) (I0 s0 : Arr)
    (cnt0 : nat) (s : Sorted) :
  vlen <> 0 -> sortInds ids vlen I0 s0 cnt0 = Ok s ->
  (forall k, 0 <= k < Z.of_nat (List.length ids) ->
     findInd ids (IndSort s) (valAt ids k) = Some k) /\
  (forall id,
     (forall k, 0 <= k < Z.of_nat (List.length ids) ->
        strcmp id (valAt ids k) <> 0) ->
     findInd ids (IndSort s) id = Some (-1)).
Proof.
  intros Hv Hs.
  destruct (sortInds_ok ids vlen I0 s0 cnt0 s Hv Hs) as (Hp & Ho & _ & Hdist).
  split.
  - intros k Hk.
    destruct (findInd_spec ids (IndSort s) (valAt ids k) Hp Ho)
      as [(ndx & H1 & H2 & H3)|[Hnone _]].
    + rewrite H3. f_equal.
      destruct (Z.eq_dec (IndSort s ndx) k) as [|NE]; [assumption|exfalso].
      apply (Hdist k (IndSort s ndx) Hk); [apply (proj1 Hp), H1|congruence|exact H2].
    + exfalso. apply (Hnone k Hk), strcmp_refl.
  - intros id Hnone.
    destruct (findInd_spec ids (IndSort s) id Hp Ho)
      as [(ndx & H1 & H2 & H3)|[_ Hm]]; [exfalso|exact Hm].
    apply (Hnone (IndSort s ndx)); [apply (proj1 Hp), H1|exact H2].
Qed.

(** *** [findPid] and [findAllele] *)

(** X5. After [sortPids], [findPid] returns an individual whose key
    (the id when [inMrkFile] is set, the permanent id otherwise) is the
    one looked for, and [-1] only when no individual has that key. *)
Theorem findPid_after_sortPids (inMrkFile : bool) (ids pids : list string)
    (PidLen : Z) (P0 PidSort : Arr) (pid : string) :
  PidLen <> 0 -> List.length pids = List.length ids ->
  sortPids inMrkFile ids pids PidLen P0 = Ok PidSort ->
  exists r, findPid inMrkFile ids pids PidSort pid = Some r /\
    ((0 <= r < Z.of_nat (List.length ids) /\
      strcmp pid (valAt (if inMrkFile then ids else pids) r) = 0) \/
     (r = -1 /\
      forall k, 0 <= k < Z.of_nat (List.length ids) ->
        strcmp pid (valAt (if inMrkFile then ids else pids) k) <> 0)).
Proof.
  intros Hv Hlen Hs. unfold sortPids in Hs.
  set (keys := if inMrkFile then ids else pids) in *.
  assert (Hk : List.length keys = List.length ids)
    by (unfold keys; destruct inMrkFile; auto).
  destruct (qSortFit_index keys PidLen false P0 Hv) as [E|(ord & E & Hp & Ho)];
    [congruence|].
  rewrite E in Hs. injection Hs as <-.
  assert (Ef : findPid inMrkFile ids pids ord pid = findInd keys ord pid).
  { unfold findPid, findInd. rewrite Hk. unfold keys. destruct inMrkFile; reflexivity. }
  rewrite Ef, <- Hk.
  destruct (findInd_spec keys ord pid Hp Ho) as [(ndx & H1 & H2 & H3)|[Hnone Hm]].
  - exists (ord ndx). split; [exact H3|]. left. split; [|exact H2].
    apply (proj1 Hp), H1.
  - exists (-1). split; [exact Hm|]. right. auto.
Qed.

(** The comparison of [findAllele]. *)
Definition alleleCmp (allNumeric : bool) (allele key : string) : Z :=
  if allNumeric then
    if atoi allele <? atoi key then -1
    else if atoi allele >? atoi key then 1 else 0
  else strcmp allele key.

Lemma alleleCmp_zero allNumeric allele key :
  alleleCmp allNumeric allele key = 0 <-> keyEq allNumeric allele key = true.
Proof.
  unfold alleleCmp, keyEq. destruct allNumeric.
  - destruct (Z.ltb_spec (atoi allele) (atoi key)),
      (Z.gtb_spec (atoi allele) (atoi key)), (Z.eqb_spec (atoi allele) (atoi key));
      split; intros; try lia; try discriminate; reflexivity.
  - destruct (Z.eqb_spec (strcmp allele key) 0); split; intros;
      try lia; try discriminate; reflexivity.
Qed.

Lemma alleleCmp_descending allNumeric vals ord allele :
  ordered vals allNumeric ord ->
  descending (fun ndx => alleleCmp allNumeric allele (valAt vals (ord ndx)))
             0 (Z.of_nat (List.length vals) - 1).
Proof.
  destruct allNumeric; [|apply strcmp_descending].
  intros Ho p q Hp Hpq Hq.
  pose proof (ordered_Z vals true ord Ho p q Hp Hpq ltac:(lia)) as H.
  unfold keyLt in H. apply Z.ltb_ge in H. unfold alleleCmp.
  destruct (Z.ltb_spec (atoi allele) (atoi (valAt vals (ord p)))),
    (Z.gtb_spec (atoi allele) (atoi (valAt vals (ord p)))),
    (Z.ltb_spec (atoi allele) (atoi (valAt vals (ord q)))),
    (Z.gtb_spec (atoi allele) (atoi (valAt vals (ord q)))); lia.
Qed.

Lemma findAllele_spec allNumeric allList ord allele :
  perm (Z.of_nat (List.length allList)) ord -> ordered allList allNumeric ord ->
  (exists ndx, 0 <= ndx < Z.of_nat (List.length allList) /\
     keyEq allNumeric allele (valAt allList (ord ndx)) = true /\
     findAllele allNumeric allList ord allele = Some ndx) \/
  ((forall n, 0 <= n < Z.of_nat (List.length allList) ->
      keyEq allNumeric allele (valAt allList n) = false) /\
   findAllele allNumeric allList ord allele = Some (-1)).
Proof.
  intros Hp Ho.
  assert (Ef : findAllele allNumeric allList ord allele =
               search (S (List.length allList))
                 (fun ndx => alleleCmp allNumeric allele (valAt allList (ord ndx)))
                 (fun ndx => ndx) 0 (Z.of_nat (List.length allList) - 1)).
  { unfold findAllele, alleleCmp. destruct allNumeric; reflexivity. }
  rewrite Ef.
  destruct (search_spec
              (fun ndx => alleleCmp allNumeric allele (valAt allList (ord ndx)))
              (fun ndx => ndx) (List.length allList)
              (alleleCmp_descending allNumeric allList ord allele Ho))
    as [(ndx & H1 & H2 & H3)|[Hnone Hs]].
  - left. exists ndx. split; [exact H1|]. split; [|exact H3].
    apply alleleCmp_zero, H2.
  - right. split; [|exact Hs]. intros n Hn.
    destruct (perm_onto _ ord n Hp Hn) as (p & Hpr & <-).
    specialize (Hnone p Hpr). cbv beta in Hnone.
    destruct (keyEq allNumeric allele (valAt allList (ord p))) eqn:E; [|reflexivity].
    apply alleleCmp_zero in E. contradiction.
Qed.

(** X6. On the index [allSort] that [qSort] makes of the alleles of a
    locus, in the mode of the locus, [findAllele] returns a place of
    [allSort] whose allele compares equal to the one looked for, and
    [-1] only when no allele does; when no two alleles of the locus
    compare equal it is the inverse of [allSort] (the comment over it:
    [allSort[findAllele(allList[n])] = n]). *)
Theorem findAllele_inverse (allNumeric : bool) (allList : list string)
    (GtypeLen : Z) (S0 allSort : Arr) :
  GtypeLen <> 0 ->
  qSort allList GtypeLen allNumeric S0 = Returns allSort ->
  (forall allele,
     exists r, findAllele allNumeric allList allSort allele = Some r /\
       ((0 <= r < Z.of_nat (List.length allList) /\
         keyEq allNumeric allele (valAt allList (allSort r)) = true) \/
        (r = -1 /\
         forall n, 0 <= n < Z.of_nat (List.length allList) ->
           keyEq allNumeric allele (valAt allList n) = false))) /\
  ((forall m n, 0 <= m < Z.of_nat (List.length allList) ->
      0 <= n < Z.of_nat (List.length allList) -> m <> n ->
      keyEq allNumeric (valAt allList m) (valAt allList n) = false) ->
   forall n, 0 <= n < Z.of_nat (List.length allList) ->
     exists r, findAllele allNumeric allList allSort (valAt allList n) = Some r /\
               0 <= r < Z.of_nat (List.length allList) /\ allSort r = n).
Proof.
  intros Hv Hs. apply qSort_returns in Hs.
  destruct (qSortFit_index allList GtypeLen allNumeric S0 Hv) as [E|(ord & E & Hp & Ho)];
    [congruence|].
  rewrite E in Hs. injection Hs as <-. split.
  - intros allele.
    destruct (findAllele_spec allNumeric allList ord allele Hp Ho)
      as [(ndx & H1 & H2 & H3)|[Hnone Hm]].
    + exists ndx. split; [exact H3|]. left. auto.
    + exists (-1). split; [exact Hm|]. right. auto.
  - intros Hdist n Hn.
    destruct (findAllele_spec allNumeric allList ord (valAt allList n) Hp Ho)
      as [(ndx & H1 & H2 & H3)|[Hnone _]].
    + exists ndx. split; [exact H3|]. split; [exact H1|].
      destruct (Z.eq_dec (ord ndx) n) as [|NE]; [assumption|exfalso].
      rewrite (Hdist n (ord ndx) Hn) in H2; [discriminate|apply (proj1 Hp), H1|congruence].
    + exfalso. specialize (Hnone n Hn).
      assert (keyEq allNumeric (valAt allList n) (valAt allList n) = true).
      { unfold keyEq. destruct allNumeric; [apply Z.eqb_refl|].
        rewrite strcmp_refl. reflexivity. }
      congruence.
Qed.

(** *** A small data set *)

Definition noIndex : Arr := fun _ => 0.

Definition demoIds : list string := ["b"; "a"; "c"]%string.

Definition demoIndex : Arr :=
  fun k => if k =? 0 then 1 else if k =? 1 then 0 else k.

Definition demoSorted : Sorted :=
  match sortInds demoIds 1 noIndex noIndex 0 with
  | Ok s => s
  | _ => {| IndSort := noIndex; seq := noIndex; dups := [] |}
  end.

Definition demoAlleles : list string := ["12"; "7"; "103"]%string.

Definition demoAllSort : Arr :=
  match qSort demoAlleles 3 true noIndex with
  | Returns ord => ord
  | _ => noIndex
  end.

Definition demoPidSort : Arr :=
  match sortPids false demoIds demoAlleles 3 noIndex with
  | Ok ord => ord
  | _ => noIndex
  end.

Lemma findInd_finds_witness :
  exists r, findInd demoIds demoIndex "c" = Some r /\ r = 2.
Proof.
  assert (Hp : perm (Z.of_nat (List.length demoIds)) demoIndex).
  { cbn [demoIds List.length]. unfold demoIndex. split.
    - intros p Hp.
      destruct (Z.eqb_spec p 0); [lia|]. destruct (Z.eqb_spec p 1); lia.
    - intros p q Hp Hq.
      destruct (Z.eqb_spec p 0), (Z.eqb_spec p 1), (Z.eqb_spec q 0),
        (Z.eqb_spec q 1); lia. }
  assert (Ho : ordered demoIds false demoIndex).
  { intros p q Hpq. cbn [demoIds List.length] in Hpq.
    assert (C : (p = 0 /\ q = 1 \/ p = 0 /\ q = 2 \/ p = 1 /\ q = 2)%nat) by lia.
    destruct C as [[-> ->]|[[-> ->]|[-> ->]]]; reflexivity. }
  destruct (findInd_finds demoIds demoIndex "c" Hp Ho) as (r & Hr & _).
  exists r. split; [exact Hr|].
  vm_compute in Hr. injection Hr as <-. reflexivity.
Defined.

Lemma sortInds_duplicates_witness :
  exists s, sortInds demoIds 1 noIndex noIndex 0 = Ok s /\
            entries 3 (IndSort s) = [1; 0; 2].
Proof.
  destruct (sortInds_duplicates demoIds 1 noIndex noIndex)
    as [E|[(cnt & E & _)|(s & E & _)]].
  - lia.
  - vm_compute in E. discriminate E.
  - vm_compute in E. discriminate E.
  - exists s. split; [exact E|].
    vm_compute in E. injection E as <-. reflexivity.
Defined.

Lemma sortInds_seq_witness :
  seq demoSorted 0 = 1 /\ seq demoSorted 1 = 0 /\ seq demoSorted 2 = 2 /\
  (seq demoSorted 1 < seq demoSorted 0 <->
   strcmp (valAt demoIds 1) (valAt demoIds 0) < 0).
Proof.
  assert (Hs : sortInds demoIds 1 noIndex noIndex 0 = Ok demoSorted)
    by (vm_compute; reflexivity).
  destruct (sortInds_seq demoIds 1 noIndex noIndex 0 demoSorted) as (_ & _ & _ & H);
    [lia|exact Hs|].
  split; [reflexivity|]. split; [reflexivity|]. split; [reflexivity|].
  apply H; cbn [demoIds List.length]; lia.
Defined.

Lemma findInd_after_sortInds_witness :
  findInd demoIds (IndSort demoSorted) "c" = Some 2 /\
  findInd demoIds (IndSort demoSorted) "d" = Some (-1).
Proof.
  assert (Hs : sortInds demoIds 1 noIndex noIndex 0 = Ok demoSorted)
    by (vm_compute; reflexivity).
  destruct (findInd_after_sortInds demoIds 1 noIndex noIndex 0 demoSorted)
    as [Hhit Hmiss]; [lia|exact Hs|].
  split.
  - apply (Hhit 2). cbn [demoIds List.length]. lia.
  - apply Hmiss. intros k Hk. cbn [demoIds List.length] in Hk.
    assert (C : k = 0 \/ k = 1 \/ k = 2) by lia.
    destruct C as [-> | [-> | ->]]; vm_compute; discriminate.
Defined.

Lemma findPid_after_sortPids_witness :
  exists r, findPid false demoIds demoAlleles demoPidSort "7" = Some r /\ r = 1.
Proof.
  assert (Hs : sortPids false demoIds demoAlleles 3 noIndex = Ok demoPidSort)
    by (vm_compute; reflexivity).
  destruct (findPid_after_sortPids false demoIds demoAlleles 3 noIndex demoPidSort "7")
    as (r & Hr & _); [lia|reflexivity|exact Hs|].
  exists r. split; [exact Hr|].
  vm_compute in Hr. injection Hr as <-. reflexivity.
Defined.

Lemma findAllele_inverse_witness :
  exists r, findAllele true demoAlleles demoAllSort "103" = Some r /\
            demoAllSort r = 2.
Proof.
  assert (Hs : qSort demoAlleles 3 true noIndex = Returns demoAllSort)
    by (vm_compute; reflexivity).
  destruct (findAllele_inverse true demoAlleles 3 noIndex demoAllSort) as [_ H];
    [lia|exact Hs|].
  destruct (H ltac:(intros m n Hm Hn Hmn; cbn [demoAlleles List.length] in Hm, Hn;
                    assert (C : (m = 0 \/ m = 1 \/ m = 2) /\ (n = 0 \/ n = 1 \/ n = 2)) by lia;
                    destruct C as [[-> | [-> | ->]] [-> | [-> | ->]]];
                    try reflexivity; contradiction)
              2 ltac:(cbn [demoAlleles List.length]; lia)) as (r & Hr & _ & Er).
  exists r. split; [exact Hr|exact Er].
Defined.

End Lookup.

(** ** The transitive closure: [warshall] *)

Module Closure.

(** An [unsigned char **] matrix; an entry counts as set when it is
    not 0. *)
Definition Matrix : Type := nat -> nat -> Z.

Definition set (x : Z) : bool := negb (Z.eqb x 0).

(** [*adji = *adji || *adjj] at column [k] of the rows [i] and [j]. *)
Definition orStep (i j : nat) (adj : Matrix) (k : nat) : Matrix :=
  upd2 adj i k (if set (adj i k) || set (adj j k) then 1%Z else 0%Z).

(** The body of the loop on [i]. *)
Definition rowStep (n j : nat) (adj : Matrix) (i : nat) : Matrix :=
  if set (adj i j) then fold_left (orStep i j) (seq 0 n) adj else adj.

(** The body of the loop on [j]. *)
Definition colStep (n : nat) (adj : Matrix) (j : nat) : Matrix :=
  fold_left (rowStep n j) (seq 0 n) adj.

Definition warshall (adj : Matrix) (n : nat) : Matrix :=
  fold_left (colStep n) (seq 0 n) adj.

(** The arcs of the graph on [0 .. n-1] that [adj] holds on entry. *)
Definition arc (adj : Matrix) (n a b : nat) : Prop :=
  a < n /\ b < n /\ set (adj a b) = true.

(** Paths whose inner vertices are all below [m]. *)
Inductive pathVia (adj : Matrix) (n m : nat) : nat -> nat -> Prop :=
| pv_arc a b : arc adj n a b -> pathVia adj n m a b
| pv_via a v b : v < m -> pathVia adj n m a v -> pathVia adj n m v b ->
                 pathVia adj n m a b.

Lemma set_or (x y : bool) : set (if x || y then 1%Z else 0%Z) = x || y.
Proof. destruct x, y; reflexivity. Qed.

(** The innermost loop: row [i] becomes row [i] or row [j]. *)
Lemma orFold_spec (i j : nat) (adj : Matrix) : forall m,
  let R := fold_left (orStep i j) (seq 0 m) adj in
  (forall k, k < m -> set (R i k) = set (adj i k) || set (adj j k)) /\
  (forall a k, ~ (a = i /\ k < m) -> R a k = adj a k).
Proof.
  induction m as [|m [IH1 IH2]]; cbn zeta.
  - split; [intros; lia|]. reflexivity.
  - rewrite seq_S, fold_left_app. cbn [fold_left Nat.add].
    set (R := fold_left (orStep i j) (seq 0 m) adj) in *.
    assert (Hj : set (R j m) = set (adj j m)) by (rewrite IH2; [reflexivity|lia]).
    assert (Hi : set (R i m) = set (adj i m)) by (rewrite IH2; [reflexivity|lia]).
    split.
    + intros k Hk. unfold orStep.
      destruct (Nat.eq_dec k m) as [->|Hne].
      * rewrite upd2_same, set_or, Hi, Hj. reflexivity.
      * rewrite upd2_other by (right; exact Hne). apply IH1. lia.
    + intros a k Hak. unfold orStep.
      rewrite upd2_other by (destruct (Nat.eq_dec a i); [right|left]; lia).
      apply IH2. lia.
Qed.

(** The loop on [i]: every row that has [j] set takes the entries of
    row [j]. *)
Lemma rowFold_spec (n j : nat) (adj : Matrix) : forall m, m <= n ->
  let A := fold_left (rowStep n j) (seq 0 m) adj in
  (forall a b, a < m -> b < n ->
     set (A a b) = set (adj a b) || (set (adj a j) && set (adj j b))) /\
  (forall a b, ~ (a < m /\ b < n) -> A a b = adj a b).
Proof.
  induction m as [|m IH]; intros Hm; cbn zeta.
  - split; [intros; lia|]. reflexivity.
  - destruct (IH ltac:(lia)) as [IH1 IH2].
    rewrite seq_S, fold_left_app. cbn [fold_left Nat.add].
    set (A := fold_left (rowStep n j) (seq 0 m) adj) in *.
    assert (Hrowj : forall b, b < n -> set (A j b) = set (adj j b)).
    { intros b Hb. destruct (Nat.lt_ge_cases j m).
      - rewrite IH1 by assumption. destruct (set (adj j b)), (set (adj j j)); reflexivity.
      - rewrite IH2; [reflexivity|lia]. }
    assert (Hrowm : forall b, A m b = adj m b) by (intros b; apply IH2; lia).
    unfold rowStep. rewrite Hrowm.
    destruct (orFold_spec m j A n) as [O1 O2].
    destruct (set (adj m j)) eqn:Emj.
    + split.
      * intros a b Ha Hb. destruct (Nat.eq_dec a m) as [->|Hne].
        -- rewrite O1 by assumption. rewrite Hrowm, Hrowj by assumption.
           rewrite Emj. reflexivity.
        -- rewrite O2 by lia. apply IH1; lia.
      * intros a b Hab. rewrite O2 by lia. apply IH2. lia.
    + split.
      * intros a b Ha Hb. destruct (Nat.eq_dec a m) as [->|Hne].
        -- rewrite Hrowm, Emj. destruct (set (adj m b)); reflexivity.
        -- apply IH1; lia.
      * intros a b Hab. apply IH2. lia.
Qed.

Lemma pathVia_more adj n m a b :
  pathVia adj n m a b -> pathVia adj n (S m) a b.
Proof.
  induction 1 as [a b H|a v b Hv _ IH1 _ IH2].
  - apply pv_arc. exact H.
  - apply pv_via with v; [lia|assumption|assumption].
Qed.

(** A path whose inner vertices are below [m + 1] avoids [m] or goes
    to [m] and on from it. *)
Lemma pathVia_split adj n m a b :
  pathVia adj n (S m) a b <->
  pathVia adj n m a b \/ (pathVia adj n m a m /\ pathVia adj n m m b).
Proof.
  split.
  - induction 1 as [a b H|a v b Hv _ IH1 _ IH2].
    + left. apply pv_arc. exact H.
    + destruct (Nat.eq_dec v m) as [->|Hne].
      * right. split.
        -- destruct IH1 as [H|[H _]]; exact H.
        -- destruct IH2 as [H|[_ H]]; exact H.
      * assert (Hlt : v < m) by lia.
        destruct IH1 as [H1|[H1 H1']], IH2 as [H2|[H2 H2']].
        -- left. apply pv_via with v; assumption.
        -- right. split; [apply pv_via with v; assumption|assumption].
        -- right. split; [assumption|apply pv_via with v; assumption].
        -- right. split; assumption.
  - intros [H|[H1 H2]].
    + apply pathVia_more, H.
    + apply pv_via with m; [lia|apply pathVia_more, H1|apply pathVia_more, H2].
Qed.

Lemma pathVia_bounds adj n m a b : pathVia adj n m a b -> a < n /\ b < n.
Proof.
  induction 1 as [a b (Ha & Hb & _)|a v b _ _ [IH1 _] _ [_ IH2]]; split; assumption.
Qed.

Lemma warshall_inv (adj : Matrix) (n : nat) : forall m, m <= n ->
  let W := fold_left (colStep n) (seq 0 m) adj in
  (forall a b, a < n -> b < n -> (set (W a b) = true <-> pathVia adj n m a b)) /\
  (forall a b, ~ (a < n /\ b < n) -> W a b = adj a b).
Proof.
  induction m as [|m IH]; intros Hm; cbn zeta.
  - split; [|reflexivity]. intros a b Ha Hb. cbn [seq fold_left]. split.
    + intros H. apply pv_arc. repeat split; assumption.
    + intros H. inversion H as [? ? (_ & _ & E)|? v ? Hv]; [exact E|lia].
  - destruct (IH ltac:(lia)) as [IH1 IH2].
    rewrite seq_S, fold_left_app. cbn [fold_left Nat.add].
    set (W := fold_left (colStep n) (seq 0 m) adj) in *.
    unfold colStep.
    destruct (rowFold_spec n m W n (Nat.le_refl n)) as [R1 R2].
    split.
    + intros a b Ha Hb. rewrite R1 by assumption.
      rewrite pathVia_split, orb_true_iff, andb_true_iff.
      rewrite (IH1 a b), (IH1 a m), (IH1 m b) by lia. reflexivity.
    + intros a b Hab. rewrite R2 by lia. apply IH2. exact Hab.
Qed.

Lemma pathVia_closure adj n a b :
  pathVia adj n n a b <-> clos_trans nat (arc adj n) a b.
Proof.
  split.
  - induction 1 as [a b H|a v b _ _ IH1 _ IH2].
    + apply t_step. exact H.
    + apply t_trans with v; assumption.
  - induction 1 as [a b H|a v b _ IH1 _ IH2].
    + apply pv_arc. exact H.
    + apply pv_via with v; [|assumption|assumption].
      apply (pathVia_bounds _ _ _ _ _ IH1).
Qed.

(** X7. [warshall] puts the transitive closure in place: for [a] and
    [b] below [n] the entry [adj[a][b]] is set on return exactly when
    the arcs set on entry lead from [a] to [b] in one or more steps;
    entries outside the [n] by [n] corner are left as they were. *)
Theorem warshall_closure (adj : Matrix) (n : nat) :
  (forall a b, a < n -> b < n ->
     (set (warshall adj n a b) = true <-> clos_trans nat (arc adj n) a b)) /\
  (forall a b, ~ (a < n /\ b < n) -> warshall adj n a b = adj a b).
Proof.
  destruct (warshall_inv adj n n (Nat.le_refl n)) as [H1 H2]. split.
  - intros a b Ha Hb. unfold warshall. rewrite H1 by assumption.
    apply pathVia_closure.
  - exact H2.
Qed.

End Closure.

(** ** The twin groups: [findTwin], [checkTwins] *)

Module Twins.

Import Sort.
Import CStr.

Definition MXTWIN : Z := 210000%Z.

(** The fields of an [Ind] that [checkTwins] reads, and a [Twin]. *)
Record Ind : Type := {
  twinid : string;
  sex : ascii;
  fam : option nat
}.

Record Twin : Type := {
  t_twinid : string;
  t_sex : ascii;
  t_fam : option nat
}.

(** [!strlen(s)] *)
Definition isEmpty (s : string) : bool := Z.eqb (headByte s) 0.

(** The loop of [findTwin], from place [i] on. *)
Fixpoint findFrom (i : nat) (twins : list Twin) (id : string) : nat :=
  match twins with
  | [] => 0
  | t :: rest =>
      if Z.eqb (strcmp id (t_twinid t)) 0 then i + 1
      else findFrom (S i) rest id
  end.

Definition findTwin (TwinArray : list Twin) (id : string) : nat :=
  findFrom 0 TwinArray id.

Inductive TwinError : Type :=
| DifferentSex (i : nat)
| DifferentFamily (i : nat).

(** [TwinArray[0 .. NumTwin-1]], the [itwinid] field of every
    individual, the errors logged and [TwinOutLen]. *)
Record State : Type := {
  TwinArray : list Twin;
  itwinid : nat -> nat;
  ErrLog : list TwinError;
  TwinOutLen : Z
}.

Definition NumTwin (st : State) : nat := List.length (TwinArray st).

Definition noTwin : Twin :=
  {| t_twinid := EmptyString; t_sex := zero; t_fam := None |}.

Definition fam_eqb (a b : option nat) : bool :=
  match a, b with
  | Some x, Some y => Nat.eqb x y
  | None, None => true
  | _, _ => false
  end.

(** The body of the loop for individual [i]; [None] is the store to
    [TwinArray[MXTWIN]], past the end of the array, that follows the
    error "too many MZ twins". *)
Definition twinStep (st : State) (i : nat) (indp : Ind) : option State :=
  if isEmpty (twinid indp) then
    Some {| TwinArray := TwinArray st; itwinid := upd (itwinid st) i 0;
            ErrLog := ErrLog st; TwinOutLen := TwinOutLen st |}
  else
    let t := findTwin (TwinArray st) (twinid indp) in
    if negb (Nat.eqb t 0) then
      let twinp := nth (t - 1) (TwinArray st) noTwin in
      let log1 := if Ascii.eqb (sex indp) (t_sex twinp) then ErrLog st
                  else ErrLog st ++ [DifferentSex i] in
      let log2 := if fam_eqb (fam indp) (t_fam twinp) then log1
                  else log1 ++ [DifferentFamily i] in
      Some {| TwinArray := TwinArray st; itwinid := upd (itwinid st) i t;
              ErrLog := log2; TwinOutLen := TwinOutLen st |}
    else if Z.eqb (Z.of_nat (NumTwin st)) MXTWIN then None
    else
      let twinp := {| t_twinid := twinid indp; t_sex := sex indp;
                      t_fam := fam indp |} in
      Some {| TwinArray := TwinArray st ++ [twinp];
              itwinid := upd (itwinid st) i (NumTwin st + 1);
              ErrLog := ErrLog st;
              TwinOutLen := if Nat.ltb 999 (NumTwin st + 1) then 5%Z
                            else TwinOutLen st |}.

Fixpoint twinLoop (inds : list Ind) (i : nat) (st : State) : option State :=
  match inds with
  | [] => Some st
  | indp :: rest =>
      match twinStep st i indp with
      | Some st' => twinLoop rest (S i) st'
      | None => None
      end
  end.

(** [checkTwins]: [inds] is [IndArray], [itwinid0] what the [itwinid]
    fields hold on entry, [ErrCnt] the errors counted so far. *)
Definition checkTwins (inds : list Ind) (itwinid0 : nat -> nat)
    (TwinOutLen0 : Z) (ErrCnt : nat) : option (outcome State) :=
  match twinLoop inds 0 {| TwinArray := []; itwinid := itwinid0;
                           ErrLog := []; TwinOutLen := TwinOutLen0 |} with
  | Some st =>
      let cnt := ErrCnt + List.length (ErrLog st) in
      Some (if Nat.eqb cnt 0 then Ok st
            else Fatal (DataErrorsFound cnt ERRFILE))
  | None => None
  end.

Lemma fam_eqb_eq a b : fam_eqb a b = true <-> a = b.
Proof.
  destruct a as [x|], b as [y|]; cbn [fam_eqb]; split; intros H;
    try discriminate; try reflexivity.
  - apply Nat.eqb_eq in H. congruence.
  - injection H as ->. apply Nat.eqb_refl.
Qed.

(** [findTwin] returns the number of the first record with the twin
    id, or 0 when there is none. *)
Lemma findFrom_spec id : forall twins i,
  (findFrom i twins id = 0 /\
   forall k, k < List.length twins ->
     strcmp id (t_twinid (nth k twins noTwin)) <> 0%Z) \/
  (exists k, findFrom i twins id = i + k + 1 /\ k < List.length twins /\
     strcmp id (t_twinid (nth k twins noTwin)) = 0%Z).
Proof.
  induction twins as [|t rest IH]; intros i; cbn [findFrom List.length].
  - left. split; [reflexivity|]. intros; lia.
  - destruct (Z.eqb_spec (strcmp id (t_twinid t)) 0) as [E|NE].
    + right. exists 0. split; [lia|]. split; [lia|exact E].
    + destruct (IH (S i)) as [[H0 Hn]|(k & Hk & Hl & Hc)].
      * left. split; [exact H0|]. intros [|k] Hk; [exact NE|].
        cbn [nth]. apply Hn. lia.
      * right. exists (S k). split; [lia|]. split; [lia|exact Hc].
Qed.

Lemma findTwin_spec twins id :
  (findTwin twins id = 0 /\
   forall k, k < List.length twins ->
     strcmp id (t_twinid (nth k twins noTwin)) <> 0%Z) \/
  (exists k, findTwin twins id = k + 1 /\ k < List.length twins /\
     strcmp id (t_twinid (nth k twins noTwin)) = 0%Z).
Proof. apply (findFrom_spec id twins 0). Qed.

Definition noInd : Ind :=
  {| twinid := EmptyString; sex := zero; fam := None |}.

Section Groups.

Variable all : list Ind.
Variable itwinid0 : nat -> nat.

Let ind (i : nat) : Ind := nth i all noInd.
Let twin (st : State) (t : nat) : Twin := nth (t - 1) (TwinArray st) noTwin.

(** What holds when the first [m] individuals have been through the
    loop. *)
Record twinInv (m : nat) (st : State) : Prop := {
  ti_count : NumTwin st <= m;
  ti_distinct : forall k k', k < NumTwin st -> k' < NumTwin st ->
    strcmp (t_twinid (nth k (TwinArray st) noTwin))
           (t_twinid (nth k' (TwinArray st) noTwin)) = 0%Z -> k = k';
  ti_none : forall i, i < m -> isEmpty (twinid (ind i)) = true ->
    itwinid st i = 0;
  ti_some : forall i, i < m -> isEmpty (twinid (ind i)) = false ->
    1 <= itwinid st i <= NumTwin st /\
    strcmp (twinid (ind i)) (t_twinid (twin st (itwinid st i))) = 0%Z;
  ti_used : forall t, 1 <= t <= NumTwin st -> exists i, i < m /\ itwinid st i = t;
  ti_same : ErrLog st = [] ->
    forall i, i < m -> isEmpty (twinid (ind i)) = false ->
      sex (ind i) = t_sex (twin st (itwinid st i)) /\
      fam (ind i) = t_fam (twin st (itwinid st i));
  ti_frame : forall i, m <= i -> itwinid st i = itwinid0 i
}.

Lemma twinStep_groups m st :
  twinInv m st -> (Z.of_nat m < MXTWIN)%Z ->
  exists st', twinStep st m (ind m) = Some st' /\ twinInv (S m) st'.
Proof.
  intros [Hc Hd Hn Hs Hu Hsame Hf] Hm. unfold twinStep, twin, NumTwin in *.
  set (n := List.length (TwinArray st)) in *.
  destruct (isEmpty (twinid (ind m))) eqn:Eempty.
  { eexists. split; [reflexivity|].
    split; unfold twin, NumTwin; cbn [TwinArray itwinid ErrLog]; fold n.
    - lia.
    - exact Hd.
    - intros i Hi He. destruct (Nat.eq_dec i m) as [->|Hne];
        [apply upd_same|rewrite upd_other by exact Hne; apply Hn; [lia|exact He]].
    - intros i Hi He. destruct (Nat.eq_dec i m) as [->|Hne]; [congruence|].
      rewrite upd_other by exact Hne. apply Hs; [lia|exact He].
    - intros t Ht. destruct (Hu t Ht) as (i & Hi & Ei). exists i.
      split; [lia|]. rewrite upd_other by lia. exact Ei.
    - intros Hlog i Hi He. destruct (Nat.eq_dec i m) as [->|Hne]; [congruence|].
      rewrite upd_other by exact Hne. apply Hsame; [exact Hlog|lia|exact He].
    - intros i Hi. rewrite upd_other by lia. apply Hf. lia. }
  destruct (findTwin_spec (TwinArray st) (twinid (ind m)))
    as [[E0 Hnone]|(k & Ek & Hk & Hcmp)]; fold n in Hnone || fold n in Hk.
  - rewrite E0. cbn [Nat.eqb negb].
    destruct (Z.eqb_spec (Z.of_nat n) MXTWIN) as [E|_]; [lia|].
    eexists. split; [reflexivity|].
    set (new := {| t_twinid := twinid (ind m); t_sex := sex (ind m);
                   t_fam := fam (ind m) |}).
    assert (Hold : forall k, k < n ->
              nth k (TwinArray st ++ [new]) noTwin = nth k (TwinArray st) noTwin)
      by (intros k Hk; apply app_nth1; exact Hk).
    assert (Hnew : nth n (TwinArray st ++ [new]) noTwin = new).
    { unfold n. rewrite app_nth2 by lia. rewrite Nat.sub_diag. reflexivity. }
    split; unfold twin, NumTwin; cbn [TwinArray itwinid ErrLog];
      rewrite ?length_app; cbn [List.length]; fold n.
    + lia.
    + intros a b Ha Hb.
      destruct (Nat.eq_dec a n) as [->|Ha'], (Nat.eq_dec b n) as [->|Hb'];
        [reflexivity| | |].
      * rewrite Hnew, Hold by lia. cbn [t_twinid]. intros E.
        exfalso. apply (Hnone b); [lia|exact E].
      * rewrite Hnew, Hold by lia. cbn [t_twinid]. intros E.
        exfalso. apply (Hnone a); [lia|apply strcmp_sym, E].
      * rewrite !Hold by lia. apply Hd; lia.
    + intros i Hi He. destruct (Nat.eq_dec i m) as [->|Hne]; [congruence|].
      rewrite upd_other by exact Hne. apply Hn; [lia|exact He].
    + intros i Hi He. destruct (Nat.eq_dec i m) as [->|Hne].
      * rewrite upd_same. split; [lia|].
        replace (n + 1 - 1) with n by lia.
        rewrite Hnew. apply strcmp_refl.
      * rewrite upd_other by exact Hne.
        destruct (Hs i ltac:(lia) He) as [Hr Hcmp]. split; [lia|].
        rewrite Hold by lia. exact Hcmp.
    + intros t Ht. destruct (Nat.eq_dec t (n + 1)) as [->|Hne].
      * exists m. split; [lia|apply upd_same].
      * destruct (Hu t ltac:(lia)) as (i & Hi & Ei). exists i.
        split; [lia|]. rewrite upd_other by lia. exact Ei.
    + intros Hlog i Hi He. destruct (Nat.eq_dec i m) as [->|Hne].
      * rewrite upd_same.
        replace (n + 1 - 1) with n by lia.
        rewrite Hnew. split; reflexivity.
      * rewrite upd_other by exact Hne.
        destruct (Hs i ltac:(lia) He) as [Hr _].
        rewrite Hold by lia. apply Hsame; [exact Hlog|lia|exact He].
    + intros i Hi. rewrite upd_other by lia. apply Hf. lia.
  - rewrite Ek. replace (k + 1 =? 0)%nat with false
      by (symmetry; apply Nat.eqb_neq; lia).
    cbn [negb]. replace (k + 1 - 1) with k by lia.
    eexists. split; [reflexivity|].
    set (log1 := if Ascii.eqb (sex (ind m)) (t_sex (nth k (TwinArray st) noTwin))
                 then ErrLog st else ErrLog st ++ [DifferentSex m]).
    set (log2 := if fam_eqb (fam (ind m)) (t_fam (nth k (TwinArray st) noTwin))
                 then log1 else log1 ++ [DifferentFamily m]).
    assert (Hlog : log2 = [] ->
              ErrLog st = [] /\
              sex (ind m) = t_sex (nth k (TwinArray st) noTwin) /\
              fam (ind m) = t_fam (nth k (TwinArray st) noTwin)).
    { unfold log2, log1.
      destruct (fam_eqb (fam (ind m)) (t_fam (nth k (TwinArray st) noTwin))) eqn:Ef;
        [|intros H; apply app_eq_nil in H; destruct H; discriminate].
      destruct (Ascii.eqb_spec (sex (ind m)) (t_sex (nth k (TwinArray st) noTwin)))
        as [Es|_]; [|intros H; apply app_eq_nil in H; destruct H; discriminate].
      intros H. apply fam_eqb_eq in Ef. auto. }
    split; unfold twin, NumTwin; cbn [TwinArray itwinid ErrLog]; fold n.
    + lia.
    + exact Hd.
    + intros i Hi He. destruct (Nat.eq_dec i m) as [->|Hne]; [congruence|].
      rewrite upd_other by exact Hne. apply Hn; [lia|exact He].
    + intros i Hi He. destruct (Nat.eq_dec i m) as [->|Hne].
      * rewrite upd_same. split; [lia|].
        replace (k + 1 - 1) with k by lia. exact Hcmp.
      * rewrite upd_other by exact Hne. apply Hs; [lia|exact He].
    + intros t Ht. destruct (Hu t Ht) as (i & Hi & Ei). exists i.
      split; [lia|]. rewrite upd_other by lia. exact Ei.
    + intros Hl i Hi He. destruct (Hlog Hl) as (Hl0 & Hsx & Hfm).
      destruct (Nat.eq_dec i m) as [->|Hne].
      * rewrite upd_same. replace (k + 1 - 1) with k by lia. auto.
      * rewrite upd_other by exact Hne. apply Hsame; [exact Hl0|lia|exact He].
    + intros i Hi. rewrite upd_other by lia. apply Hf. lia.
Qed.

Lemma twinLoop_inv : forall rest m st,
  twinInv m st -> m + List.length rest = List.length all ->
  (forall k, k < List.length rest -> nth k rest noInd = ind (m + k)) ->
  (Z.of_nat (List.length all) <= MXTWIN)%Z ->
  exists st', twinLoop rest m st = Some st' /\ twinInv (List.length all) st'.
Proof.
  induction rest as [|x rest IH]; intros m st Hinv Hlen Hnth Hmax;
    cbn [List.length twinLoop] in *.
  - exists st. split; [reflexivity|]. rewrite <- Hlen, Nat.add_0_r. exact Hinv.
  - assert (Ex : x = ind m).
    { specialize (Hnth 0 ltac:(lia)). cbn [nth] in Hnth.
      rewrite Nat.add_0_r in Hnth. exact Hnth. }
    destruct (twinStep_groups m st Hinv ltac:(lia)) as (st1 & E1 & Hinv1).
    rewrite Ex, E1. apply IH; [exact Hinv1|lia| |exact Hmax].
    intros k Hk. specialize (Hnth (S k) ltac:(lia)). cbn [nth] in Hnth.
    rewrite Hnth. f_equal. lia.
Qed.

End Groups.

(** X8. With no more than [MXTWIN] individuals [checkTwins] never
    stores past the end of [TwinArray], and when it returns: an
    individual has [itwinid] 0 exactly when its twin id is empty; two
    individuals with twin ids have the same [itwinid] exactly when
    their twin ids are the same string; the numbers in use are
    [1 .. NumTwin], each held by someone; and individuals with the same
    number have the same sex and the same family. *)
Theorem checkTwins_groups (inds : list Ind) (itwinid0 : nat -> nat)
    (len0 : Z) (ErrCnt : nat) :
  (Z.of_nat (List.length inds) <= MXTWIN)%Z ->
  exists r, checkTwins inds itwinid0 len0 ErrCnt = Some r /\
    forall st, r = Ok st ->
      let id i := twinid (nth i inds noInd) in
      (forall i, i < List.length inds ->
         (itwinid st i = 0 <-> isEmpty (id i) = true)) /\
      (forall i j, i < List.length inds -> j < List.length inds ->
         isEmpty (id i) = false -> isEmpty (id j) = false ->
         (itwinid st i = itwinid st j <-> strcmp (id i) (id j) = 0%Z)) /\
      (forall i, i < List.length inds -> itwinid st i <= NumTwin st) /\
      (forall t, 1 <= t <= NumTwin st ->
         exists i, i < List.length inds /\ itwinid st i = t) /\
      (forall i j, i < List.length inds -> j < List.length inds ->
         itwinid st i <> 0 -> itwinid st i = itwinid st j ->
         sex (nth i inds noInd) = sex (nth j inds noInd) /\
         fam (nth i inds noInd) = fam (nth j inds noInd)).
Proof.
  intros Hmax. unfold checkTwins.
  set (st0 := {| TwinArray := []; itwinid := itwinid0; ErrLog := [];
                 TwinOutLen := len0 |}).
  destruct (twinLoop_inv inds itwinid0 inds 0 st0) as (st & Es & Hinv);
    [|reflexivity|intros; reflexivity|exact Hmax|].
  { split; unfold NumTwin; cbn [st0 TwinArray itwinid ErrLog List.length]; intros;
      try lia; reflexivity. }
  rewrite Es. eexists. split; [reflexivity|].
  intros st' Hst'.
  destruct (Nat.eqb_spec (ErrCnt + List.length (ErrLog st)) 0) as [E0|];
    [|discriminate].
  injection Hst' as <-.
  assert (Hlog : ErrLog st = []) by (apply length_zero_iff_nil; lia).
  destruct Hinv as [Hc Hd Hn Hs Hu Hsame Hf]. specialize (Hsame Hlog).
  cbv zeta.
  assert (Hzero : forall i, i < List.length inds ->
            (itwinid st i = 0 <-> isEmpty (twinid (nth i inds noInd)) = true)).
  { intros i Hi. split.
    - intros Hz. destruct (isEmpty (twinid (nth i inds noInd))) eqn:E; [reflexivity|].
      destruct (Hs i Hi E) as [Hr _]. lia.
    - apply Hn, Hi. }
  split; [exact Hzero|]. split; [|split; [|split; [exact Hu|]]].
  - intros i j Hi Hj Ei Ej.
    destruct (Hs i Hi Ei) as [Ri Ci]. destruct (Hs j Hj Ej) as [Rj Cj]. split.
    + intros E. rewrite <- E in Cj.
      apply (strcmp_eq_trans _ _ _ Ci), strcmp_sym, Cj.
    + intros E.
      assert (H : itwinid st i - 1 = itwinid st j - 1); [|lia].
      apply Hd; [lia|lia|].
      apply strcmp_eq_trans with (twinid (nth i inds noInd)); [apply strcmp_sym, Ci|].
      apply strcmp_eq_trans with (twinid (nth j inds noInd)); [exact E|exact Cj].
  - intros i Hi. destruct (isEmpty (twinid (nth i inds noInd))) eqn:E.
    + rewrite (Hn i Hi E). lia.
    + apply (Hs i Hi E).
  - intros i j Hi Hj Hnz E.
    assert (Ei : isEmpty (twinid (nth i inds noInd)) = false).
    { destruct (isEmpty (twinid (nth i inds noInd))) eqn:X; [|reflexivity].
      apply Hzero in X; [contradiction|exact Hi]. }
    assert (Ej : isEmpty (twinid (nth j inds noInd)) = false).
    { destruct (isEmpty (twinid (nth j inds noInd))) eqn:X; [|reflexivity].
      apply Hzero in X; [congruence|exact Hj]. }
    destruct (Hsame i Hi Ei) as [S1 F1]. destruct (Hsame j Hj Ej) as [S2 F2].
    rewrite S1, S2, F1, F2, E. split; reflexivity.
Qed.

Definition demoTwins : list Ind :=
  [ {| twinid := "1"; sex := "1"%char; fam := Some 0 |};
    {| twinid := ""; sex := "2"%char; fam := Some 0 |};
    {| twinid := "1"; sex := "1"%char; fam := Some 0 |};
    {| twinid := "2"; sex := "2"%char; fam := None |} ]%string.

Lemma checkTwins_groups_witness :
  exists st, checkTwins demoTwins (fun _ => 0) 3 0 = Some (Ok st) /\
    map (itwinid st) (seq 0 4) = [1; 0; 1; 2] /\
    (itwinid st 0 = itwinid st 2 <->
     strcmp (twinid (nth 0 demoTwins noInd)) (twinid (nth 2 demoTwins noInd)) = 0%Z).
Proof.
  destruct (checkTwins_groups demoTwins (fun _ => 0) 3 0) as (r & Hr & H).
  - vm_compute. discriminate.
  - vm_compute in Hr. injection Hr as <-.
    eexists. split; [reflexivity|]. split; [reflexivity|].
    destruct (H _ eq_refl) as (_ & Hg & _).
    apply (Hg 0 2); [cbn; lia|cbn; lia|reflexivity|reflexivity].
Defined.

End Twins.

(** ** Allele bookkeeping: [cntAlleles], [sameGtype] *)

Module Alleles.

Import Sort.
Import CStr.

Definition MAXALL : nat := 500.

(** The fields of a [Loc] that [cntAlleles] uses; [numAll] is the
    length of [allList]. *)
Record Loc : Type := {
  noLocInfo : bool;
  allList : list string
}.

Definition numAll (l : Loc) : nat := List.length (allList l).

(** Where [cntAlleles] calls [fatalError]. *)
Inductive AlleleFatal : Type :=
| UnknownAllele (allele : string)
| TooManyAlleles.

(** A locus and its row [allCnt[loc]] of counts. *)
Record Counted : Type := {
  loc : Loc;
  allCnt : nat -> nat
}.

(** [!strlen(s)] *)
Definition isEmpty (s : string) : bool := Z.eqb (headByte s) 0.

(** [for (j = 0; !found && j < numAll; j++)]: the first [j] whose
    allele is the one given. *)
Fixpoint lookFrom (j : nat) (names : list string) (allele : string)
  : option nat :=
  match names with
  | [] => None
  | a :: rest =>
      if Z.eqb (strcmp allele a) 0 then Some j
      else lookFrom (S j) rest allele
  end.

(** One trip of the loop on [i]: the state after it and [mrkall[i]]. *)
Definition countOne (st : Counted) (allele : string)
  : AlleleFatal + (Counted * Z) :=
  let l := loc st in
  match lookFrom 0 (allList l) allele with
  | Some j =>
      inr ({| loc := l;
              allCnt := if noLocInfo l then upd (allCnt st) j (allCnt st j + 1)
                        else allCnt st |},
           Z.of_nat j)
  | None =>
      if negb (noLocInfo l) then inl (UnknownAllele allele)
      else if Nat.eqb (numAll l) MAXALL then inl TooManyAlleles
      else
        inr ({| loc := {| noLocInfo := noLocInfo l;
                          allList := allList l ++ [allele] |};
                allCnt := upd (allCnt st) (numAll l) 1 |},
             Z.of_nat (numAll l))
  end.

(** [cntAlleles(loc, allele, allCnt, mrkall)]: the state after it and
    the pair [mrkall]. *)
Definition cntAlleles (st : Counted) (allele0 allele1 : string)
  : AlleleFatal + (Counted * (Z * Z)) :=
  if isEmpty allele1 then inr (st, ((-1)%Z, (-1)%Z))
  else
    let first :=
      if isEmpty allele0 then inr (st, (-1)%Z) else countOne st allele0 in
    match first with
    | inl e => inl e
    | inr (st1, m0) =>
        match countOne st1 allele1 with
        | inl e => inl e
        | inr (st2, m1) =>
            inr (st2, if (m0 >=? m1)%Z then (m1, m0) else (m0, m1))
        end
    end.

(** [sameGtype(mrkall1, mrkall2)] *)
Definition sameGtype (mrkall1 mrkall2 : Z * Z) : Z :=
  if Z.eqb (fst mrkall1) (fst mrkall2) && Z.eqb (snd mrkall1) (snd mrkall2)
  then 1%Z
  else if Z.eqb (snd mrkall1) (fst mrkall2) && Z.eqb (fst mrkall1) (snd mrkall2)
  then 1%Z
  else 0%Z.

Lemma lookFrom_spec allele : forall names j,
  match lookFrom j names allele with
  | Some r => exists k, r = j + k /\ k < List.length names /\
                        strcmp allele (nth k names EmptyString) = 0%Z
  | None => forall k, k < List.length names ->
                      strcmp allele (nth k names EmptyString) <> 0%Z
  end.
Proof.
  induction names as [|a rest IH]; intros j; cbn [lookFrom List.length].
  - intros; lia.
  - destruct (Z.eqb_spec (strcmp allele a) 0) as [E|NE].
    + exists 0. split; [lia|]. split; [lia|exact E].
    + specialize (IH (S j)). destruct (lookFrom (S j) rest allele) as [r|].
      * destruct IH as (k & -> & Hk & Hc). exists (S k).
        split; [lia|]. split; [lia|exact Hc].
      * intros [|k] Hk; [exact NE|]. cbn [nth]. apply IH. lia.
Qed.

Lemma sumTo_set (n j v : nat) (h : nat -> nat) :
  j < n -> sumTo n (upd h j v) + h j = sumTo n h + v.
Proof.
  induction n as [|n IH]; intros Hj; [lia|]. cbn [sumTo].
  destruct (Nat.eq_dec j n) as [->|Hne].
  - rewrite upd_same.
    rewrite (sumTo_ext n (upd h n v) h); [lia|].
    intros k Hk. apply upd_other. lia.
  - rewrite (upd_other h j n v) by lia. specialize (IH ltac:(lia)). lia.
Qed.

(** No two alleles of the list are the same string. *)
Definition distinctNames (names : list string) : Prop :=
  forall k k', k < List.length names -> k' < List.length names ->
    strcmp (nth k names EmptyString) (nth k' names EmptyString) = 0%Z -> k = k'.

Definition name (st : Counted) (m : Z) : string :=
  nth (Z.to_nat m) (allList (loc st)) EmptyString.

Definition total (st : Counted) : nat := sumTo (numAll (loc st)) (allCnt st).

(** What one trip of the loop on [i] does. *)
Record counted (st : Counted) (allele : string) (st' : Counted) (m : Z)
  : Prop := {
  co_info : noLocInfo (loc st') = noLocInfo (loc st);
  co_list : allList (loc st') = allList (loc st) \/
            (noLocInfo (loc st) = true /\
             allList (loc st') = allList (loc st) ++ [allele]);
  co_index : (0 <= m < Z.of_nat (numAll (loc st')))%Z;
  co_name : strcmp allele (name st' m) = 0%Z;
  co_distinct : distinctNames (allList (loc st)) ->
                distinctNames (allList (loc st'));
  co_count : total st' =
             if noLocInfo (loc st) then total st + 1 else total st
}.

Lemma countOne_spec st allele st' m :
  countOne st allele = inr (st', m) -> counted st allele st' m.
Proof.
  unfold countOne. pose proof (lookFrom_spec allele (allList (loc st)) 0) as HL.
  destruct (lookFrom 0 (allList (loc st)) allele) as [j|].
  - destruct HL as (k & -> & Hk & Hc). cbn [Nat.add].
    intros E. injection E as <- <-.
    split; unfold name, total, numAll; cbn [loc allCnt allList noLocInfo].
    + reflexivity.
    + left. reflexivity.
    + lia.
    + rewrite Nat2Z.id. exact Hc.
    + auto.
    + destruct (noLocInfo (loc st)); [|reflexivity].
      pose proof (sumTo_set (List.length (allList (loc st))) k (allCnt st k + 1)
                    (allCnt st) Hk). lia.
  - destruct (noLocInfo (loc st)) eqn:Einfo; cbn [negb]; [|discriminate].
    destruct (Nat.eqb (numAll (loc st)) MAXALL); [discriminate|].
    intros E. injection E as <- <-.
    split; unfold name, total, numAll; cbn [loc allCnt allList noLocInfo].
    + congruence.
    + right. auto.
    + rewrite length_app. cbn [List.length]. lia.
    + rewrite Nat2Z.id, app_nth2 by lia. rewrite Nat.sub_diag. apply strcmp_refl.
    + intros Hd a b Ha Hb. rewrite length_app in Ha, Hb. cbn [List.length] in Ha, Hb.
      assert (Hnew : nth (List.length (allList (loc st)))
                       (allList (loc st) ++ [allele]) EmptyString = allele)
        by (rewrite app_nth2 by lia; rewrite Nat.sub_diag; reflexivity).
      assert (Hold : forall k, k < List.length (allList (loc st)) ->
                nth k (allList (loc st) ++ [allele]) EmptyString
                = nth k (allList (loc st)) EmptyString)
        by (intros k Hk; apply app_nth1; exact Hk).
      set (n := List.length (allList (loc st))) in *.
      destruct (Nat.eq_dec a n) as [->|Ha'], (Nat.eq_dec b n) as [->|Hb'];
        [reflexivity| | |].
      * rewrite Hnew, Hold by lia.
        intros E. exfalso. apply (HL b); [lia|exact E].
      * rewrite Hnew, Hold by lia.
        intros E. exfalso. apply (HL a); [lia|apply strcmp_sym, E].
      * rewrite !Hold by lia. apply Hd; lia.
    + rewrite ?Einfo, length_app. cbn [List.length].
      rewrite Nat.add_1_r. cbn [sumTo]. rewrite upd_same.
      rewrite (sumTo_ext _ (upd (allCnt st) (List.length (allList (loc st))) 1)
                 (allCnt st)); [reflexivity|].
      intros k Hk. apply upd_other. lia.
Qed.

Lemma name_stable st st' allele m k :
  counted st allele st' m ->
  (0 <= k < Z.of_nat (numAll (loc st)))%Z -> name st' k = name st k.
Proof.
  intros C Hk. unfold name. destruct (co_list _ _ _ _ C) as [E|[_ E]]; rewrite E.
  - reflexivity.
  - apply app_nth1. unfold numAll in Hk. lia.
Qed.

Lemma numAll_grows st st' allele m :
  counted st allele st' m -> numAll (loc st) <= numAll (loc st').
Proof.
  intros C. unfold numAll. destruct (co_list _ _ _ _ C) as [E|[_ E]]; rewrite E.
  - lia.
  - rewrite length_app. lia.
Qed.

Lemma cntAlleles_cases st a0 a1 st' g :
  cntAlleles st a0 a1 = inr (st', g) ->
  (isEmpty a1 = true /\ st' = st /\ g = ((-1)%Z, (-1)%Z)) \/
  (isEmpty a1 = false /\ isEmpty a0 = true /\
   exists m1, counted st a1 st' m1 /\ g = ((-1)%Z, m1)) \/
  (isEmpty a1 = false /\ isEmpty a0 = false /\
   exists st1 m0 m1, counted st a0 st1 m0 /\ counted st1 a1 st' m1 /\
     g = if (m0 >=? m1)%Z then (m1, m0) else (m0, m1)).
Proof.
  unfold cntAlleles. destruct (isEmpty a1) eqn:E1.
  - intros E. injection E as <- <-. left. auto.
  - destruct (isEmpty a0) eqn:E0.
    + destruct (countOne st a1) as [e|[st2 m1]] eqn:C1; [discriminate|].
      intros E. injection E as <- <-. right. left.
      apply countOne_spec in C1. split; [reflexivity|]. split; [reflexivity|].
      exists m1. split; [exact C1|].
      pose proof (co_index _ _ _ _ C1).
      destruct (Z.geb_spec (-1) m1); [lia|reflexivity].
    + destruct (countOne st a0) as [e|[st1 m0]] eqn:C0; [discriminate|].
      destruct (countOne st1 a1) as [e|[st2 m1]] eqn:C1; [discriminate|].
      intros E. injection E as <- <-. right. right.
      apply countOne_spec in C0, C1. split; [reflexivity|]. split; [reflexivity|].
      exists st1, m0, m1. auto.
Qed.

(** X9. When [cntAlleles] returns for a genotype with a second
    allele, the two codes it stores are in order, they are places of
    [allList] that hold the two alleles given (the first code is [-1]
    when the first allele is empty), the alleles already in [allList]
    keep their places, at most the two alleles given are added at its
    end and none when the locus has allele information of its own, and
    a list without repeated alleles stays without. *)
Theorem cntAlleles_codes (st : Counted) (a0 a1 : string) (st' : Counted)
    (m0 m1 : Z) :
  cntAlleles st a0 a1 = inr (st', (m0, m1)) -> isEmpty a1 = false ->
  (m0 <= m1)%Z /\ (0 <= m1 < Z.of_nat (numAll (loc st')))%Z /\
  (if isEmpty a0
   then m0 = (-1)%Z /\ strcmp a1 (name st' m1) = 0%Z
   else (0 <= m0)%Z /\
        ((strcmp a0 (name st' m0) = 0%Z /\ strcmp a1 (name st' m1) = 0%Z) \/
         (strcmp a0 (name st' m1) = 0%Z /\ strcmp a1 (name st' m0) = 0%Z))) /\
  (exists added,
     allList (loc st') = allList (loc st) ++ added /\
     List.length added <= 2 /\
     (forall a, In a added -> a = a0 \/ a = a1) /\
     (noLocInfo (loc st) = false -> added = [])) /\
  (distinctNames (allList (loc st)) -> distinctNames (allList (loc st'))).
Proof.
  intros Hc He.
  destruct (cntAlleles_cases st a0 a1 st' (m0, m1) Hc)
    as [(E1 & _)|[(_ & E0 & m & C & Eg)|(_ & E0 & st1 & n0 & n1 & C0 & C1 & Eg)]];
    [congruence| |].
  - injection Eg as -> ->. rewrite E0.
    pose proof (co_index _ _ _ _ C). split; [lia|]. split; [lia|].
    split; [split; [reflexivity|apply (co_name _ _ _ _ C)]|].
    split; [|apply (co_distinct _ _ _ _ C)].
    destruct (co_list _ _ _ _ C) as [E|[Hi E]].
    + exists []. rewrite app_nil_r. split; [exact E|]. split; [cbn; lia|].
      split; [intros a []|reflexivity].
    + exists [a1]. split; [exact E|]. split; [cbn; lia|].
      split; [intros a [<-|[]]; right; reflexivity|congruence].
  - rewrite E0.
    pose proof (co_index _ _ _ _ C0) as I0. pose proof (co_index _ _ _ _ C1) as I1.
    pose proof (numAll_grows _ _ _ _ C1) as Hg.
    assert (N0 : strcmp a0 (name st' n0) = 0%Z).
    { rewrite (name_stable _ _ _ _ n0 C1 I0). apply (co_name _ _ _ _ C0). }
    pose proof (co_name _ _ _ _ C1) as N1.
    assert (Hlist : exists added,
              allList (loc st') = allList (loc st) ++ added /\
              List.length added <= 2 /\
              (forall a, In a added -> a = a0 \/ a = a1) /\
              (noLocInfo (loc st) = false -> added = [])).
    { pose proof (co_info _ _ _ _ C0) as Hinfo.
      destruct (co_list _ _ _ _ C0) as [L0|[Hi0 L0]],
        (co_list _ _ _ _ C1) as [L1|[Hi1 L1]]; rewrite L1, L0.
      - exists []. rewrite app_nil_r. split; [reflexivity|]. split; [cbn; lia|].
        split; [intros a []|reflexivity].
      - exists [a1]. split; [reflexivity|]. split; [cbn; lia|].
        split; [intros a [<-|[]]; right; reflexivity|congruence].
      - exists [a0]. split; [reflexivity|]. split; [cbn; lia|].
        split; [intros a [<-|[]]; left; reflexivity|congruence].
      - exists [a0; a1]. rewrite <- app_assoc. split; [reflexivity|].
        split; [cbn; lia|].
        split; [intros a [<-|[<-|[]]]; [left|right]; reflexivity|congruence]. }
    assert (Hdist : distinctNames (allList (loc st)) ->
              distinctNames (allList (loc st')))
      by (intros H; apply (co_distinct _ _ _ _ C1), (co_distinct _ _ _ _ C0), H).
    destruct (Z.geb_spec n0 n1) as [Hge|Hlt]; injection Eg as -> ->.
    + split; [lia|]. split; [lia|]. split; [|split; [exact Hlist|exact Hdist]].
      split; [lia|]. right. auto.
    + split; [lia|]. split; [lia|]. split; [|split; [exact Hlist|exact Hdist]].
      split; [lia|]. left. auto.
Qed.

(** X10. When the allele frequencies are to be counted (the locus has
    no allele information), [cntAlleles] raises the total of the counts
    of the locus by the number of alleles given, two for a full
    genotype; with allele information it leaves the total as it is. *)
Theorem cntAlleles_total (st : Counted) (a0 a1 : string) (st' : Counted)
    (g : Z * Z) :
  cntAlleles st a0 a1 = inr (st', g) ->
  total st' =
    if noLocInfo (loc st)
    then total st + (if isEmpty a1 then 0 else if isEmpty a0 then 1 else 2)
    else total st.
Proof.
  intros Hc.
  destruct (cntAlleles_cases st a0 a1 st' g Hc)
    as [(E1 & -> & _)|[(E1 & E0 & m & C & _)|(E1 & E0 & st1 & n0 & n1 & C0 & C1 & _)]];
    rewrite E1; try rewrite E0.
  - destruct (noLocInfo (loc st)); lia.
  - apply (co_count _ _ _ _ C).
  - rewrite (co_count _ _ _ _ C1), (co_info _ _ _ _ C0), (co_count _ _ _ _ C0).
    destruct (noLocInfo (loc st)); lia.
Qed.

(** X11. For a locus with allele information [cntAlleles] changes
    nothing and stops with "unknown allele" exactly when an allele
    given is not in [allList]; for a locus without, it stops only with
    "too many alleles", and not while two places are left in
    [allList]. *)
Theorem cntAlleles_fatal (st : Counted) (a0 a1 : string) :
  isEmpty a1 = false ->
  let known a := exists k, k < numAll (loc st) /\
                   strcmp a (nth k (allList (loc st)) EmptyString) = 0%Z in
  (noLocInfo (loc st) = false ->
   match cntAlleles st a0 a1 with
   | inr (st', _) => st' = st /\ (isEmpty a0 = false -> known a0) /\ known a1
   | inl e => (e = UnknownAllele a0 /\ isEmpty a0 = false /\ ~ known a0) \/
              (e = UnknownAllele a1 /\ ~ known a1)
   end) /\
  (noLocInfo (loc st) = true ->
   match cntAlleles st a0 a1 with
   | inr _ => True
   | inl e => e = TooManyAlleles /\ MAXALL < numAll (loc st) + 2
   end).
Proof.
  intros E1. cbv zeta.
  assert (Hlook : forall s a,
            match lookFrom 0 (allList (loc s)) a with
            | Some j => j < numAll (loc s) /\
                        strcmp a (nth j (allList (loc s)) EmptyString) = 0%Z
            | None => ~ exists k, k < numAll (loc s) /\
                        strcmp a (nth k (allList (loc s)) EmptyString) = 0%Z
            end).
  { intros s a. pose proof (lookFrom_spec a (allList (loc s)) 0) as H.
    destruct (lookFrom 0 (allList (loc s)) a) as [j|].
    - destruct H as (k & -> & Hk & Hc). auto.
    - intros (k & Hk & Hc). apply (H k Hk Hc). }
  split; intros Hinfo; unfold cntAlleles; rewrite E1.
  - assert (Hone : forall a,
              match countOne st a with
              | inr (s, _) => s = st /\ exists k, k < numAll (loc st) /\
                    strcmp a (nth k (allList (loc st)) EmptyString) = 0%Z
              | inl e => e = UnknownAllele a /\
                  ~ exists k, k < numAll (loc st) /\
                    strcmp a (nth k (allList (loc st)) EmptyString) = 0%Z
              end).
    { intros a. unfold countOne. specialize (Hlook st a).
      destruct (lookFrom 0 (allList (loc st)) a) as [j|].
      - rewrite Hinfo. split; [destruct st; reflexivity|]. exists j. exact Hlook.
      - rewrite Hinfo. cbn [negb]. auto. }
    destruct (isEmpty a0) eqn:E0.
    + specialize (Hone a1). destruct (countOne st a1) as [e|[s m]].
      * right. exact Hone.
      * destruct Hone as [-> Hk]. split; [reflexivity|]. split; [discriminate|exact Hk].
    + pose proof (Hone a0) as H0. destruct (countOne st a0) as [e|[s m]].
      * left. destruct H0. auto.
      * destruct H0 as [-> Hk0]. specialize (Hone a1).
        destruct (countOne st a1) as [e|[s m']].
        -- right. exact Hone.
        -- destruct Hone as [-> Hk1]. auto.
  - assert (Hone : forall s a, noLocInfo (loc s) = true ->
              match countOne s a with
              | inr (s', _) => noLocInfo (loc s') = true /\
                               numAll (loc s') <= numAll (loc s) + 1
              | inl e => e = TooManyAlleles /\ numAll (loc s) = MAXALL
              end).
    { intros s a Hi. unfold countOne.
      destruct (lookFrom 0 (allList (loc s)) a) as [j|].
      - cbn [loc]. split; [exact Hi|lia].
      - rewrite Hi. cbn [negb]. destruct (Nat.eqb_spec (numAll (loc s)) MAXALL).
        + auto.
        + unfold numAll. cbn [loc allList noLocInfo]. rewrite length_app.
          cbn [List.length]. split; [reflexivity|lia]. }
    destruct (isEmpty a0) eqn:E0.
    + specialize (Hone st a1 Hinfo). destruct (countOne st a1) as [e|[s m]];
        [|exact I]. destruct Hone as [-> Hn]. split; [reflexivity|lia].
    + pose proof (Hone st a0 Hinfo) as H0. destruct (countOne st a0) as [e|[s m]].
      * destruct H0 as [-> Hn]. split; [reflexivity|lia].
      * destruct H0 as [Hi Hn]. specialize (Hone s a1 Hi).
        destruct (countOne s a1) as [e|[s' m']]; [|exact I].
        destruct Hone as [-> Hn']. split; [reflexivity|lia].
Qed.

Lemma cntAlleles_ordered st a0 a1 st' g :
  cntAlleles st a0 a1 = inr (st', g) -> (fst g <= snd g)%Z.
Proof.
  intros Hc.
  destruct (cntAlleles_cases st a0 a1 st' g Hc)
    as [(_ & _ & ->)|[(_ & _ & m & C & ->)|(_ & _ & st1 & n0 & n1 & _ & _ & ->)]];
    cbn [fst snd].
  - lia.
  - pose proof (co_index _ _ _ _ C). lia.
  - destruct (Z.geb_spec n0 n1); cbn [fst snd]; lia.
Qed.

(** X12. [sameGtype] returns 1 for two pairs of codes that are equal
    as unordered pairs and 0 for all others; on pairs as [cntAlleles]
    leaves them it returns 1 exactly for identical pairs. *)
Theorem sameGtype_unordered (g h : Z * Z) :
  (sameGtype g h = 1%Z \/ sameGtype g h = 0%Z) /\
  (sameGtype g h = 1%Z <-> g = h \/ g = (snd h, fst h)) /\
  (forall st a0 a1 st' t b0 b1 t',
     cntAlleles st a0 a1 = inr (st', g) -> cntAlleles t b0 b1 = inr (t', h) ->
     (sameGtype g h = 1%Z <-> g = h)).
Proof.
  assert (H : sameGtype g h = 1%Z <-> g = h \/ g = (snd h, fst h)).
  { destruct g as [g0 g1], h as [h0 h1]. unfold sameGtype. cbn [fst snd].
    destruct (Z.eqb_spec g0 h0), (Z.eqb_spec g1 h1), (Z.eqb_spec g1 h0),
      (Z.eqb_spec g0 h1); cbn [andb]; split;
      try (intros _; subst; auto; fail);
      try (intros [E|E]; injection E as -> ->; congruence);
      try discriminate. }
  split; [|split; [exact H|]].
  - unfold sameGtype.
    destruct (_ && _); [left; reflexivity|].
    destruct (_ && _); [left|right]; reflexivity.
  - intros st a0 a1 st' t b0 b1 t' Hg Hh. rewrite H.
    apply cntAlleles_ordered in Hg, Hh.
    destruct g as [g0 g1], h as [h0 h1]. cbn [fst snd] in *.
    split; [|auto]. intros [E|E]; [exact E|].
    injection E as -> ->. f_equal; lia.
Qed.

Definition demoLocus : Counted :=
  {| loc := {| noLocInfo := true; allList := ["A"]%string |};
     allCnt := fun k => if Nat.eqb k 0 then 3 else 0 |}.

Lemma cntAlleles_codes_witness :
  exists st', cntAlleles demoLocus "B" "A" = inr (st', (0, 1)%Z) /\
    allList (loc st') = ["A"; "B"]%string /\
    strcmp "B" (name st' 1) = 0%Z /\ strcmp "A" (name st' 0) = 0%Z.
Proof.
  assert (E : exists st', cntAlleles demoLocus "B" "A" = inr (st', (0, 1)%Z))
    by (vm_compute; eexists; reflexivity).
  destruct E as [st' E]. exists st'. split; [exact E|].
  destruct (cntAlleles_codes demoLocus "B" "A" st' 0 1 E eq_refl)
    as (_ & _ & Hn & _ & _).
  vm_compute in E. injection E as <-. split; [reflexivity|].
  cbn [isEmpty] in Hn. destruct Hn as [_ [[H1 H2]|[H1 H2]]].
  - vm_compute in H1. discriminate H1.
  - split; assumption.
Defined.

Lemma cntAlleles_total_witness :
  exists st', cntAlleles demoLocus "B" "A" = inr (st', (0, 1)%Z) /\
    total st' = 5.
Proof.
  assert (E : exists st', cntAlleles demoLocus "B" "A" = inr (st', (0, 1)%Z))
    by (vm_compute; eexists; reflexivity).
  destruct E as [st' E]. exists st'. split; [exact E|].
  rewrite (cntAlleles_total demoLocus "B" "A" st' _ E). reflexivity.
Defined.

Definition demoInfo : Counted :=
  {| loc := {| noLocInfo := false; allList := ["A"]%string |};
     allCnt := fun _ => 0 |}.

Lemma cntAlleles_fatal_witness :
  exists e, cntAlleles demoInfo "B" "A" = inl e /\ e = UnknownAllele "B".
Proof.
  destruct (cntAlleles_fatal demoInfo "B" "A" eq_refl) as [H _].
  specialize (H eq_refl).
  destruct (cntAlleles demoInfo "B" "A") as [e|[s m]] eqn:E.
  - exists e. split; [reflexivity|].
    destruct H as [[-> _]|[_ Hn]]; [reflexivity|].
    exfalso. apply Hn. exists 0. split; [cbn; lia|reflexivity].
  - vm_compute in E. discriminate E.
Defined.

End Alleles.

(** ** What [getPedData] returns *)

Module IngestFacts.

Import Ingest.

(** The record has no known parent. *)
Definition founder (w : Widths) (r : PedLine) : bool :=
  unknown (fa_id w r) && unknown (mo_id w r).

(** The record passes every check of the loop. *)
Definition valid (w : Widths) (r : PedLine) : Prop :=
  sex_code (sex_char w r) <> None /\
  (founder w r = true \/
   (unknown (fa_id w r) = false /\ unknown (mo_id w r) = false /\
    ego_id w r <> fa_id w r /\ ego_id w r <> mo_id w r /\
    fa_id w r <> mo_id w r)).

(** The individual stored for a record. *)
Definition stored (w : Widths) (r : PedLine) : IndRec :=
  {| ind_id := ego_id w r;
     ind_sex := sex_code (sex_char w r);
     ind_twinid := opt_field (TwinIdLen w) (f_twinid r);
     ind_hhid := opt_field (HHIdLen w) (f_hhid r);
     ind_gen := if founder w r then 0%Z else (-1)%Z |}.

(** The entries of [idFam] for the records [recs] when [nfam] families
    have been counted before them. *)
Fixpoint famIndex (w : Widths) (recs : list PedLine) (nfam : nat) : list Z :=
  match recs with
  | [] => []
  | r :: rest =>
      if founder w r then (-1)%Z :: famIndex w rest nfam
      else Z.of_nat nfam :: famIndex w rest (S nfam)
  end.

(** The errors of the records [recs], the first being record [k]. *)
Fixpoint allErrors (w : Widths) (recs : list PedLine) (k : nat) : list DataError :=
  match recs with
  | [] => []
  | r :: rest => recordErrors w r k ++ allErrors w rest (S k)
  end.

Definition noLine : PedLine :=
  {| raw_len := 0; f_famid := EmptyString; f_id := EmptyString;
     f_fa := EmptyString; f_mo := EmptyString; f_sex := EmptyString;
     f_twinid := EmptyString; f_hhid := EmptyString |}.

Lemma storeRecord_fields (w : Widths) (r : PedLine) (st : PedState) :
  IndArray (storeRecord w r st) = IndArray st ++ [stored w r] /\
  NumFou (storeRecord w r st) = NumFou st + (if founder w r then 1 else 0) /\
  famList (storeRecord w r st)
    = famList st ++ (if founder w r then [] else [append (fa_id w r) (mo_id w r)]) /\
  idFam (storeRecord w r st)
    = idFam st ++ [if founder w r then (-1)%Z
                   else Z.of_nat (List.length (famList st))].
Proof.
  unfold storeRecord, stored, founder.
  set (sx := sex_code (sex_char w r)).
  set (st1 := match sx with Some _ => st | None => logError (BadSexCode (NumInd st)) st end).
  assert (E1 : IndArray st1 = IndArray st /\ NumFou st1 = NumFou st /\
               famList st1 = famList st /\ idFam st1 = idFam st)
    by (unfold st1; destruct sx; cbn; auto).
  destruct E1 as (I1 & N1 & F1 & D1).
  destruct (unknown (fa_id w r)) eqn:Ufa, (unknown (mo_id w r)) eqn:Umo;
    cbn [negb orb andb].
  - cbn [IndArray NumFou famList idFam]. rewrite I1, N1, F1, D1, app_nil_r.
    repeat split. lia.
  - set (st2 := checkParents (NumInd st) (ego_id w r) (fa_id w r) (mo_id w r) st1).
    destruct (checkParents_log (NumInd st) (ego_id w r) (fa_id w r) (mo_id w r) st1)
      as (_ & _ & I2 & F2). fold st2 in I2, F2.
    assert (E2 : NumFou st2 = NumFou st1 /\ idFam st2 = idFam st1).
    { unfold st2, checkParents, logIf, logError.
      repeat match goal with |- context [if ?b then _ else _] => destruct b end;
        cbn; auto. }
    destruct E2 as (N2 & D2).
    cbn [IndArray NumFou famList idFam]. rewrite I2, F2, N2, D2, I1, N1, F1, D1.
    repeat split. lia.
  - set (st2 := checkParents (NumInd st) (ego_id w r) (fa_id w r) (mo_id w r) st1).
    destruct (checkParents_log (NumInd st) (ego_id w r) (fa_id w r) (mo_id w r) st1)
      as (_ & _ & I2 & F2). fold st2 in I2, F2.
    assert (E2 : NumFou st2 = NumFou st1 /\ idFam st2 = idFam st1).
    { unfold st2, checkParents, logIf, logError.
      repeat match goal with |- context [if ?b then _ else _] => destruct b end;
        cbn; auto. }
    destruct E2 as (N2 & D2).
    cbn [IndArray NumFou famList idFam]. rewrite I2, F2, N2, D2, I1, N1, F1, D1.
    repeat split. lia.
  - set (st2 := checkParents (NumInd st) (ego_id w r) (fa_id w r) (mo_id w r) st1).
    destruct (checkParents_log (NumInd st) (ego_id w r) (fa_id w r) (mo_id w r) st1)
      as (_ & _ & I2 & F2). fold st2 in I2, F2.
    assert (E2 : NumFou st2 = NumFou st1 /\ idFam st2 = idFam st1).
    { unfold st2, checkParents, logIf, logError.
      repeat match goal with |- context [if ?b then _ else _] => destruct b end;
        cbn; auto. }
    destruct E2 as (N2 & D2).
    cbn [IndArray NumFou famList idFam]. rewrite I2, F2, N2, D2, I1, N1, F1, D1.
    repeat split. lia.
Qed.

Definition goodLength (w : Widths) (r : PedLine) : Prop := raw_len r = recLen w.

Definition parentsKey (w : Widths) (r : PedLine) : string :=
  append (fa_id w r) (mo_id w r).

(** The record loop as a whole, from any state. *)
Lemma readRecords_cases (w : Widths) : forall recs st,
  ErrCnt st = List.length (ErrLog st) ->
  (Z.of_nat (NumInd st) <= MAXIND)%Z ->
  match readRecords w recs st with
  | Ok st' =>
      Forall (goodLength w) recs /\
      (Z.of_nat (NumInd st + List.length recs) <= MAXIND)%Z /\
      IndArray st' = IndArray st ++ map (stored w) recs /\
      NumFou st' = NumFou st + List.length (filter (founder w) recs) /\
      famList st' = famList st ++
        map (parentsKey w) (filter (fun r => negb (founder w r)) recs) /\
      idFam st' = idFam st ++ famIndex w recs (List.length (famList st)) /\
      ErrLog st' = ErrLog st ++ allErrors w recs (NumInd st) /\
      ErrCnt st' = List.length (ErrLog st')
  | Fatal (BadRecordLength line) =>
      exists j, line = NumInd st + j + 1 /\ j < List.length recs /\
        raw_len (nth j recs noLine) <> recLen w /\
        (forall i, i < j -> raw_len (nth i recs noLine) = recLen w) /\
        (Z.of_nat (NumInd st + j) <= MAXIND)%Z
  | Fatal (TooManyIndividuals limit) =>
      limit = MAXIND /\
      exists j, j < List.length recs /\ Z.of_nat (NumInd st + j) = MAXIND /\
        forall i, i <= j -> raw_len (nth i recs noLine) = recLen w
  | _ => False
  end.
Proof.
  induction recs as [|r rest IH]; intros st Hcnt Hmax; cbn [readRecords].
  - split; [constructor|]. cbn [List.length map filter famIndex allErrors].
    rewrite !app_nil_r, !Nat.add_0_r. repeat split; try reflexivity; assumption.
  - destruct (Nat.eqb_spec (raw_len r) (recLen w)) as [Hlen|Hlen]; cbn [negb].
    2:{ exists 0. cbn [nth List.length]. repeat split; lia. }
    destruct (Z.eqb_spec (Z.of_nat (NumInd st)) MAXIND) as [Emax|Nmax].
    { split; [reflexivity|]. exists 0. cbn [List.length]. split; [lia|].
      split; [rewrite Nat.add_0_r; exact Emax|].
      intros i Hi. assert (i = 0) by lia. subst i. exact Hlen. }
    destruct (storeRecord_log w r st) as (L & C & N).
    destruct (storeRecord_fields w r st) as (FI & FN & FF & FD).
    specialize (IH (storeRecord w r st)).
    rewrite N in IH.
    assert (H1 : ErrCnt (storeRecord w r st)
                 = List.length (ErrLog (storeRecord w r st)))
      by (rewrite L, C, length_app; lia).
    specialize (IH H1 ltac:(lia)).
    destruct (readRecords w rest (storeRecord w r st)) as [st'|[line|limit| | |]|];
      try contradiction.
    + destruct IH as (G & M & I & NF & FL & ID & EL & EC).
      split; [constructor; assumption|].
      cbn [List.length map filter famIndex allErrors].
      split; [lia|].
      split; [rewrite I, FI, <- app_assoc; reflexivity|].
      split.
      { rewrite NF, FN. destruct (founder w r); cbn [List.length]; lia. }
      split.
      { rewrite FL, FF. destruct (founder w r); cbn [negb map];
          rewrite <- app_assoc; reflexivity. }
      split.
      { rewrite ID, FD, FF, <- app_assoc. destruct (founder w r).
        - rewrite app_nil_r. reflexivity.
        - rewrite length_app. cbn [List.length app].
          rewrite Nat.add_1_r. reflexivity. }
      split; [rewrite EL, L, <- app_assoc; reflexivity|exact EC].
    + destruct IH as (j & -> & Hj & Hbad & Hgood & Hm).
      exists (S j). cbn [List.length nth]. split; [lia|]. split; [lia|].
      split; [exact Hbad|]. split; [|lia].
      intros [|i] Hi; [exact Hlen|]. apply Hgood. lia.
    + destruct IH as (-> & j & Hj & Hm & Hgood).
      split; [reflexivity|]. exists (S j). cbn [List.length nth].
      split; [lia|]. split; [lia|].
      intros [|i] Hi; [exact Hlen|]. apply Hgood. lia.
Qed.

Lemma recordErrors_nil (w : Widths) (r : PedLine) (k : nat) :
  recordErrors w r k = [] -> valid w r.
Proof.
  unfold recordErrors, sexErrors, valid, founder. intros H.
  apply app_eq_nil in H. destruct H as [Hs Hp]. split.
  - destruct (sex_code (sex_char w r)); [discriminate|discriminate Hs].
  - destruct (unknown (fa_id w r)) eqn:Ufa, (unknown (mo_id w r)) eqn:Umo;
      cbn [negb orb andb] in *; [left; reflexivity| | |].
    + exfalso.
      destruct (parentErrors_spec k (ego_id w r) (fa_id w r) (mo_id w r)) as (P1 & _).
      rewrite Hp in P1. apply P1. left. exact Ufa.
    + exfalso.
      destruct (parentErrors_spec k (ego_id w r) (fa_id w r) (mo_id w r)) as (P1 & _).
      rewrite Hp in P1. apply P1. right. exact Umo.
    + right.
      destruct (parentErrors_spec k (ego_id w r) (fa_id w r) (mo_id w r))
        as (_ & P2 & P3 & P4).
      rewrite Hp in P2, P3, P4. cbn [In] in *.
      repeat split; try reflexivity; intros E;
        [apply P2 in E|apply P3 in E|apply P4 in E]; exact E.
Qed.

Lemma allErrors_nil (w : Widths) : forall recs k,
  allErrors w recs k = [] -> Forall (valid w) recs.
Proof.
  induction recs as [|r rest IH]; intros k H; [constructor|].
  cbn [allErrors] in H. apply app_eq_nil in H. destruct H as [H1 H2].
  constructor; [apply (recordErrors_nil w r k H1)|apply (IH (S k) H2)].
Qed.

(** X13. The outcomes of [getPedData] when the program is run to index
    a pedigree file ([doIndex] set, the mode of this development): a
    line of the wrong length stops it at once with the number of that
    line, whatever errors the lines before it have logged; the line
    after the [MAXIND]-th stops it with "too many individuals";
    otherwise every line is stored and it ends in the data-error fatal
    with the number of errors logged over all lines, or returns when
    there is none. *)
Theorem getPedData_outcomes (w : Widths) (recs : list PedLine) :
  match getPedData w recs with
  | Ok st =>
      Forall (goodLength w) recs /\
      (Z.of_nat (List.length recs) <= MAXIND)%Z /\
      NumInd st = List.length recs /\ allErrors w recs 0 = []
  | Fatal (BadRecordLength line) =>
      1 <= line <= List.length recs /\ (Z.of_nat line <= MAXIND + 1)%Z /\
      raw_len (nth (line - 1) recs noLine) <> recLen w /\
      forall i, i < line - 1 -> raw_len (nth i recs noLine) = recLen w
  | Fatal (TooManyIndividuals limit) =>
      limit = MAXIND /\ (MAXIND < Z.of_nat (List.length recs))%Z /\
      forall i, (Z.of_nat i <= MAXIND)%Z -> raw_len (nth i recs noLine) = recLen w
  | Fatal (DataErrorsFound cnt file) =>
      file = ERRFILE /\ cnt = List.length (allErrors w recs 0) /\ cnt <> 0 /\
      Forall (goodLength w) recs /\ (Z.of_nat (List.length recs) <= MAXIND)%Z
  | _ => False
  end.
Proof.
  unfold getPedData.
  pose proof (readRecords_cases w recs emptyPed eq_refl) as H.
  specialize (H ltac:(cbn; unfold MAXIND; lia)).
  destruct (readRecords w recs emptyPed) as [st|[line|limit| | |]|];
    try contradiction.
  - destruct H as (G & M & I & _ & _ & _ & EL & EC).
    cbn [emptyPed ErrLog NumInd IndArray app List.length Nat.add] in *.
    destruct (Nat.eqb_spec (ErrCnt st) 0) as [E0|N0].
    + split; [exact G|]. split; [exact M|]. split.
      * unfold NumInd. rewrite I, length_map. reflexivity.
      * apply length_zero_iff_nil. rewrite <- EL. lia.
    + split; [reflexivity|]. split; [rewrite <- EL; exact EC|].
      split; [exact N0|]. split; [exact G|exact M].
  - destruct H as (j & -> & Hj & Hbad & Hgood & Hm).
    cbn [emptyPed NumInd IndArray List.length Nat.add] in *.
    replace (j + 1 - 1) with j by lia.
    split; [lia|]. split; [lia|]. split; [exact Hbad|exact Hgood].
  - destruct H as (-> & j & Hj & Hm & Hgood).
    cbn [emptyPed NumInd IndArray List.length Nat.add] in *.
    split; [reflexivity|]. split; [lia|].
    intros i Hi. apply Hgood. lia.
Qed.

(** X14. When [getPedData] returns, every line has a recognised sex
    code and either no known parent or two known parents that differ
    from each other and from the individual; the individuals stored are
    those of the lines, in order, with generation 0 for the individuals
    without parents and -1 for the others; [NumFou] counts the former;
    [famList] holds the parent pairs of the latter, in order, and
    [idFam] the place of each individual's pair in it, or -1. *)
Theorem getPedData_valid (w : Widths) (recs : list PedLine) (st : PedState) :
  getPedData w recs = Ok st ->
  Forall (valid w) recs /\
  IndArray st = map (stored w) recs /\
  NumFou st = List.length (filter (founder w) recs) /\
  famList st = map (parentsKey w) (filter (fun r => negb (founder w r)) recs) /\
  idFam st = famIndex w recs 0.
Proof.
  unfold getPedData. intros Hst.
  pose proof (readRecords_cases w recs emptyPed eq_refl) as H.
  specialize (H ltac:(cbn; unfold MAXIND; lia)).
  destruct (readRecords w recs emptyPed) as [st'|m|]; [|discriminate|discriminate].
  destruct (Nat.eqb_spec (ErrCnt st') 0) as [E0|]; [|discriminate].
  injection Hst as <-.
  destruct H as (_ & _ & I & NF & FL & ID & EL & EC).
  cbn [emptyPed ErrLog NumInd IndArray NumFou famList idFam app List.length Nat.add] in *.
  split; [|auto].
  apply (allErrors_nil w recs 0). apply length_zero_iff_nil. rewrite <- EL. lia.
Qed.

Definition twoLines : list PedLine :=
  [demoLine "A1" "  " " 0" "1"; demoLine "B1" "A1" "C1" "2"].

Lemma getPedData_valid_witness :
  exists st, getPedData demoWidths twoLines = Ok st /\
    Forall (valid demoWidths) twoLines /\
    NumFou st = 1 /\ famList st = ["A1C1"]%string /\ idFam st = [(-1)%Z; 0%Z].
Proof.
  assert (E : exists st, getPedData demoWidths twoLines = Ok st)
    by (vm_compute; eexists; reflexivity).
  destruct E as [st E]. exists st. split; [exact E|].
  destruct (getPedData_valid demoWidths twoLines st E) as (V & _ & N & F & D).
  split; [exact V|]. rewrite N, F, D. repeat split.
Defined.

End IngestFacts.

(** ** The ancestor check: the [perm] loop of [makePeds] *)

Module Ancestry.

Import Generations.
Import Sort.

Local Open Scope Z_scope.

(** The individual at place [r] of [IndSort]. *)
Definition indAt (P : Pedigree) (r : Z) : nat :=
  nth (Z.to_nat r) (IndSort P) 0%nat.

Definition hasFam (P : Pedigree) (x : nat) : bool :=
  match ind_fam P x with Some _ => true | None => false end.

(** The array [perm], its entries beyond [NumInd] being whatever the
    memory after it holds. *)
Definition Perm : Type := Arr.

(** The first loop: individuals without a family go to the front with
    their place in [IndSort], the others to the back with that place
    plus [2*NumInd]. *)
Definition fillStep (P : Pedigree) (acc : Perm * Z * Z) (i : nat)
  : Perm * Z * Z :=
  let '(perm, m, n) := acc in
  let N := Z.of_nat (NumInd P) in
  if hasFam P (indAt P (Z.of_nat i))
  then (updZ perm n (Z.of_nat i + 2 * N), m, n - 1)
  else (updZ perm m (Z.of_nat i), m + 1, n).

Definition fill (P : Pedigree) (perm0 : Perm) : Perm :=
  fst (fst (fold_left (fillStep P) (seq 0 (NumInd P))
                      (perm0, 0, Z.of_nat (NumInd P) - 1))).

(** [for (k = m; k < NumInd; k++) if (perm[k] < NumInd) break;] *)
Definition firstFree (P : Pedigree) (perm : Perm) (m : Z) : option Z :=
  find (fun k => perm k <? Z.of_nat (NumInd P))
       (map (fun d => m + Z.of_nat d) (seq 0 (Z.to_nat (Z.of_nat (NumInd P) - m)))).

(** The body of [for (i = m; i < NumInd; i++)] after the choice of
    [isave]. *)
Definition relaxStep (P : Pedigree) (isave : Z) (perm : Perm) (i : Z) : Perm :=
  let N := Z.of_nat (NumInd P) in
  let ip := Z.rem (perm i) N in
  let x := indAt P ip in
  let p1 :=
    match ind_fam P x with
    | Some f => if Nat.eqb (fam_fa P f) (indAt P isave)
                then updZ perm i (perm i - N) else perm
    | None => perm
    end in
  match ind_fam P x with
  | Some f => if Nat.eqb (fam_mo P f) (indAt P isave)
              then updZ p1 i (p1 i - N) else p1
  | None => p1
  end.

Definition relax (P : Pedigree) (isave : Z) (perm : Perm) (m : Z) : Perm :=
  fold_left (relaxStep P isave)
            (map (fun d => m + Z.of_nat d)
                 (seq 0 (Z.to_nat (Z.of_nat (NumInd P) - m))))
            perm.

(** How the check ends: [Passed] at the [break], [OwnAncestor x] at
    the fatal error that names the individual [x], [Undefined] at the
    remainder by [NumInd = 0]. *)
Inductive Verdict : Type :=
| Passed (perm : Perm)
| OwnAncestor (x : nat)
| Undefined.

(** The [while (1)] loop. *)
Fixpoint selectLoop (fuel : nat) (P : Pedigree) (perm : Perm) (m : Z)
  : option Verdict :=
  match fuel with
  | O => None
  | S fuel' =>
      let N := Z.of_nat (NumInd P) in
      match firstFree P perm m with
      | None =>
          if N =? 0 then Some Undefined
          else Some (OwnAncestor (indAt P (Z.rem (perm m) N)))
      | Some k =>
          let isave := perm k in
          let perm1 := updZ (updZ perm k (perm m)) m isave in
          let m' := m + 1 in
          if m' =? N - 1 then Some (Passed perm1)
          else selectLoop fuel' P (relax P isave perm1 m') m'
      end
  end.

(** The check as a whole; the loop takes at most [NumInd + 1] trips. *)
Definition ancestorCheck (P : Pedigree) (perm0 : Perm) : option Verdict :=
  selectLoop (S (NumInd P)) P (fill P perm0) 0.

Lemma updZ_same (a : Arr) i v : updZ a i v i = v.
Proof. unfold updZ. rewrite Z.eqb_refl. reflexivity. Qed.

Lemma updZ_other (a : Arr) i v k : k <> i -> updZ a i v k = a k.
Proof. unfold updZ. intros H. destruct (Z.eqb_spec k i); [contradiction|reflexivity]. Qed.

Section Check.

Variable P : Pedigree.

Let N : Z := Z.of_nat (NumInd P).

(** [IndSort] lists the individuals once each, and the parents of a
    family are individuals. *)
Hypothesis Hlen : List.length (IndSort P) = NumInd P.
Hypothesis Hnodup : NoDup (IndSort P).
Hypothesis Hrange : forall x, In x (IndSort P) -> (x < NumInd P)%nat.
Hypothesis Hpar : forall x f, (x < NumInd P)%nat -> ind_fam P x = Some f ->
  (fam_fa P f < NumInd P)%nat /\ (fam_mo P f < NumInd P)%nat.

Lemma indAt_range r : 0 <= r < N -> (indAt P r < NumInd P)%nat.
Proof.
  intros Hr. apply Hrange. unfold indAt. apply nth_In. unfold N in Hr. lia.
Qed.

Lemma indAt_inj r r' : 0 <= r < N -> 0 <= r' < N ->
  indAt P r = indAt P r' -> r = r'.
Proof.
  intros Hr Hr' E. unfold indAt, N in *.
  assert (Z.to_nat r = Z.to_nat r'); [|lia].
  apply (proj1 (NoDup_nth (IndSort P) 0%nat) Hnodup); [lia|lia|exact E].
Qed.

Lemma indAt_onto x : (x < NumInd P)%nat -> exists r, 0 <= r < N /\ indAt P r = x.
Proof.
  intros Hx.
  assert (Hin : In x (IndSort P)).
  { apply (NoDup_length_incl Hnodup (l' := seq 0 (NumInd P))).
    - rewrite length_seq. lia.
    - intros y Hy. apply in_seq. specialize (Hrange y Hy). lia.
    - apply in_seq. lia. }
  destruct (In_nth _ _ 0%nat Hin) as (k & Hk & Ek).
  exists (Z.of_nat k). unfold indAt, N. rewrite Nat2Z.id. split; [lia|exact Ek].
Qed.

(** The place in [IndSort] that an entry of [perm] stands for. *)
Definition rk (perm : Perm) (i : Z) : Z := perm i mod N.

(** *** The first loop *)

Definition filled (m n pos : Z) : Prop := 0 <= pos < m \/ n < pos < N.

Definition entry (r : Z) : Z :=
  r + (if hasFam P (indAt P r) then 2 * N else 0).

Record fillInv (perm0 : Perm) (t : nat) (s : Perm * Z * Z) : Prop := {
  fi_m : 0 <= snd (fst s) <= Z.of_nat t;
  fi_n : snd (fst s) + (N - 1 - snd s) = Z.of_nat t;
  fi_val : forall pos, filled (snd (fst s)) (snd s) pos ->
    exists r, 0 <= r < Z.of_nat t /\ fst (fst s) pos = entry r;
  fi_onto : forall r, 0 <= r < Z.of_nat t ->
    exists pos, filled (snd (fst s)) (snd s) pos /\ fst (fst s) pos = entry r;
  fi_inj : forall pos pos', filled (snd (fst s)) (snd s) pos ->
    filled (snd (fst s)) (snd s) pos' ->
    rk (fst (fst s)) pos = rk (fst (fst s)) pos' -> pos = pos';
  fi_out : forall pos, ~ filled (snd (fst s)) (snd s) pos ->
    fst (fst s) pos = perm0 pos
}.

Lemma entry_mod r : 0 <= r < N -> entry r mod N = r.
Proof.
  intros Hr. unfold entry. destruct (hasFam P (indAt P r)).
  - replace (r + 2 * N) with (r + 2 * N) by lia.
    rewrite Z.add_mod, Z.mod_mul, Z.add_0_r, Z.mod_mod by lia.
    apply Z.mod_small. lia.
  - rewrite Z.add_0_r. apply Z.mod_small. lia.
Qed.

Lemma fill_inv perm0 :
  fillInv perm0 (NumInd P)
    (fold_left (fillStep P) (seq 0 (NumInd P)) (perm0, 0, N - 1)).
Proof.
  apply fold_seq_invariant.
  - split; cbn [fst snd]; unfold filled; try lia; intros; lia.
  - intros t [[perm m] n] Ht [Hm Hn Hval Honto Hinj Hout]. cbn [fst snd] in *.
    unfold fillStep. fold N.
    assert (HtN : Z.of_nat t < N) by (unfold N; lia).
    assert (Hent : entry (Z.of_nat t)
                   = Z.of_nat t + (if hasFam P (indAt P (Z.of_nat t)) then 2 * N else 0))
      by reflexivity.
    destruct (hasFam P (indAt P (Z.of_nat t))) eqn:Hf.
    + (* stored at [n] *)
      assert (Hnew : updZ perm n (Z.of_nat t + 2 * N) n = entry (Z.of_nat t))
        by (rewrite updZ_same; lia).
      split; cbn [fst snd]; unfold filled in *.
      * lia.
      * lia.
      * intros pos Hpos. destruct (Z.eq_dec pos n) as [->|Hne].
        -- exists (Z.of_nat t). split; [lia|exact Hnew].
        -- rewrite updZ_other by exact Hne.
           destruct (Hval pos ltac:(lia)) as (r & Hr & Er). exists r. split; [lia|exact Er].
      * intros r Hr. destruct (Z.eq_dec r (Z.of_nat t)) as [->|Hne].
        -- exists n. split; [lia|exact Hnew].
        -- destruct (Honto r ltac:(lia)) as (pos & Hpos & Er).
           exists pos. split; [lia|]. rewrite updZ_other by lia. exact Er.
      * intros pos pos' Hpos Hpos'. unfold rk.
        destruct (Z.eq_dec pos n) as [->|Hne], (Z.eq_dec pos' n) as [->|Hne'];
          [reflexivity| | |].
        -- rewrite Hnew, (updZ_other _ _ _ pos') by exact Hne'.
           destruct (Hval pos' ltac:(lia)) as (r & Hr & ->).
           rewrite !entry_mod by lia. lia.
        -- rewrite Hnew, (updZ_other _ _ _ pos) by exact Hne.
           destruct (Hval pos ltac:(lia)) as (r & Hr & ->).
           rewrite !entry_mod by lia. lia.
        -- rewrite !updZ_other by assumption. apply Hinj; lia.
      * intros pos Hpos. rewrite updZ_other by lia. apply Hout. lia.
    + (* stored at [m] *)
      assert (Hnew : updZ perm m (Z.of_nat t) m = entry (Z.of_nat t))
        by (rewrite updZ_same; lia).
      split; cbn [fst snd]; unfold filled in *.
      * lia.
      * lia.
      * intros pos Hpos. destruct (Z.eq_dec pos m) as [->|Hne].
        -- exists (Z.of_nat t). split; [lia|exact Hnew].
        -- rewrite updZ_other by exact Hne.
           destruct (Hval pos ltac:(lia)) as (r & Hr & Er). exists r. split; [lia|exact Er].
      * intros r Hr. destruct (Z.eq_dec r (Z.of_nat t)) as [->|Hne].
        -- exists m. split; [lia|exact Hnew].
        -- destruct (Honto r ltac:(lia)) as (pos & Hpos & Er).
           exists pos. split; [lia|]. rewrite updZ_other by lia. exact Er.
      * intros pos pos' Hpos Hpos'. unfold rk.
        destruct (Z.eq_dec pos m) as [->|Hne], (Z.eq_dec pos' m) as [->|Hne'];
          [reflexivity| | |].
        -- rewrite Hnew, (updZ_other _ _ _ pos') by exact Hne'.
           destruct (Hval pos' ltac:(lia)) as (r & Hr & ->).
           rewrite !entry_mod by lia. lia.
        -- rewrite Hnew, (updZ_other _ _ _ pos) by exact Hne.
           destruct (Hval pos ltac:(lia)) as (r & Hr & ->).
           rewrite !entry_mod by lia. lia.
        -- rewrite !updZ_other by assumption. apply Hinj; lia.
      * intros pos Hpos. rewrite updZ_other by lia. apply Hout. lia.
Qed.

(** What [perm] holds after the first loop. *)
Lemma fill_spec perm0 :
  let perm := fill P perm0 in
  (forall i, 0 <= i < N -> exists r, 0 <= r < N /\ perm i = entry r) /\
  (forall r, 0 <= r < N -> exists i, 0 <= i < N /\ perm i = entry r) /\
  (forall i j, 0 <= i < N -> 0 <= j < N -> rk perm i = rk perm j -> i = j) /\
  (forall i, ~ 0 <= i < N -> perm i = perm0 i).
Proof.
  cbv zeta. unfold fill. fold N. pose proof (fill_inv perm0) as H.
  destruct (fold_left (fillStep P) (seq 0 (NumInd P)) (perm0, 0, N - 1))
    as [[perm m] n].
  destruct H as [Hm Hn Hval Honto Hinj Hout]. cbn [fst snd] in *. fold N in Hn.
  assert (Hf : forall pos, filled m n pos <-> 0 <= pos < N)
    by (intros pos; unfold filled; lia).
  split; [|split; [|split]].
  - intros i Hi. apply Hval, Hf, Hi.
  - intros r Hr. destruct (Honto r Hr) as (pos & Hpos & E). exists pos.
    split; [apply Hf, Hpos|exact E].
  - intros i j Hi Hj. apply Hinj; apply Hf; assumption.
  - intros i Hi. apply Hout. rewrite Hf. exact Hi.
Qed.

(** *** The choice of the next individual *)

Definition positions (m : Z) : list Z :=
  map (fun d => m + Z.of_nat d) (seq 0 (Z.to_nat (N - m))).

Lemma positions_in m i : In i (positions m) <-> m <= i < N.
Proof.
  unfold positions. rewrite in_map_iff. split.
  - intros (d & <- & Hd). apply in_seq in Hd. lia.
  - intros Hi. exists (Z.to_nat (i - m)). split; [lia|]. apply in_seq. lia.
Qed.

Lemma positions_NoDup m : NoDup (positions m).
Proof.
  unfold positions. apply NoDup_map_NoDup_ForallPairs; [|apply seq_NoDup].
  intros a b _ _ E. lia.
Qed.

Lemma firstFree_spec perm m :
  match firstFree P perm m with
  | Some k => m <= k < N /\ perm k < N
  | None => forall k, m <= k < N -> N <= perm k
  end.
Proof.
  unfold firstFree. fold N. fold (positions m).
  destruct (find (fun k => perm k <? N) (positions m)) as [k|] eqn:E.
  - apply find_some in E. destruct E as [Hin Hk].
    apply positions_in in Hin. apply Z.ltb_lt in Hk. auto.
  - intros k Hk. apply positions_in in Hk. apply (find_none _ _ E) in Hk.
    apply Z.ltb_ge in Hk. exact Hk.
Qed.

(** The individual [y] has been chosen: it stands before place [m]. *)
Definition selB (perm : Perm) (m : Z) (y : nat) : bool :=
  existsb (fun j => Nat.eqb (indAt P (perm j)) y)
          (map Z.of_nat (seq 0 (Z.to_nat m))).

Lemma selB_iff perm m y :
  selB perm m y = true <-> exists j, 0 <= j < m /\ indAt P (perm j) = y.
Proof.
  unfold selB. rewrite existsb_exists. split.
  - intros (j & Hin & E). apply in_map_iff in Hin. destruct Hin as (d & <- & Hd).
    apply in_seq in Hd. apply Nat.eqb_eq in E. exists (Z.of_nat d). split; [lia|exact E].
  - intros (j & Hj & E). exists j. split; [|apply Nat.eqb_eq, E].
    apply in_map_iff. exists (Z.to_nat j). split; [lia|]. apply in_seq. lia.
Qed.

(** The parents of [x] not chosen yet, father and mother counted
    apart. *)
Definition pend (perm : Perm) (m : Z) (x : nat) : Z :=
  match ind_fam P x with
  | None => 0
  | Some f =>
      (if selB perm m (fam_fa P f) then 0 else 1) +
      (if selB perm m (fam_mo P f) then 0 else 1)
  end.

Lemma pend_range perm m x : 0 <= pend perm m x <= 2.
Proof.
  unfold pend. destruct (ind_fam P x); [|lia].
  destruct (selB perm m (fam_fa P n)), (selB perm m (fam_mo P n)); lia.
Qed.

(** The chosen part of [perm]: an order in which the parents of a
    chosen individual stand before it. *)
Record ordInv (perm : Perm) (m : Z) : Prop := {
  oi_m : 0 <= m <= N;
  oi_onto : forall r, 0 <= r < N -> exists i, 0 <= i < N /\ rk perm i = r;
  oi_inj : forall i j, 0 <= i < N -> 0 <= j < N -> rk perm i = rk perm j -> i = j;
  oi_done : forall i, 0 <= i < m -> 0 <= perm i < N;
  oi_order : forall j f, 0 <= j < m -> ind_fam P (indAt P (perm j)) = Some f ->
    (exists j', 0 <= j' < j /\ indAt P (perm j') = fam_fa P f) /\
    (exists j', 0 <= j' < j /\ indAt P (perm j') = fam_mo P f)
}.

(** The rest of [perm]: each entry is a place in [IndSort] plus
    [NumInd] for every parent that is not chosen yet. *)
Definition todo (perm : Perm) (m : Z) : Prop :=
  forall i, m <= i < N ->
    perm i = rk perm i + N * pend perm m (indAt P (rk perm i)).

Section Select.

Hypothesis HN : 0 < N.

Lemma rk_range perm i : 0 <= rk perm i < N.
Proof. unfold rk. apply Z.mod_pos_bound. exact HN. Qed.

Lemma rk_small perm i : 0 <= perm i < N -> rk perm i = perm i.
Proof. intros H. unfold rk. apply Z.mod_small. exact H. Qed.

Lemma rk_shift v c : (v - N * c) mod N = v mod N.
Proof.
  replace (v - N * c) with (v + (- c) * N) by lia. apply Z.mod_add. lia.
Qed.

Lemma start_inv perm0 : ordInv (fill P perm0) 0 /\ todo (fill P perm0) 0.
Proof.
  destruct (fill_spec perm0) as (Hval & Honto & Hinj & _). split.
  - split; try lia.
    + intros r Hr. destruct (Honto r Hr) as (i & Hi & E). exists i.
      split; [exact Hi|]. unfold rk. rewrite E. apply entry_mod, Hr.
    + exact Hinj.
  - intros i Hi. destruct (Hval i ltac:(lia)) as (r & Hr & E).
    unfold rk. rewrite E, (entry_mod r Hr). unfold entry, pend, hasFam.
    destruct (ind_fam P (indAt P r)); [|lia].
    replace (selB (fill P perm0) 0 (fam_fa P n)) with false by reflexivity.
    replace (selB (fill P perm0) 0 (fam_mo P n)) with false by reflexivity.
    lia.
Qed.

(** The two passes of the decrement on one entry. *)
Definition lowered (isave : Z) (v : Z) : Z :=
  match ind_fam P (indAt P (Z.rem v N)) with
  | Some f =>
      let v1 := if Nat.eqb (fam_fa P f) (indAt P isave) then v - N else v in
      if Nat.eqb (fam_mo P f) (indAt P isave) then v1 - N else v1
  | None => v
  end.

Lemma relaxStep_at isave perm i j :
  relaxStep P isave perm i j = if j =? i then lowered isave (perm i) else perm j.
Proof.
  unfold relaxStep, lowered. fold N.
  destruct (ind_fam P (indAt P (Z.rem (perm i) N))) as [f|].
  - destruct (Nat.eqb (fam_fa P f) (indAt P isave)),
      (Nat.eqb (fam_mo P f) (indAt P isave)); unfold updZ;
      destruct (Z.eqb_spec j i) as [->|]; rewrite ?Z.eqb_refl; reflexivity.
  - destruct (Z.eqb_spec j i) as [->|]; reflexivity.
Qed.

Lemma relax_fold isave : forall l perm, NoDup l ->
  forall j, fold_left (relaxStep P isave) l perm j
            = if existsb (Z.eqb j) l then lowered isave (perm j) else perm j.
Proof.
  induction l as [|a l IH]; intros perm Hnd j; cbn [fold_left existsb].
  - reflexivity.
  - inversion Hnd as [|? ? Hnotin Hnd']; subst.
    rewrite (IH _ Hnd'), !relaxStep_at.
    destruct (Z.eqb_spec j a) as [->|Hne]; cbn [orb].
    + replace (existsb (Z.eqb a) l) with false; [reflexivity|].
      symmetry. apply not_true_is_false. intros H. apply existsb_exists in H.
      destruct H as (x & Hx & E). apply Z.eqb_eq in E. subst x. contradiction.
    + reflexivity.
Qed.

Lemma relax_spec isave perm m j :
  relax P isave perm m j
  = if (m <=? j) && (j <? N) then lowered isave (perm j) else perm j.
Proof.
  unfold relax. fold N. fold (positions m).
  rewrite (relax_fold isave _ perm (positions_NoDup m)).
  destruct (existsb (Z.eqb j) (positions m)) eqn:E.
  - apply existsb_exists in E. destruct E as (x & Hx & E). apply Z.eqb_eq in E.
    subst x. apply positions_in in Hx.
    destruct (Z.leb_spec m j), (Z.ltb_spec j N); try lia. reflexivity.
  - destruct (Z.leb_spec m j), (Z.ltb_spec j N); cbn [andb]; try reflexivity.
    exfalso. assert (Hin : In j (positions m)) by (apply positions_in; lia).
    assert (existsb (Z.eqb j) (positions m) = true); [|congruence].
    apply existsb_exists. exists j. split; [exact Hin|apply Z.eqb_refl].
Qed.

Lemma selB_ext perm perm' m y :
  (forall j, 0 <= j < m -> perm' j = perm j) -> selB perm' m y = selB perm m y.
Proof.
  intros H. apply eq_true_iff_eq. rewrite !selB_iff.
  split; intros (j & Hj & E); exists j; (split; [exact Hj|]);
    [rewrite <- (H j Hj)|rewrite (H j Hj)]; exact E.
Qed.

Lemma selB_next perm m y : 0 <= m ->
  selB perm (m + 1) y = selB perm m y || Nat.eqb (indAt P (perm m)) y.
Proof.
  intros Hm. apply eq_true_iff_eq. rewrite orb_true_iff, !selB_iff, Nat.eqb_eq. split.
  - intros (j & Hj & E). destruct (Z.eq_dec j m) as [->|Hne]; [right; exact E|].
    left. exists j. split; [lia|exact E].
  - intros [(j & Hj & E)|E]; [exists j|exists m]; (split; [lia|exact E]).
Qed.

(** The entries of [perm] after [perm[k]] and [perm[m]] have changed
    places. *)
Definition chosen (perm : Perm) (m k : Z) : Perm :=
  updZ (updZ perm k (perm m)) m (perm k).

Lemma chosen_eq perm m k i :
  chosen perm m k i = perm (if i =? m then k else if i =? k then m else i).
Proof.
  unfold chosen, updZ. destruct (Z.eqb_spec i m) as [->|]; [reflexivity|].
  destruct (Z.eqb_spec i k) as [->|]; reflexivity.
Qed.

Lemma free_entry perm m k :
  todo perm m -> m <= k < N -> perm k < N ->
  0 <= perm k /\ rk perm k = perm k /\ pend perm m (indAt P (perm k)) = 0.
Proof.
  intros Ht Hk Hfree. pose proof (Ht k Hk) as E.
  pose proof (rk_range perm k) as Hr.
  pose proof (pend_range perm m (indAt P (rk perm k))) as Hp.
  assert (pend perm m (indAt P (rk perm k)) = 0) by nia.
  assert (rk perm k = perm k) by lia.
  split; [lia|]. split; [assumption|]. congruence.
Qed.

Lemma not_chosen_yet perm m k :
  ordInv perm m -> todo perm m -> m <= k < N -> perm k < N ->
  selB perm m (indAt P (perm k)) = false.
Proof.
  intros [Hm Honto Hinj Hdone Hord] Ht Hk Hfree.
  destruct (free_entry perm m k Ht Hk Hfree) as (H0 & Hrk & _).
  apply not_true_is_false. intros H. apply selB_iff in H.
  destruct H as (j & Hj & E).
  pose proof (Hdone j Hj) as Hdj.
  apply indAt_inj in E; [|lia|lia].
  assert (j = k); [|lia].
  apply Hinj; [lia|lia|]. rewrite (rk_small perm j Hdj), Hrk. exact E.
Qed.

Lemma choose_inv perm m k :
  ordInv perm m -> todo perm m -> m <= k < N -> perm k < N ->
  ordInv (chosen perm m k) (m + 1) /\
  (forall i, m + 1 <= i < N ->
     chosen perm m k i
     = rk (chosen perm m k) i + N * pend perm m (indAt P (rk (chosen perm m k) i))).
Proof.
  intros Hinv Ht Hk Hfree.
  destruct (free_entry perm m k Ht Hk Hfree) as (H0 & Hrk & Hpend).
  destruct Hinv as [Hm Honto Hinj Hdone Hord].
  assert (Hrk1 : forall i, rk (chosen perm m k) i
            = rk perm (if i =? m then k else if i =? k then m else i))
    by (intros i; unfold rk; rewrite chosen_eq; reflexivity).
  assert (Hlow : forall j, 0 <= j < m -> chosen perm m k j = perm j).
  { intros j Hj. rewrite chosen_eq.
    destruct (Z.eqb_spec j m); [lia|]. destruct (Z.eqb_spec j k); [lia|reflexivity]. }
  assert (Hat : chosen perm m k m = perm k)
    by (rewrite chosen_eq, Z.eqb_refl; reflexivity).
  split; [split|].
  - lia.
  - intros r Hr. destruct (Honto r Hr) as (i & Hi & E).
    exists (if i =? m then k else if i =? k then m else i).
    split; [destruct (Z.eqb_spec i m); [lia|]; destruct (Z.eqb_spec i k); lia|].
    rewrite Hrk1, <- E. f_equal.
    destruct (Z.eqb_spec i m) as [->|]; destruct (Z.eqb_spec k m) as [->|];
      rewrite ?Z.eqb_refl; try reflexivity.
    + destruct (Z.eqb_spec i m); [lia|]. destruct (Z.eqb_spec i m); [lia|].
      destruct (Z.eqb_spec i m); [lia|reflexivity].
    + destruct (Z.eqb_spec i k) as [->|].
      * rewrite Z.eqb_refl. reflexivity.
      * destruct (Z.eqb_spec i m); [lia|]. destruct (Z.eqb_spec i k); [lia|reflexivity].
  - intros i j Hi Hj. rewrite !Hrk1. intros E. apply Hinj in E.
    + destruct (Z.eqb_spec i m), (Z.eqb_spec i k), (Z.eqb_spec j m),
        (Z.eqb_spec j k); lia.
    + destruct (Z.eqb_spec i m); [lia|]. destruct (Z.eqb_spec i k); lia.
    + destruct (Z.eqb_spec j m); [lia|]. destruct (Z.eqb_spec j k); lia.
  - intros i Hi. destruct (Z.eq_dec i m) as [->|Hne].
    + rewrite Hat. lia.
    + rewrite Hlow by lia. apply Hdone. lia.
  - intros j f Hj. destruct (Z.eq_dec j m) as [->|Hne].
    + rewrite Hat. intros Hf. unfold pend in Hpend. rewrite Hf in Hpend.
      destruct (selB perm m (fam_fa P f)) eqn:Sf, (selB perm m (fam_mo P f)) eqn:Sm;
        try lia.
      apply selB_iff in Sf, Sm.
      destruct Sf as (j1 & Hj1 & E1). destruct Sm as (j2 & Hj2 & E2).
      split; [exists j1|exists j2]; (split; [lia|]); rewrite Hlow by lia; assumption.
    + rewrite Hlow by lia. intros Hf.
      destruct (Hord j f ltac:(lia) Hf) as [(j1 & Hj1 & E1) (j2 & Hj2 & E2)].
      split; [exists j1|exists j2]; (split; [lia|]); rewrite Hlow by lia; assumption.
  - intros i Hi. rewrite Hrk1, chosen_eq.
    destruct (Z.eqb_spec i m); [lia|].
    destruct (Z.eqb_spec i k); apply Ht; lia.
Qed.

Lemma relax_inv perm m k :
  ordInv perm m -> todo perm m -> m <= k < N -> perm k < N ->
  let perm2 := relax P (perm k) (chosen perm m k) (m + 1) in
  ordInv perm2 (m + 1) /\ todo perm2 (m + 1).
Proof.
  intros Hinv Ht Hk Hfree. cbv zeta.
  pose proof (not_chosen_yet perm m k Hinv Ht Hk Hfree) as Hnot.
  destruct (choose_inv perm m k Hinv Ht Hk Hfree) as [Hinv1 Hpre].
  set (perm1 := chosen perm m k) in *.
  set (s := indAt P (perm k)) in *.
  set (perm2 := relax P (perm k) perm1 (m + 1)).
  assert (Hm : 0 <= m) by (destruct Hinv; lia).
  assert (Hsel : forall y, selB perm2 (m + 1) y = selB perm m y || Nat.eqb s y).
  { intros y. rewrite (selB_ext perm1 perm2).
    - rewrite selB_next by exact Hm.
      replace (perm1 m) with (perm k)
        by (unfold perm1; rewrite chosen_eq, Z.eqb_refl; reflexivity).
      f_equal. apply selB_ext. intros j Hj. unfold perm1. rewrite chosen_eq.
      destruct (Z.eqb_spec j m); [lia|]. destruct (Z.eqb_spec j k); [lia|reflexivity].
    - intros j Hj. unfold perm2. rewrite relax_spec.
      destruct (Z.leb_spec (m + 1) j); [lia|reflexivity]. }
  assert (Hval : forall i, m + 1 <= i < N ->
            perm2 i = rk perm1 i + N * pend perm2 (m + 1) (indAt P (rk perm1 i))).
  { intros i Hi. unfold perm2 at 1. rewrite relax_spec.
    destruct (Z.leb_spec (m + 1) i); [|lia]. destruct (Z.ltb_spec i N); [|lia].
    cbn [andb]. pose proof (Hpre i Hi) as E.
    pose proof (rk_range perm1 i) as Hr.
    pose proof (pend_range perm m (indAt P (rk perm1 i))) as Hp.
    unfold lowered.
    assert (Erem : Z.rem (perm1 i) N = rk perm1 i).
    { unfold rk. apply Z.rem_mod_nonneg; nia. }
    rewrite Erem. fold s. unfold pend in *.
    destruct (ind_fam P (indAt P (rk perm1 i))) as [f|]; [|lia].
    rewrite !Hsel.
    destruct (Nat.eqb_spec (fam_fa P f) s) as [Ea|Na],
      (Nat.eqb_spec (fam_mo P f) s) as [Eb|Nb].
    - rewrite Ea, Eb, Hnot in *. rewrite Nat.eqb_refl. cbn [orb]. lia.
    - rewrite Ea, Hnot in *. rewrite Nat.eqb_refl. cbn [orb].
      replace (s =? fam_mo P f)%nat with false
        by (symmetry; apply Nat.eqb_neq; congruence).
      rewrite orb_false_r. lia.
    - rewrite Eb, Hnot in *. rewrite Nat.eqb_refl. cbn [orb].
      replace (s =? fam_fa P f)%nat with false
        by (symmetry; apply Nat.eqb_neq; congruence).
      rewrite orb_false_r. lia.
    - replace (s =? fam_fa P f)%nat with false
        by (symmetry; apply Nat.eqb_neq; congruence).
      replace (s =? fam_mo P f)%nat with false
        by (symmetry; apply Nat.eqb_neq; congruence).
      rewrite !orb_false_r. lia. }
  assert (Hrk2 : forall i, 0 <= i < N -> rk perm2 i = rk perm1 i).
  { intros i Hi. destruct (Z_lt_le_dec i (m + 1)).
    - unfold rk, perm2. rewrite relax_spec.
      destruct (Z.leb_spec (m + 1) i); [lia|reflexivity].
    - unfold rk at 1. rewrite (Hval i ltac:(lia)).
      replace (rk perm1 i + N * pend perm2 (m + 1) (indAt P (rk perm1 i)))
        with (rk perm1 i + pend perm2 (m + 1) (indAt P (rk perm1 i)) * N) by lia.
      rewrite Z.mod_add by lia.
      apply Z.mod_small, rk_range. }
  assert (Hlow2 : forall j, 0 <= j < m + 1 -> perm2 j = perm1 j).
  { intros j Hj. unfold perm2. rewrite relax_spec.
    destruct (Z.leb_spec (m + 1) j); [lia|reflexivity]. }
  destruct Hinv1 as [Hm1 Honto1 Hinj1 Hdone1 Hord1].
  split; [split|].
  - exact Hm1.
  - intros r Hr. destruct (Honto1 r Hr) as (i & Hi & E). exists i.
    split; [exact Hi|]. rewrite Hrk2 by exact Hi. exact E.
  - intros i j Hi Hj. rewrite !Hrk2 by assumption. apply Hinj1; assumption.
  - intros i Hi. rewrite Hlow2 by exact Hi. apply Hdone1, Hi.
  - intros j f Hj. rewrite Hlow2 by exact Hj. intros Hf.
    destruct (Hord1 j f Hj Hf) as [(j1 & Hj1 & E1) (j2 & Hj2 & E2)].
    split; [exists j1|exists j2]; (split; [lia|]); rewrite Hlow2 by lia; assumption.
  - intros i Hi. rewrite (Hrk2 i ltac:(lia)). apply Hval, Hi.
Qed.

(** There is a numbering of the individuals in which the parents of
    every individual have smaller numbers than the individual. *)
Definition orderable : Prop :=
  exists rho : nat -> nat, forall x f,
    (x < NumInd P)%nat -> ind_fam P x = Some f ->
    (rho (fam_fa P f) < rho x)%nat /\ (rho (fam_mo P f) < rho x)%nat.

Lemma exists_free perm m (rho : nat -> nat) :
  (forall x f, (x < NumInd P)%nat -> ind_fam P x = Some f ->
     (rho (fam_fa P f) < rho x)%nat /\ (rho (fam_mo P f) < rho x)%nat) ->
  ordInv perm m -> todo perm m ->
  forall n i, m <= i < N -> (rho (indAt P (rk perm i)) <= n)%nat ->
    exists i', m <= i' < N /\ perm i' < N.
Proof.
  intros Hrho [Hm Honto Hinj Hdone Hord] Ht.
  assert (Hup : forall y, (y < NumInd P)%nat -> selB perm m y = false ->
            exists i, m <= i < N /\ indAt P (rk perm i) = y).
  { intros y Hy Hs. destruct (indAt_onto y Hy) as (r & Hr & Er).
    destruct (Honto r Hr) as (i & Hi & Ei). exists i. split; [|congruence].
    destruct (Z_lt_le_dec i m) as [Hlt|]; [exfalso|lia].
    assert (selB perm m y = true); [|congruence].
    apply selB_iff. exists i. split; [lia|].
    rewrite <- (rk_small perm i (Hdone i ltac:(lia))). congruence. }
  induction n as [|n IH]; intros i Hi Hn.
  - pose proof (Ht i Hi) as E. unfold pend in E.
    pose proof (indAt_range (rk perm i) (rk_range perm i)) as Hx.
    destruct (ind_fam P (indAt P (rk perm i))) as [f|] eqn:Hf.
    + destruct (Hrho _ f Hx Hf). lia.
    + exists i. split; [exact Hi|]. pose proof (rk_range perm i). lia.
  - pose proof (Ht i Hi) as E. unfold pend in E.
    pose proof (indAt_range (rk perm i) (rk_range perm i)) as Hx.
    destruct (ind_fam P (indAt P (rk perm i))) as [f|] eqn:Hf.
    + destruct (Hrho _ f Hx Hf) as [R1 R2].
      destruct (Hpar _ f Hx Hf) as [B1 B2].
      destruct (selB perm m (fam_fa P f)) eqn:Sf.
      * destruct (selB perm m (fam_mo P f)) eqn:Sm.
        -- exists i. split; [exact Hi|]. pose proof (rk_range perm i). lia.
        -- destruct (Hup _ B2 Sm) as (i' & Hi' & Ei').
           apply (IH i' Hi'). rewrite Ei'. lia.
      * destruct (Hup _ B1 Sf) as (i' & Hi' & Ei').
        apply (IH i' Hi'). rewrite Ei'. lia.
    + exists i. split; [exact Hi|]. pose proof (rk_range perm i). lia.
Qed.

(** The [while (1)] loop ends at the [break] with the chosen
    individuals in an order that has parents first, or at the fatal
    error when no such order exists. *)
Lemma selectLoop_spec : forall fuel perm m,
  ordInv perm m -> todo perm m -> 0 <= m < N - 1 ->
  N - 1 - m <= Z.of_nat fuel ->
  exists v, selectLoop fuel P perm m = Some v /\
    ((exists permF, v = Passed permF /\ ordInv permF (N - 1)) \/
     (exists x, v = OwnAncestor x /\ (x < NumInd P)%nat /\ ~ orderable)).
Proof.
  induction fuel as [|fuel IH]; intros perm m Hinv Ht Hm Hfuel; [lia|].
  cbn [selectLoop]. fold N. pose proof (firstFree_spec perm m) as Hff.
  destruct (firstFree P perm m) as [k|].
  - destruct Hff as [Hk Hfree]. fold (chosen perm m k).
    destruct (Z.eqb_spec (m + 1) (N - 1)) as [Elast|Nlast].
    + eexists. split; [reflexivity|]. left. eexists. split; [reflexivity|].
      rewrite <- Elast. apply (choose_inv perm m k Hinv Ht Hk Hfree).
    + destruct (relax_inv perm m k Hinv Ht Hk Hfree) as [Hinv2 Ht2].
      apply IH; [exact Hinv2|exact Ht2|lia|lia].
  - destruct (Z.eqb_spec N 0); [lia|].
    eexists. split; [reflexivity|]. right. eexists. split; [reflexivity|].
    pose proof (Ht m ltac:(lia)) as E.
    pose proof (rk_range perm m) as Hr.
    pose proof (pend_range perm m (indAt P (rk perm m))) as Hp.
    split.
    + apply indAt_range. rewrite Z.rem_mod_nonneg by nia. apply Z.mod_pos_bound. lia.
    + intros (rho & Hrho).
      destruct (exists_free perm m rho Hrho Hinv Ht _ m ltac:(lia) (Nat.le_refl _))
        as (i & Hi & Hfree).
      specialize (Hff i Hi). lia.
Qed.

End Select.

End Check.
(** *** The check as a whole *)

(** [IndSort] lists the individuals once each, and the parents of a
    family are individuals. *)
Record sound (P : Pedigree) : Prop := {
  so_len : List.length (IndSort P) = NumInd P;
  so_nodup : NoDup (IndSort P);
  so_range : forall x, In x (IndSort P) -> (x < NumInd P)%nat;
  so_par : forall x f, (x < NumInd P)%nat -> ind_fam P x = Some f ->
    (fam_fa P f < NumInd P)%nat /\ (fam_mo P f < NumInd P)%nat
}.

(** Nobody is given as his or her own parent. *)
Definition noSelfParent (P : Pedigree) : Prop :=
  forall x f, (x < NumInd P)%nat -> ind_fam P x = Some f ->
    fam_fa P f <> x /\ fam_mo P f <> x.

(** [p] is the father or the mother of [c]. *)
Definition parentOf (P : Pedigree) (c p : nat) : Prop :=
  (c < NumInd P)%nat /\
  exists f, ind_fam P c = Some f /\ (p = fam_fa P f \/ p = fam_mo P f).

Definition ancestorOf (P : Pedigree) : nat -> nat -> Prop :=
  clos_trans nat (parentOf P).

(** The place of the individual [x] in [perm]. *)
Definition place (P : Pedigree) (perm : Perm) (x : nat) : nat :=
  match find (fun j => Nat.eqb (indAt P (rk P perm (Z.of_nat j))) x)
             (seq 0 (NumInd P)) with
  | Some j => j
  | None => 0%nat
  end.

Lemma place_spec P perm m i :
  sound P -> 0 < Z.of_nat (NumInd P) -> ordInv P perm m ->
  0 <= i < Z.of_nat (NumInd P) ->
  place P perm (indAt P (rk P perm i)) = Z.to_nat i.
Proof.
  intros [Hl Hn Hr Hp] HN [Hm Honto Hinj Hdone Hord] Hi. unfold place.
  destruct (find _ (seq 0 (NumInd P))) as [j|] eqn:E.
  - apply find_some in E. destruct E as [Hin E]. apply in_seq in Hin.
    apply Nat.eqb_eq in E.
    apply (indAt_inj P Hl Hn) in E; [|apply (rk_range P HN)|apply (rk_range P HN)].
    apply Hinj in E; lia.
  - exfalso. pose proof (find_none _ _ E (Z.to_nat i)) as H.
    cbv beta in H. rewrite Z2Nat.id, Nat.eqb_refl in H by lia.
    specialize (H ltac:(apply in_seq; lia)). discriminate H.
Qed.

Lemma passed_orderable P perm :
  sound P -> noSelfParent P -> (2 <= NumInd P)%nat ->
  ordInv P perm (Z.of_nat (NumInd P) - 1) -> orderable P.
Proof.
  intros Hs Hself H2 Hinv. exists (place P perm).
  assert (HN : 0 < Z.of_nat (NumInd P)) by lia.
  pose proof (place_spec P perm (Z.of_nat (NumInd P) - 1)) as Hplace.
  destruct Hs as [Hl Hn Hr Hp].
  assert (Hs : sound P) by (split; assumption).
  pose proof Hinv as [Hm Honto Hinj Hdone Hord].
  assert (Hpos : forall y, (y < NumInd P)%nat ->
            exists i, 0 <= i < Z.of_nat (NumInd P) /\ indAt P (rk P perm i) = y).
  { intros y Hy. destruct (indAt_onto P Hl Hn Hr y Hy) as (r & Hrr & Er).
    destruct (Honto r Hrr) as (i & Hi & Ei). exists i. split; [exact Hi|congruence]. }
  assert (Hbefore : forall x y i, 0 <= i < Z.of_nat (NumInd P) ->
            indAt P (rk P perm i) = x -> (y < NumInd P)%nat -> y <> x ->
            (i = Z.of_nat (NumInd P) - 1 \/
             exists j, 0 <= j < i /\ indAt P (perm j) = y) ->
            (place P perm y < place P perm x)%nat).
  { intros x y i Hi Ex Hy Hne Hcase.
    rewrite <- Ex, (Hplace i Hs HN Hinv Hi).
    destruct Hcase as [Elast|(j & Hj & Ej)].
    - destruct (Hpos y Hy) as (iy & Hiy & Ey).
      rewrite <- Ey, (Hplace iy Hs HN Hinv Hiy).
      assert (iy <> i) by (intros ->; congruence). lia.
    - assert (Hdj : 0 <= perm j < Z.of_nat (NumInd P)) by (apply Hdone; lia).
      rewrite <- Ej, <- (rk_small P perm j Hdj), (Hplace j Hs HN Hinv) by lia.
      lia. }
  intros x f Hx Hf.
  destruct (Hpos x Hx) as (i & Hi & Ei).
  destruct (Hp x f Hx Hf) as [B1 B2]. destruct (Hself x f Hx Hf) as [S1 S2].
  destruct (Z.eq_dec i (Z.of_nat (NumInd P) - 1)) as [Elast|Nlast].
  - split; apply (Hbefore x _ i Hi Ei); auto.
  - assert (Hdi : 0 <= perm i < Z.of_nat (NumInd P)) by (apply Hdone; lia).
    rewrite (rk_small P perm i Hdi) in Ei.
    rewrite <- Ei in Hf.
    destruct (Hord i f ltac:(lia) Hf) as [(j1 & Hj1 & E1) (j2 & Hj2 & E2)].
    rewrite <- (rk_small P perm i Hdi) in Ei.
    split; apply (Hbefore x _ i Hi Ei); auto; right; [exists j1|exists j2]; auto.
Qed.

Lemma orderable_acyclic P : orderable P -> forall x, ~ ancestorOf P x x.
Proof.
  intros (rho & Hrho).
  assert (H : forall c p, ancestorOf P c p -> (rho p < rho c)%nat).
  { induction 1 as [c p (Hc & f & Hf & Hp)|c q p _ IH1 _ IH2]; [|lia].
    destruct (Hrho c f Hc Hf). destruct Hp as [->| ->]; assumption. }
  intros x Hx. specialize (H x x Hx). lia.
Qed.

(** X15. For two or more individuals, none given as his or her own
    parent, the ancestor check of [makePeds] ends in one of two ways:
    at the [break], and then the individuals can be numbered with the
    parents of everyone before him or her, so that nobody is his or her
    own ancestor; or at the fatal error "... is his/her own ancestor",
    and then no such numbering exists. *)
Theorem ancestorCheck_decides (P : Pedigree) (perm0 : Perm) :
  sound P -> noSelfParent P -> (2 <= NumInd P)%nat ->
  exists v, ancestorCheck P perm0 = Some v /\
    (((exists perm, v = Passed perm) /\ orderable P /\
      forall x, ~ ancestorOf P x x) \/
     ((exists x, v = OwnAncestor x /\ (x < NumInd P)%nat) /\ ~ orderable P)).
Proof.
  intros Hs Hself H2. pose proof Hs as [Hl Hn Hr Hp].
  assert (HN : 0 < Z.of_nat (NumInd P)) by lia.
  destruct (start_inv P Hl HN perm0) as [Hinv Ht].
  destruct (selectLoop_spec P Hl Hn Hr Hp HN (S (NumInd P)) (fill P perm0) 0 Hinv Ht)
    as (v & Ev & Hv); [lia|lia|].
  exists v. split; [exact Ev|].
  destruct Hv as [(permF & -> & HinvF)|(x & -> & Hx & Hno)].
  - left. split; [eexists; reflexivity|].
    pose proof (passed_orderable P permF Hs Hself H2 HinvF) as Ho.
    split; [exact Ho|apply orderable_acyclic, Ho].
  - right. split; [exists x; auto|exact Hno].
Qed.

(** X16. With a single individual the loop never reaches its [break]:
    it reads [perm[1]], past the end of the array, and whatever it
    finds there it stops with the fatal error that names the
    individual as his or her own ancestor; with no individual at all it
    takes a remainder by zero. *)
Theorem ancestorCheck_small (P : Pedigree) (perm0 : Perm) :
  (NumInd P <= 1)%nat ->
  ancestorCheck P perm0 =
    Some (if Nat.eqb (NumInd P) 0 then Undefined else OwnAncestor (indAt P 0)).
Proof.
  intros H. unfold ancestorCheck, fill.
  assert (C : NumInd P = 0%nat \/ NumInd P = 1%nat) by lia.
  destruct C as [E|E]; rewrite E.
  - cbn [seq fold_left fst snd selectLoop Nat.eqb]. unfold firstFree.
    rewrite E. reflexivity.
  - assert (F0 : forall perm, firstFree P perm 0
                 = if perm 0 <? 1 then Some 0 else None)
      by (intros perm; unfold firstFree; rewrite E; reflexivity).
    assert (F1 : forall perm, firstFree P perm (0 + 1) = None)
      by (intros perm; unfold firstFree; rewrite E; reflexivity).
    assert (R1 : forall isave perm, relax P isave perm (0 + 1) = perm)
      by (intros isave perm; unfold relax; rewrite E; reflexivity).
    cbn [seq fold_left Nat.eqb]. unfold fillStep. rewrite E.
    change (Z.of_nat 0) with 0. change (Z.of_nat 1) with 1.
    destruct (hasFam P (indAt P 0)); cbn [fst snd selectLoop];
      rewrite E, F0, updZ_same; change (Z.of_nat 1) with 1.
    + reflexivity.
    + cbn [Z.ltb Z.compare Z.eqb Z.add Z.sub Z.opp Z.pos_sub Pos.add].
      rewrite R1, F1, Z.rem_1_r. reflexivity.
Qed.

(** Two parents and their child. *)
Definition parentsChild : Pedigree :=
  {| NumInd := 3; NumFou := 2; IndSort := [2; 0; 1]%nat;
     ind_fam := fun x => if Nat.eqb x 2 then Some 0%nat else None;
     fam_fa := fun _ => 0%nat; fam_mo := fun _ => 1%nat |}.

Definition loner : Pedigree :=
  {| NumInd := 1; NumFou := 1; IndSort := [0]%nat;
     ind_fam := fun _ => None;
     fam_fa := fun _ => 0%nat; fam_mo := fun _ => 0%nat |}.

Lemma ancestorCheck_decides_witness :
  exists perm, ancestorCheck parentsChild (fun _ => 0) = Some (Passed perm) /\
    forall x, ~ ancestorOf parentsChild x x.
Proof.
  assert (Hs : sound parentsChild).
  { split; cbn [parentsChild NumInd IndSort ind_fam fam_fa fam_mo].
    - reflexivity.
    - repeat constructor; cbn; intuition discriminate.
    - intros x [<-|[<-|[<-|[]]]]; lia.
    - intros x f _ _. lia. }
  assert (Hn : noSelfParent parentsChild).
  { intros x f Hx. cbn [parentsChild NumInd ind_fam fam_fa fam_mo] in *.
    destruct (Nat.eqb_spec x 2); [|discriminate]. intros _. lia. }
  destruct (ancestorCheck_decides parentsChild (fun _ => 0) Hs Hn)
    as (v & Ev & [((perm & ->) & _ & Hacy)|((x & -> & _) & _)]).
  - cbn. lia.
  - exists perm. split; [exact Ev|exact Hacy].
  - vm_compute in Ev. discriminate Ev.
Defined.

Lemma ancestorCheck_small_witness :
  ancestorCheck loner (fun _ => (-5)) = Some (OwnAncestor 0).
Proof. apply (ancestorCheck_small loner (fun _ => (-5))). cbn. lia. Defined.

End Ancestry.

(** ** The generation loop after the ancestor check *)

Module Descent.

Import Generations.
Import Ancestry.

(** A pass leaves the generations that are set as they are. *)
Lemma genStep_keeps (P : Pedigree) (g : nat -> Z) (n ip i : nat) :
  i <> ip \/ (0 <= g i)%Z -> fst (genStep P (g, n) ip) i = g i.
Proof.
  intros H. unfold genStep.
  destruct (Z.ltb_spec (g ip) 0) as [Hneg|]; [|reflexivity].
  destruct (ind_fam P ip) as [f|]; cbn [fst snd].
  - destruct ((g (fam_fa P f) >=? 0)%Z && (g (fam_mo P f) >=? 0)%Z); cbn [fst];
      [|reflexivity].
    apply upd_other. destruct H as [H|H]; [exact H|]. intros ->. lia.
  - destruct ((0 >=? 0)%Z && (0 >=? 0)%Z); cbn [fst]; [|reflexivity].
    apply upd_other. destruct H as [H|H]; [exact H|]. intros ->. lia.
Qed.

(** An individual without generation whose parents have theirs is
    counted by the pass that meets it. *)
Lemma genPass_counts (P : Pedigree) (ip f : nat) : forall l g n,
  In ip l -> ind_fam P ip = Some f -> (g ip < 0)%Z ->
  (0 <= g (fam_fa P f))%Z -> (0 <= g (fam_mo P f))%Z ->
  n < snd (fold_left (genStep P) l (g, n)).
Proof.
  induction l as [|a l IH]; intros g n Hin Hf Hneg Hfa Hmo; [destruct Hin|].
  cbn [fold_left].
  destruct (Nat.eq_dec a ip) as [->|Hne].
  - pose proof (genPass_mono P l (genStep P (g, n) ip)) as Hm.
    assert (E : snd (genStep P (g, n) ip) = S n).
    { unfold genStep. destruct (Z.ltb_spec (g ip) 0); [|lia]. rewrite Hf.
      destruct (Z.geb_spec (g (fam_fa P f)) 0); [|lia].
      destruct (Z.geb_spec (g (fam_mo P f)) 0); [|lia]. reflexivity. }
    lia.
  - destruct Hin as [E|Hin]; [contradiction|].
    pose proof (genStep_mono P (g, n) a) as Hm. cbn [snd] in Hm.
    pose proof (genStep_keeps P g n a) as Hk.
    destruct (genStep P (g, n) a) as [g' n'] eqn:E. cbn [fst snd] in *.
    specialize (IH g' n' Hin Hf).
    rewrite (Hk ip) in IH by (left; congruence).
    rewrite (Hk (fam_fa P f)), (Hk (fam_mo P f)) in IH by (right; assumption).
    specialize (IH Hneg Hfa Hmo). lia.
Qed.

(** Among the individuals without generation one has parents that
    have theirs, when the individuals can be numbered parents first. *)
Lemma ready_exists (P : Pedigree) (g : nat -> Z) (genfnd : nat) (rho : nat -> nat) :
  sound P ->
  (forall x f, x < NumInd P -> ind_fam P x = Some f ->
     rho (fam_fa P f) < rho x /\ rho (fam_mo P f) < rho x) ->
  genInv P g genfnd ->
  forall n i, i < NumInd P -> (g i < 0)%Z -> rho i <= n ->
    exists j f, j < NumInd P /\ ind_fam P j = Some f /\ (g j < 0)%Z /\
      (0 <= g (fam_fa P f))%Z /\ (0 <= g (fam_mo P f))%Z.
Proof.
  intros [_ _ _ Hp] Hrho (_ & Hfou & _).
  induction n as [|n IH]; intros i Hi Hneg Hn.
  - destruct (ind_fam P i) as [f|] eqn:Hf.
    + destruct (Hrho i f Hi Hf). lia.
    + specialize (Hfou i Hi Hf). lia.
  - destruct (ind_fam P i) as [f|] eqn:Hf.
    + destruct (Hrho i f Hi Hf) as [R1 R2]. destruct (Hp i f Hi Hf) as [B1 B2].
      destruct (Z_lt_le_dec (g (fam_fa P f)) 0) as [N1|P1];
        [apply (IH (fam_fa P f)); [exact B1|exact N1|lia]|].
      destruct (Z_lt_le_dec (g (fam_mo P f)) 0) as [N2|P2];
        [apply (IH (fam_mo P f)); [exact B2|exact N2|lia]|].
      exists i, f. auto.
    + specialize (Hfou i Hi Hf). lia.
Qed.

Lemma in_IndSort (P : Pedigree) (x : nat) :
  sound P -> x < NumInd P -> In x (IndSort P).
Proof.
  intros [Hl Hn Hr _] Hx.
  apply (NoDup_length_incl Hn (l' := seq 0 (NumInd P))).
  - rewrite length_seq. lia.
  - intros y Hy. apply in_seq. specialize (Hr y Hy). lia.
  - apply in_seq. lia.
Qed.

Lemma genLoop_succeeds (P : Pedigree) :
  sound P -> orderable P ->
  forall fuel g n, genInv P g n -> NumInd P - n < fuel ->
    exists g', genLoop fuel P g n = Ok g'.
Proof.
  intros Hs (rho & Hrho).
  assert (Hsort : Forall (fun i => i < NumInd P) (IndSort P))
    by (apply Forall_forall; apply (so_range P Hs)).
  induction fuel as [|fuel IH]; intros g n Hinv Hf; [lia|].
  cbn [genLoop]. destruct (Nat.ltb_spec n (NumInd P)) as [Hlt|Hge];
    [|eexists; reflexivity].
  destruct (genPass_inv P (IndSort P) g n Hsort Hinv) as [Hinv' Hle].
  assert (Hun : exists i, i < NumInd P /\ (g i < 0)%Z).
  { destruct Hinv as (_ & _ & Hcnt).
    assert (Hpos : unassigned (NumInd P) g <> 0) by lia.
    unfold unassigned in Hpos.
    destruct (filter (fun i => (g i <? 0)%Z) (seq 0 (NumInd P))) as [|i l] eqn:E;
      [contradiction|].
    assert (Hin : In i (filter (fun i => (g i <? 0)%Z) (seq 0 (NumInd P))))
      by (rewrite E; left; reflexivity).
    apply filter_In in Hin. destruct Hin as [Hin Hi]. apply in_seq in Hin.
    apply Z.ltb_lt in Hi. exists i. split; [lia|exact Hi]. }
  destruct Hun as (i & Hi & Hneg).
  destruct (ready_exists P g n rho Hs Hrho Hinv _ i Hi Hneg (Nat.le_refl _))
    as (j & f & Hj & Hfj & Hnj & Hfa & Hmo).
  pose proof (genPass_counts P j f (IndSort P) g n (in_IndSort P j Hs Hj)
                Hfj Hnj Hfa Hmo) as Hgrow.
  unfold genPass.
  destruct (fold_left (genStep P) (IndSort P) (g, n)) as [g1 n1].
  cbn [fst snd] in *.
  destruct (Nat.eqb_spec n1 n); [lia|].
  apply IH; [exact Hinv'|].
  destruct Hinv' as (_ & _ & Hcnt'). lia.
Qed.

(** X17. When the individuals can be numbered with parents before
    children, as the ancestor check establishes, the generation loop
    never reaches its fatal error: it returns with every individual
    assigned. *)
Theorem assignGenerations_succeeds (P : Pedigree) (g0 : nat -> Z) :
  sound P -> orderable P -> initialGen P g0 -> NumFou P = countFounders P ->
  exists g, assignGenerations P g0 = Ok g /\
    forall i, i < NumInd P -> (0 <= g i)%Z.
Proof.
  intros Hs Ho Hinit Hfou.
  assert (Hsort : Forall (fun i => i < NumInd P) (IndSort P))
    by (apply Forall_forall; apply (so_range P Hs)).
  assert (Hinv : genInv P g0 (NumFou P)).
  { split; [|split].
    - intros i Hi. pose proof (Hinit i Hi) as E. unfold genOk.
      destruct (ind_fam P i); [left; lia|right; split; [lia|exact E]].
    - intros i Hi Hn. rewrite (Hinit i Hi), Hn. reflexivity.
    - rewrite Hfou. apply unassigned_initial, Hinit. }
  unfold assignGenerations.
  destruct (genLoop_succeeds P Hs Ho (S (NumInd P)) g0 (NumFou P) Hinv)
    as (g & Eg); [lia|].
  exists g. split; [exact Eg|].
  intros i Hi. apply (genLoop_ok _ P g0 (NumFou P) g Hsort Hinv Eg i Hi).
Qed.

Lemma assignGenerations_succeeds_witness :
  exists g, assignGenerations parentsChild
              (fun i => if Nat.eqb i 2 then (-1)%Z else 0%Z) = Ok g /\
            g 2 = 1%Z.
Proof.
  assert (Hs : sound parentsChild).
  { split; cbn [parentsChild NumInd IndSort ind_fam fam_fa fam_mo].
    - reflexivity.
    - repeat constructor; cbn; intuition discriminate.
    - intros x [<-|[<-|[<-|[]]]]; lia.
    - intros x f _ _. lia. }
  assert (Ho : orderable parentsChild).
  { exists (fun x => if Nat.eqb x 2 then 1 else 0). intros x f Hx.
    cbn [parentsChild NumInd ind_fam fam_fa fam_mo] in *.
    destruct (Nat.eqb_spec x 2); [|discriminate]. intros _. cbn. lia. }
  assert (Hi : initialGen parentsChild (fun i => if Nat.eqb i 2 then (-1)%Z else 0%Z)).
  { intros i Hi. cbn [parentsChild ind_fam]. destruct (Nat.eqb i 2); reflexivity. }
  destruct (assignGenerations_succeeds parentsChild _ Hs Ho Hi eq_refl)
    as (g & Eg & _).
  exists g. split; [exact Eg|].
  vm_compute in Eg. injection Eg as <-. reflexivity.
Defined.

End Descent.

(** ** Reading a genotype: [getAlleles] *)

Module Genotype.

Definition TAB : ascii := "009"%char.
Definition NUL : ascii := "000"%char.

Definition isBlank (c : ascii) : bool := Ascii.eqb c " " || Ascii.eqb c TAB.

(** A character of a token: not a slash, a blank or a tab. *)
Definition inToken (c : ascii) : bool :=
  negb (Ascii.eqb c "/") && negb (Ascii.eqb c " ") && negb (Ascii.eqb c TAB).

(** A blank, a tab or a slash. *)
Definition isSep (c : ascii) : bool :=
  Ascii.eqb c " " || Ascii.eqb c TAB || Ascii.eqb c "/".

(** [isdigit] and [isalpha] of the C locale. *)
Definition isdigit (c : ascii) : bool :=
  let n := nat_of_ascii c in Nat.leb 48 n && Nat.leb n 57.

Definition isalpha (c : ascii) : bool :=
  let n := nat_of_ascii c in
  (Nat.leb 65 n && Nat.leb n 90) || (Nat.leb 97 n && Nat.leb n 122).

Definition isPrime (c : ascii) : bool := Ascii.eqb c "'".

(** The characters of a C string: those before the first NUL. *)
Fixpoint cstr (s : string) : string :=
  match s with
  | EmptyString => EmptyString
  | String c s' => if Ascii.eqb c NUL then EmptyString else String c (cstr s')
  end.

(** The first loop: every parenthesis becomes a blank. *)
Fixpoint noParens (s : string) : string :=
  match s with
  | EmptyString => EmptyString
  | String c s' =>
      String (if Ascii.eqb c "(" || Ascii.eqb c ")" then " "%char else c)
             (noParens s')
  end.

(** A copying loop [while (... f(p[0])) q++[0] = p++[0]]: what is
    copied, and where [p] stops. *)
Fixpoint span (f : ascii -> bool) (s : string) : string * string :=
  match s with
  | EmptyString => (EmptyString, EmptyString)
  | String c s' =>
      if f c then let (a, r) := span f s' in (String c a, r)
      else (EmptyString, s)
  end.

(** A skipping loop [while (... f(p[0])) p++]. *)
Definition skip (f : ascii -> bool) (s : string) : string := snd (span f s).

Definition isNil (s : string) : bool :=
  match s with EmptyString => true | _ => false end.

Definition headIs (f : ascii -> bool) (s : string) : bool :=
  match s with EmptyString => false | String c _ => f c end.

(** One trip of [for (i = 0; i < 2; i++)]: the allele copied and where
    [p] stops, or [None] at a [return FALSE]. *)
Definition scanAllele (xLinked divided numeric : bool) (p : string)
  : option (string * string) :=
  if divided then
    let (a, r) := span inToken p in
    if isNil a && negb xLinked then None
    else Some (a, skip isSep r)
  else if numeric then
    match p with
    | String c p' =>
        if isdigit c then
          let (a, r) := span (fun c => isalpha c || isPrime c) p' in
          Some (String c a, r)
        else None
    | EmptyString => None
    end
  else
    match p with
    | String c p' =>
        if isalpha c then
          let (a, r) := span (fun c => isdigit c || isPrime c) p' in
          Some (String c a, r)
        else None
    | EmptyString => None
    end.

Fixpoint allDigits (s : string) : bool :=
  match s with
  | EmptyString => true
  | String c s' => isdigit c && allDigits s'
  end.

(** An allele that is the string 0, or the string -, becomes empty. *)
Definition missing (a : string) : string :=
  let a := if String.eqb a "0" then EmptyString else a in
  if String.eqb a "-" then EmptyString else a.

(** What the caller sees: [Invalid] is [return FALSE], after which the
    caller does not read the allele buffers; [allnum] is the flag
    behind the pointer [allnum] on return. *)
Inductive Parsed : Type :=
| Invalid (allnum : bool)
| Valid (allele0 allele1 : string) (allnum : bool).

Definition getAlleles (xLinked : bool) (gtype : string) (allnum : bool) : Parsed :=
  let g := noParens (cstr gtype) in
  let start := skip isBlank g in
  if isNil start then Valid EmptyString EmptyString allnum
  else
    let divided := negb (isNil (skip isBlank (skip inToken start))) in
    let numeric := negb divided && headIs isdigit start in
    if negb divided && negb (headIs isdigit start) && negb (headIs isalpha start)
    then Invalid allnum
    else
      match scanAllele xLinked divided numeric start with
      | None => Invalid allnum
      | Some (a0, p1) =>
          match scanAllele xLinked divided numeric p1 with
          | None => Invalid allnum
          | Some (a1, p2) =>
              if negb (isNil (skip isBlank p2)) then Invalid allnum
              else
                let allnum' := allnum && allDigits a0 && allDigits a1 in
                let a0' := missing a0 in
                let a1' := missing a1 in
                if negb xLinked &&
                   ((isNil a0' && negb (isNil a1')) ||
                    (negb (isNil a0') && isNil a1'))
                then Invalid allnum'
                else Valid a0' a1' allnum'
          end
      end.

Fixpoint allChars (f : ascii -> bool) (s : string) : bool :=
  match s with
  | EmptyString => true
  | String c s' => f c && allChars f s'
  end.

(** A character that can stand in an allele: not a separator, not a
    parenthesis, not NUL. *)
Definition plain (c : ascii) : bool :=
  inToken c && negb (Ascii.eqb c "(") && negb (Ascii.eqb c ")") &&
  negb (Ascii.eqb c NUL).

(** A character of the text after the first loop. *)
Definition clean (c : ascii) : bool :=
  negb (Ascii.eqb c "(") && negb (Ascii.eqb c ")") && negb (Ascii.eqb c NUL).

Lemma alnum_plain c : isdigit c || isalpha c || isPrime c = true -> plain c = true.
Proof. destruct c as [[] [] [] [] [] [] [] []]; vm_compute; auto. Qed.

Lemma plain_split c : plain c = inToken c && clean c.
Proof. unfold plain, clean. destruct (inToken c), (Ascii.eqb c "("), (Ascii.eqb c ")"),
  (Ascii.eqb c NUL); reflexivity. Qed.

Lemma allChars_and f g s :
  allChars (fun c => f c && g c) s = allChars f s && allChars g s.
Proof.
  induction s as [|c s IH]; cbn [allChars]; [reflexivity|]. rewrite IH.
  destruct (f c), (g c), (allChars f s), (allChars g s); reflexivity.
Qed.

Lemma allChars_impl (f g : ascii -> bool) s :
  (forall c, f c = true -> g c = true) -> allChars f s = true -> allChars g s = true.
Proof.
  intros H. induction s as [|c s IH]; cbn [allChars]; [reflexivity|].
  intros E. apply andb_true_iff in E. destruct E as [E1 E2].
  rewrite (H c E1), (IH E2). reflexivity.
Qed.

Lemma cstr_clean s : allChars (fun c => negb (Ascii.eqb c NUL)) (cstr s) = true.
Proof.
  induction s as [|c s IH]; cbn [cstr allChars]; [reflexivity|].
  destruct (Ascii.eqb c NUL) eqn:E; cbn [allChars]; [reflexivity|].
  rewrite E, IH. reflexivity.
Qed.

Lemma noParens_clean s :
  allChars (fun c => negb (Ascii.eqb c NUL)) s = true ->
  allChars clean (noParens s) = true.
Proof.
  induction s as [|c s IH]; cbn [noParens allChars]; [reflexivity|].
  intros E. apply andb_true_iff in E. destruct E as [E1 E2]. rewrite (IH E2).
  rewrite andb_true_r. unfold clean.
  destruct (Ascii.eqb_spec c "(") as [->|]; [reflexivity|].
  destruct (Ascii.eqb_spec c ")") as [->|]; [reflexivity|].
  cbn [orb]. rewrite E1.
  destruct (Ascii.eqb_spec c "("); [contradiction|].
  destruct (Ascii.eqb_spec c ")"); [contradiction|]. reflexivity.
Qed.

Lemma span_spec f s :
  allChars f (fst (span f s)) = true /\
  append (fst (span f s)) (snd (span f s)) = s /\
  headIs f (snd (span f s)) = false.
Proof.
  induction s as [|c s IH]; cbn [span]; [auto|].
  destruct (f c) eqn:E.
  - destruct (span f s) as [a r]. cbn [fst snd allChars append] in *.
    destruct IH as (I1 & I2 & I3). rewrite E, I1, I2. auto.
  - cbn [fst snd allChars append headIs]. auto.
Qed.

Lemma allChars_app f a b :
  allChars f (append a b) = allChars f a && allChars f b.
Proof.
  induction a as [|c a IH]; cbn [append allChars]; [reflexivity|].
  rewrite IH. apply andb_assoc.
Qed.

Lemma span_keeps f g s :
  allChars g s = true ->
  allChars g (fst (span f s)) = true /\ allChars g (snd (span f s)) = true.
Proof.
  intros H. destruct (span_spec f s) as (_ & E & _).
  rewrite <- E, allChars_app in H. apply andb_true_iff in H. exact H.
Qed.

Lemma skip_keeps f g s : allChars g s = true -> allChars g (skip f s) = true.
Proof. intros H. apply (span_keeps f g s H). Qed.

Lemma scanAllele_plain xl divided numeric p a r :
  allChars clean p = true -> scanAllele xl divided numeric p = Some (a, r) ->
  allChars plain a = true /\ allChars clean r = true.
Proof.
  intros Hc. unfold scanAllele. destruct divided.
  - destruct (span_spec inToken p) as (S1 & _ & _).
    destruct (span_keeps inToken clean p Hc) as [K1 K2].
    destruct (span inToken p) as [a' r']. cbn [fst snd] in *.
    destruct (isNil a' && negb xl); [discriminate|].
    intros E. injection E as <- <-. split.
    + rewrite (allChars_impl (fun c => inToken c && clean c) plain).
      * reflexivity.
      * intros c Hcc. rewrite plain_split. exact Hcc.
      * rewrite allChars_and, S1, K1. reflexivity.
    + apply skip_keeps, K2.
  - destruct numeric.
    + destruct p as [|c p']; [discriminate|].
      cbn [allChars] in Hc. apply andb_true_iff in Hc. destruct Hc as [Hc1 Hc2].
      destruct (isdigit c) eqn:Ed; [|discriminate].
      destruct (span_spec (fun c => isalpha c || isPrime c) p') as (S1 & _ & _).
      destruct (span_keeps (fun c => isalpha c || isPrime c) clean p' Hc2) as [K1 K2].
      destruct (span (fun c => isalpha c || isPrime c) p') as [a' r'].
      cbn [fst snd] in *. intros E. injection E as <- <-. split; [|exact K2].
      cbn [allChars]. rewrite (alnum_plain c) by (rewrite Ed; reflexivity).
      apply (allChars_impl (fun c => isalpha c || isPrime c)); [|exact S1].
      intros c' Hc'. apply alnum_plain.
      destruct (isdigit c'), (isalpha c'), (isPrime c'); auto.
    + destruct p as [|c p']; [discriminate|].
      cbn [allChars] in Hc. apply andb_true_iff in Hc. destruct Hc as [Hc1 Hc2].
      destruct (isalpha c) eqn:Ed; [|discriminate].
      destruct (span_spec (fun c => isdigit c || isPrime c) p') as (S1 & _ & _).
      destruct (span_keeps (fun c => isdigit c || isPrime c) clean p' Hc2) as [K1 K2].
      destruct (span (fun c => isdigit c || isPrime c) p') as [a' r'].
      cbn [fst snd] in *. intros E. injection E as <- <-. split; [|exact K2].
      cbn [allChars]. rewrite (alnum_plain c)
        by (rewrite Ed; destruct (isdigit c); reflexivity).
      apply (allChars_impl (fun c => isdigit c || isPrime c)); [|exact S1].
      intros c' Hc'. apply alnum_plain.
      destruct (isdigit c'), (isalpha c'), (isPrime c'); auto.
Qed.

Lemma span_length f s :
  String.length (fst (span f s)) + String.length (snd (span f s)) = String.length s.
Proof.
  induction s as [|c s IH]; cbn [span]; [reflexivity|].
  destruct (f c); [|reflexivity].
  destruct (span f s) as [a r]. cbn [fst snd String.length] in *. lia.
Qed.

Lemma skip_length f s : String.length (skip f s) <= String.length s.
Proof. pose proof (span_length f s). unfold skip. lia. Qed.

Lemma cstr_length s : String.length (cstr s) <= String.length s.
Proof.
  induction s as [|c s IH]; cbn [cstr]; [lia|].
  destruct (Ascii.eqb c NUL); cbn [String.length]; lia.
Qed.

Lemma noParens_length s : String.length (noParens s) = String.length s.
Proof. induction s as [|c s IH]; cbn [noParens String.length]; congruence. Qed.

Lemma scanAllele_length xl divided numeric p a r :
  scanAllele xl divided numeric p = Some (a, r) ->
  String.length a + String.length r <= String.length p.
Proof.
  unfold scanAllele. destruct divided.
  - pose proof (span_length inToken p) as L.
    destruct (span inToken p) as [a' r']. cbn [fst snd] in L.
    destruct (isNil a' && negb xl); [discriminate|].
    intros E. injection E as <- <-. pose proof (skip_length isSep r'). lia.
  - destruct numeric.
    + destruct p as [|c p']; [discriminate|].
      destruct (isdigit c); [|discriminate].
      pose proof (span_length (fun c => isalpha c || isPrime c) p') as L.
      destruct (span (fun c => isalpha c || isPrime c) p') as [a' r'].
      cbn [fst snd] in L. intros E. injection E as <- <-.
      cbn [String.length]. lia.
    + destruct p as [|c p']; [discriminate|].
      destruct (isalpha c); [|discriminate].
      pose proof (span_length (fun c => isdigit c || isPrime c) p') as L.
      destruct (span (fun c => isdigit c || isPrime c) p') as [a' r'].
      cbn [fst snd] in L. intros E. injection E as <- <-.
      cbn [String.length]. lia.
Qed.

Lemma missing_cases a :
  (missing a = a \/ missing a = EmptyString) /\
  missing a <> "0"%string /\ missing a <> "-"%string.
Proof.
  unfold missing. destruct (String.eqb_spec a "0") as [->|N0].
  - cbn. auto using eq_refl. split; [right; reflexivity|split; discriminate].
  - destruct (String.eqb_spec a "-") as [->|N1].
    + split; [right; reflexivity|split; discriminate].
    + auto.
Qed.

Lemma isNil_iff s : isNil s = true <-> s = EmptyString.
Proof. destruct s; cbn; split; intros; try discriminate; reflexivity. Qed.

(** X18. When [getAlleles] returns TRUE, neither allele is the string
    0 or the string - (both stand for a missing allele and come back
    empty); the alleles hold no blank, tab, slash, parenthesis or NUL;
    unless the marker is X-linked they are both empty or both given;
    and the numeric flag of the locus is never switched on: it stays
    set only if it was set and all characters read as alleles are
    digits.  Together the two alleles are no longer than the genotype
    text, so each fits a buffer that holds the genotype.  When FALSE is
    returned the flag is not switched on either. *)
Theorem getAlleles_valid (xLinked : bool) (gtype : string) (allnum : bool) :
  match getAlleles xLinked gtype allnum with
  | Valid a0 a1 allnum' =>
      a0 <> "0"%string /\ a0 <> "-"%string /\
      a1 <> "0"%string /\ a1 <> "-"%string /\
      allChars plain a0 = true /\ allChars plain a1 = true /\
      (xLinked = false -> (a0 = EmptyString <-> a1 = EmptyString)) /\
      String.length a0 + String.length a1 <= String.length gtype /\
      (allnum' = true ->
       allnum = true /\ allDigits a0 = true /\ allDigits a1 = true)
  | Invalid allnum' => allnum' = true -> allnum = true
  end.
Proof.
  unfold getAlleles.
  set (g := noParens (cstr gtype)).
  assert (Hg : allChars clean g = true) by (apply noParens_clean, cstr_clean).
  set (start := skip isBlank g).
  assert (Hs : allChars clean start = true) by (apply skip_keeps, Hg).
  destruct (isNil start).
  { repeat split; try discriminate; auto. cbn. lia. }
  set (divided := negb (isNil (skip isBlank (skip inToken start)))).
  set (numeric := negb divided && headIs isdigit start).
  destruct (negb divided && negb (headIs isdigit start) && negb (headIs isalpha start));
    [auto|].
  destruct (scanAllele xLinked divided numeric start) as [[a0 p1]|] eqn:E0; [|auto].
  destruct (scanAllele_plain _ _ _ _ _ _ Hs E0) as [P0 C1].
  pose proof (scanAllele_length _ _ _ _ _ _ E0) as L0.
  destruct (scanAllele xLinked divided numeric p1) as [[a1 p2]|] eqn:E1; [|auto].
  destruct (scanAllele_plain _ _ _ _ _ _ C1 E1) as [P1 C2].
  pose proof (scanAllele_length _ _ _ _ _ _ E1) as L1.
  assert (Lg : String.length start <= String.length gtype).
  { pose proof (skip_length isBlank g). pose proof (cstr_length gtype).
    pose proof (noParens_length (cstr gtype)). fold g in H1. fold start in H. lia. }
  destruct (negb (isNil (skip isBlank p2))); [auto|].
  destruct (missing_cases a0) as (M0 & Z0 & D0).
  destruct (missing_cases a1) as (M1 & Z1 & D1).
  assert (Hnum : allnum && allDigits a0 && allDigits a1 = true ->
            allnum = true /\ allDigits (missing a0) = true /\
            allDigits (missing a1) = true).
  { intros H. apply andb_true_iff in H. destruct H as [H H1].
    apply andb_true_iff in H. destruct H as [H H0].
    split; [exact H|].
    split; [destruct M0 as [->| ->]|destruct M1 as [->| ->]]; auto. }
  destruct (negb xLinked &&
            (isNil (missing a0) && negb (isNil (missing a1))
             || negb (isNil (missing a0)) && isNil (missing a1))) eqn:Ex.
  - intros H. apply (Hnum H).
  - split; [exact Z0|]. split; [exact D0|]. split; [exact Z1|]. split; [exact D1|].
    split; [destruct M0 as [->| ->]; auto|].
    split; [destruct M1 as [->| ->]; auto|].
    split; [|split; [|exact Hnum]].
    2:{ assert (String.length (missing a0) <= String.length a0)
          by (destruct M0 as [->| ->]; cbn; lia).
        assert (String.length (missing a1) <= String.length a1)
          by (destruct M1 as [->| ->]; cbn; lia).
        lia. }
    intros ->. cbn [negb andb] in Ex. rewrite <- !isNil_iff.
    destruct (isNil (missing a0)), (isNil (missing a1)); cbn in Ex;
      split; intros; try reflexivity; discriminate.
Qed.

(** Blanks, tabs and parentheses: what may stand around the alleles. *)
Definition isPad (c : ascii) : bool :=
  isBlank c || Ascii.eqb c "(" || Ascii.eqb c ")".

(** What may stand between the alleles. *)
Definition isDivider (c : ascii) : bool := isPad c || Ascii.eqb c "/".

Lemma classes c :
  (isPad c = true -> isBlank (if Ascii.eqb c "(" || Ascii.eqb c ")" then " "%char else c) = true
                     /\ Ascii.eqb c NUL = false) /\
  (isDivider c = true -> isSep (if Ascii.eqb c "(" || Ascii.eqb c ")" then " "%char else c) = true
                     /\ Ascii.eqb c NUL = false) /\
  (plain c = true -> Ascii.eqb c "(" || Ascii.eqb c ")" = false /\
                     Ascii.eqb c NUL = false /\ inToken c = true /\
                     isBlank c = false /\ isSep c = false) /\
  (isBlank c = true -> isSep c = true /\ inToken c = false) /\
  (isSep c = true -> inToken c = false).
Proof. destruct c as [[] [] [] [] [] [] [] []]; vm_compute; intuition discriminate. Qed.

Lemma cstr_app a r :
  allChars (fun c => negb (Ascii.eqb c NUL)) a = true ->
  cstr (append a r) = append a (cstr r).
Proof.
  induction a as [|c a IH]; cbn [append cstr allChars]; [reflexivity|].
  intros E. apply andb_true_iff in E. destruct E as [E1 E2].
  destruct (Ascii.eqb c NUL); [discriminate|]. rewrite (IH E2). reflexivity.
Qed.

Lemma noParens_app a r : noParens (append a r) = append (noParens a) (noParens r).
Proof. induction a as [|c a IH]; cbn [append noParens]; congruence. Qed.

Lemma noParens_plain a : allChars plain a = true -> noParens a = a.
Proof.
  induction a as [|c a IH]; cbn [noParens allChars]; [reflexivity|].
  intros E. apply andb_true_iff in E. destruct E as [E1 E2].
  destruct (classes c) as (_ & _ & H & _). destruct (H E1) as (-> & _).
  rewrite (IH E2). reflexivity.
Qed.

Lemma noParens_pad a : allChars isPad a = true -> allChars isBlank (noParens a) = true.
Proof.
  induction a as [|c a IH]; cbn [noParens allChars]; [reflexivity|].
  intros E. apply andb_true_iff in E. destruct E as [E1 E2].
  destruct (classes c) as (H & _). destruct (H E1) as (-> & _).
  rewrite (IH E2). reflexivity.
Qed.

Lemma noParens_divider a :
  allChars isDivider a = true -> allChars isSep (noParens a) = true.
Proof.
  induction a as [|c a IH]; cbn [noParens allChars]; [reflexivity|].
  intros E. apply andb_true_iff in E. destruct E as [E1 E2].
  destruct (classes c) as (_ & H & _). destruct (H E1) as (-> & _).
  rewrite (IH E2). reflexivity.
Qed.

Lemma span_app f a r :
  allChars f a = true -> headIs f r = false -> span f (append a r) = (a, r).
Proof.
  intros Ha Hr. induction a as [|c a IH]; cbn [append].
  - destruct r as [|c r]; cbn [span headIs] in *; [reflexivity|].
    rewrite Hr. reflexivity.
  - cbn [allChars] in Ha. apply andb_true_iff in Ha. destruct Ha as [E1 E2].
    cbn [span]. rewrite E1, (IH E2). reflexivity.
Qed.

Lemma head_other (f g : ascii -> bool) a r :
  (forall c, g c = true -> f c = false) ->
  a <> EmptyString -> allChars g a = true -> headIs f (append a r) = false.
Proof.
  intros H Ha E. destruct a as [|c a]; [contradiction|].
  cbn [append headIs allChars] in *. apply andb_true_iff in E. apply H, E.
Qed.

Lemma head_empty_or (f g : ascii -> bool) a :
  (forall c, g c = true -> f c = false) ->
  allChars g a = true -> headIs f a = false.
Proof.
  intros H E. destruct a as [|c a]; [reflexivity|].
  cbn [headIs allChars] in *. apply andb_true_iff in E. apply H, E.
Qed.

Lemma skip_app f a r :
  allChars f a = true -> headIs f r = false -> skip f (append a r) = r.
Proof. intros Ha Hr. unfold skip. rewrite (span_app f a r Ha Hr). reflexivity. Qed.

Lemma skip_all f a : allChars f a = true -> skip f a = EmptyString.
Proof.
  intros Ha. unfold skip. induction a as [|c a IH]; cbn [span]; [reflexivity|].
  cbn [allChars] in Ha. apply andb_true_iff in Ha. destruct Ha as [E1 E2].
  rewrite E1. specialize (IH E2). destruct (span f a). exact IH.
Qed.

Lemma skip_nil_all f s : skip f s = EmptyString -> allChars f s = true.
Proof.
  unfold skip. induction s as [|c s IH]; cbn [span allChars]; [reflexivity|].
  destruct (f c); [|discriminate]. destruct (span f s). exact IH.
Qed.

Lemma append_nonempty a r : a <> EmptyString -> isNil (append a r) = false.
Proof. destruct a; [contradiction|reflexivity]. Qed.

Lemma plain_not_blank_everywhere s b t :
  b <> EmptyString -> allChars plain b = true ->
  allChars isBlank (append s (append b t)) = false.
Proof.
  intros Hb Pb. rewrite !allChars_app. destruct b as [|c b]; [contradiction|].
  cbn [allChars] in *. apply andb_true_iff in Pb. destruct Pb as [Pc _].
  destruct (classes c) as (_ & _ & H & _). destruct (H Pc) as (_ & _ & _ & -> & _).
  cbn. apply andb_false_r.
Qed.

(** X19. A genotype written as two allele names with a divider
    between them (blanks, tabs, slashes or parentheses, at least one)
    and any blanks, tabs and parentheses around them is read back as
    these two names, each replaced by the empty string when it is 0 or
    -; the numeric flag stays set only if it was set and both names are
    all digits.  The one exception: when the marker is not X-linked and
    exactly one of the names is 0 or -, FALSE is returned. *)
Theorem getAlleles_reads (xLinked : bool) (lead a sep b trail : string)
    (allnum : bool) :
  allChars isPad lead = true -> allChars isPad trail = true ->
  allChars isDivider sep = true -> sep <> EmptyString ->
  allChars plain a = true -> a <> EmptyString ->
  allChars plain b = true -> b <> EmptyString ->
  getAlleles xLinked
    (append lead (append a (append sep (append b trail)))) allnum =
  let allnum' := allnum && allDigits a && allDigits b in
  if negb xLinked && xorb (isNil (missing a)) (isNil (missing b))
  then Invalid allnum'
  else Valid (missing a) (missing b) allnum'.
Proof.
  intros Hl Ht Hs Ns Pa Na Pb Nb.
  assert (Z : forall g s, (forall c, g c = true -> Ascii.eqb c NUL = false) ->
            allChars g s = true ->
            allChars (fun c => negb (Ascii.eqb c NUL)) s = true).
  { intros g s H. apply allChars_impl. intros c Hc. rewrite (H c Hc). reflexivity. }
  assert (Zl := Z isPad lead (fun c H => proj2 (proj1 (classes c) H)) Hl).
  assert (Zt := Z isPad trail (fun c H => proj2 (proj1 (classes c) H)) Ht).
  assert (Zs := Z isDivider sep
                  (fun c H => proj2 (proj1 (proj2 (classes c)) H)) Hs).
  assert (Za := Z plain a
     (fun c H => proj1 (proj2 (proj1 (proj2 (proj2 (classes c))) H))) Pa).
  assert (Zb := Z plain b
     (fun c H => proj1 (proj2 (proj1 (proj2 (proj2 (classes c))) H))) Pb).
  unfold getAlleles.
  rewrite (cstr_app lead _ Zl), (cstr_app a _ Za), (cstr_app sep _ Zs),
          (cstr_app b _ Zb).
  assert (Ct : cstr trail = trail).
  { clear - Zt. induction trail as [|c t IH]; cbn [cstr allChars] in *; [reflexivity|].
    apply andb_true_iff in Zt. destruct Zt as [E1 E2].
    destruct (Ascii.eqb c NUL); [discriminate|]. rewrite (IH E2). reflexivity. }
  rewrite Ct, !noParens_app, (noParens_plain a Pa), (noParens_plain b Pb).
  pose proof (noParens_pad lead Hl) as Bl.
  pose proof (noParens_pad trail Ht) as Bt.
  pose proof (noParens_divider sep Hs) as Ss.
  assert (Nsp : noParens sep <> EmptyString)
    by (destruct sep; [contradiction|discriminate]).
  set (L := noParens lead) in *. set (T := noParens trail) in *.
  set (S := noParens sep) in *.
  assert (plainB : forall c, plain c = true -> isBlank c = false)
    by (intros c H; apply (proj1 (proj2 (proj2 (classes c)))) in H; tauto).
  assert (plainS : forall c, plain c = true -> isSep c = false)
    by (intros c H; apply (proj1 (proj2 (proj2 (classes c)))) in H; tauto).
  assert (plainT : forall c, plain c = true -> inToken c = true)
    by (intros c H; apply (proj1 (proj2 (proj2 (classes c)))) in H; tauto).
  assert (sepT : forall c, isSep c = true -> inToken c = false)
    by (intros c; apply (proj2 (proj2 (proj2 (proj2 (classes c)))))).
  assert (blankT : forall c, isBlank c = true -> inToken c = false)
    by (intros c H; apply (proj1 (proj2 (proj2 (proj2 (classes c))))) in H; tauto).
  assert (blankS : forall c, isBlank c = true -> isSep c = true)
    by (intros c H; apply (proj1 (proj2 (proj2 (proj2 (classes c))))) in H; tauto).
  rewrite (skip_app isBlank L _ Bl (head_other isBlank plain a _ plainB Na Pa)).
  rewrite (append_nonempty a _ Na).
  assert (Ta : allChars inToken a = true) by (apply (allChars_impl plain); auto).
  assert (Tb : allChars inToken b = true) by (apply (allChars_impl plain); auto).
  assert (HS : headIs inToken (append S (append b T)) = false)
    by (apply (head_other inToken isSep); auto).
  rewrite (skip_app inToken a _ Ta HS).
  assert (D : isNil (skip isBlank (append S (append b T))) = false).
  { destruct (skip isBlank (append S (append b T))) eqn:E; [|reflexivity].
    apply skip_nil_all in E.
    rewrite (plain_not_blank_everywhere S b T Nb Pb) in E. discriminate. }
  rewrite D. cbn [negb andb].
  unfold scanAllele at 1. rewrite (span_app inToken a _ Ta HS).
  replace (isNil a) with false
    by (destruct a; [contradiction|reflexivity]).
  cbn [andb].
  rewrite (skip_app isSep S _ Ss (head_other isSep plain b _ plainS Nb Pb)).
  unfold scanAllele.
  assert (HT : headIs inToken T = false)
    by (apply (head_empty_or inToken isBlank); auto).
  rewrite (span_app inToken b T Tb HT).
  replace (isNil b) with false
    by (destruct b; [contradiction|reflexivity]).
  cbn [andb].
  rewrite (skip_all isSep T) by (apply (allChars_impl isBlank); auto).
  cbn [skip span snd isNil negb].
  cbv zeta.
  destruct (negb xLinked), (isNil (missing a)), (isNil (missing b)); reflexivity.
Qed.

(** The genotype [ (12/ 7) ] of a numeric locus. *)
Lemma getAlleles_reads_witness :
  getAlleles false " (12/ 7) " true = Valid "12" "7" true.
Proof.
  apply (getAlleles_reads false " (" "12" "/ " "7" ") " true);
    solve [reflexivity | discriminate].
Defined.

(** The undivided form: in a numeric genotype an allele is one digit
    and then letters and primes, otherwise one letter and then digits
    and primes. *)
Definition headClass (numeric : bool) (c : ascii) : bool :=
  if numeric then isdigit c else isalpha c.

Definition tailClass (numeric : bool) (c : ascii) : bool :=
  if numeric then isalpha c || isPrime c else isdigit c || isPrime c.

Definition compact (numeric : bool) (a : string) : bool :=
  match a with
  | EmptyString => false
  | String c x => headClass numeric c && allChars (tailClass numeric) x
  end.

Lemma compact_classes numeric c :
  (headClass numeric c = true ->
   tailClass numeric c = false /\ isdigit c = numeric /\
   (numeric = false -> isalpha c = true)) /\
  (headClass numeric c || tailClass numeric c = true -> plain c = true) /\
  (isBlank c = true -> tailClass numeric c = false).
Proof.
  destruct numeric; destruct c as [[] [] [] [] [] [] [] []]; vm_compute;
    intuition discriminate.
Qed.

Lemma compact_plain numeric a : compact numeric a = true -> allChars plain a = true.
Proof.
  destruct a as [|c x]; [discriminate|]. cbn [compact allChars].
  intros E. apply andb_true_iff in E. destruct E as [E1 E2].
  rewrite (proj1 (proj2 (compact_classes numeric c))) by (rewrite E1; reflexivity).
  apply (allChars_impl (tailClass numeric)); [|exact E2].
  intros c' H. apply (proj1 (proj2 (compact_classes numeric c'))).
  rewrite H. apply orb_true_r.
Qed.

Lemma scanAllele_compact xl numeric c x r :
  headClass numeric c = true -> allChars (tailClass numeric) x = true ->
  headIs (tailClass numeric) r = false ->
  scanAllele xl false numeric (String c (append x r)) = Some (String c x, r).
Proof.
  intros Hc Hx Hr. unfold scanAllele.
  destruct numeric; cbn [headClass tailClass] in *; rewrite Hc;
    match goal with |- context [span ?f _] => rewrite (span_app f x r Hx Hr) end;
    reflexivity.
Qed.

(** X20. A genotype written without a divider, as two alleles one
    after the other, each one digit followed by letters and primes (or
    each one letter followed by digits and primes), with any blanks,
    tabs and parentheses around them, is read back as these two
    alleles, with the same treatment of 0 and of the numeric flag as in
    the divided form. *)
Theorem getAlleles_compact (xLinked numeric : bool) (lead a b trail : string)
    (allnum : bool) :
  allChars isPad lead = true -> allChars isPad trail = true ->
  compact numeric a = true -> compact numeric b = true ->
  getAlleles xLinked (append lead (append a (append b trail))) allnum =
  let allnum' := allnum && allDigits a && allDigits b in
  if negb xLinked && xorb (isNil (missing a)) (isNil (missing b))
  then Invalid allnum'
  else Valid (missing a) (missing b) allnum'.
Proof.
  intros Hl Ht Ca Cb.
  pose proof (compact_plain numeric a Ca) as Pa.
  pose proof (compact_plain numeric b Cb) as Pb.
  assert (Z : forall g s, (forall c, g c = true -> Ascii.eqb c NUL = false) ->
            allChars g s = true ->
            allChars (fun c => negb (Ascii.eqb c NUL)) s = true).
  { intros g s H. apply allChars_impl. intros c Hc. rewrite (H c Hc). reflexivity. }
  assert (Zl := Z isPad lead (fun c H => proj2 (proj1 (classes c) H)) Hl).
  assert (Zt := Z isPad trail (fun c H => proj2 (proj1 (classes c) H)) Ht).
  assert (Za := Z plain a
     (fun c H => proj1 (proj2 (proj1 (proj2 (proj2 (classes c))) H))) Pa).
  assert (Zb := Z plain b
     (fun c H => proj1 (proj2 (proj1 (proj2 (proj2 (classes c))) H))) Pb).
  unfold getAlleles.
  rewrite (cstr_app lead _ Zl), (cstr_app a _ Za), (cstr_app b _ Zb).
  assert (Ct : cstr trail = trail).
  { clear - Zt. induction trail as [|c t IH]; cbn [cstr allChars] in *; [reflexivity|].
    apply andb_true_iff in Zt. destruct Zt as [E1 E2].
    destruct (Ascii.eqb c NUL); [discriminate|]. rewrite (IH E2). reflexivity. }
  rewrite Ct, !noParens_app, (noParens_plain a Pa), (noParens_plain b Pb).
  pose proof (noParens_pad lead Hl) as Bl.
  pose proof (noParens_pad trail Ht) as Bt.
  set (L := noParens lead) in *. set (T := noParens trail) in *.
  assert (plainB : forall c, plain c = true -> isBlank c = false)
    by (intros c H; apply (proj1 (proj2 (proj2 (classes c)))) in H; tauto).
  assert (plainT : forall c, plain c = true -> inToken c = true)
    by (intros c H; apply (proj1 (proj2 (proj2 (classes c)))) in H; tauto).
  assert (blankT : forall c, isBlank c = true -> inToken c = false)
    by (intros c H; apply (proj1 (proj2 (proj2 (proj2 (classes c))))) in H; tauto).
  assert (Na : a <> EmptyString) by (destruct a; [discriminate|discriminate]).
  assert (Nb : b <> EmptyString) by (destruct b; [discriminate|discriminate]).
  rewrite (skip_app isBlank L _ Bl (head_other isBlank plain a _ plainB Na Pa)).
  rewrite (append_nonempty a _ Na).
  assert (Tab : allChars inToken (append a b) = true).
  { rewrite allChars_app, (allChars_impl plain inToken a plainT Pa),
      (allChars_impl plain inToken b plainT Pb). reflexivity. }
  assert (HT : headIs inToken T = false)
    by (apply (head_empty_or inToken isBlank); auto).
  assert (Eapp : append a (append b T) = append (append a b) T).
  { clear. induction a as [|c a IH]; cbn [append]; congruence. }
  assert (Hdiv : skip isBlank (skip inToken (append a (append b T))) = EmptyString).
  { rewrite Eapp, (skip_app inToken (append a b) T Tab HT). apply skip_all, Bt. }
  rewrite !Hdiv. cbn [isNil negb andb].
  destruct a as [|ca xa]; [discriminate|]. destruct b as [|cb xb]; [discriminate|].
  cbn [compact] in Ca, Cb.
  apply andb_true_iff in Ca. destruct Ca as [Ha Xa].
  apply andb_true_iff in Cb. destruct Cb as [Hb Xb].
  destruct (proj1 (compact_classes numeric ca) Ha) as (_ & Da & Aa).
  destruct (proj1 (compact_classes numeric cb) Hb) as (Tb & _ & _).
  cbn [append headIs]. rewrite Da.
  assert (Hfirst : negb numeric && negb (isalpha ca) = false).
  { destruct numeric; [reflexivity|]. rewrite Aa by reflexivity. reflexivity. }
  rewrite Hfirst.
  rewrite (scanAllele_compact xLinked numeric ca xa (String cb (append xb T)) Ha Xa)
    by exact Tb.
  assert (HTt : headIs (tailClass numeric) T = false).
  { apply (head_empty_or (tailClass numeric) isBlank); [|exact Bt].
    intros c. apply (proj2 (proj2 (compact_classes numeric c))). }
  rewrite (scanAllele_compact xLinked numeric cb xb T Hb Xb HTt).
  rewrite (skip_all isBlank T Bt). cbn [isNil negb]. cbv zeta.
  destruct (negb xLinked), (isNil (missing (String ca xa))),
    (isNil (missing (String cb xb))); reflexivity.
Qed.

(** The genotype [A1B2] gives the alleles [A1] and [B2]. *)
Lemma getAlleles_compact_witness :
  getAlleles false "A1B2" true = Valid "A1" "B2" false.
Proof.
  apply (getAlleles_compact false false "" "A1" "B2" "" true); reflexivity.
Defined.

End Genotype.

(** ** The kinship matrix: range of the coefficients, twins *)

Module KinFacts.

Import CFloat.
Import Kinship.

(** *** Every coefficient lies between 0 and 2 *)

Definition bounded (K : nat -> nat -> float) : Prop :=
  forall a b, upTo 1 (K a b) = true.

Lemma crossTerm_upTo (a b : float) :
  upTo 1 a = true -> upTo 1 b = true -> upTo 1 (crossTerm a b) = true.
Proof.
  intros Ha Hb. unfold crossTerm, toFloat, toDouble, dmul, fadd.
  apply rounded_upTo; [lia | unfold emin; lia | lia |].
  apply (SFmul_upTo 53 1024 (-1) 2); [lia | unfold emin; lia | lia | reflexivity |].
  apply rounded_upTo; [lia | unfold emin; lia | lia |].
  apply (SFadd_upTo 24 128 1); [lia | unfold emin; lia | lia | exact Ha | exact Hb].
Qed.

Lemma selfTerm_upTo (x : float) : upTo 1 x = true -> upTo 1 (selfTerm x) = true.
Proof.
  intros Hx. unfold selfTerm, toFloat, toDouble, dadd, dmul.
  apply rounded_upTo; [lia | unfold emin; lia | lia |].
  apply (SFadd_upTo 53 1024 0); [lia | unfold emin; lia | lia | reflexivity |].
  apply (SFmul_upTo 53 1024 (-1) 1); [lia | unfold emin; lia | lia | reflexivity |].
  apply rounded_upTo; [lia | unfold emin; lia | lia | exact Hx].
Qed.

Lemma bounded_upd2 (K : nat -> nat -> float) (r c : nat) (v : float) :
  bounded K -> upTo 1 v = true -> bounded (upd2 K r c v).
Proof.
  intros H Hv a b. unfold upd2.
  destruct (Nat.eqb a r && Nat.eqb b c); [exact Hv | apply H].
Qed.

Lemma kinInit_bounded (P : Pedigree) : bounded (kinInit P).
Proof.
  intros a b. unfold kinInit.
  destruct (Nat.eqb a b && isFounder P a); reflexivity.
Qed.

Lemma crossStep_bounded (itwin : nat -> nat) (i ifa imo : nat)
      (K : nat -> nat -> float) (j : nat) :
  bounded K -> bounded (crossStep itwin i ifa imo K j).
Proof.
  intros H. unfold crossStep.
  destruct (negb (Nat.eqb (itwin j) j) || isZero (K j j)); [exact H|].
  apply bounded_upd2; [exact H|]. apply crossTerm_upTo; apply H.
Qed.

Lemma crossFold_bounded (itwin : nat -> nat) (i ifa imo : nat) (l : list nat) :
  forall K, bounded K -> bounded (fold_left (crossStep itwin i ifa imo) l K).
Proof.
  induction l as [|j l IH]; intros K H; cbn [fold_left]; [exact H|].
  apply IH, crossStep_bounded, H.
Qed.

Lemma kinStep_bounded (P : Pedigree) (itwin : nat -> nat)
      (acc : (nat -> nat -> float) * nat) (i : nat) :
  bounded (fst acc) -> bounded (fst (kinStep P itwin acc i)).
Proof.
  destruct acc as [K c]. cbn [fst]. intros H. unfold kinStep.
  destruct (negb (Nat.eqb (itwin i) i) || negb (isZero (K i i))); [exact H|].
  destruct (parents P i) as [[fa mo]|]; [|exact H].
  destruct (isZero (K (itwin fa) (itwin fa)) || isZero (K (itwin mo) (itwin mo)));
    [exact H|].
  cbn [fst].
  set (K1 := fold_left (crossStep itwin i (itwin fa) (itwin mo))
                       (seq 0 (NumInd P)) K).
  assert (H1 : bounded K1) by (apply crossFold_bounded, H).
  apply bounded_upd2; [exact H1|]. apply selfTerm_upTo, H1.
Qed.

Lemma kinPass_bounded (P : Pedigree) (itwin : nat -> nat)
      (acc : (nat -> nat -> float) * nat) :
  bounded (fst acc) -> bounded (fst (kinPass P itwin acc)).
Proof.
  unfold kinPass. generalize (seq 0 (NumInd P)) as l. intros l. revert acc.
  induction l as [|i l IH]; intros acc H; cbn [fold_left]; [exact H|].
  apply IH, kinStep_bounded, H.
Qed.

(** *** The rows of the twins *)

Section Expand.

Variables (itwin : nat -> nat) (N : nat).
Hypothesis Hrep : forall x, x < N -> itwin x <= x /\ itwin (itwin x) = itwin x.

Lemma expandRow_spec (K : nat -> nat -> float) (i : nat) :
  i < N ->
  (forall a b, a <> i -> expandRow itwin K i a b = K a b) /\
  (forall b, b <= i -> expandRow itwin K i i b = sym K (itwin i) (itwin b)).
Proof.
  intros Hi. unfold expandRow.
  set (F := fun (K0 : nat -> nat -> float) (j : nat) =>
              upd2 K0 i j (sym K0 (itwin i) (itwin j))).
  pose proof (fold_seq_invariant F
    (fun m K1 =>
       (forall a b, a <> i \/ m <= b -> K1 a b = K a b) /\
       (forall b, b < m -> K1 i b = sym K (itwin i) (itwin b))) i K) as Hfold.
  destruct Hfold as [Hout Hin].
  - split; [reflexivity|]. intros b Hb. lia.
  - intros m K1 Hm [Hout Hin].
    assert (Hread : sym K1 (itwin i) (itwin m) = sym K (itwin i) (itwin m)).
    { destruct (Hrep i Hi) as [Hle Hid].
      destruct (Hrep m ltac:(lia)) as [Hlem Hidm].
      unfold sym.
      destruct (Nat.eq_dec (Nat.max (itwin i) (itwin m)) i) as [E|NE].
      - assert (Ei : itwin i = i) by lia.
        rewrite Ei. rewrite Nat.max_l, Nat.min_r by lia.
        destruct (Nat.lt_ge_cases (itwin m) m) as [Hlt|Hge].
        + rewrite (Hin (itwin m) Hlt), Ei, Hidm. unfold sym.
          rewrite Nat.max_l, Nat.min_r by lia. reflexivity.
        + apply Hout. right. exact Hge.
      - apply Hout. left. exact NE. }
    split.
    + intros a b Hab. unfold F. rewrite upd2_other; [apply Hout|]; lia.
    + intros b Hb. unfold F.
      destruct (Nat.eq_dec b m) as [->|Hne].
      * rewrite upd2_same. exact Hread.
      * rewrite upd2_other by lia. apply Hin. lia.
  - fold F. set (K1 := fold_left F (seq 0 i) K) in *. split.
    + intros a b Ha. rewrite upd2_other by lia. apply Hout. left. exact Ha.
    + intros b Hb. destruct (Nat.eq_dec b i) as [->|Hne].
      * rewrite upd2_same. unfold sym. rewrite Nat.max_id, Nat.min_id.
        destruct (Nat.eq_dec (itwin i) i) as [E|NE].
        -- rewrite E. apply Hout. right. lia.
        -- apply Hout. left. exact NE.
      * rewrite upd2_other by lia. apply Hin. lia.
Qed.

Lemma expandRows_spec (K : nat -> nat -> float) (n : nat) :
  n <= N ->
  let K' := fold_left (expandRow itwin) (seq 0 n) K in
  (forall a b, n <= a -> K' a b = K a b) /\
  (forall a b, a < n -> b <= a -> K' a b = sym K (itwin a) (itwin b)).
Proof.
  intros Hn.
  apply (fold_seq_invariant (expandRow itwin)
    (fun m K' =>
       (forall a b, m <= a -> K' a b = K a b) /\
       (forall a b, a < m -> b <= a -> K' a b = sym K (itwin a) (itwin b)))).
  - split; [reflexivity|]. intros a b Ha. lia.
  - intros m K' Hm [Hlater Hdone].
    destruct (expandRow_spec K' m ltac:(lia)) as [Hother Hrow].
    split.
    + intros a b Ha. rewrite Hother by lia. apply Hlater. lia.
    + intros a b Ha Hb. destruct (Nat.eq_dec a m) as [->|Hne].
      * rewrite (Hrow b Hb).
        destruct (Hrep m ltac:(lia)) as [Hle Hid].
        destruct (Hrep b ltac:(lia)) as [Hleb Hidb].
        unfold sym at 1.
        set (x := itwin m) in *. set (y := itwin b) in *.
        destruct (Nat.eq_dec (Nat.max x y) m) as [E|NE].
        -- rewrite E. rewrite Hlater by lia. unfold sym. rewrite E. reflexivity.
        -- rewrite Hdone by lia.
           assert (EM : itwin (Nat.max x y) = Nat.max x y)
             by (destruct (Nat.max_spec x y) as [[_ ->]|[_ ->]]; assumption).
           assert (Em : itwin (Nat.min x y) = Nat.min x y)
             by (destruct (Nat.min_spec x y) as [[_ ->]|[_ ->]]; assumption).
           rewrite EM, Em. unfold sym. f_equal; lia.
      * rewrite Hother by lia. apply Hdone; lia.
Qed.

End Expand.

Lemma expandTwins_spec (P : Pedigree) (itwin : nat -> nat) (K : nat -> nat -> float) :
  (forall x, x < NumInd P -> itwin x <= x /\ itwin (itwin x) = itwin x) ->
  forall a b, a < NumInd P -> b < NumInd P ->
    sym (expandTwins P itwin K) a b = sym K (itwin a) (itwin b).
Proof.
  intros Hrep a b Ha Hb.
  destruct (expandRows_spec itwin (NumInd P) Hrep K (NumInd P) (le_n _))
    as [_ Hdone].
  unfold expandTwins, sym at 1. rewrite Hdone by lia.
  destruct (Nat.max_spec a b) as [[H1 ->]|[H1 ->]];
    destruct (Nat.min_spec a b) as [[H2 ->]|[H2 ->]]; try lia;
    try reflexivity; unfold sym; f_equal; lia.
Qed.

(** *** Twins of one set have one representative *)

Definition groupInv (P : Pedigree) (m : nat) (acc : (nat -> nat) * (nat -> Z))
  : Prop :=
  forall k,
    (snd acc k = (-1)%Z /\ forall i, i < m -> itwinid P i <> S k) \/
    (exists r, snd acc k = Z.of_nat r /\ r < m /\
               forall i, i < m -> itwinid P i = S k -> fst acc i = r).

Lemma twinStep_group (P : Pedigree) (m : nat) (acc : (nat -> nat) * (nat -> Z)) :
  groupInv P m acc -> groupInv P (S m) (twinStep P acc m).
Proof.
  destruct acc as [itwin twin1]. unfold groupInv. cbn [fst snd].
  intros H. unfold twinStep.
  destruct (Nat.eqb_spec (itwinid P m) 0) as [Ez|Enz].
  - intros k. cbn [fst snd]. destruct (H k) as [[H1 H2]|(r & H1 & H2 & H3)].
    + left. split; [exact H1|]. intros i Hi.
      destruct (Nat.eq_dec i m) as [->|]; [lia|apply H2; lia].
    + right. exists r. split; [exact H1|]. split; [lia|].
      intros i Hi Ei. destruct (Nat.eq_dec i m) as [->|]; [lia|].
      rewrite upd_other by assumption. apply H3; [lia|exact Ei].
  - destruct (itwinid P m) as [|k0] eqn:Eid; [contradiction|].
    replace (S k0 - 1) with k0 by lia.
    destruct (Z.eqb_spec (twin1 k0) (-1)) as [Efree|Eused]; cbn [negb fst snd].
    + intros k. cbn [fst snd]. unfold upd at 1 2.
      destruct (Nat.eqb_spec k k0) as [->|Hk].
      * right. exists m. split; [reflexivity|]. split; [lia|].
        intros i Hi Ei. destruct (H k0) as [[_ H2]|(r & H1 & _)]; [|lia].
        destruct (Nat.eq_dec i m) as [->|]; [apply upd_same|].
        exfalso. apply (H2 i); [lia|exact Ei].
      * destruct (H k) as [[H1 H2]|(r & H1 & H2 & H3)].
        -- left. split; [exact H1|]. intros i Hi.
           destruct (Nat.eq_dec i m) as [->|]; [congruence|apply H2; lia].
        -- right. exists r. split; [exact H1|]. split; [lia|].
           intros i Hi Ei. destruct (Nat.eq_dec i m) as [->|]; [congruence|].
           rewrite upd_other by assumption. apply H3; [lia|exact Ei].
    + intros k. cbn [fst snd].
      destruct (H k0) as [[H1 _]|(r0 & H10 & H20 & H30)]; [contradiction|].
      rewrite H10, Nat2Z.id.
      destruct (H k) as [[H1 H2]|(r & H1 & H2 & H3)].
      * left. split; [exact H1|]. intros i Hi.
        destruct (Nat.eq_dec i m) as [->|]; [|apply H2; lia].
        rewrite Eid. intros E. injection E as ->. rewrite H10 in H1. lia.
      * right. exists r. split; [exact H1|]. split; [lia|].
        intros i Hi Ei. destruct (Nat.eq_dec i m) as [->|].
        -- rewrite upd_same. rewrite Eid in Ei. injection Ei as ->.
           rewrite H10 in H1. lia.
        -- rewrite !upd_other by assumption. apply H3; [lia|exact Ei].
Qed.

Lemma collapseTwins_group (P : Pedigree) (a b : nat) :
  a < NumInd P -> b < NumInd P ->
  itwinid P a <> 0 -> itwinid P a = itwinid P b ->
  collapseTwins P a = collapseTwins P b.
Proof.
  intros Ha Hb Hnz Eab. unfold collapseTwins.
  pose proof (fold_seq_invariant (twinStep P) (groupInv P) (NumInd P)
                (fun _ => 0, fun _ => (-1)%Z)) as H.
  set (acc := fold_left (twinStep P) (seq 0 (NumInd P))
                        (fun _ => 0, fun _ => (-1)%Z)) in *.
  assert (G : groupInv P (NumInd P) acc).
  { apply H.
    - intros k. left. split; [reflexivity|]. intros i Hi. lia.
    - intros m s _ Hs. apply twinStep_group, Hs. }
  destruct (itwinid P a) as [|k] eqn:Ea; [contradiction|].
  destruct (G k) as [[_ H2]|(r & _ & _ & H3)].
  - exfalso. apply (H2 a Ha Ea).
  - rewrite (H3 a Ha Ea), (H3 b Hb (eq_sym Eab)). reflexivity.
Qed.

(** *** The matrix that [calcKin2] leaves *)

Lemma calcKin2_matrix (P : Pedigree) (fuel : nat) (inbred0 : nat -> bool) :
  parentsFirst P ->
  exists r K,
    calcKin2 (S fuel) P inbred0 = Some r /\
    itwin_of r = collapseTwins P /\
    bounded K /\
    passInv P (collapseTwins P) (NumInd P) K
            (snd (kinPass P (collapseTwins P) (kinInit P, countInit P))) /\
    forall a b, a < NumInd P -> b < NumInd P ->
      Phi2 r a b = sym K (collapseTwins P a) (collapseTwins P b).
Proof.
  intros Hfirst.
  destruct (kinLoop_one_pass P fuel Hfirst) as [Hloop Hinv].
  unfold calcKin2. rewrite Hloop.
  set (itwin := collapseTwins P) in *.
  set (K := fst (kinPass P itwin (kinInit P, countInit P))) in *.
  eexists. exists K. split; [reflexivity|]. cbn [itwin_of].
  split; [reflexivity|].
  split; [apply kinPass_bounded, kinInit_bounded|].
  split; [exact Hinv|].
  intros a b Ha Hb. unfold Phi2. cbn [kin2].
  apply expandTwins_spec; [|exact Ha|exact Hb].
  intros x Hx. apply collapseTwins_rep, Hx.
Qed.

(** X21. With every parent ahead of its children in sequence order,
    [calcKin2] returns a matrix in which every individual has the
    coefficients of the representative of its twin set, with every
    other individual and with itself; two individuals with the same
    nonzero twin number have the same representative, hence the same
    coefficients with everybody. *)
Theorem calcKin2_twins (P : Pedigree) (fuel : nat) (inbred0 : nat -> bool) :
  parentsFirst P ->
  exists r,
    calcKin2 (S fuel) P inbred0 = Some r /\
    (forall a b, a < NumInd P -> b < NumInd P ->
       Phi2 r a b = Phi2 r (itwin_of r a) (itwin_of r b)) /\
    (forall a b c, a < NumInd P -> b < NumInd P -> c < NumInd P ->
       itwinid P a <> 0 -> itwinid P a = itwinid P b ->
       itwin_of r a = itwin_of r b /\ Phi2 r a c = Phi2 r b c).
Proof.
  intros Hfirst.
  destruct (calcKin2_matrix P fuel inbred0 Hfirst) as (r & K & Hr & Hi & _ & _ & HK).
  exists r. split; [exact Hr|]. rewrite Hi.
  assert (Hrep : forall x, x < NumInd P ->
            collapseTwins P x < NumInd P /\
            collapseTwins P (collapseTwins P x) = collapseTwins P x).
  { intros x Hx. destruct (collapseTwins_rep P x Hx). split; [lia|assumption]. }
  split.
  - intros a b Ha Hb.
    destruct (Hrep a Ha) as [Ha1 Ha2]. destruct (Hrep b Hb) as [Hb1 Hb2].
    rewrite (HK a b Ha Hb), (HK _ _ Ha1 Hb1), Ha2, Hb2. reflexivity.
  - intros a b c Ha Hb Hc Hnz Eab.
    pose proof (collapseTwins_group P a b Ha Hb Hnz Eab) as E.
    split; [exact E|].
    rewrite (HK a c Ha Hc), (HK b c Hb Hc), E. reflexivity.
Qed.

(** X22. With every parent ahead of its children in sequence order,
    [calcKin2] returns a matrix whose coefficients are all finite
    numbers between 0 and 2, those of an individual with itself
    between 1 and 2. *)
Theorem calcKin2_range (P : Pedigree) (fuel : nat) (inbred0 : nat -> bool) :
  parentsFirst P ->
  exists r,
    calcKin2 (S fuel) P inbred0 = Some r /\
    forall a b, a < NumInd P -> b < NumInd P ->
      finite (Phi2 r a b) = true /\
      (0 <= value (Phi2 r a b))%Q /\ (value (Phi2 r a b) <= 2)%Q /\
      (1 <= value (Phi2 r a a))%Q.
Proof.
  intros Hfirst.
  destruct (calcKin2_matrix P fuel inbred0 Hfirst) as (r & K & Hr & _ & HB & Hinv & HK).
  exists r. split; [exact Hr|]. intros a b Ha Hb.
  rewrite (HK a b Ha Hb), (HK a a Ha Ha).
  destruct (upTo_value 1 _ (HB (Nat.max (collapseTwins P a) (collapseTwins P b))
                               (Nat.min (collapseTwins P a) (collapseTwins P b))))
    as (Hfin & H0 & H2).
  split; [exact Hfin|]. split; [exact H0|]. split; [exact H2|].
  destruct (collapseTwins_rep P a Ha) as [Hle Hid].
  set (x := collapseTwins P a) in *.
  unfold sym. rewrite Nat.max_id, Nat.min_id.
  destruct (upTo_value 1 _ (HB x x)) as (Hfx & _ & _).
  apply notBelowOne_value; [exact Hfx|].
  destruct (parents P x) as [[fa mo]|] eqn:Hpar.
  - destruct (pi_rec _ _ _ _ _ Hinv x fa mo ltac:(lia) Hid Hpar) as [Hself _].
    rewrite Hself. apply selfTerm_notBelowOne.
    apply (pi_nonneg _ _ _ _ _ Hinv).
  - rewrite (pi_founder _ _ _ _ _ Hinv x); [reflexivity|].
    unfold isFounder. rewrite Hpar. reflexivity.
Qed.

(** Two founders (0, 1) and their twin children (2, 3). *)
Definition twinPair : Pedigree :=
  {| NumInd := 4; NumPed := 1;
     parents := (fun i => match i with
                          | 2 | 3 => Some (0, 1)
                          | _ => None
                          end);
     ind_ped := (fun _ => 0);
     itwinid := (fun i => match i with 2 | 3 => 1 | _ => 0 end) |}.

Lemma twinPair_parentsFirst : parentsFirst twinPair.
Proof.
  intros i fa mo Hi Hpar.
  destruct i as [|[|[|[|i]]]]; simpl in Hpar; try discriminate;
    injection Hpar as <- <-; split; repeat constructor.
Defined.

Lemma calcKin2_twins_witness :
  parentsFirst twinPair /\
  exists r, calcKin2 1 twinPair (fun _ => false) = Some r /\
            itwin_of r 3 = 2 /\ Phi2 r 3 0 = Phi2 r 2 0.
Proof.
  split; [exact twinPair_parentsFirst|].
  destruct (calcKin2_twins twinPair 0 (fun _ => false) twinPair_parentsFirst)
    as (r & Hr & _ & Hsame).
  exists r. split; [exact Hr|].
  assert (H2 : 2 < NumInd twinPair) by (cbn; lia).
  assert (H3 : 3 < NumInd twinPair) by (cbn; lia).
  assert (H0 : 0 < NumInd twinPair) by (cbn; lia).
  destruct (Hsame 3 2 0 H3 H2 H0) as [E1 E2];
    [cbn; discriminate|reflexivity|].
  split; [|exact E2].
  vm_compute in Hr. injection Hr as <-. reflexivity.
Defined.

Lemma calcKin2_range_witness :
  parentsFirst twinPair /\
  exists r, calcKin2 1 twinPair (fun _ => false) = Some r /\
            finite (Phi2 r 3 2) = true /\
            (0 <= value (Phi2 r 3 2))%Q /\ (value (Phi2 r 3 2) <= 2)%Q /\
            (1 <= value (Phi2 r 3 3))%Q.
Proof.
  split; [exact twinPair_parentsFirst|].
  destruct (calcKin2_range twinPair 0 (fun _ => false) twinPair_parentsFirst)
    as (r & Hr & H).
  exists r. split; [exact Hr|].
  apply H; cbn; lia.
Defined.

End KinFacts.

(** ** The loop flag, the count and the loop-breaker of [checkLooping] *)

Module LoopFacts.

Import Loops.

Lemma findBreaker_spec (P : Pedigree) (s : LinkState) (x : nat) :
  findBreaker P s = Some x ->
  exists j g, j < NumInd P /\ x = IndSort P j /\
    linkInd s j <> 0%Z /\ ind_fam P x = Some g /\
    nlink s (fam_seq P g) <> 0%Z /\
    forall j', j' < j ->
      linkInd s j' = 0%Z \/
      match ind_fam P (IndSort P j') with
      | Some g' => nlink s (fam_seq P g') = 0%Z
      | None => True
      end.
Proof.
  unfold findBreaker.
  set (test := fun j => negb (Z.eqb (linkInd s j) 0) &&
                match ind_fam P (IndSort P j) with
                | Some g => negb (Z.eqb (nlink s (fam_seq P g)) 0)
                | None => false
                end).
  assert (H : forall l j, find test l = Some j ->
            exists pre post, l = pre ++ j :: post /\ test j = true /\
                             forall j', In j' pre -> test j' = false).
  { induction l as [|a l IH]; intros j; cbn [find]; [discriminate|].
    destruct (test a) eqn:Ea.
    - intros E. injection E as <-. exists [], l. split; [reflexivity|].
      split; [exact Ea|]. intros j' [].
    - intros E. destruct (IH j E) as (pre & post & -> & Hj & Hpre).
      exists (a :: pre), post. split; [reflexivity|]. split; [exact Hj|].
      intros j' [<-|Hin]; [exact Ea|apply Hpre, Hin]. }
  destruct (find test (seq 0 (NumInd P))) as [j|] eqn:E; [|discriminate].
  intros Ex. injection Ex as <-.
  destruct (H _ _ E) as (pre & post & Eseq & Hj & Hpre).
  assert (Hlen : List.length pre = j /\ j < NumInd P).
  { pose proof (f_equal (fun l => nth (List.length pre) l 0) Eseq) as Hn.
    cbv beta in Hn. rewrite app_nth2, Nat.sub_diag in Hn by lia. cbn [nth] in Hn.
    pose proof (f_equal (@List.length nat) Eseq) as Hl.
    rewrite length_seq, length_app in Hl. cbn [List.length] in Hl.
    rewrite seq_nth in Hn by lia. split; lia. }
  destruct Hlen as [Hlen Hlt].
  unfold test in Hj. apply andb_true_iff in Hj. destruct Hj as [H1 H2].
  destruct (ind_fam P (IndSort P j)) as [g|] eqn:Eg; [|discriminate].
  exists j, g. split; [exact Hlt|]. split; [reflexivity|].
  split; [intros E0; rewrite E0 in H1; discriminate|].
  split; [first [exact Eg | reflexivity]|].
  split; [intros E0; rewrite E0 in H2; discriminate|].
  intros j' Hj'.
  assert (Hin : In j' pre).
  { pose proof (f_equal (fun l => nth j' l 0) Eseq) as Hn. cbv beta in Hn.
    rewrite app_nth1, seq_nth in Hn by lia. cbn in Hn. rewrite Hn.
    apply nth_In. lia. }
  specialize (Hpre j' Hin). unfold test in Hpre.
  apply andb_false_iff in Hpre. destruct Hpre as [Hp|Hp].
  - left. destruct (Z.eqb_spec (linkInd s j') 0); [assumption|discriminate].
  - right. destruct (ind_fam P (IndSort P j')) as [g'|]; [|exact I].
    destruct (Z.eqb_spec (nlink s (fam_seq P g')) 0); [assumption|discriminate].
Qed.

(** X23. [checkLooping] leaves the loop flag of a pedigree set exactly
    when its arcs are not fewer than its nodes, and then the count of
    loop-breakers is at least 1; the count is 0 exactly when the flag is
    not set.  A loop-breaker is recorded only when the count is 1: it
    is the first individual in the order of [IndSort] that is still
    linked and whose own family still has links. *)
Theorem checkLooping_breaker (P : Pedigree) (fuel : nat) (junk : Z) :
  wellFormed P ->
  totalLinks P (buildLinks P) < fuel ->
  exists r,
    checkLooping fuel P junk = Some r /\
    (hasloops r = true <->
     ped_nind P + ped_nfam P
       <= list_sum (map (fun f => fam_nkid P f + 2) (ped_fams P))) /\
    (hasloops r = true <-> (1 <= nlbrk r)%Z) /\
    (hasloops r = false <-> nlbrk r = 0%Z) /\
    forall x, lbrkind r = Some x ->
      nlbrk r = 1%Z /\
      exists s j g,
        makeLinks fuel P = Some s /\ j < NumInd P /\ x = IndSort P j /\
        linkInd s j <> 0%Z /\ ind_fam P x = Some g /\
        nlink s (fam_seq P g) <> 0%Z /\
        forall j', j' < j ->
          linkInd s j' = 0%Z \/
          match ind_fam P (IndSort P j') with
          | Some g' => nlink s (fam_seq P g') = 0%Z
          | None => True
          end.
Proof.
  intros WF Hfuel. unfold checkLooping. rewrite pedArcs_spec.
  destruct (Nat.ltb_spec (list_sum (map (fun f => fam_nkid P f + 2) (ped_fams P)))
                         (ped_nind P + ped_nfam P)) as [Hlt|Hge].
  - eexists. split; [reflexivity|]. cbn [hasloops nlbrk lbrkind].
    split; [split; [discriminate|lia]|].
    split; [split; [discriminate|lia]|].
    split; [split; reflexivity|]. intros x Hx. discriminate.
  - destruct (makeLinks_inv P fuel WF Hfuel) as (s & Hs & Hinv & Hpruned).
    rewrite Hs. eexists. split; [reflexivity|]. cbn [hasloops nlbrk lbrkind].
    rewrite (findBreaks_spec P s junk Hinv Hpruned).
    pose proof (arcs_ge_nodes P s Hinv Hpruned) as Hle.
    split; [split; [intros _; exact Hge|reflexivity]|].
    split; [split; [lia|reflexivity]|].
    split; [split; [discriminate|lia]|].
    intros x Hx.
    destruct (Z.eqb_spec (Z.of_nat (remainingArcs P s)
                          - Z.of_nat (remainingNodes P s) + 1) 1) as [E1|];
      [|discriminate].
    split; [exact E1|].
    destruct (findBreaker_spec P s x Hx) as (j & g & H).
    exists s, j, g. split; [reflexivity|]. exact H.
Qed.

Lemma checkLooping_breaker_witness :
  wellFormed sibMating /\
  totalLinks sibMating (buildLinks sibMating) < 5 /\
  exists r, checkLooping 5 sibMating 0%Z = Some r /\
            hasloops r = true /\ (1 <= nlbrk r)%Z.
Proof.
  split; [exact sibMating_wellFormed|]. split; [exact sibMating_fuel|].
  destruct (checkLooping_breaker sibMating 5 0%Z sibMating_wellFormed
              sibMating_fuel) as (r & Hr & Ha & Hn & _).
  exists r. split; [exact Hr|].
  assert (Hh : hasloops r = true)
    by (apply Ha; vm_compute; repeat constructor).
  split; [exact Hh|]. apply Hn, Hh.
Defined.

End LoopFacts.

(** ** Nuclear families: [makeFams] *)

Module Families.

Import Sort.
Import CStr.
Import Lookup.

Definition MAXFAM : Z := 210000%Z.

(** The fields of an [Ind] and of a [Fam] that [makeFams] reads or
    writes.  A pointer to an individual is its place in [IndArray], a
    pointer to a family its place in [FamArray], [None] is [NULL], and
    for the parents of a family also the pointer that was never
    assigned. *)
Record Ind : Type := {
  id : string;
  pid : string;
  sex : Z;
  twinid : string;
  hhid : string;
  gen : Z;
  fam : option nat;
  sib : option nat;
  ped : Z
}.

Record Fam : Type := {
  fa : option nat;
  mo : option nat;
  kid1 : option nat;
  next : option nat;
  nkid : Z;
  f_ped : Z
}.

(** What [logWarning] writes: a record added for a father ([sex] 1) or
    a mother ([sex] 2), a sex code changed to male or to female. *)
Inductive Warning : Type :=
| RecordAdded (sex : Z) (id : string)
| SexChanged (sex : Z) (id : string).

(** How a call can end without returning: the two fatal errors of
    [makeFams], the fatal error of [qSort], a store past the end of
    [IndArray] (the code does not check [MAXIND] here), a read past the
    end of a family key, a loop that runs out of the trips allowed. *)
Inductive Halt : Type :=
| TooManyFamilies (limit : Z)
| DataErrors (count : nat) (logfile : string)
| QSortStack
| PastIndArray
| PastKey
| NoFuel.

Definition Res (A : Type) : Type := (Halt + A)%type.

Definition bind {A B : Type} (m : Res A) (k : A -> Res B) : Res B :=
  match m with
  | inl h => inl h
  | inr a => k a
  end.

Local Notation "x <- m ;; k" := (bind m (fun x => k))
  (at level 61, m at next level, right associativity).
Local Notation "' p <- m ;; k" := (bind m (fun x => let p := x in k))
  (at level 61, p pattern, m at next level, right associativity).

(** A [for] loop whose body can stop the program. *)
Fixpoint forM {S : Type} (body : S -> nat -> Res S) (l : list nat) (s : S)
  : Res S :=
  match l with
  | [] => inr s
  | i :: rest => s' <- body s i ;; forM body rest s'
  end.

(** [l[k]] changed by [f]. *)
Fixpoint setAt {A : Type} (l : list A) (k : nat) (f : A -> A) : list A :=
  match l, k with
  | [], _ => []
  | x :: r, O => f x :: r
  | x :: r, S k' => x :: setAt r k' f
  end.

Definition setSex (v : Z) (r : Ind) : Ind :=
  {| id := id r; pid := pid r; sex := v; twinid := twinid r; hhid := hhid r;
     gen := gen r; fam := fam r; sib := sib r; ped := ped r |}.

Definition setFam (v : option nat) (r : Ind) : Ind :=
  {| id := id r; pid := pid r; sex := sex r; twinid := twinid r; hhid := hhid r;
     gen := gen r; fam := v; sib := sib r; ped := ped r |}.

Definition setSib (v : option nat) (r : Ind) : Ind :=
  {| id := id r; pid := pid r; sex := sex r; twinid := twinid r; hhid := hhid r;
     gen := gen r; fam := fam r; sib := v; ped := ped r |}.

(** The record added for a parent that has none. *)
Definition newInd (key : string) (sx : Z) : Ind :=
  {| id := key; pid := key; sex := sx; twinid := EmptyString;
     hhid := EmptyString; gen := 0%Z; fam := None; sib := None; ped := (-1)%Z |}.

Definition noInd : Ind := newInd EmptyString 0%Z.

Definition noFam : Fam :=
  {| fa := None; mo := None; kid1 := None; next := None; nkid := 0%Z;
     f_ped := (-1)%Z |}.

(** [IndArray[0 .. tNumInd-1]], the array [idFam] of [main], [NumFou],
    the local [redo] and the warnings logged. *)
Record People : Type := {
  IndArray : list Ind;
  idFam : Arr;
  NumFou : Z;
  redo : bool;
  WrnLog : list Warning
}.

(** One parent of a new family: [key] is the buffer [fa] or [mo], [sx]
    the sex code a father (1) or a mother (2) must have.  [findInd]
    still searches the first [NumInd] individuals.  The result is the
    pointer stored in the family, when one is stored. *)
Definition resolve (NumInd : nat) (IndSort : Arr) (sx : Z) (key : string)
    (p : People) : Res (People * option nat) :=
  match findInd (map id (firstn NumInd (IndArray p))) IndSort key with
  | None => inl NoFuel
  | Some ndx =>
      if (ndx =? -1)%Z then
        let tNumInd := Z.of_nat (List.length (IndArray p)) in
        if (MAXIND <=? tNumInd)%Z then inl PastIndArray
        else
          inr ({| IndArray := IndArray p ++ [newInd key sx];
                  idFam := updZ (idFam p) tNumInd (-1)%Z;
                  NumFou := (NumFou p + 1)%Z;
                  redo := true;
                  WrnLog := WrnLog p ++ [RecordAdded sx key] |}, None)
      else
        let k := Z.to_nat ndx in
        if negb (sex (nth k (IndArray p) noInd) =? sx)%Z then
          inr ({| IndArray := setAt (IndArray p) k (setSex sx);
                  idFam := idFam p; NumFou := NumFou p; redo := redo p;
                  WrnLog := WrnLog p ++ [SexChanged sx key] |}, Some k)
        else inr (p, Some k)
  end.

(** The two halves of a family key, each [W = FamidLen+IdLen] wide. *)
Definition faOf (W : nat) (key : string) : string := substring 0 W key.
Definition moOf (W : nat) (key : string) : string := substring W W key.

(** The family made for the key [key]: the father, then the mother
    (read from [key + W], which is past the end of a key shorter than
    [W]), then the other fields; [NumFam] is the length of [FamArray]. *)
Definition newFamily (W NumInd : nat) (IndSort : Arr) (key : string)
    (s : People * list Fam) : Res (People * list Fam) :=
  let (p, FamArray) := s in
  '(p1, f) <- resolve NumInd IndSort 1%Z (faOf W key) p ;;
  if (String.length key <? W)%nat then inl PastKey
  else
    '(p2, m) <- resolve NumInd IndSort 2%Z (moOf W key) p1 ;;
    inr (p2, FamArray ++ [{| fa := f; mo := m; kid1 := None; next := None;
                             nkid := 0%Z; f_ped := (-1)%Z |}]).

(** The body of [for (i = 1; i < nfam; i++)]. *)
Definition famStep (W NumInd : nat) (IndSort : Arr) (famList : list string)
    (ord : Arr) (s : People * list Fam * Arr) (i : nat)
  : Res (People * list Fam * Arr) :=
  let '(p, FamArray, famndx) := s in
  let i := Z.of_nat i in
  '(p1, FamArray1) <-
     (if (strcmp (valAt famList (ord (i - 1)%Z)) (valAt famList (ord i)) =? 0)%Z
      then inr (p, FamArray)
      else if (Z.of_nat (List.length FamArray) =? MAXFAM)%Z
           then inl (TooManyFamilies MAXFAM)
           else newFamily W NumInd IndSort (valAt famList (ord i)) (p, FamArray)) ;;
  inr (p1, FamArray1,
       updZ famndx (ord i) (Z.of_nat (List.length FamArray1) - 1)%Z).

(** [while (kidp->sib != NULL) kidp = kidp->sib], from [k]. *)
Fixpoint lastSib (fuel : nat) (inds : list Ind) (k : nat) : option nat :=
  match fuel with
  | O => None
  | S fuel' =>
      match sib (nth k inds noInd) with
      | None => Some k
      | Some k' => lastSib fuel' inds k'
      end
  end.

Definition addKid (first : option nat) (F : Fam) : Fam :=
  {| fa := fa F; mo := mo F; kid1 := first; next := next F;
     nkid := (nkid F + 1)%Z; f_ped := f_ped F |}.

(** The body of the last loop, for the individual [i]. *)
Definition kidStep (idFam famndx : Arr) (s : list Ind * list Fam) (i : nat)
  : Res (list Ind * list Fam) :=
  let (inds, FamArray) := s in
  if (idFam (Z.of_nat i) >=? 0)%Z then
    let f := Z.to_nat (famndx (idFam (Z.of_nat i))) in
    let inds := setAt inds i (setFam (Some f)) in
    match kid1 (nth f FamArray noFam) with
    | None => inr (inds, setAt FamArray f (addKid (Some i)))
    | Some k1 =>
        match lastSib (S (List.length inds)) inds k1 with
        | None => inl NoFuel
        | Some kidp =>
            inr (setAt inds kidp (setSib (Some i)),
                 setAt FamArray f (addKid (Some k1)))
        end
    end
  else inr (inds, FamArray).

(** What the caller finds: after [return 1] the people, [NumInd] being
    the length of [IndArray] now and the families freed; after
    [return 0] the people and [FamArray]. *)
Inductive Made : Type :=
| Again (p : People)
| Built (p : People) (FamArray : list Fam).

(** [makeFams(famList, idFam, nfam)]: [W] is [FamidLen+IdLen], [nfam]
    the length of [famList], [NumInd] the length of [inds]; [ord0] and
    [famndx0] are what the local arrays hold on entry.  The keys of
    [famList] are [2 W] wide, as [getPedData] writes them, so the sort
    is [qSortFit]. *)
Definition makeFams (W : nat) (famList : list string) (IndSort : Arr)
    (ord0 famndx0 : Arr) (ErrCnt : nat)
    (inds : list Ind) (idFam0 : Arr) (NumFou0 : Z) (WrnLog0 : list Warning)
  : Res Made :=
  let nfam := List.length famList in
  let p0 := {| IndArray := inds; idFam := idFam0; NumFou := NumFou0;
               redo := false; WrnLog := WrnLog0 |} in
  if Nat.eqb nfam 0 then inr (Built p0 [])
  else
    match qSortFit famList (2 * Z.of_nat W)%Z false ord0 with
    | Fatal _ => inl QSortStack
    | OutOfFuel => inl NoFuel
    | Ok ord =>
        let NumInd := List.length inds in
        '(p, FamArray) <-
           newFamily W NumInd IndSort (valAt famList (ord 0%Z)) (p0, []) ;;
        '(p, FamArray, famndx) <-
           forM (famStep W NumInd IndSort famList ord) (List.seq 1 (nfam - 1))
                (p, FamArray, updZ famndx0 (ord 0%Z) 0%Z) ;;
        if negb (Nat.eqb ErrCnt 0) then inl (DataErrors ErrCnt ERRFILE)
        else if redo p then inr (Again p)
        else
          '(inds', FamArray') <-
             forM (kidStep (idFam p) famndx)
                  (List.seq 0 (List.length (IndArray p)))
                  (IndArray p, FamArray) ;;
          inr (Built {| IndArray := inds'; idFam := idFam p;
                        NumFou := NumFou p; redo := redo p;
                        WrnLog := WrnLog p |} FamArray')
    end.

(** *** Lists changed in one place, loops that can stop *)

Lemma setAt_length {A : Type} (f : A -> A) (l : list A) : forall k,
  List.length (setAt l k f) = List.length l.
Proof.
  induction l as [|x l IH]; intros [|k]; cbn [setAt List.length]; auto.
Qed.

Lemma setAt_nth {A : Type} (f : A -> A) (d : A) (l : list A) : forall k j,
  nth j (setAt l k f) d =
  if Nat.eqb j k && Nat.ltb k (List.length l) then f (nth j l d) else nth j l d.
Proof.
  induction l as [|x l IH]; intros [|k] [|j]; cbn [setAt nth List.length];
    try reflexivity.
  - rewrite andb_false_r. reflexivity.
  - rewrite IH. cbn [Nat.eqb]. reflexivity.
Qed.

Lemma setAt_same {A : Type} (f : A -> A) (d : A) (l : list A) (k : nat) :
  k < List.length l -> nth k (setAt l k f) d = f (nth k l d).
Proof.
  intros H. rewrite setAt_nth, Nat.eqb_refl.
  destruct (Nat.ltb_spec k (List.length l)); [reflexivity|lia].
Qed.

Lemma setAt_other {A : Type} (f : A -> A) (d : A) (l : list A) (k j : nat) :
  j <> k -> nth j (setAt l k f) d = nth j l d.
Proof.
  intros H. rewrite setAt_nth.
  destruct (Nat.eqb_spec j k); [contradiction|reflexivity].
Qed.

Lemma setAt_map {A B : Type} (f : A -> A) (g : A -> B) (l : list A) :
  (forall x, g (f x) = g x) -> forall k, map g (setAt l k f) = map g l.
Proof.
  intros H. induction l as [|x l IH]; intros [|k]; cbn [setAt map];
    try reflexivity.
  - rewrite H. reflexivity.
  - rewrite IH. reflexivity.
Qed.

Lemma setAt_id {A : Type} (f : A -> A) (d : A) (l : list A) : forall k,
  f (nth k l d) = nth k l d -> setAt l k f = l.
Proof.
  induction l as [|x l IH]; intros [|k]; cbn [setAt nth]; intros H;
    try reflexivity.
  - rewrite H. reflexivity.
  - rewrite (IH k H). reflexivity.
Qed.

Lemma setAt_app {A : Type} (f : A -> A) (l r : list A) (k : nat) :
  k < List.length l -> setAt (l ++ r) k f = setAt l k f ++ r.
Proof.
  revert k. induction l as [|x l IH]; intros [|k]; cbn [setAt List.length app];
    intros H; try lia; try reflexivity.
  rewrite IH by lia. reflexivity.
Qed.

(** The rule for a loop [forM] over [a .. a+n-1]: [Inv] holds on the
    way, [Bad] of the way it stops. *)
Lemma forM_seq {S : Type} (body : S -> nat -> Res S)
      (Inv : nat -> S -> Prop) (Bad : Halt -> Prop) (n : nat) :
  forall a s0,
  Inv a s0 ->
  (forall m s, a <= m < a + n -> Inv m s ->
     match body s m with
     | inr s' => Inv (Datatypes.S m) s'
     | inl h => Bad h
     end) ->
  match forM body (List.seq a n) s0 with
  | inr s' => Inv (a + n) s'
  | inl h => Bad h
  end.
Proof.
  induction n as [|n IH]; intros a s0 H0 Hstep; cbn [List.seq forM].
  - rewrite Nat.add_0_r. exact H0.
  - pose proof (Hstep a s0 ltac:(lia) H0) as H1. unfold bind.
    destruct (body s0 a) as [h|s1]; [exact H1|].
    replace (a + Datatypes.S n) with (Datatypes.S a + n) by lia.
    apply IH; [exact H1|]. intros m s Hm. apply Hstep. lia.
Qed.

(** *** C strings *)

(** No NUL inside. *)
Fixpoint cstring (s : string) : bool :=
  match s with
  | EmptyString => true
  | String c s' => negb (Ascii.eqb c zero) && cstring s'
  end.

Lemma headByte_zero c s : headByte (String c s) = 0%Z -> c = zero.
Proof.
  cbn [headByte]. intros H.
  assert (E : nat_of_ascii c = 0) by lia.
  rewrite <- (ascii_nat_embedding c), E. reflexivity.
Qed.

Lemma strcmp_cstring a : forall b,
  cstring a = true -> cstring b = true -> strcmp a b = 0%Z -> a = b.
Proof.
  induction a as [|x a IH]; intros b Ha Hb; rewrite strcmp_eq.
  - destruct b as [|y b]; [reflexivity|].
    cbn [cstring] in Hb. apply andb_true_iff in Hb. destruct Hb as [Hy _].
    destruct (Z.eqb_spec (headByte EmptyString) (headByte (String y b))) as [E|E];
      cbn [negb].
    + symmetry in E. apply headByte_zero in E. subst y. discriminate.
    + cbn [headByte] in *. lia.
  - cbn [cstring] in Ha. apply andb_true_iff in Ha. destruct Ha as [Hx Ha].
    destruct (Z.eqb_spec (headByte (String x a)) (headByte b)) as [E|E];
      cbn [negb]; [|lia].
    destruct b as [|y b].
    + apply headByte_zero in E. subst x. discriminate.
    + cbn [cstring] in Hb. apply andb_true_iff in Hb. destruct Hb as [Hy Hb].
      destruct (Z.eqb_spec (headByte (String x a)) 0) as [E0|E0].
      * apply headByte_zero in E0. subst x. discriminate.
      * intros H. rewrite (IH b Ha Hb H). f_equal.
        cbn [headByte] in E. apply Nat2Z.inj in E.
        rewrite <- (ascii_nat_embedding x), <- (ascii_nat_embedding y), E.
        reflexivity.
Qed.

(** *** One parent *)

Lemma setSex_sex (r : Ind) : setSex (sex r) r = r.
Proof. destruct r; reflexivity. Qed.

Section Parents.

Variables (inds0 : list Ind) (IndSort : Arr).

Local Abbreviation NumInd := (List.length inds0).
Local Abbreviation ids0 := (map id inds0).

Hypothesis Hperm : perm (Z.of_nat NumInd) IndSort.
Hypothesis Hord : ordered ids0 false IndSort.

(** The individual [findInd] gives for [key], if any. *)
Definition here (key : string) : option nat :=
  match findInd ids0 IndSort key with
  | Some r => if (r =? -1)%Z then None else Some (Z.to_nat r)
  | None => None
  end.

(** No individual has the id [key]. *)
Definition absent (key : string) : Prop :=
  forall x, x < NumInd -> strcmp key (nth x ids0 EmptyString) <> 0%Z.

Lemma here_spec (key : string) :
  (exists x, here key = Some x /\ x < NumInd /\
     strcmp key (nth x ids0 EmptyString) = 0%Z /\
     findInd ids0 IndSort key = Some (Z.of_nat x)) \/
  (here key = None /\ absent key /\ findInd ids0 IndSort key = Some (-1)%Z).
Proof.
  unfold here.
  assert (Hp : perm (Z.of_nat (List.length ids0)) IndSort)
    by (rewrite length_map; exact Hperm).
  destruct (findInd_spec ids0 IndSort key Hp Hord)
    as [(ndx & H1 & H2 & H3)|[Hnone Hs]].
  - left. rewrite H3.
    pose proof (proj1 Hp ndx H1) as Hr. rewrite length_map in Hr.
    exists (Z.to_nat (IndSort ndx)).
    destruct (Z.eqb_spec (IndSort ndx) (-1)); [lia|].
    split; [reflexivity|]. split; [lia|]. split; [exact H2|].
    rewrite Z2Nat.id by lia. reflexivity.
  - right. rewrite Hs. cbn. split; [reflexivity|]. split; [|reflexivity].
    intros x Hx. specialize (Hnone (Z.of_nat x)).
    unfold valAt in Hnone. rewrite Nat2Z.id, length_map in Hnone.
    apply Hnone. lia.
Qed.

Lemma here_some (key : string) (x : nat) :
  here key = Some x -> x < NumInd /\ strcmp key (nth x ids0 EmptyString) = 0%Z.
Proof.
  intros H. destruct (here_spec key) as [(y & E & H1 & H2 & _)|[E _]];
    rewrite E in H; [|discriminate]. injection H as <-. auto.
Qed.

Lemma here_none (key : string) : here key = None -> absent key.
Proof.
  intros H. destruct (here_spec key) as [(y & E & _)|[_ [Ha _]]];
    [rewrite E in H; discriminate|exact Ha].
Qed.

(** The first [NumInd] individuals keep their ids. *)
Definition keeps (l : list Ind) : Prop :=
  NumInd <= List.length l /\ map id (firstn NumInd l) = ids0.

Lemma keeps_start : keeps inds0.
Proof. split; [lia|]. rewrite firstn_all. reflexivity. Qed.

Lemma keeps_setSex (l : list Ind) (k : nat) (v : Z) :
  keeps l -> keeps (setAt l k (setSex v)).
Proof.
  intros [H1 H2]. split; [rewrite setAt_length; exact H1|].
  rewrite <- firstn_map, (setAt_map (setSex v) id), firstn_map;
    [exact H2|reflexivity].
Qed.

Lemma keeps_app (l r : list Ind) : keeps l -> keeps (l ++ r).
Proof.
  intros [H1 H2]. split; [rewrite length_app; lia|].
  rewrite firstn_app. replace (NumInd - List.length l) with 0 by lia.
  cbn [firstn]. rewrite app_nil_r. exact H2.
Qed.

(** What [resolve] does, by what [findInd] gives. *)
Lemma resolve_spec (sx : Z) (key : string) (p : People) :
  keeps (IndArray p) ->
  match here key with
  | Some x =>
      exists log,
        resolve NumInd IndSort sx key p =
        inr ({| IndArray := setAt (IndArray p) x (setSex sx);
                idFam := idFam p; NumFou := NumFou p; redo := redo p;
                WrnLog := WrnLog p ++ log |}, Some x)
  | None =>
      resolve NumInd IndSort sx key p =
      if (MAXIND <=? Z.of_nat (List.length (IndArray p)))%Z then inl PastIndArray
      else inr ({| IndArray := IndArray p ++ [newInd key sx];
                   idFam := updZ (idFam p) (Z.of_nat (List.length (IndArray p))) (-1)%Z;
                   NumFou := (NumFou p + 1)%Z;
                   redo := true;
                   WrnLog := WrnLog p ++ [RecordAdded sx key] |}, None)
  end.
Proof.
  intros [Hk1 Hk2]. unfold resolve. rewrite Hk2.
  destruct (here_spec key) as [(x & E & Hx & Hs & Ef)|(E & Ha & Ef)];
    rewrite E, Ef.
  - destruct (Z.eqb_spec (Z.of_nat x) (-1)) as [|_]; [lia|].
    rewrite Nat2Z.id.
    destruct (Z.eqb_spec (sex (nth x (IndArray p) noInd)) sx) as [Es|Es];
      cbn [negb].
    + exists []. rewrite app_nil_r.
      rewrite (setAt_id (setSex sx) noInd (IndArray p) x)
        by (rewrite <- Es; apply setSex_sex).
      destruct p; reflexivity.
    + exists [SexChanged sx key]. reflexivity.
  - cbn. reflexivity.
Qed.

End Parents.

(** *** One family *)

Lemma setSex_zero (v : Z) (r : Ind) : setSex 0 (setSex v r) = setSex 0 r.
Proof. reflexivity. Qed.

Ltac lens :=
  rewrite ?setAt_length, ?length_app in *; cbn [List.length] in *;
  rewrite ?setAt_length, ?length_app in *; try lia.

Ltac updZ_cases :=
  unfold updZ;
  repeat match goal with
         | |- context [Z.eqb ?a ?b] => destruct (Z.eqb_spec a b)
         end; try reflexivity; try lia.

Section NewFamily.

Variables (W : nat) (inds0 : list Ind) (IndSort : Arr).

Local Abbreviation NumInd := (List.length inds0).
Local Abbreviation ids0 := (map id inds0).

Hypothesis Hperm : perm (Z.of_nat NumInd) IndSort.
Hypothesis Hord : ordered ids0 false IndSort.

Local Abbreviation here := (here inds0 IndSort).

(** The records added for the parents of a family that have none. *)
Definition miss (key : string) : list Ind :=
  (match here (faOf W key) with
   | None => [newInd (faOf W key) 1%Z]
   | Some _ => []
   end) ++
  (match here (moOf W key) with
   | None => [newInd (moOf W key) 2%Z]
   | Some _ => []
   end).

(** The family made for a key. *)
Definition famOfKey (key : string) : Fam :=
  {| fa := here (faOf W key); mo := here (moOf W key); kid1 := None;
     next := None; nkid := 0%Z; f_ped := (-1)%Z |}.

(** The first [NumInd] individuals differ from those on entry by their
    sex codes only. *)
Definition sexOnly (olds : list Ind) : Prop :=
  map (setSex 0) olds = map (setSex 0) inds0.

Lemma sexOnly_length (olds : list Ind) : sexOnly olds -> List.length olds = NumInd.
Proof.
  intros H. apply (f_equal (@List.length Ind)) in H.
  rewrite !length_map in H. exact H.
Qed.

Lemma sexOnly_keeps (olds A : list Ind) :
  sexOnly olds -> keeps inds0 (olds ++ A).
Proof.
  intros H. pose proof (sexOnly_length olds H) as HL.
  split; [rewrite length_app; lia|].
  rewrite firstn_app, HL, Nat.sub_diag, firstn_all2 by lia.
  cbn [firstn]. rewrite app_nil_r.
  apply (f_equal (map id)) in H. rewrite !map_map in H. exact H.
Qed.

Lemma sexOnly_setSex (olds : list Ind) (k : nat) (v : Z) :
  sexOnly olds -> sexOnly (setAt olds k (setSex v)).
Proof.
  unfold sexOnly. intros H. rewrite (setAt_map (setSex v) (setSex 0)); auto.
Qed.

(** The state after a family is made, from the state before: [olds]
    and [A] are the first [NumInd] individuals and the records added
    so far. *)
Record familyMade (key : string) (olds A : list Ind) (p p' : People)
       (olds' : list Ind) : Prop := {
  fm_inds : IndArray p' = olds' ++ A ++ miss key;
  fm_olds : sexOnly olds';
  fm_room : (Z.of_nat (List.length (IndArray p')) <= MAXIND)%Z;
  fm_idFam : forall k, (0 <= k < Z.of_nat (List.length (IndArray p)))%Z ->
               idFam p' k = idFam p k;
  fm_idNew : forall k, (Z.of_nat (List.length (IndArray p)) <= k
                        < Z.of_nat (List.length (IndArray p')))%Z ->
               idFam p' k = (-1)%Z;
  fm_fou : NumFou p' = (NumFou p + Z.of_nat (List.length (miss key)))%Z;
  fm_redo : redo p' = redo p || negb (Nat.eqb (List.length (miss key)) 0);
  fm_fa : forall x, here (faOf W key) = Some x ->
            sex (nth x olds' noInd) = 1%Z \/
            (sex (nth x olds' noInd) = 2%Z /\ here (moOf W key) = Some x);
  fm_mo : forall x, here (moOf W key) = Some x -> sex (nth x olds' noInd) = 2%Z;
  fm_rest : forall x, here (faOf W key) <> Some x -> here (moOf W key) <> Some x ->
              nth x olds' noInd = nth x olds noInd
}.

Lemma newFamily_spec (key : string) (olds A : list Ind) (p : People)
      (FamArray : list Fam) :
  IndArray p = olds ++ A -> sexOnly olds ->
  (Z.of_nat (List.length (IndArray p)) <= MAXIND)%Z ->
  W <= String.length key ->
  match newFamily W NumInd IndSort key (p, FamArray) with
  | inl h =>
      h = PastIndArray /\
      (MAXIND < Z.of_nat (List.length (IndArray p) + List.length (miss key)))%Z
  | inr (p', FamArray') =>
      FamArray' = FamArray ++ [famOfKey key] /\
      exists olds', familyMade key olds A p p' olds'
  end.
Proof.
  destruct p as [inds idf nf rd wl]. cbn [IndArray].
  intros -> Hs Hroom Hw.
  pose proof (sexOnly_length olds Hs) as HL.
  unfold newFamily.
  pose proof (resolve_spec inds0 IndSort Hperm Hord 1%Z (faOf W key)
                {| IndArray := olds ++ A; idFam := idf; NumFou := nf; redo := rd;
                   WrnLog := wl |} (sexOnly_keeps olds A Hs)) as R1.
  cbn [IndArray idFam NumFou redo WrnLog] in R1.
  destruct (here (faOf W key)) as [x|] eqn:Efa.
  - (* the father has a record *)
    destruct R1 as (log1 & R1). rewrite R1. unfold bind.
    destruct (Nat.ltb_spec (String.length key) W) as [|_]; [lia|].
    destruct (here_some inds0 IndSort Hperm Hord _ _ Efa) as [Hx _].
    rewrite (setAt_app (setSex 1) olds A x) by lia.
    pose proof (resolve_spec inds0 IndSort Hperm Hord 2%Z (moOf W key)
                  {| IndArray := setAt olds x (setSex 1) ++ A; idFam := idf;
                     NumFou := nf; redo := rd; WrnLog := wl ++ log1 |}
                  (sexOnly_keeps _ A (sexOnly_setSex olds x 1 Hs))) as R2.
    cbn [IndArray idFam NumFou redo WrnLog] in R2.
    destruct (here (moOf W key)) as [y|] eqn:Emo.
    + destruct R2 as (log2 & R2). rewrite R2.
      destruct (here_some inds0 IndSort Hperm Hord _ _ Emo) as [Hy _].
      split; [unfold famOfKey; rewrite Efa, Emo; reflexivity|].
      exists (setAt (setAt olds x (setSex 1)) y (setSex 2)).
      constructor; unfold miss; rewrite ?Efa, ?Emo;
        cbn [IndArray idFam NumFou redo app List.length Nat.eqb negb].
      * rewrite app_nil_r. apply setAt_app. rewrite setAt_length. lia.
      * apply sexOnly_setSex, sexOnly_setSex, Hs.
      * rewrite !setAt_length, !length_app, !setAt_length in *. exact Hroom.
      * reflexivity.
      * intros k Hk.
        rewrite !setAt_length, !length_app, !setAt_length in Hk. lia.
      * lia.
      * rewrite orb_false_r. reflexivity.
      * intros x' Ex. injection Ex as <-.
        destruct (Nat.eq_dec x y) as [->|Hne].
        -- right. split; [|reflexivity].
           rewrite setAt_same by (rewrite setAt_length; lia). reflexivity.
        -- left. rewrite setAt_other by exact Hne.
           rewrite setAt_same by lia. reflexivity.
      * intros y' Ey. injection Ey as <-.
        rewrite setAt_same by (rewrite setAt_length; lia). reflexivity.
      * intros z Hz1 Hz2. rewrite !setAt_other by congruence. reflexivity.
    + rewrite R2. rewrite length_app, setAt_length, <- length_app.
      unfold miss. rewrite Efa, Emo. cbn [app List.length].
      destruct (Z.leb_spec MAXIND (Z.of_nat (List.length (olds ++ A)))) as [Hfull|Hfree].
      * split; [reflexivity|]. lia.
      * split; [unfold famOfKey; rewrite Efa, Emo; reflexivity|].
        exists (setAt olds x (setSex 1)).
        constructor; unfold miss; rewrite ?Efa, ?Emo;
          cbn [IndArray idFam NumFou redo app List.length Nat.eqb negb].
        -- rewrite <- app_assoc. reflexivity.
        -- apply sexOnly_setSex, Hs.
        -- rewrite !length_app, setAt_length in *. cbn [List.length]. lia.
        -- intros k Hk. unfold updZ.
           destruct (Z.eqb_spec k (Z.of_nat (List.length (olds ++ A)))); [lia|reflexivity].
        -- intros k Hk. rewrite !length_app, setAt_length in Hk.
           cbn [List.length] in Hk. rewrite length_app. unfold updZ.
           destruct (Z.eqb_spec k (Z.of_nat (List.length olds + List.length A)));
             [reflexivity|lia].
        -- lia.
        -- rewrite orb_true_r. reflexivity.
        -- intros x' Ex. injection Ex as <-. left.
           rewrite setAt_same by lia. reflexivity.
        -- intros y' Ey. discriminate.
        -- intros z Hz1 _. rewrite setAt_other by congruence. reflexivity.
  - (* a record is added for the father *)
    rewrite R1.
    destruct (Z.leb_spec MAXIND (Z.of_nat (List.length (olds ++ A)))) as [Hfull|Hfree].
    { cbn [bind]. split; [reflexivity|]. unfold miss. rewrite Efa.
      cbn [app List.length]. lia. }
    unfold bind.
    destruct (Nat.ltb_spec (String.length key) W) as [|_]; [lia|].
    rewrite <- app_assoc.
    pose proof (resolve_spec inds0 IndSort Hperm Hord 2%Z (moOf W key)
                  {| IndArray := olds ++ A ++ [newInd (faOf W key) 1]; 
                     idFam := updZ idf (Z.of_nat (List.length (olds ++ A))) (-1);
                     NumFou := (nf + 1)%Z; redo := true;
                     WrnLog := wl ++ [RecordAdded 1 (faOf W key)] |}
                  (sexOnly_keeps _ _ Hs)) as R2.
    cbn [IndArray idFam NumFou redo WrnLog] in R2.
    destruct (here (moOf W key)) as [y|] eqn:Emo.
    + destruct R2 as (log2 & R2). rewrite R2.
      destruct (here_some inds0 IndSort Hperm Hord _ _ Emo) as [Hy _].
      split; [unfold famOfKey; rewrite Efa, Emo; reflexivity|].
      exists (setAt olds y (setSex 2)).
      constructor; unfold miss; rewrite ?Efa, ?Emo;
        cbn [IndArray idFam NumFou redo app List.length Nat.eqb negb].
      * rewrite setAt_app by lia. reflexivity.
      * apply sexOnly_setSex, Hs.
      * rewrite setAt_length, !length_app in *. cbn [List.length]. lia.
      * intros k Hk. unfold updZ.
        destruct (Z.eqb_spec k (Z.of_nat (List.length (olds ++ A)))); [lia|reflexivity].
      * intros k Hk. rewrite setAt_length, !length_app in Hk.
        cbn [List.length] in Hk. rewrite length_app. unfold updZ.
        destruct (Z.eqb_spec k (Z.of_nat (List.length olds + List.length A)));
          [reflexivity|lia].
      * lia.
      * rewrite orb_true_r. reflexivity.
      * intros x' Ex. discriminate.
      * intros y' Ey. injection Ey as <-.
        rewrite setAt_same by lia. reflexivity.
      * intros z _ Hz. rewrite setAt_other by congruence. reflexivity.
    + rewrite R2. unfold miss. rewrite Efa, Emo. cbn [app List.length].
      rewrite !length_app. cbn [List.length].
      destruct (Z.leb_spec MAXIND
                  (Z.of_nat (List.length olds + (List.length A + 1)))) as [Hfull|Hfree2].
      * split; [reflexivity|]. lia.
      * split; [unfold famOfKey; rewrite Efa, Emo; reflexivity|].
        exists olds.
        constructor; unfold miss; rewrite ?Efa, ?Emo;
          cbn [IndArray idFam NumFou redo app List.length Nat.eqb negb].
        -- rewrite <- !app_assoc. reflexivity.
        -- exact Hs.
        -- lens.
        -- intros k Hk. lens. updZ_cases.
        -- intros k Hk. lens. updZ_cases.
        -- lia.
        -- rewrite orb_true_r. reflexivity.
        -- intros x' Ex. discriminate.
        -- intros y' Ey. discriminate.
        -- intros z _ _. reflexivity.
Qed.

End NewFamily.

(** *** The sorted keys *)

Section Keys.

Variables (W : nat) (famList : list string) (ord : Arr).

Local Abbreviation nfam := (List.length famList).

Hypothesis Hp : perm (Z.of_nat nfam) ord.
Hypothesis Hw : forall k, k < nfam -> W <= String.length (nth k famList EmptyString).

(** The key at place [q] of the sorted order. *)
Definition skey (q : nat) : string := valAt famList (ord (Z.of_nat q)).

(** The test [strcmp(famList[ord[i-1]], famList[ord[i]])] at [i = q]. *)
Definition differs (q : nat) : bool :=
  negb (strcmp (valAt famList (ord (Z.of_nat q - 1)%Z))
               (valAt famList (ord (Z.of_nat q))) =? 0)%Z.

(** The keys for which a family is made, up to place [q]. *)
Fixpoint firsts (q : nat) : list string :=
  match q with
  | O => [skey 0]
  | S q' => firsts q' ++ (if differs (S q') then [skey (S q')] else [])
  end.

(** The family of the key at place [q]. *)
Definition grp (q : nat) : nat := List.length (firsts q) - 1.

Lemma differs_def (q : nat) :
  differs q = negb (strcmp (valAt famList (ord (Z.of_nat q - 1)%Z))
                           (valAt famList (ord (Z.of_nat q))) =? 0)%Z.
Proof. reflexivity. Qed.

Lemma firsts_S (q : nat) :
  firsts (S q) = firsts q ++ (if differs (S q) then [skey (S q)] else []).
Proof. reflexivity. Qed.

Lemma grp_def (q : nat) : grp q = List.length (firsts q) - 1.
Proof. reflexivity. Qed.

Lemma firsts_length (q : nat) : 1 <= List.length (firsts q) <= q + 1.
Proof.
  induction q as [|q IH]; cbn [firsts]; [cbn; lia|].
  rewrite length_app. destruct (differs (S q)); cbn [List.length]; lia.
Qed.

Lemma firsts_prefix (q q' : nat) :
  q <= q' -> exists r, firsts q' = firsts q ++ r.
Proof.
  induction 1 as [|q' _ [r IH]].
  - exists []. rewrite app_nil_r. reflexivity.
  - cbn [firsts]. rewrite IH, <- app_assoc. eexists. reflexivity.
Qed.

Lemma skey_wide (q : nat) : q < nfam -> W <= String.length (skey q).
Proof.
  intros Hq. unfold skey, valAt. apply Hw.
  pose proof (proj1 Hp (Z.of_nat q) ltac:(lia)). lia.
Qed.

Lemma ord_inj (q q' : nat) :
  q < nfam -> q' < nfam -> ord (Z.of_nat q) = ord (Z.of_nat q') -> q = q'.
Proof.
  intros H1 H2 E. apply (proj2 Hp) in E; lia.
Qed.

(** *** Equal keys, one family *)

Hypothesis Ho : ordered famList false ord.
Hypothesis Hc : forall k, k < nfam -> cstring (nth k famList EmptyString) = true.

Lemma skey_cstring (q : nat) : q < nfam -> cstring (skey q) = true.
Proof.
  intros Hq. unfold skey, valAt. apply Hc.
  pose proof (proj1 Hp (Z.of_nat q) ltac:(lia)). lia.
Qed.

Lemma skey_le (q q' : nat) :
  q <= q' -> q' < nfam -> (strcmp (skey q) (skey q') <= 0)%Z.
Proof.
  intros Hle Hq'. destruct (Nat.eq_dec q q') as [->|Hne].
  - rewrite strcmp_refl. lia.
  - pose proof (Ho q q' ltac:(lia)) as H. unfold keyLt in H.
    apply Z.ltb_ge in H. fold (skey q) (skey q') in H.
    rewrite strcmp_opp. lia.
Qed.

Lemma differs_S (q : nat) :
  differs (S q) = negb (strcmp (skey q) (skey (S q)) =? 0)%Z.
Proof.
  unfold differs, skey. replace (Z.of_nat (S q) - 1)%Z with (Z.of_nat q) by lia.
  reflexivity.
Qed.

Lemma grp_S (q : nat) :
  grp (S q) = grp q + (if differs (S q) then 1 else 0).
Proof.
  unfold grp. cbn [firsts]. rewrite length_app.
  pose proof (firsts_length q). destruct (differs (S q)); cbn [List.length]; lia.
Qed.

Lemma grp_mono (q q' : nat) : q <= q' -> grp q <= grp q'.
Proof.
  induction 1 as [|q' _ IH]; [lia|]. rewrite grp_S. lia.
Qed.

Lemma grp_same (q q' : nat) :
  q <= q' -> q' < nfam ->
  (grp q = grp q' <-> skey q = skey q').
Proof.
  intros Hle. induction Hle as [|q' Hle IH]; intros Hq'.
  - split; reflexivity.
  - rewrite grp_S, differs_S.
    pose proof (grp_mono q q' Hle) as Hmono.
    destruct (Z.eqb_spec (strcmp (skey q') (skey (S q'))) 0) as [E|NE]; cbn [negb].
    + apply strcmp_cstring in E; [|apply skey_cstring; lia|apply skey_cstring; lia].
      rewrite <- E, Nat.add_0_r. apply IH. lia.
    + split; [lia|]. intros E. exfalso. apply NE.
      pose proof (skey_le q q' Hle ltac:(lia)) as H1.
      pose proof (skey_le q' (S q') ltac:(lia) Hq') as H2.
      rewrite E in H1. rewrite (strcmp_opp (skey q') (skey (S q'))) in H1. lia.
Qed.

Lemma grp_equal (q q' : nat) :
  q < nfam -> q' < nfam -> (grp q = grp q' <-> skey q = skey q').
Proof.
  intros H1 H2. destruct (Nat.le_ge_cases q q') as [H|H].
  - apply grp_same; assumption.
  - split; intros E; symmetry; apply (grp_same q' q H H1); symmetry; exact E.
Qed.

Lemma firsts_nth (n q : nat) :
  q <= n -> n < nfam -> nth (grp q) (firsts n) EmptyString = skey q.
Proof.
  intros Hqn Hn'. destruct (firsts_prefix q n Hqn) as [r ->].
  pose proof (firsts_length q) as HL.
  rewrite app_nth1 by (unfold grp; lia). clear r.
  induction q as [|q IH].
  - reflexivity.
  - rewrite grp_S. cbn [firsts]. rewrite differs_S.
    pose proof (firsts_length q) as HLq.
    destruct (Z.eqb_spec (strcmp (skey q) (skey (S q))) 0) as [E|NE]; cbn [negb].
    + apply strcmp_cstring in E; [|apply skey_cstring; lia|apply skey_cstring; lia].
      rewrite Nat.add_0_r, app_nil_r, <- E. apply IH; [lia|exact HLq].
    + rewrite app_nth2 by (unfold grp; lia).
      replace (grp q + 1 - List.length (firsts q)) with 0 by (unfold grp; lia).
      reflexivity.
Qed.

Lemma firsts_keys (n : nat) (key : string) :
  n < nfam -> In key (firsts n) -> exists q, q <= n /\ key = skey q.
Proof.
  intros Hn'. induction n as [|n IH]; cbn [firsts].
  - intros [<-|[]]. exists 0. split; [lia|reflexivity].
  - intros H. apply in_app_or in H. destruct H as [H|H].
    + destruct (IH ltac:(lia) H) as (q & Hq & E). exists q. split; [lia|exact E].
    + destruct (differs (S n)); [|destruct H].
      destruct H as [<-|[]]. exists (S n). split; [lia|reflexivity].
Qed.

Lemma keys_firsts (n q : nat) : q <= n -> n < nfam -> In (skey q) (firsts n).
Proof.
  intros Hq Hn'. rewrite <- (firsts_nth n q Hq Hn').
  apply nth_In. pose proof (firsts_length n).
  pose proof (grp_mono q n Hq). unfold grp in *. lia.
Qed.

(** The place of a key in the sorted order. *)
Lemma place (k : nat) :
  k < nfam -> exists q, q < nfam /\ ord (Z.of_nat q) = Z.of_nat k /\
                        skey q = nth k famList EmptyString.
Proof.
  intros Hk.
  destruct (perm_onto nfam ord (Z.of_nat k) Hp ltac:(lia)) as (q & Hq & E).
  exists (Z.to_nat q). rewrite Z2Nat.id by lia.
  split; [lia|]. split; [exact E|].
  unfold skey, valAt. rewrite Z2Nat.id, E, Nat2Z.id by lia. reflexivity.
Qed.

End Keys.

(** *** The loop over the sorted keys *)

Section Pass.

Variables (W : nat) (inds0 : list Ind) (IndSort : Arr).
Variables (famList : list string) (ord : Arr) (idFam0 : Arr) (NumFou0 : Z).

Local Abbreviation NumInd := (List.length inds0).
Local Abbreviation ids0 := (map id inds0).
Local Abbreviation nfam := (List.length famList).

Hypothesis Hperm : perm (Z.of_nat NumInd) IndSort.
Hypothesis Hord : ordered ids0 false IndSort.
Hypothesis Hp : perm (Z.of_nat nfam) ord.
Hypothesis Hw : forall k, k < nfam -> W <= String.length (nth k famList EmptyString).
Hypothesis Hroom : (Z.of_nat NumInd <= MAXIND)%Z.
Hypothesis Hn : (Z.of_nat nfam <= MAXFAM)%Z.

Local Abbreviation here := (here inds0 IndSort).
Local Abbreviation miss := (miss W inds0 IndSort).
Local Abbreviation famOfKey := (famOfKey W inds0 IndSort).
Local Abbreviation skey := (skey famList ord).
Local Abbreviation differs := (differs famList ord).
Local Abbreviation firsts := (firsts famList ord).
Local Abbreviation grp := (grp famList ord).

Definition isFa (l : list string) (x : nat) : Prop :=
  exists key, In key l /\ here (faOf W key) = Some x.

Definition isMo (l : list string) (x : nat) : Prop :=
  exists key, In key l /\ here (moOf W key) = Some x.

(** What holds when the keys up to place [m-1] are done. *)
Record passed (m : nat) (p : People) (FamArray : list Fam) (famndx : Arr)
       (olds : list Ind) : Prop := {
  pa_inds : IndArray p = olds ++ flat_map miss (firsts (m - 1));
  pa_olds : sexOnly inds0 olds;
  pa_room : (Z.of_nat (List.length (IndArray p)) <= MAXIND)%Z;
  pa_fams : FamArray = map famOfKey (firsts (m - 1));
  pa_ndx : forall q, q < m -> famndx (ord (Z.of_nat q)) = Z.of_nat (grp q);
  pa_idFam : forall k, (0 <= k < Z.of_nat NumInd)%Z -> idFam p k = idFam0 k;
  pa_idNew : forall k, (Z.of_nat NumInd <= k < Z.of_nat (List.length (IndArray p)))%Z ->
               idFam p k = (-1)%Z;
  pa_fou : NumFou p
           = (NumFou0 + Z.of_nat (List.length (flat_map miss (firsts (m - 1)))))%Z;
  pa_redo : redo p
            = negb (Nat.eqb (List.length (flat_map miss (firsts (m - 1)))) 0);
  pa_fa : forall x, isFa (firsts (m - 1)) x ->
            sex (nth x olds noInd) = 1%Z \/
            (sex (nth x olds noInd) = 2%Z /\ isMo (firsts (m - 1)) x);
  pa_mo : forall x, isMo (firsts (m - 1)) x ->
            sex (nth x olds noInd) = 2%Z \/
            (sex (nth x olds noInd) = 1%Z /\ isFa (firsts (m - 1)) x);
  pa_rest : forall x, ~ isFa (firsts (m - 1)) x -> ~ isMo (firsts (m - 1)) x ->
              nth x olds noInd = nth x inds0 noInd
}.

(** The only way the loop stops: no room in [IndArray] for all the
    records to add. *)
Definition noRoom (h : Halt) : Prop :=
  h = PastIndArray /\
  (MAXIND < Z.of_nat (NumInd + List.length (flat_map miss (firsts (nfam - 1)))))%Z.

Lemma passed_grow (l : list string) (key : string) (p p' : People)
      (olds olds' : list Ind) :
  IndArray p = olds ++ flat_map miss l ->
  sexOnly inds0 olds ->
  (forall k, (0 <= k < Z.of_nat NumInd)%Z -> idFam p k = idFam0 k) ->
  (forall k, (Z.of_nat NumInd <= k < Z.of_nat (List.length (IndArray p)))%Z ->
     idFam p k = (-1)%Z) ->
  NumFou p = (NumFou0 + Z.of_nat (List.length (flat_map miss l)))%Z ->
  redo p = negb (Nat.eqb (List.length (flat_map miss l)) 0) ->
  (forall x, isFa l x ->
     sex (nth x olds noInd) = 1%Z \/ (sex (nth x olds noInd) = 2%Z /\ isMo l x)) ->
  (forall x, isMo l x ->
     sex (nth x olds noInd) = 2%Z \/ (sex (nth x olds noInd) = 1%Z /\ isFa l x)) ->
  (forall x, ~ isFa l x -> ~ isMo l x -> nth x olds noInd = nth x inds0 noInd) ->
  familyMade W inds0 IndSort key olds (flat_map miss l) p p' olds' ->
  IndArray p' = olds' ++ flat_map miss (l ++ [key]) /\
  (forall k, (0 <= k < Z.of_nat NumInd)%Z -> idFam p' k = idFam0 k) /\
  (forall k, (Z.of_nat NumInd <= k < Z.of_nat (List.length (IndArray p')))%Z ->
     idFam p' k = (-1)%Z) /\
  NumFou p' = (NumFou0 + Z.of_nat (List.length (flat_map miss (l ++ [key]))))%Z /\
  redo p' = negb (Nat.eqb (List.length (flat_map miss (l ++ [key]))) 0) /\
  (forall x, isFa (l ++ [key]) x ->
     sex (nth x olds' noInd) = 1%Z \/
     (sex (nth x olds' noInd) = 2%Z /\ isMo (l ++ [key]) x)) /\
  (forall x, isMo (l ++ [key]) x ->
     sex (nth x olds' noInd) = 2%Z \/
     (sex (nth x olds' noInd) = 1%Z /\ isFa (l ++ [key]) x)) /\
  (forall x, ~ isFa (l ++ [key]) x -> ~ isMo (l ++ [key]) x ->
     nth x olds' noInd = nth x inds0 noInd).
Proof.
  intros Hi Hs Hid Hnew Hfou Hredo Hfa Hmo Hrest M.
  pose proof (sexOnly_length inds0 olds Hs) as HL.
  assert (HF : flat_map miss (l ++ [key]) = flat_map miss l ++ miss key).
  { rewrite flat_map_app. cbn [flat_map]. rewrite app_nil_r. reflexivity. }
  assert (Hlen : List.length (IndArray p) = NumInd + List.length (flat_map miss l)).
  { rewrite Hi, length_app, HL. reflexivity. }
  assert (inFa : forall x, isFa (l ++ [key]) x <->
                           isFa l x \/ here (faOf W key) = Some x).
  { intros x. split.
    - intros (k & Hin & E). apply in_app_or in Hin.
      destruct Hin as [Hin|[<-|[]]]; [left; exists k; auto|right; exact E].
    - intros [(k & Hin & E)|E].
      + exists k. split; [apply in_or_app; left; exact Hin|exact E].
      + exists key. split; [apply in_or_app; right; left; reflexivity|exact E]. }
  assert (inMo : forall x, isMo (l ++ [key]) x <->
                           isMo l x \/ here (moOf W key) = Some x).
  { intros x. split.
    - intros (k & Hin & E). apply in_app_or in Hin.
      destruct Hin as [Hin|[<-|[]]]; [left; exists k; auto|right; exact E].
    - intros [(k & Hin & E)|E].
      + exists k. split; [apply in_or_app; left; exact Hin|exact E].
      + exists key. split; [apply in_or_app; right; left; reflexivity|exact E]. }
  assert (Dfa : forall x, here (faOf W key) = Some x \/ here (faOf W key) <> Some x).
  { intros x. destruct (here (faOf W key)) as [y|]; [|right; discriminate].
    destruct (Nat.eq_dec y x) as [->|]; [left; reflexivity|right; congruence]. }
  assert (Dmo : forall x, here (moOf W key) = Some x \/ here (moOf W key) <> Some x).
  { intros x. destruct (here (moOf W key)) as [y|]; [|right; discriminate].
    destruct (Nat.eq_dec y x) as [->|]; [left; reflexivity|right; congruence]. }
  split; [rewrite HF, (fm_inds _ _ _ _ _ _ _ _ _ M); reflexivity|].
  split.
  { intros k Hk. rewrite (fm_idFam _ _ _ _ _ _ _ _ _ M) by lia. apply Hid, Hk. }
  split.
  { intros k Hk.
    destruct (Z_lt_le_dec k (Z.of_nat (List.length (IndArray p)))) as [Hlt|Hge].
    - rewrite (fm_idFam _ _ _ _ _ _ _ _ _ M) by lia. apply Hnew. lia.
    - apply (fm_idNew _ _ _ _ _ _ _ _ _ M). lia. }
  split.
  { rewrite (fm_fou _ _ _ _ _ _ _ _ _ M), Hfou, HF, length_app. lia. }
  split.
  { rewrite (fm_redo _ _ _ _ _ _ _ _ _ M), Hredo, HF, length_app.
    destruct (List.length (flat_map miss l)), (List.length (miss key)); reflexivity. }
  split.
  { intros x Hx. apply inFa in Hx.
    destruct (Dmo x) as [Em|Em].
    - right. split; [apply (fm_mo _ _ _ _ _ _ _ _ _ M), Em|].
      apply inMo. right. exact Em.
    - destruct (Dfa x) as [Ef|Ef].
      + left. destruct (fm_fa _ _ _ _ _ _ _ _ _ M x Ef) as [H1|[_ H2]];
          [exact H1|contradiction].
      + destruct Hx as [Hx|Hx]; [|contradiction].
        rewrite (fm_rest _ _ _ _ _ _ _ _ _ M x Ef Em).
        destruct (Hfa x Hx) as [H1|[H1 H2]]; [left; exact H1|].
        right. split; [exact H1|]. apply inMo. left. exact H2. }
  split.
  { intros x Hx. apply inMo in Hx.
    destruct (Dmo x) as [Em|Em].
    - left. apply (fm_mo _ _ _ _ _ _ _ _ _ M), Em.
    - destruct (Dfa x) as [Ef|Ef].
      + right. destruct (fm_fa _ _ _ _ _ _ _ _ _ M x Ef) as [H1|[_ H2]];
          [|contradiction].
        split; [exact H1|]. apply inFa. right. exact Ef.
      + destruct Hx as [Hx|Hx]; [|contradiction].
        rewrite (fm_rest _ _ _ _ _ _ _ _ _ M x Ef Em).
        destruct (Hmo x Hx) as [H1|[H1 H2]]; [left; exact H1|].
        right. split; [exact H1|]. apply inFa. left. exact H2. }
  intros x Hnf Hnm.
  assert (Ef : here (faOf W key) <> Some x)
    by (intros E; apply Hnf, inFa; right; exact E).
  assert (Em : here (moOf W key) <> Some x)
    by (intros E; apply Hnm, inMo; right; exact E).
  rewrite (fm_rest _ _ _ _ _ _ _ _ _ M x Ef Em).
  apply Hrest.
  - intros H. apply Hnf, inFa. left. exact H.
  - intros H. apply Hnm, inMo. left. exact H.
Qed.

Lemma miss_room (q : nat) (n : nat) :
  q <= nfam - 1 -> In (skey q) (firsts q) ->
  (MAXIND < Z.of_nat (n + List.length (flat_map miss (firsts q))))%Z ->
  (MAXIND < Z.of_nat (n + List.length (flat_map miss (firsts (nfam - 1)))))%Z.
Proof.
  intros Hq _ H. destruct (firsts_prefix famList ord q (nfam - 1) Hq) as [r ->].
  rewrite flat_map_app, length_app. lia.
Qed.

Definition passedAt (m : nat) (s : People * list Fam * Arr) : Prop :=
  let '(p, FamArray, famndx) := s in
  exists olds, passed m p FamArray famndx olds.

Lemma first_spec (famndx0 : Arr) (wl : list Warning) :
  0 < nfam ->
  match newFamily W NumInd IndSort (skey 0)
          ({| IndArray := inds0; idFam := idFam0; NumFou := NumFou0;
              redo := false; WrnLog := wl |}, []) with
  | inl h => noRoom h
  | inr (p, FamArray) => passedAt 1 (p, FamArray, updZ famndx0 (ord 0%Z) 0%Z)
  end.
Proof.
  intros Hpos.
  set (p0 := {| IndArray := inds0; idFam := idFam0; NumFou := NumFou0;
                redo := false; WrnLog := wl |}).
  assert (Hs : sexOnly inds0 inds0) by reflexivity.
  pose proof (newFamily_spec W inds0 IndSort Hperm Hord (skey 0) inds0 [] p0 []
                (eq_sym (app_nil_r inds0)) Hs Hroom (skey_wide W famList ord Hp Hw 0 Hpos)) as N.
  destruct (newFamily W NumInd IndSort (skey 0) (p0, [])) as [h|[p fams]].
  - destruct N as [-> N]. split; [reflexivity|].
    apply (miss_room 0 NumInd); [lia|left; reflexivity|].
    change (firsts 0) with [skey 0]. cbn [flat_map IndArray p0] in *.
    rewrite app_nil_r. exact N.
  - destruct N as [-> (olds' & M)]. exists olds'.
    assert (A1 : IndArray p0 = inds0 ++ flat_map miss [])
      by (cbn [flat_map]; rewrite app_nil_r; reflexivity).
    assert (A2 : forall k, (0 <= k < Z.of_nat NumInd)%Z -> idFam p0 k = idFam0 k)
      by (intros; reflexivity).
    assert (A3 : forall k,
              (Z.of_nat NumInd <= k < Z.of_nat (List.length (IndArray p0)))%Z ->
              idFam p0 k = (-1)%Z)
      by (intros k Hk; cbn [p0 IndArray] in Hk; lia).
    assert (A4 : NumFou p0
                 = (NumFou0 + Z.of_nat (List.length (flat_map miss [])))%Z)
      by (cbn [flat_map List.length p0 NumFou]; lia).
    assert (A5 : redo p0 = negb (Nat.eqb (List.length (flat_map miss [])) 0))
      by reflexivity.
    assert (A6 : forall x, isFa [] x ->
              sex (nth x inds0 noInd) = 1%Z \/
              (sex (nth x inds0 noInd) = 2%Z /\ isMo [] x))
      by (intros x (k & [] & _)).
    assert (A7 : forall x, isMo [] x ->
              sex (nth x inds0 noInd) = 2%Z \/
              (sex (nth x inds0 noInd) = 1%Z /\ isFa [] x))
      by (intros x (k & [] & _)).
    assert (A8 : forall x, ~ isFa [] x -> ~ isMo [] x ->
              nth x inds0 noInd = nth x inds0 noInd)
      by reflexivity.
    destruct (passed_grow [] (skey 0) p0 p inds0 olds' A1 Hs A2 A3 A4 A5 A6 A7 A8 M)
      as (G1 & G2 & G3 & G4 & G5 & G6 & G7 & G8).
    cbn [app] in *. constructor; cbn [Nat.sub]; change (firsts 0) with [skey 0];
      try assumption.
    + apply (fm_olds _ _ _ _ _ _ _ _ _ M).
    + apply (fm_room _ _ _ _ _ _ _ _ _ M).
    + reflexivity.
    + intros q Hq. replace q with 0 by lia. cbn [Z.of_nat].
      unfold updZ. rewrite Z.eqb_refl. reflexivity.
Qed.

Lemma famStep_spec (m : nat) (s : People * list Fam * Arr) :
  1 <= m < nfam -> passedAt m s ->
  match famStep W NumInd IndSort famList ord s m with
  | inl h => noRoom h
  | inr s' => passedAt (S m) s'
  end.
Proof.
  destruct s as [[p fams] famndx]. intros Hm (olds & I).
  unfold famStep.
  assert (Efirsts : firsts m = firsts (m - 1) ++
                               (if differs m then [skey m] else [])).
  { destruct m as [|m']; [lia|]. rewrite firsts_S.
    replace (S m' - 1) with m' by lia. reflexivity. }
  assert (Hndx : forall (fams' : list Fam) famndx',
            List.length fams' = List.length (firsts m) ->
            famndx' = updZ famndx (ord (Z.of_nat m)) (Z.of_nat (List.length fams') - 1)%Z ->
            forall q, q < S m -> famndx' (ord (Z.of_nat q)) = Z.of_nat (grp q)).
  { intros fams' famndx' HL -> q Hq. unfold updZ.
    destruct (Z.eqb_spec (ord (Z.of_nat q)) (ord (Z.of_nat m))) as [E|NE].
    - apply (ord_inj famList ord Hp) in E; [|lia|lia]. subst q.
      rewrite grp_def, HL. pose proof (firsts_length famList ord m). lia.
    - apply (pa_ndx _ _ _ _ _ I). destruct (Nat.eq_dec q m); [subst; contradiction|lia]. }
  pose proof (f_equal negb (differs_def famList ord m)) as D.
  rewrite negb_involutive in D. rewrite <- D.
  destruct (differs m) eqn:Ed; cbn [negb].
  - (* a new key *)
    pose proof (firsts_length famList ord (m - 1)) as HF.
    assert (Hfl : List.length fams = List.length (firsts (m - 1)))
      by (rewrite (pa_fams _ _ _ _ _ I), length_map; reflexivity).
    destruct (Z.eqb_spec (Z.of_nat (List.length fams)) MAXFAM) as [|_]; [lia|].
    pose proof (newFamily_spec W inds0 IndSort Hperm Hord (skey m) olds
                  (flat_map miss (firsts (m - 1))) p fams
                  (pa_inds _ _ _ _ _ I) (pa_olds _ _ _ _ _ I) (pa_room _ _ _ _ _ I)
                  (skey_wide W famList ord Hp Hw m ltac:(lia))) as N.
    fold (skey m).
    destruct (newFamily W NumInd IndSort (skey m) (p, fams)) as [h|[p' fams']];
      cbn [bind].
    + destruct N as [-> N]. split; [reflexivity|].
      apply (miss_room m NumInd); [lia| |].
      * rewrite Efirsts. apply in_or_app. right. left. reflexivity.
      * rewrite Efirsts, flat_map_app, length_app. cbn [flat_map].
        rewrite app_nil_r.
        rewrite (pa_inds _ _ _ _ _ I), length_app,
          (sexOnly_length inds0 olds (pa_olds _ _ _ _ _ I)) in N. lia.
    + destruct N as [-> (olds' & M)]. exists olds'.
      destruct (passed_grow (firsts (m - 1)) (skey m) p p' olds olds'
                  (pa_inds _ _ _ _ _ I) (pa_olds _ _ _ _ _ I)
                  (pa_idFam _ _ _ _ _ I) (pa_idNew _ _ _ _ _ I)
                  (pa_fou _ _ _ _ _ I) (pa_redo _ _ _ _ _ I)
                  (pa_fa _ _ _ _ _ I) (pa_mo _ _ _ _ _ I) (pa_rest _ _ _ _ _ I) M)
        as (G1 & G2 & G3 & G4 & G5 & G6 & G7 & G8).
      constructor; replace (S m - 1) with m by lia; rewrite ?Efirsts;
        try assumption.
      * apply (fm_olds _ _ _ _ _ _ _ _ _ M).
      * apply (fm_room _ _ _ _ _ _ _ _ _ M).
      * rewrite map_app, (pa_fams _ _ _ _ _ I). reflexivity.
      * apply (Hndx (fams ++ [famOfKey (skey m)])); [|reflexivity].
        rewrite Efirsts, !length_app, Hfl. reflexivity.
  - (* the key of the place before *)
    cbn [bind]. exists olds.
    constructor; replace (S m - 1) with m by lia;
      rewrite ?Efirsts, ?app_nil_r; try apply I.
    apply (Hndx fams); [|reflexivity].
    rewrite Efirsts, app_nil_r, (pa_fams _ _ _ _ _ I), length_map. reflexivity.
Qed.

(** The families made, or no room in [IndArray]. *)
Lemma pass_spec (famndx0 : Arr) (wl : list Warning) :
  0 < nfam ->
  match
    '(p, FamArray) <-
       newFamily W NumInd IndSort (valAt famList (ord 0%Z))
         ({| IndArray := inds0; idFam := idFam0; NumFou := NumFou0;
             redo := false; WrnLog := wl |}, []) ;;
    forM (famStep W NumInd IndSort famList ord) (List.seq 1 (nfam - 1))
         (p, FamArray, updZ famndx0 (ord 0%Z) 0%Z)
  with
  | inl h => noRoom h
  | inr s => passedAt nfam s
  end.
Proof.
  intros Hpos. pose proof (first_spec famndx0 wl Hpos) as F.
  change (valAt famList (ord 0%Z)) with (skey 0).
  destruct (newFamily W NumInd IndSort (skey 0) _) as [h|[p fams]]; cbn [bind];
    [exact F|].
  pose proof (forM_seq (famStep W NumInd IndSort famList ord) passedAt noRoom
                (nfam - 1) 1 (p, fams, updZ famndx0 (ord 0%Z) 0%Z) F) as L.
  replace (1 + (nfam - 1)) with nfam in L by lia.
  apply L. intros m s Hm Hs. apply famStep_spec; [lia|exact Hs].
Qed.


End Pass.

(** *** The children of a family *)

Lemma find_seq_S (f : nat -> bool) (a n : nat) :
  find f (List.seq a (S n)) =
  match find f (List.seq a n) with
  | Some j => Some j
  | None => if f (a + n) then Some (a + n) else None
  end.
Proof.
  rewrite seq_S. generalize (List.seq a n) as l. intros l.
  induction l as [|x l IH]; cbn [app find].
  - destruct (f (a + n)); reflexivity.
  - destruct (f x); [reflexivity|exact IH].
Qed.

Lemma find_seq_some (f : nat -> bool) (n : nat) : forall a j,
  find f (List.seq a n) = Some j ->
  a <= j < a + n /\ f j = true /\ forall j', a <= j' < j -> f j' = false.
Proof.
  induction n as [|n IH]; intros a j; cbn [List.seq find]; [discriminate|].
  destruct (f a) eqn:E.
  - intros H. injection H as <-. split; [lia|]. split; [exact E|]. intros; lia.
  - intros H. destruct (IH _ _ H) as (H1 & H2 & H3).
    split; [lia|]. split; [exact H2|]. intros j' Hj'.
    destruct (Nat.eq_dec j' a) as [->|]; [exact E|apply H3; lia].
Qed.

Lemma find_seq_none (f : nat -> bool) (n : nat) : forall a,
  find f (List.seq a n) = None -> forall j, a <= j < a + n -> f j = false.
Proof.
  intros a H j Hj. apply (find_none f _ H). apply in_seq. exact Hj.
Qed.

Lemma filter_seq_snoc (f : nat -> bool) (a n : nat) :
  filter f (List.seq a (S n)) =
  filter f (List.seq a n) ++ (if f (a + n) then [a + n] else []).
Proof.
  rewrite seq_S, filter_app. cbn [filter]. destruct (f (a + n)); reflexivity.
Qed.

Section Kids.

Variables (idFam famndx : Arr) (inds1 : list Ind) (fams1 : list Fam).

Local Abbreviation N := (List.length inds1).
Local Abbreviation F := (List.length fams1).

(** The family of the child [i], and whether [i] is a child. *)
Definition famOf (i : nat) : nat := Z.to_nat (famndx (idFam (Z.of_nat i))).
Definition child (i : nat) : bool := (idFam (Z.of_nat i) >=? 0)%Z.

Hypothesis Hsib : forall i, i < N -> sib (nth i inds1 noInd) = None.
Hypothesis Hkid : forall f, f < F -> kid1 (nth f fams1 noFam) = None.
Hypothesis Hrange : forall i, i < N -> child i = true -> famOf i < F.

(** [j] is a child of the family [f]. *)
Definition mate (f j : nat) : bool := child j && Nat.eqb (famOf j) f.

(** The children of [f] among the first [m] individuals; the first of
    them; the next one after [i] in the family of [i]. *)
Definition kids (m f : nat) : list nat := filter (mate f) (List.seq 0 m).
Definition firstKid (m f : nat) : option nat := find (mate f) (List.seq 0 m).
Definition after (m i : nat) : option nat :=
  find (mate (famOf i)) (List.seq (S i) (m - S i)).

(** The individual [i] and the family [f] when the first [m]
    individuals are done. *)
Definition indAfter (m i : nat) : Ind :=
  let r := nth i inds1 noInd in
  if Nat.ltb i m && child i
  then setFam (Some (famOf i)) (setSib (after m i) r)
  else r.

Definition famAfter (m f : nat) : Fam :=
  let F1 := nth f fams1 noFam in
  {| fa := fa F1; mo := mo F1; kid1 := firstKid m f; next := next F1;
     nkid := (nkid F1 + Z.of_nat (List.length (kids m f)))%Z;
     f_ped := f_ped F1 |}.

Definition kidInv (m : nat) (s : list Ind * list Fam) : Prop :=
  List.length (fst s) = N /\ List.length (snd s) = F /\
  (forall i, i < N -> nth i (fst s) noInd = indAfter m i) /\
  (forall f, f < F -> nth f (snd s) noFam = famAfter m f).

Lemma kidInv_start : kidInv 0 (inds1, fams1).
Proof.
  split; [reflexivity|]. split; [reflexivity|]. split.
  - intros i Hi. reflexivity.
  - intros f Hf. unfold famAfter, firstKid, kids.
    cbn [List.seq find filter List.length fst snd].
    pose proof (Hkid f Hf) as H. destruct (nth f fams1 noFam).
    cbn in *. subst. f_equal. lia.
Qed.

Lemma after_S (m i : nat) :
  i < m ->
  after (S m) i =
  match after m i with
  | Some j => Some j
  | None => if mate (famOf i) m then Some m else None
  end.
Proof.
  intros Hi. unfold after.
  replace (S m - S i) with (S (m - S i)) by lia.
  rewrite find_seq_S. replace (S i + (m - S i)) with m by lia. reflexivity.
Qed.

Lemma after_self (m : nat) : after (S m) m = None.
Proof. unfold after. rewrite Nat.sub_diag. reflexivity. Qed.

Lemma firstKid_S (m f : nat) :
  firstKid (S m) f =
  match firstKid m f with
  | Some j => Some j
  | None => if mate f m then Some m else None
  end.
Proof. unfold firstKid. rewrite find_seq_S. reflexivity. Qed.

Lemma kids_S (m f : nat) :
  kids (S m) f = kids m f ++ (if mate f m then [m] else []).
Proof. unfold kids. rewrite filter_seq_snoc. reflexivity. Qed.

(** The walk along the [sib] pointers ends at the child of the family
    that has no next one. *)
Lemma lastSib_spec (m f : nat) (inds : list Ind) :
  m <= N ->
  (forall i, i < m -> mate f i = true -> sib (nth i inds noInd) = after m i) ->
  forall fuel i, i < m -> mate f i = true -> m - i <= fuel ->
  exists z, lastSib fuel inds i = Some z /\ i <= z < m /\ mate f z = true /\
            after m z = None.
Proof.
  intros Hm Hs. induction fuel as [|fuel IH]; intros i Hi Hf Hfuel; [lia|].
  cbn [lastSib]. rewrite (Hs i Hi Hf).
  destruct (after m i) as [j|] eqn:E.
  - unfold after in E. apply find_seq_some in E. destruct E as (H1 & H2 & _).
    assert (Ef : famOf i = f).
    { unfold mate in Hf. apply andb_true_iff in Hf. destruct Hf as [_ Hf].
      apply Nat.eqb_eq in Hf. exact Hf. }
    rewrite Ef in H2.
    destruct (IH j ltac:(lia) H2 ltac:(lia)) as (z & Hz & Hr & Hmz & Hlast).
    exists z. split; [exact Hz|]. split; [lia|]. auto.
  - exists i. split; [reflexivity|]. split; [lia|]. auto.
Qed.

Lemma last_unique (m f i z : nat) :
  i < m -> z < m -> mate f i = true -> mate f z = true ->
  after m i = None -> after m z = None -> i = z.
Proof.
  intros Hi Hz Mi Mz Ai Az.
  assert (Ei : famOf i = f).
  { unfold mate in Mi. apply andb_true_iff in Mi. destruct Mi as [_ Mi].
    apply Nat.eqb_eq in Mi. exact Mi. }
  assert (Ez : famOf z = f).
  { unfold mate in Mz. apply andb_true_iff in Mz. destruct Mz as [_ Mz].
    apply Nat.eqb_eq in Mz. exact Mz. }
  destruct (Nat.lt_trichotomy i z) as [H|[H|H]]; [exfalso|exact H|exfalso].
  - unfold after in Ai. pose proof (find_seq_none _ _ _ Ai z ltac:(lia)) as C.
    rewrite Ei, Mz in C. discriminate.
  - unfold after in Az. pose proof (find_seq_none _ _ _ Az i ltac:(lia)) as C.
    rewrite Ez, Mi in C. discriminate.
Qed.

Lemma setSib_none (r : Ind) : sib r = None -> setSib None r = r.
Proof. destruct r. cbn. intros ->. reflexivity. Qed.

Lemma mate_fam (f j : nat) : mate f j = true -> child j = true /\ famOf j = f.
Proof.
  unfold mate. intros H. apply andb_true_iff in H. destruct H as [H1 H2].
  apply Nat.eqb_eq in H2. auto.
Qed.

Lemma indAfter_other (m i : nat) :
  i <> m -> (i < m -> child i = true -> after (S m) i = after m i) ->
  indAfter (S m) i = indAfter m i.
Proof.
  intros Hne H. unfold indAfter.
  destruct (Nat.ltb_spec i m), (Nat.ltb_spec i (S m)); try lia; [|reflexivity].
  destruct (child i); cbn [andb]; [|reflexivity]. rewrite H; auto.
Qed.

Lemma indAfter_self (m : nat) :
  m < N -> child m = true ->
  indAfter (S m) m = setFam (Some (famOf m)) (nth m inds1 noInd).
Proof.
  intros Hm Hc. unfold indAfter.
  destruct (Nat.ltb_spec m (S m)); [|lia]. rewrite Hc. cbn [andb].
  rewrite after_self, setSib_none by (apply Hsib, Hm). reflexivity.
Qed.

Lemma indAfter_before (m i : nat) :
  i < m -> child i = true ->
  indAfter m i = setFam (Some (famOf i)) (setSib (after m i) (nth i inds1 noInd)).
Proof.
  intros Hi Hc. unfold indAfter.
  destruct (Nat.ltb_spec i m); [|lia]. rewrite Hc. reflexivity.
Qed.

Lemma indAfter_later (m i : nat) : m <= i -> indAfter m i = nth i inds1 noInd.
Proof.
  intros Hi. unfold indAfter. destruct (Nat.ltb_spec i m); [lia|reflexivity].
Qed.

Lemma famAfter_other (m g : nat) :
  mate g m = false -> famAfter (S m) g = famAfter m g.
Proof.
  intros H. unfold famAfter. rewrite firstKid_S, kids_S, H, app_nil_r.
  destruct (firstKid m g); reflexivity.
Qed.

Lemma famAfter_same (m f : nat) :
  mate f m = true ->
  famAfter (S m) f =
  addKid (match firstKid m f with Some j => Some j | None => Some m end)
         (famAfter m f).
Proof.
  intros H. unfold famAfter, addKid. rewrite firstKid_S, kids_S, H, length_app.
  cbn [fa mo kid1 next nkid f_ped List.length]. f_equal. lia.
Qed.

Lemma kidStep_spec (m : nat) (s : list Ind * list Fam) :
  m < N -> kidInv m s ->
  match kidStep idFam famndx s m with
  | inl _ => False
  | inr s' => kidInv (S m) s'
  end.
Proof.
  destruct s as [inds fams]. intros Hm (HL1 & HL2 & HI & HF).
  cbn [fst snd] in *. unfold kidStep.
  change (idFam (Z.of_nat m) >=? 0)%Z with (child m).
  change (Z.to_nat (famndx (idFam (Z.of_nat m)))) with (famOf m).
  destruct (child m) eqn:Hc.
  - (* a child *)
    pose proof (Hrange m Hm Hc) as Hf.
    set (f := famOf m) in *.
    assert (Mm : mate f m = true)
      by (unfold mate; rewrite Hc; apply Nat.eqb_eq; reflexivity).
    assert (Mg : forall g, g <> f -> mate g m = false).
    { intros g Hg. unfold mate. rewrite Hc. cbn [andb].
      apply Nat.eqb_neq. fold f. congruence. }
    rewrite (HF f Hf). cbn [famAfter kid1].
    assert (Hfams : forall first,
              first = match firstKid m f with Some j => Some j | None => Some m end ->
              forall g, g < F ->
              nth g (setAt fams f (addKid first)) noFam = famAfter (S m) g).
    { intros first -> g Hg. destruct (Nat.eq_dec g f) as [->|Hne].
      - rewrite setAt_same by lia. rewrite (HF f Hf), famAfter_same by exact Mm.
        reflexivity.
      - rewrite setAt_other by exact Hne. rewrite (HF g Hg).
        symmetry. apply famAfter_other, Mg, Hne. }
    assert (Hself : nth m (setAt inds m (setFam (Some f))) noInd = indAfter (S m) m).
    { rewrite setAt_same by lia. rewrite (HI m Hm), indAfter_later by lia.
      rewrite indAfter_self by assumption. reflexivity. }
    destruct (firstKid m f) as [k1|] eqn:Efirst.
    + (* the family has children already *)
      unfold firstKid in Efirst. apply find_seq_some in Efirst.
      destruct Efirst as (Hk1 & Mk1 & _).
      assert (Hsibs : forall i, i < m -> mate f i = true ->
                sib (nth i (setAt inds m (setFam (Some f))) noInd) = after m i).
      { intros i Hi Mi. rewrite setAt_other by lia.
        rewrite (HI i ltac:(lia)), indAfter_before;
          [reflexivity|exact Hi|apply (mate_fam f i Mi)]. }
      destruct (lastSib_spec m f (setAt inds m (setFam (Some f))) ltac:(lia) Hsibs
                  (S (List.length (setAt inds m (setFam (Some f))))) k1
                  ltac:(lia) Mk1 ltac:(rewrite setAt_length; lia))
        as (z & Ez & Hz & Mz & Az).
      rewrite Ez.
      split; [cbn [fst]; rewrite !setAt_length; exact HL1|].
      split; [cbn [snd]; rewrite setAt_length; exact HL2|].
      cbn [fst snd]. split; [|apply Hfams; reflexivity].
      intros i Hi.
      destruct (Nat.eq_dec i z) as [->|Hiz].
      * rewrite setAt_same by (rewrite setAt_length; lia).
        rewrite setAt_other by lia. rewrite (HI z Hi).
        destruct (mate_fam f z Mz) as [Cz Fz].
        rewrite indAfter_before by (lia || assumption).
        rewrite (indAfter_before (S m) z) by (lia || assumption).
        rewrite after_S by lia. rewrite Az, Fz, Mm. reflexivity.
      * rewrite setAt_other by exact Hiz.
        destruct (Nat.eq_dec i m) as [->|Him]; [exact Hself|].
        rewrite setAt_other by exact Him. rewrite (HI i Hi).
        symmetry. apply indAfter_other; [exact Him|].
        intros Hlt Ci. rewrite after_S by exact Hlt.
        destruct (after m i) as [j|] eqn:Ai; [reflexivity|].
        destruct (mate (famOf i) m) eqn:Mi; [exfalso|reflexivity].
        destruct (mate_fam _ _ Mi) as [_ Fi]. fold f in Fi.
        apply Hiz. apply (last_unique m f); try assumption; try lia.
        unfold mate. rewrite Ci. apply Nat.eqb_eq. congruence.
    + (* the first child of the family *)
      split; [cbn [fst]; rewrite setAt_length; exact HL1|].
      split; [cbn [snd]; rewrite setAt_length; exact HL2|].
      cbn [fst snd]. split; [|apply Hfams; reflexivity].
      intros i Hi.
      destruct (Nat.eq_dec i m) as [->|Him]; [exact Hself|].
      rewrite setAt_other by exact Him. rewrite (HI i Hi).
      symmetry. apply indAfter_other; [exact Him|].
      intros Hlt Ci. rewrite after_S by exact Hlt.
      destruct (after m i) as [j|] eqn:Ai; [reflexivity|].
      destruct (mate (famOf i) m) eqn:Mi; [exfalso|reflexivity].
      destruct (mate_fam _ _ Mi) as [_ Fi]. fold f in Fi.
      unfold firstKid in Efirst.
      pose proof (find_seq_none _ _ _ Efirst i ltac:(lia)) as C.
      unfold mate in C. rewrite Ci in C. cbn [andb] in C.
      apply Nat.eqb_neq in C. congruence.
  - (* not a child *)
    assert (Mg : forall g, mate g m = false)
      by (intros g; unfold mate; rewrite Hc; reflexivity).
    split; [exact HL1|]. split; [exact HL2|]. cbn [fst snd]. split.
    + intros i Hi. rewrite (HI i Hi).
      destruct (Nat.eq_dec i m) as [->|Him].
      * rewrite indAfter_later by lia. unfold indAfter. rewrite Hc.
        rewrite andb_false_r. reflexivity.
      * symmetry. apply indAfter_other; [exact Him|].
        intros Hlt Ci. rewrite after_S by exact Hlt. rewrite Mg.
        destruct (after m i); reflexivity.
    + intros g Hg. rewrite (HF g Hg). symmetry. apply famAfter_other, Mg.
Qed.

(** The last loop returns, with every child linked. *)
Lemma kids_spec :
  match forM (kidStep idFam famndx) (List.seq 0 N) (inds1, fams1) with
  | inl _ => False
  | inr s => kidInv N s
  end.
Proof.
  apply (forM_seq (kidStep idFam famndx) kidInv (fun _ => False) N 0
           (inds1, fams1) kidInv_start).
  intros m s Hm Hs. apply kidStep_spec; [lia|exact Hs].
Qed.

End Kids.

(** *** The whole call *)

Lemma sexOnly_nth (inds0 olds : list Ind) (i : nat) :
  sexOnly inds0 olds ->
  setSex 0 (nth i olds noInd) = setSex 0 (nth i inds0 noInd).
Proof.
  intros H.
  pose proof (map_nth (setSex 0) olds noInd i) as E1.
  pose proof (map_nth (setSex 0) inds0 noInd i) as E2.
  rewrite <- E1, <- E2, H. reflexivity.
Qed.

Section Main.

Variables (W : nat) (famList : list string) (IndSort ord0 famndx0 : Arr).
Variables (ErrCnt : nat) (inds : list Ind) (idFam0 : Arr) (NumFou0 : Z).
Variable WrnLog0 : list Warning.

Local Abbreviation NumInd := (List.length inds).
Local Abbreviation nfam := (List.length famList).

Hypothesis HW : 0 < W.
Hypothesis Hperm : perm (Z.of_nat NumInd) IndSort.
Hypothesis Hord : ordered (map id inds) false IndSort.
Hypothesis Hw : forall k, k < nfam -> W <= String.length (nth k famList EmptyString).
Hypothesis Hc : forall k, k < nfam -> cstring (nth k famList EmptyString) = true.
Hypothesis Hroom : (Z.of_nat NumInd <= MAXIND)%Z.
Hypothesis Hn : (Z.of_nat nfam <= MAXFAM)%Z.
Hypothesis Hsib0 : forall i, i < NumInd -> sib (nth i inds noInd) = None.
Hypothesis Hin : forall i, i < NumInd ->
  (0 <= idFam0 (Z.of_nat i))%Z -> (idFam0 (Z.of_nat i) < Z.of_nat nfam)%Z.

Local Abbreviation run :=
  (makeFams W famList IndSort ord0 famndx0 ErrCnt inds idFam0 NumFou0 WrnLog0).

Lemma makeFams_run :
  0 < nfam ->
  run = inl QSortStack \/
  exists ord,
    perm (Z.of_nat nfam) ord /\ ordered famList false ord /\
    match run with
    | inl h =>
        noRoom W inds IndSort famList ord h \/
        (ErrCnt <> 0 /\ h = DataErrors ErrCnt ERRFILE)
    | inr (Again p) =>
        ErrCnt = 0 /\ redo p = true /\
        exists FamArray famndx olds,
          passed W inds IndSort famList ord idFam0 NumFou0 nfam p FamArray famndx olds
    | inr (Built p' FamArray') =>
        ErrCnt = 0 /\
        exists p FamArray famndx,
          passed W inds IndSort famList ord idFam0 NumFou0 nfam p FamArray famndx
                 (IndArray p) /\
          redo p = false /\ List.length (IndArray p) = NumInd /\
          kidInv (idFam p) famndx (IndArray p) FamArray NumInd
                 (IndArray p', FamArray') /\
          idFam p' = idFam p /\ NumFou p' = NumFou p /\ WrnLog p' = WrnLog p
    end.
Proof.
  intros Hpos. unfold makeFams.
  destruct (Nat.eqb_spec nfam 0) as [|_]; [lia|].
  destruct (qSortFit_index famList (2 * Z.of_nat W) false ord0 ltac:(lia))
    as [E|(ord & E & Hp & Ho)]; rewrite E; [left; reflexivity|].
  right. exists ord. split; [exact Hp|]. split; [exact Ho|].
  pose proof (pass_spec W inds IndSort famList ord idFam0 NumFou0 Hperm Hord Hp Hw
                Hroom Hn famndx0 WrnLog0 Hpos) as P.
  destruct (newFamily W NumInd IndSort (valAt famList (ord 0%Z)) _)
    as [h|[p1 fams1]]; cbn [bind] in *; [left; exact P|].
  destruct (forM (famStep W NumInd IndSort famList ord) _ _)
    as [h|[[p fams] famndx]]; cbn [bind] in *; [left; exact P|].
  destruct P as (olds & I).
  destruct (Nat.eqb_spec ErrCnt 0) as [E0|E0]; cbn [negb];
    [|right; split; [exact E0|reflexivity]].
  destruct (redo p) eqn:Eredo.
  - split; [exact E0|]. split; [exact Eredo|]. exists fams, famndx, olds. exact I.
  - assert (Enil : flat_map (miss W inds IndSort) (firsts famList ord (nfam - 1)) = []).
    { pose proof (pa_redo _ _ _ _ _ _ _ _ _ _ _ _ I) as R. rewrite Eredo in R.
      destruct (flat_map _ _); [reflexivity|discriminate]. }
    assert (Eolds : IndArray p = olds).
    { rewrite (pa_inds _ _ _ _ _ _ _ _ _ _ _ _ I), Enil, app_nil_r. reflexivity. }
    subst olds.
    pose proof (sexOnly_length inds (IndArray p) (pa_olds _ _ _ _ _ _ _ _ _ _ _ _ I)) as HL.
    assert (K1 : forall i, i < List.length (IndArray p) ->
              sib (nth i (IndArray p) noInd) = None).
    { intros i Hi.
      pose proof (sexOnly_nth inds (IndArray p) i (pa_olds _ _ _ _ _ _ _ _ _ _ _ _ I)) as S.
      apply (f_equal sib) in S. cbn [sib setSex] in S. rewrite S.
      apply Hsib0. lia. }
    assert (K2 : forall f, f < List.length fams -> kid1 (nth f fams noFam) = None).
    { intros f Hf. rewrite (pa_fams _ _ _ _ _ _ _ _ _ _ _ _ I).
      rewrite (nth_indep _ noFam (famOfKey W inds IndSort EmptyString))
        by (rewrite <- (pa_fams _ _ _ _ _ _ _ _ _ _ _ _ I); exact Hf).
      rewrite map_nth. reflexivity. }
    assert (K3 : forall i, i < List.length (IndArray p) ->
              child (idFam p) i = true ->
              famOf (idFam p) famndx i < List.length fams).
    { intros i Hi Ci. unfold child in Ci. apply Z.geb_le in Ci.
      rewrite (pa_idFam _ _ _ _ _ _ _ _ _ _ _ _ I) in Ci by lia.
      pose proof (Hin i ltac:(lia) Ci) as Hlt.
      destruct (place famList ord Hp (Z.to_nat (idFam0 (Z.of_nat i))) ltac:(lia))
        as (q & Hq & Eq & _).
      rewrite Z2Nat.id in Eq by lia.
      unfold famOf. rewrite (pa_idFam _ _ _ _ _ _ _ _ _ _ _ _ I) by lia.
      rewrite <- Eq, (pa_ndx _ _ _ _ _ _ _ _ _ _ _ _ I q Hq), Nat2Z.id.
      rewrite (pa_fams _ _ _ _ _ _ _ _ _ _ _ _ I), length_map.
      pose proof (grp_mono famList ord q (nfam - 1) ltac:(lia)).
      pose proof (firsts_length famList ord (nfam - 1)).
      rewrite grp_def in *. rewrite (grp_def famList ord (nfam - 1)) in *. lia. }
    pose proof (kids_spec (idFam p) famndx (IndArray p) fams K1 K2 K3) as K.
    rewrite HL in K.
    destruct (forM (kidStep (idFam p) famndx) (List.seq 0 (List.length (IndArray p))) _)
      as [h|[inds' fams']] eqn:EK; rewrite HL in EK; rewrite EK in K; cbn [bind];
      [contradiction|].
    split; [exact E0|]. exists p, fams, famndx.
    split; [exact I|]. split; [exact Eredo|]. split; [exact HL|].
    split; [exact K|]. cbn. auto.
Qed.

(** The key of the family [k] of [famList]. *)
Definition famKey (k : nat) : string := nth k famList EmptyString.

(** A parent named in the key [k] has no record. *)
Definition unknownParent (k : nat) : Prop :=
  absent inds (faOf W (famKey k)) \/ absent inds (moOf W (famKey k)).

Local Abbreviation here := (here inds IndSort).
Local Abbreviation miss := (miss W inds IndSort).

Lemma here_absent (key : string) : absent inds key -> here key = None.
Proof.
  intros A. destruct (here key) as [x|] eqn:E; [exfalso|reflexivity].
  destruct (here_some inds IndSort Hperm Hord key x E) as [Hx Hs].
  apply (A x Hx Hs).
Qed.

Lemma miss_nil (key : string) :
  miss key = [] <-> ~ absent inds (faOf W key) /\ ~ absent inds (moOf W key).
Proof.
  unfold Families.miss. split.
  - intros H. apply app_eq_nil in H. destruct H as [H1 H2].
    split; intros A; apply here_absent in A; rewrite A in *; discriminate.
  - intros [H1 H2].
    destruct (here (faOf W key)) eqn:E1;
      [|exfalso; apply H1, (here_none inds IndSort Hperm Hord), E1].
    destruct (here (moOf W key)) eqn:E2;
      [|exfalso; apply H2, (here_none inds IndSort Hperm Hord), E2].
    reflexivity.
Qed.

Lemma flat_map_nil {A B : Type} (f : A -> list B) (l : list A) :
  flat_map f l = [] <-> forall x, In x l -> f x = [].
Proof.
  induction l as [|a l IH]; cbn [flat_map]; split.
  - intros _ x [].
  - reflexivity.
  - intros H. apply app_eq_nil in H. destruct H as [H1 H2].
    intros x [<-|Hx]; [exact H1|apply IH; assumption].
  - intros H. rewrite (H a (or_introl eq_refl)).
    apply IH. intros x Hx. apply H. right. exact Hx.
Qed.

Section Sorted.

Variable ord : Arr.
Hypothesis Hpos : 0 < nfam.
Hypothesis Hp : perm (Z.of_nat nfam) ord.

Lemma skey_famKey (q : nat) :
  q < nfam ->
  exists k, k < nfam /\ skey famList ord q = famKey k /\
            ord (Z.of_nat q) = Z.of_nat k.
Proof.
  intros Hq. pose proof (proj1 Hp (Z.of_nat q) ltac:(lia)) as Hr.
  exists (Z.to_nat (ord (Z.of_nat q))). split; [lia|].
  split; [reflexivity|]. rewrite Z2Nat.id by lia. reflexivity.
Qed.

Lemma added_nil :
  flat_map miss (firsts famList ord (nfam - 1)) = [] <->
  forall k, k < nfam -> ~ unknownParent k.
Proof.
  rewrite flat_map_nil. split.
  - intros H k Hk.
    destruct (place famList ord Hp k Hk) as (q & Hq & _ & Eq).
    pose proof (keys_firsts famList ord Hp Hc (nfam - 1) q ltac:(lia) ltac:(lia)) as Hin'.
    apply H in Hin'. apply miss_nil in Hin'. rewrite Eq in Hin'.
    intros [A|A]; tauto.
  - intros H key Hkey.
    destruct (firsts_keys famList ord (nfam - 1) key ltac:(lia) Hkey) as (q & Hq & ->).
    destruct (skey_famKey q ltac:(lia)) as (k & Hk & -> & _).
    apply miss_nil. specialize (H k Hk). unfold unknownParent in H. tauto.
Qed.

Lemma added_some :
  flat_map miss (firsts famList ord (nfam - 1)) <> [] ->
  exists k, k < nfam /\ unknownParent k.
Proof.
  intros H.
  destruct (flat_map miss (firsts famList ord (nfam - 1))) as [|a l] eqn:E;
    [contradiction|].
  assert (Hin' : In a (flat_map miss (firsts famList ord (nfam - 1))))
    by (rewrite E; left; reflexivity).
  apply in_flat_map in Hin'. destruct Hin' as (key & Hkey & Ha).
  destruct (firsts_keys famList ord (nfam - 1) key ltac:(lia) Hkey) as (q & Hq & ->).
  destruct (skey_famKey q ltac:(lia)) as (k & Hk & Ek & _).
  exists k. split; [exact Hk|]. rewrite Ek in Ha.
  unfold Families.miss in Ha. apply in_app_or in Ha. unfold unknownParent.
  destruct Ha as [Ha|Ha].
  - left. destruct (here (faOf W (famKey k))) eqn:E1; [destruct Ha|].
    apply (here_none inds IndSort Hperm Hord), E1.
  - right. destruct (here (moOf W (famKey k))) eqn:E1; [destruct Ha|].
    apply (here_none inds IndSort Hperm Hord), E1.
Qed.

End Sorted.

(** How the call ends. *)
Lemma makeFams_ends :
  ErrCnt = 0 ->
  match run with
  | inl h =>
      h = QSortStack \/
      (h = PastIndArray /\ exists k, k < nfam /\ unknownParent k)
  | inr (Again p) =>
      (exists k, k < nfam /\ unknownParent k) /\
      NumInd < List.length (IndArray p)
  | inr (Built p FamArray) =>
      (forall k, k < nfam -> ~ unknownParent k) /\
      List.length (IndArray p) = NumInd
  end.
Proof.
  intros E0.
  destruct (Nat.eq_dec nfam 0) as [Ez|Enz].
  { unfold makeFams. rewrite Ez. cbn [Nat.eqb IndArray].
    split; [intros k Hk; lia|reflexivity]. }
  destruct (makeFams_run ltac:(lia)) as [E|(ord & Hp & Ho & R)];
    [rewrite E; left; reflexivity|].
  destruct run as [h|[p|p' fams']].
  - destruct R as [[-> R]|[R _]]; [|contradiction].
    right. split; [reflexivity|].
    apply (added_some ord ltac:(lia) Hp). intros En. rewrite En in R.
    cbn [List.length] in R. lia.
  - destruct R as (_ & Eredo & fams & famndx & olds & I).
    pose proof (pa_redo _ _ _ _ _ _ _ _ _ _ _ _ I) as R. rewrite Eredo in R.
    assert (Hne : flat_map miss (firsts famList ord (nfam - 1)) <> []).
    { intros En. rewrite En in R. discriminate. }
    split; [apply (added_some ord ltac:(lia) Hp Hne)|].
    rewrite (pa_inds _ _ _ _ _ _ _ _ _ _ _ _ I), length_app,
      (sexOnly_length inds olds (pa_olds _ _ _ _ _ _ _ _ _ _ _ _ I)).
    destruct (flat_map miss (firsts famList ord (nfam - 1))); [contradiction|].
    cbn [List.length]. lia.
  - destruct R as (_ & p & fams & famndx & I & Eredo & HL & K & _).
    split.
    + apply (added_nil ord ltac:(lia) Hp).
      pose proof (pa_redo _ _ _ _ _ _ _ _ _ _ _ _ I) as R. rewrite Eredo in R.
      destruct (flat_map miss (firsts famList ord (nfam - 1))); [reflexivity|discriminate].
    + destruct K as (K1 & _). cbn [fst] in K1. rewrite K1. exact HL.
Qed.

(** The records added when the call returns 1. *)
Lemma makeFams_adds (p : People) :
  run = inr (Again p) ->
  exists olds added,
    IndArray p = olds ++ added /\ sexOnly inds olds /\ added <> [] /\
    (Z.of_nat (List.length (IndArray p)) <= MAXIND)%Z /\
    (forall a, In a added ->
       exists k, k < nfam /\
         ((a = newInd (faOf W (famKey k)) 1%Z /\ absent inds (faOf W (famKey k))) \/
          (a = newInd (moOf W (famKey k)) 2%Z /\ absent inds (moOf W (famKey k))))) /\
    (forall k, k < nfam ->
       (absent inds (faOf W (famKey k)) ->
        In (newInd (faOf W (famKey k)) 1%Z) added) /\
       (absent inds (moOf W (famKey k)) ->
        In (newInd (moOf W (famKey k)) 2%Z) added)) /\
    (forall i, i < NumInd -> idFam p (Z.of_nat i) = idFam0 (Z.of_nat i)) /\
    (forall i, NumInd <= i < List.length (IndArray p) ->
       idFam p (Z.of_nat i) = (-1)%Z) /\
    NumFou p = (NumFou0 + Z.of_nat (List.length added))%Z.
Proof.
  intros E.
  destruct (Nat.eq_dec nfam 0) as [Ez|Enz].
  { unfold makeFams in E. rewrite Ez in E. discriminate. }
  destruct (makeFams_run ltac:(lia)) as [E'|(ord & Hp & Ho & R)];
    [rewrite E in E'; discriminate|].
  rewrite E in R. destruct R as (_ & Eredo & fams & famndx & olds & I).
  exists olds, (flat_map miss (firsts famList ord (nfam - 1))).
  split; [apply (pa_inds _ _ _ _ _ _ _ _ _ _ _ _ I)|].
  split; [apply (pa_olds _ _ _ _ _ _ _ _ _ _ _ _ I)|].
  split.
  { pose proof (pa_redo _ _ _ _ _ _ _ _ _ _ _ _ I) as R. rewrite Eredo in R.
    intros En. rewrite En in R. discriminate. }
  split; [apply (pa_room _ _ _ _ _ _ _ _ _ _ _ _ I)|].
  split.
  { intros a Ha. apply in_flat_map in Ha. destruct Ha as (key & Hkey & Ha).
    destruct (firsts_keys famList ord (nfam - 1) key ltac:(lia) Hkey) as (q & Hq & ->).
    destruct (skey_famKey ord ltac:(lia) Hp q ltac:(lia)) as (k & Hk & Ek & _).
    exists k. split; [exact Hk|]. rewrite Ek in Ha.
    unfold Families.miss in Ha. apply in_app_or in Ha. destruct Ha as [Ha|Ha].
    - left. destruct (here (faOf W (famKey k))) eqn:E1; [destruct Ha|].
      destruct Ha as [<-|[]]. split; [reflexivity|].
      apply (here_none inds IndSort Hperm Hord), E1.
    - right. destruct (here (moOf W (famKey k))) eqn:E1; [destruct Ha|].
      destruct Ha as [<-|[]]. split; [reflexivity|].
      apply (here_none inds IndSort Hperm Hord), E1. }
  split.
  { intros k Hk.
    destruct (place famList ord Hp k Hk) as (q & Hq & _ & Eq).
    pose proof (keys_firsts famList ord Hp Hc (nfam - 1) q ltac:(lia) ltac:(lia)) as Hin'.
    rewrite Eq in Hin'. fold (famKey k) in Hin'.
    split; intros A; apply here_absent in A; apply in_flat_map;
      exists (famKey k); (split; [exact Hin'|]); unfold Families.miss; rewrite A;
      apply in_or_app; [left|right]; left; reflexivity. }
  split.
  { intros i Hi. apply (pa_idFam _ _ _ _ _ _ _ _ _ _ _ _ I). lia. }
  split.
  { intros i Hi. apply (pa_idNew _ _ _ _ _ _ _ _ _ _ _ _ I). lia. }
  apply (pa_fou _ _ _ _ _ _ _ _ _ _ _ _ I).
Qed.

(** The family of an individual, by its entry of [idFam]. *)
Lemma makeFams_links (p' : People) (FamArray : list Fam) :
  run = inr (Built p' FamArray) ->
  List.length (IndArray p') = NumInd /\
  (forall i, i < NumInd ->
     setSex 0 (setFam None (setSib None (nth i (IndArray p') noInd)))
     = setSex 0 (setFam None (setSib None (nth i inds noInd)))) /\
  (forall i, i < NumInd -> (idFam0 (Z.of_nat i) < 0)%Z ->
     fam (nth i (IndArray p') noInd) = fam (nth i inds noInd)) /\
  (forall i, i < NumInd -> (0 <= idFam0 (Z.of_nat i))%Z ->
     exists f x y,
       fam (nth i (IndArray p') noInd) = Some f /\ f < List.length FamArray /\
       fa (nth f FamArray noFam) = Some x /\ mo (nth f FamArray noFam) = Some y /\
       x < NumInd /\ y < NumInd /\
       strcmp (faOf W (famKey (Z.to_nat (idFam0 (Z.of_nat i)))))
              (id (nth x inds noInd)) = 0%Z /\
       strcmp (moOf W (famKey (Z.to_nat (idFam0 (Z.of_nat i)))))
              (id (nth y inds noInd)) = 0%Z) /\
  (forall i j, i < NumInd -> j < NumInd ->
     (0 <= idFam0 (Z.of_nat i))%Z -> (0 <= idFam0 (Z.of_nat j))%Z ->
     (fam (nth i (IndArray p') noInd) = fam (nth j (IndArray p') noInd) <->
      famKey (Z.to_nat (idFam0 (Z.of_nat i)))
      = famKey (Z.to_nat (idFam0 (Z.of_nat j))))).
Proof.
  intros E.
  destruct (Nat.eq_dec nfam 0) as [Ez|Enz].
  { unfold makeFams in E. rewrite Ez in E. cbn [Nat.eqb] in E.
    injection E as <- <-. cbn [IndArray].
    split; [reflexivity|]. split; [reflexivity|]. split; [reflexivity|].
    split; intros i; intros; pose proof (Hin i); lia. }
  destruct (makeFams_run ltac:(lia)) as [E'|(ord & Hp & Ho & R)];
    [rewrite E in E'; discriminate|].
  rewrite E in R.
  destruct R as (_ & p & fams & famndx & I & Eredo & HL & (K1 & K2 & K3 & K4) & Eid & _).
  cbn [fst snd] in K1, K2, K3, K4. rewrite HL in K3.
  assert (Hchild : forall i, i < NumInd ->
            child (idFam p) i = (idFam0 (Z.of_nat i) >=? 0)%Z).
  { intros i Hi. unfold child.
    rewrite (pa_idFam _ _ _ _ _ _ _ _ _ _ _ _ I) by lia. reflexivity. }
  assert (Hfam : forall i, i < NumInd -> (0 <= idFam0 (Z.of_nat i))%Z ->
            exists q, q < nfam /\
              skey famList ord q = famKey (Z.to_nat (idFam0 (Z.of_nat i))) /\
              famOf (idFam p) famndx i = grp famList ord q /\
              nth i (IndArray p') noInd
              = setFam (Some (grp famList ord q))
                  (setSib (after (idFam p) famndx NumInd i)
                          (nth i (IndArray p) noInd))).
  { intros i Hi Hc'.
    pose proof (Hin i Hi Hc') as Hlt.
    destruct (place famList ord Hp (Z.to_nat (idFam0 (Z.of_nat i))) ltac:(lia))
      as (q & Hq & Eq & Ek).
    rewrite Z2Nat.id in Eq by lia.
    exists q. split; [exact Hq|]. split; [exact Ek|].
    assert (Ef : famOf (idFam p) famndx i = grp famList ord q).
    { unfold famOf. rewrite (pa_idFam _ _ _ _ _ _ _ _ _ _ _ _ I) by lia.
      rewrite <- Eq, (pa_ndx _ _ _ _ _ _ _ _ _ _ _ _ I q Hq), Nat2Z.id. reflexivity. }
    split; [exact Ef|].
    rewrite (K3 i Hi). unfold indAfter.
    destruct (Nat.ltb_spec i NumInd) as [_|]; [|lia].
    rewrite (Hchild i Hi). destruct (Z.geb_spec (idFam0 (Z.of_nat i)) 0) as [_|]; [|lia].
    cbn [andb]. rewrite Ef. reflexivity. }
  assert (Enil : forall key, In key (firsts famList ord (nfam - 1)) -> miss key = []).
  { apply flat_map_nil.
    pose proof (pa_redo _ _ _ _ _ _ _ _ _ _ _ _ I) as R. rewrite Eredo in R.
    destruct (flat_map miss (firsts famList ord (nfam - 1))); [reflexivity|discriminate]. }
  split; [rewrite K1; exact HL|].
  split.
  { intros i Hi.
    pose proof (sexOnly_nth inds (IndArray p) i (pa_olds _ _ _ _ _ _ _ _ _ _ _ _ I)) as S.
    rewrite (K3 i Hi). unfold indAfter.
    destruct (Nat.ltb i NumInd && child (idFam p) i).
    - change (setSex 0 (setFam None (setSib None
               (setFam (Some (famOf (idFam p) famndx i))
                  (setSib (after (idFam p) famndx NumInd i)
                     (nth i (IndArray p) noInd))))))
        with (setFam None (setSib None (setSex 0 (nth i (IndArray p) noInd)))).
      rewrite S. reflexivity.
    - change (setSex 0 (setFam None (setSib None (nth i (IndArray p) noInd))))
        with (setFam None (setSib None (setSex 0 (nth i (IndArray p) noInd)))).
      rewrite S. reflexivity. }
  split.
  { intros i Hi Hneg.
    pose proof (sexOnly_nth inds (IndArray p) i (pa_olds _ _ _ _ _ _ _ _ _ _ _ _ I)) as S.
    apply (f_equal fam) in S. cbn [fam setSex] in S.
    rewrite (K3 i Hi). unfold indAfter. rewrite (Hchild i Hi).
    destruct (Z.geb_spec (idFam0 (Z.of_nat i)) 0) as [|_]; [lia|].
    rewrite andb_false_r. exact S. }
  split.
  { intros i Hi Hc'.
    destruct (Hfam i Hi Hc') as (q & Hq & Ek & Ef & Ei).
    pose proof (keys_firsts famList ord Hp Hc (nfam - 1) q ltac:(lia) ltac:(lia)) as Hkey.
    pose proof (Enil _ Hkey) as Em. apply miss_nil in Em. destruct Em as [Em1 Em2].
    pose proof (firsts_length famList ord (nfam - 1)) as HFL.
    pose proof (grp_mono famList ord q (nfam - 1) ltac:(lia)) as Hg.
    assert (Hf : grp famList ord q < List.length fams).
    { rewrite (pa_fams _ _ _ _ _ _ _ _ _ _ _ _ I), length_map.
      rewrite grp_def in *. rewrite (grp_def famList ord (nfam - 1)) in Hg. lia. }
    assert (EF : nth (grp famList ord q) fams noFam
                 = famOfKey W inds IndSort (skey famList ord q)).
    { rewrite (pa_fams _ _ _ _ _ _ _ _ _ _ _ _ I).
      rewrite (nth_indep _ noFam (famOfKey W inds IndSort EmptyString))
        by (rewrite length_map; rewrite (pa_fams _ _ _ _ _ _ _ _ _ _ _ _ I), length_map in Hf;
            exact Hf).
      rewrite map_nth, (firsts_nth famList ord Hp Hc (nfam - 1) q) by lia.
      reflexivity. }
    destruct (here (faOf W (skey famList ord q))) as [x|] eqn:Ex;
      [|exfalso; apply Em1, (here_none inds IndSort Hperm Hord), Ex].
    destruct (here (moOf W (skey famList ord q))) as [y|] eqn:Ey;
      [|exfalso; apply Em2, (here_none inds IndSort Hperm Hord), Ey].
    destruct (here_some inds IndSort Hperm Hord _ _ Ex) as [Hx Sx].
    destruct (here_some inds IndSort Hperm Hord _ _ Ey) as [Hy Sy].
    exists (grp famList ord q), x, y.
    split; [rewrite Ei; reflexivity|].
    split; [rewrite K2; exact Hf|].
    rewrite (K4 _ Hf). unfold famAfter. cbn [fa mo]. rewrite EF.
    unfold famOfKey. cbn [fa mo].
    split; [exact Ex|]. split; [exact Ey|]. split; [exact Hx|]. split; [exact Hy|].
    rewrite <- Ek.
    rewrite (nth_indep _ EmptyString (id noInd)) in Sx
      by (rewrite length_map; assumption).
    rewrite (nth_indep _ EmptyString (id noInd)) in Sy
      by (rewrite length_map; assumption).
    rewrite map_nth in Sx. rewrite map_nth in Sy. split; assumption. }
  intros i j Hi Hj Ci Cj.
  destruct (Hfam i Hi Ci) as (q & Hq & Ek & _ & Ei).
  destruct (Hfam j Hj Cj) as (q' & Hq' & Ek' & _ & Ej).
  rewrite Ei, Ej, <- Ek, <- Ek'. cbn [fam setFam].
  rewrite <- (grp_equal famList ord Hp Ho Hc q q' Hq Hq').
  split; [intros H; injection H as H; exact H|intros ->; reflexivity].
Qed.

Lemma find_ext_in {A : Type} (f g : A -> bool) (l : list A) :
  (forall x, In x l -> f x = g x) -> find f l = find g l.
Proof.
  induction l as [|a l IH]; intros H; cbn [find]; [reflexivity|].
  rewrite (H a (or_introl eq_refl)). destruct (g a); [reflexivity|].
  apply IH. intros x Hx. apply H. right. exact Hx.
Qed.

(** What the last loop leaves, kept for the lemmas below. *)
Lemma makeFams_built (p' : People) (FamArray : list Fam) :
  0 < nfam -> run = inr (Built p' FamArray) ->
  exists ord p fams famndx,
    perm (Z.of_nat nfam) ord /\ ordered famList false ord /\
    passed W inds IndSort famList ord idFam0 NumFou0 nfam p fams famndx (IndArray p) /\
    List.length (IndArray p) = NumInd /\
    List.length FamArray = List.length fams /\
    (forall key, In key (firsts famList ord (nfam - 1)) ->
       exists x y, here (faOf W key) = Some x /\ here (moOf W key) = Some y) /\
    (forall i, i < NumInd ->
       nth i (IndArray p') noInd = indAfter (idFam p) famndx (IndArray p) NumInd i) /\
    (forall f, f < List.length fams ->
       nth f FamArray noFam = famAfter (idFam p) famndx fams NumInd f /\
       nth f fams noFam
       = famOfKey W inds IndSort (nth f (firsts famList ord (nfam - 1)) EmptyString)) /\
    (forall i, i < NumInd ->
       setSex 0 (nth i (IndArray p) noInd) = setSex 0 (nth i inds noInd)).
Proof.
  intros Hpos E.
  destruct (makeFams_run Hpos) as [E'|(ord & Hp & Ho & R)];
    [rewrite E in E'; discriminate|].
  rewrite E in R.
  destruct R as (_ & p & fams & famndx & I & Eredo & HL & (K1 & K2 & K3 & K4) & Eid & _).
  cbn [fst snd] in K1, K2, K3, K4. rewrite HL in K3.
  exists ord, p, fams, famndx.
  split; [exact Hp|]. split; [exact Ho|]. split; [exact I|]. split; [exact HL|].
  split; [exact K2|].
  split.
  { intros key Hkey.
    assert (Em : miss key = []).
    { revert key Hkey. apply flat_map_nil.
      pose proof (pa_redo _ _ _ _ _ _ _ _ _ _ _ _ I) as R. rewrite Eredo in R.
      destruct (flat_map miss (firsts famList ord (nfam - 1)));
        [reflexivity|discriminate]. }
    apply miss_nil in Em. destruct Em as [Em1 Em2].
    destruct (here (faOf W key)) as [x|] eqn:Ex;
      [|exfalso; apply Em1, (here_none inds IndSort Hperm Hord), Ex].
    destruct (here (moOf W key)) as [y|] eqn:Ey;
      [|exfalso; apply Em2, (here_none inds IndSort Hperm Hord), Ey].
    exists x, y. split; reflexivity. }
  split; [exact K3|].
  split.
  { intros f Hf. split; [apply K4, Hf|].
    rewrite (pa_fams _ _ _ _ _ _ _ _ _ _ _ _ I).
    rewrite (nth_indep _ noFam (famOfKey W inds IndSort EmptyString))
      by (rewrite <- (pa_fams _ _ _ _ _ _ _ _ _ _ _ _ I); exact Hf).
    apply map_nth. }
  intros i Hi. apply sexOnly_nth, (pa_olds _ _ _ _ _ _ _ _ _ _ _ _ I).
Qed.

(** [j] has the family [f]. *)
Definition inFam (l : list Ind) (f j : nat) : bool :=
  match fam (nth j l noInd) with
  | Some g => Nat.eqb g f
  | None => false
  end.

(** The children of a family, and the brothers and sisters. *)
Lemma makeFams_chains (p' : People) (FamArray : list Fam) :
  (forall i, i < NumInd -> fam (nth i inds noInd) = None) ->
  run = inr (Built p' FamArray) ->
  (forall f, f < List.length FamArray ->
     kid1 (nth f FamArray noFam)
     = find (inFam (IndArray p') f) (List.seq 0 NumInd) /\
     nkid (nth f FamArray noFam)
     = Z.of_nat (List.length (filter (inFam (IndArray p') f) (List.seq 0 NumInd)))) /\
  (forall i, i < NumInd ->
     sib (nth i (IndArray p') noInd) =
     match fam (nth i (IndArray p') noInd) with
     | Some f => find (inFam (IndArray p') f) (List.seq (S i) (NumInd - S i))
     | None => None
     end).
Proof.
  intros Hfam0 E.
  destruct (Nat.eq_dec nfam 0) as [Ez|Enz].
  { unfold makeFams in E. rewrite Ez in E. cbn [Nat.eqb] in E.
    injection E as <- <-. cbn [IndArray List.length].
    split; [intros f Hf; lia|].
    intros i Hi. rewrite (Hfam0 i Hi). apply Hsib0, Hi. }
  destruct (makeFams_built p' FamArray ltac:(lia) E)
    as (ord & p & fams & famndx & Hp & Ho & I & HL & HF & _ & K3 & K4 & S).
  assert (Hmate : forall f j, j < NumInd ->
            inFam (IndArray p') f j = mate (idFam p) famndx f j).
  { intros f j Hj. unfold inFam, mate. rewrite (K3 j Hj). unfold indAfter.
    destruct (Nat.ltb_spec j NumInd) as [_|]; [|lia].
    destruct (child (idFam p) j); cbn [andb fam setFam]; [reflexivity|].
    pose proof (f_equal fam (S j Hj)) as Sf. cbn [fam setSex] in Sf.
    rewrite Sf, (Hfam0 j Hj). reflexivity. }
  split.
  - intros f Hf. rewrite HF in Hf. destruct (K4 f Hf) as [-> EF].
    unfold famAfter. cbn [kid1 nkid]. rewrite EF. cbn [nkid famOfKey].
    unfold firstKid, kids. split.
    + apply find_ext_in. intros j Hj. apply in_seq in Hj.
      symmetry. apply Hmate. lia.
    + rewrite Z.add_0_l. f_equal. f_equal.
      apply filter_ext_in. intros j Hj. apply in_seq in Hj.
      symmetry. apply Hmate. lia.
  - intros i Hi. rewrite (K3 i Hi). unfold indAfter.
    destruct (Nat.ltb_spec i NumInd) as [_|]; [|lia].
    destruct (child (idFam p) i); cbn [andb fam sib setFam setSib].
    + unfold after. apply find_ext_in. intros j Hj. apply in_seq in Hj.
      symmetry. apply Hmate. lia.
    + pose proof (f_equal fam (S i Hi)) as Sf. cbn [fam setSex] in Sf.
      pose proof (f_equal sib (S i Hi)) as Ss. cbn [sib setSex] in Ss.
      rewrite Sf, Ss, (Hfam0 i Hi). apply Hsib0, Hi.
Qed.

(** The sex codes of the parents. *)
Lemma makeFams_sexes (p' : People) (FamArray : list Fam) :
  run = inr (Built p' FamArray) ->
  (forall f x, f < List.length FamArray ->
     (fa (nth f FamArray noFam) = Some x ->
      sex (nth x (IndArray p') noInd) = 1%Z \/
      (sex (nth x (IndArray p') noInd) = 2%Z /\
       exists g, g < List.length FamArray /\ mo (nth g FamArray noFam) = Some x)) /\
     (mo (nth f FamArray noFam) = Some x ->
      sex (nth x (IndArray p') noInd) = 2%Z \/
      (sex (nth x (IndArray p') noInd) = 1%Z /\
       exists g, g < List.length FamArray /\ fa (nth g FamArray noFam) = Some x))) /\
  (forall x, x < NumInd ->
     (forall f, f < List.length FamArray ->
        fa (nth f FamArray noFam) <> Some x /\ mo (nth f FamArray noFam) <> Some x) ->
     sex (nth x (IndArray p') noInd) = sex (nth x inds noInd)).
Proof.
  intros E.
  destruct (Nat.eq_dec nfam 0) as [Ez|Enz].
  { unfold makeFams in E. rewrite Ez in E. cbn [Nat.eqb] in E.
    injection E as <- <-. cbn [IndArray List.length].
    split; [intros f x Hf; lia|reflexivity]. }
  destruct (makeFams_built p' FamArray ltac:(lia) E)
    as (ord & p & fams & famndx & Hp & Ho & I & HL & HF & _ & K3 & K4 & S).
  set (l := firsts famList ord (nfam - 1)) in *.
  assert (HLf : List.length fams = List.length l)
    by (rewrite (pa_fams _ _ _ _ _ _ _ _ _ _ _ _ I), length_map; reflexivity).
  assert (Hsex : forall x, x < NumInd ->
            sex (nth x (IndArray p') noInd) = sex (nth x (IndArray p) noInd)).
  { intros x Hx. rewrite (K3 x Hx). unfold indAfter.
    destruct (Nat.ltb x NumInd && child (idFam p) x); reflexivity. }
  assert (Hfa : forall f, f < List.length fams ->
            fa (nth f FamArray noFam) = here (faOf W (nth f l EmptyString)) /\
            mo (nth f FamArray noFam) = here (moOf W (nth f l EmptyString))).
  { intros f Hf. destruct (K4 f Hf) as [-> EF]. unfold famAfter. cbn [fa mo].
    rewrite EF. split; reflexivity. }
  assert (isFa_iff : forall x, isFa W inds IndSort l x <->
            exists g, g < List.length FamArray /\ fa (nth g FamArray noFam) = Some x).
  { intros x. split.
    - intros (key & Hkey & Ex). apply (In_nth _ _ EmptyString) in Hkey.
      destruct Hkey as (g & Hg & <-). exists g. split; [lia|].
      rewrite (proj1 (Hfa g ltac:(lia))). exact Ex.
    - intros (g & Hg & Ex). exists (nth g l EmptyString).
      split; [apply nth_In; lia|].
      rewrite <- (proj1 (Hfa g ltac:(lia))). exact Ex. }
  assert (isMo_iff : forall x, isMo W inds IndSort l x <->
            exists g, g < List.length FamArray /\ mo (nth g FamArray noFam) = Some x).
  { intros x. split.
    - intros (key & Hkey & Ex). apply (In_nth _ _ EmptyString) in Hkey.
      destruct Hkey as (g & Hg & <-). exists g. split; [lia|].
      rewrite (proj2 (Hfa g ltac:(lia))). exact Ex.
    - intros (g & Hg & Ex). exists (nth g l EmptyString).
      split; [apply nth_In; lia|].
      rewrite <- (proj2 (Hfa g ltac:(lia))). exact Ex. }
  split.
  - intros f x Hf. split; intros Ex.
    + assert (Hx : x < NumInd).
      { rewrite (proj1 (Hfa f ltac:(lia))) in Ex.
        apply (here_some inds IndSort Hperm Hord _ _ Ex). }
      rewrite (Hsex x Hx).
      destruct (pa_fa _ _ _ _ _ _ _ _ _ _ _ _ I x) as [H1|[H1 H2]].
      * apply isFa_iff. exists f. auto.
      * left. exact H1.
      * right. split; [exact H1|]. apply isMo_iff, H2.
    + assert (Hx : x < NumInd).
      { rewrite (proj2 (Hfa f ltac:(lia))) in Ex.
        apply (here_some inds IndSort Hperm Hord _ _ Ex). }
      rewrite (Hsex x Hx).
      destruct (pa_mo _ _ _ _ _ _ _ _ _ _ _ _ I x) as [H1|[H1 H2]].
      * apply isMo_iff. exists f. auto.
      * left. exact H1.
      * right. split; [exact H1|]. apply isFa_iff, H2.
  - intros x Hx Hnone. rewrite (Hsex x Hx).
    rewrite (pa_rest _ _ _ _ _ _ _ _ _ _ _ _ I x); [reflexivity| |].
    + intros H. apply isFa_iff in H. destruct H as (g & Hg & Eg).
      apply (proj1 (Hnone g Hg)), Eg.
    + intros H. apply isMo_iff in H. destruct H as (g & Hg & Eg).
      apply (proj2 (Hnone g Hg)), Eg.
Qed.

(** The father's or the mother's half of a key. *)
Definition part (mother : bool) (key : string) : string :=
  if mother then moOf W key else faOf W key.

Lemma miss_part (mother : bool) (key : string) :
  absent inds (part mother key) ->
  In (newInd (part mother key) (if mother then 2 else 1)%Z) (miss key).
Proof.
  intros A. apply here_absent in A. unfold Families.miss. apply in_or_app.
  destruct mother; cbn [part] in *; rewrite A; [right|left]; left; reflexivity.
Qed.

Lemma two_in_app {A : Type} (L R : list A) (a b d : A) :
  In a L -> In b R ->
  exists i j, i < j < List.length (L ++ R) /\
              nth i (L ++ R) d = a /\ nth j (L ++ R) d = b.
Proof.
  intros Ha Hb.
  destruct (In_nth L a d Ha) as (i & Hi & Ei).
  destruct (In_nth R b d Hb) as (j & Hj & Ej).
  exists i, (List.length L + j). rewrite length_app. split; [lia|].
  split; [rewrite app_nth1 by lia; exact Ei|].
  rewrite app_nth2 by lia. replace (List.length L + j - List.length L) with j by lia.
  exact Ej.
Qed.

(** Two records with one id, when a parent without a record is named
    in two families, or as the father and the mother of one. *)
Lemma makeFams_dups (p : People) (k1 k2 : nat) (m1 m2 : bool) :
  run = inr (Again p) ->
  k1 < nfam -> k2 < nfam ->
  famKey k1 <> famKey k2 \/ m1 <> m2 ->
  part m1 (famKey k1) = part m2 (famKey k2) ->
  absent inds (part m1 (famKey k1)) ->
  exists i j, i < j < List.length (IndArray p) /\
    id (nth i (IndArray p) noInd) = id (nth j (IndArray p) noInd).
Proof.
  intros E Hk1 Hk2 Hdiff Epart A1.
  assert (A2 : absent inds (part m2 (famKey k2))) by (rewrite <- Epart; exact A1).
  destruct (makeFams_run ltac:(lia)) as [E'|(ord & Hp & Ho & R)];
    [rewrite E in E'; discriminate|].
  rewrite E in R. destruct R as (_ & _ & fams & famndx & olds & I).
  set (l := firsts famList ord (nfam - 1)) in *.
  assert (Hkey : forall k, k < nfam -> In (famKey k) l).
  { intros k Hk. destruct (place famList ord Hp k Hk) as (q & Hq & _ & Eq).
    unfold famKey. rewrite <- Eq.
    apply (keys_firsts famList ord Hp Hc); lia. }
  pose proof (miss_part m1 (famKey k1) A1) as M1.
  pose proof (miss_part m2 (famKey k2) A2) as M2.
  set (a1 := newInd (part m1 (famKey k1)) (if m1 then 2 else 1)%Z) in *.
  set (a2 := newInd (part m2 (famKey k2)) (if m2 then 2 else 1)%Z) in *.
  assert (Eid : id a1 = id a2) by exact Epart.
  assert (Hsplit : exists L R, IndArray p = L ++ R /\
            ((In a1 L /\ In a2 R) \/ (In a2 L /\ In a1 R))).
  { destruct (in_split _ _ (Hkey k1 Hk1)) as (l1 & l2 & El).
    assert (EI : IndArray p
                 = olds ++ flat_map miss l1 ++ miss (famKey k1) ++ flat_map miss l2).
    { rewrite (pa_inds _ _ _ _ _ _ _ _ _ _ _ _ I). fold l. rewrite El.
      rewrite flat_map_app. reflexivity. }
    destruct (string_dec (famKey k1) (famKey k2)) as [Ek|Nk].
    - (* the father and the mother of one family *)
      destruct Hdiff as [Hd|Hd]; [contradiction|].
      rewrite <- Ek in *.
      assert (Em : miss (famKey k1)
                   = [newInd (faOf W (famKey k1)) 1%Z; newInd (moOf W (famKey k1)) 2%Z]).
      { assert (Af : absent inds (faOf W (famKey k1)))
          by (destruct m1, m2; try contradiction; assumption).
        assert (Am : absent inds (moOf W (famKey k1)))
          by (destruct m1, m2; try contradiction; assumption).
        apply here_absent in Af, Am. unfold Families.miss. rewrite Af, Am.
        reflexivity. }
      exists (olds ++ flat_map miss l1 ++ [newInd (faOf W (famKey k1)) 1%Z]),
             (newInd (moOf W (famKey k1)) 2%Z :: flat_map miss l2).
      split; [rewrite EI, Em, <- !app_assoc; reflexivity|].
      subst a1 a2. clear M1 M2 Eid. rewrite <- ?Ek.
      destruct m1, m2; try contradiction; cbn [part]; [right|left]; split;
        try (apply in_or_app; right; apply in_or_app; right; left; reflexivity);
        left; reflexivity.
    - (* two families *)
      pose proof (Hkey k2 Hk2) as H2. fold l in H2. rewrite El in H2.
      apply in_app_or in H2. destruct H2 as [H2|[H2|H2]]; [|contradiction|].
      + exists (olds ++ flat_map miss l1), (miss (famKey k1) ++ flat_map miss l2).
        split; [rewrite EI, <- !app_assoc; reflexivity|]. right. split.
        * apply in_or_app. right. apply in_flat_map. exists (famKey k2). auto.
        * apply in_or_app. left. exact M1.
      + exists (olds ++ flat_map miss l1 ++ miss (famKey k1)), (flat_map miss l2).
        split; [rewrite EI, <- !app_assoc; reflexivity|]. left. split.
        * apply in_or_app. right. apply in_or_app. right. exact M1.
        * apply in_flat_map. exists (famKey k2). auto. }
  destruct Hsplit as (L & R & EI & [[H1 H2]|[H1 H2]]).
  - destruct (two_in_app L R a1 a2 noInd H1 H2) as (i & j & Hij & Ei & Ej).
    exists i, j. rewrite EI. split; [exact Hij|]. rewrite Ei, Ej. exact Eid.
  - destruct (two_in_app L R a2 a1 noInd H1 H2) as (i & j & Hij & Ei & Ej).
    exists i, j. rewrite EI. split; [exact Hij|]. rewrite Ei, Ej.
    symmetry. exact Eid.
Qed.

End Main.

(** *** After [sortInds] *)

(** What [getPedData] and the command line leave for [makeFams]: keys
    of a positive width [W], every key at least [W] characters long and
    without NUL, no more than [MAXIND] individuals and [MAXFAM] keys, no
    individual linked to a family or to a sibling yet, every entry of
    [idFam] below the number of keys. *)
Definition ready (W : nat) (famList : list string) (inds : list Ind)
    (idFam0 : Arr) : bool :=
  Nat.ltb 0 W &&
  forallb (fun key => Nat.leb W (String.length key) && cstring key) famList &&
  (Z.of_nat (List.length inds) <=? MAXIND)%Z &&
  (Z.of_nat (List.length famList) <=? MAXFAM)%Z &&
  forallb (fun r => match sib r, fam r with
                    | None, None => true
                    | _, _ => false
                    end) inds &&
  forallb (fun i => (idFam0 (Z.of_nat i) <? Z.of_nat (List.length famList))%Z)
          (List.seq 0 (List.length inds)).

Lemma ready_spec (W : nat) (famList : list string) (inds : list Ind)
      (idFam0 : Arr) :
  ready W famList inds idFam0 = true ->
  0 < W /\
  (forall k, k < List.length famList ->
     W <= String.length (nth k famList EmptyString)) /\
  (forall k, k < List.length famList ->
     cstring (nth k famList EmptyString) = true) /\
  (Z.of_nat (List.length inds) <= MAXIND)%Z /\
  (Z.of_nat (List.length famList) <= MAXFAM)%Z /\
  (forall i, i < List.length inds -> sib (nth i inds noInd) = None) /\
  (forall i, i < List.length inds ->
     (0 <= idFam0 (Z.of_nat i))%Z ->
     (idFam0 (Z.of_nat i) < Z.of_nat (List.length famList))%Z) /\
  (forall i, i < List.length inds -> fam (nth i inds noInd) = None).
Proof.
  unfold ready. intros H.
  repeat (apply andb_true_iff in H; destruct H as [H ?]).
  rewrite forallb_forall in *.
  match goal with H1 : forall x, In x famList -> _ |- _ => rename H1 into Hkeys end.
  match goal with H1 : forall x, In x inds -> _ |- _ => rename H1 into Hinds end.
  match goal with H1 : forall x, In x (List.seq _ _) -> _ |- _ => rename H1 into Hids end.
  split; [apply Nat.ltb_lt, H|].
  split.
  { intros k Hk. specialize (Hkeys _ (nth_In famList EmptyString Hk)).
    apply andb_true_iff in Hkeys. apply Nat.leb_le, Hkeys. }
  split.
  { intros k Hk. specialize (Hkeys _ (nth_In famList EmptyString Hk)).
    apply andb_true_iff in Hkeys. apply Hkeys. }
  split; [lia|]. split; [lia|].
  split.
  { intros i Hi. specialize (Hinds _ (nth_In inds noInd Hi)).
    destruct (sib (nth i inds noInd)); [discriminate|reflexivity]. }
  split.
  { intros i Hi _. specialize (Hids i). rewrite in_seq in Hids.
    apply Z.ltb_lt, Hids. lia. }
  intros i Hi. specialize (Hinds _ (nth_In inds noInd Hi)).
  destruct (sib (nth i inds noInd)); [discriminate|].
  destruct (fam (nth i inds noInd)); [discriminate|reflexivity].
Qed.

Lemma sorted_index (W : nat) (inds : list Ind) (I0 s0 : Arr) (cnt0 : nat)
      (sorted : Sorted) :
  0 < W -> sortInds (map id inds) (Z.of_nat W) I0 s0 cnt0 = Ok sorted ->
  perm (Z.of_nat (List.length inds)) (IndSort sorted) /\
  ordered (map id inds) false (IndSort sorted).
Proof.
  intros HW Hs.
  destruct (sortInds_ok (map id inds) (Z.of_nat W) I0 s0 cnt0 sorted ltac:(lia) Hs)
    as (Hp & Ho & _). rewrite length_map in Hp. auto.
Qed.

Lemma ready_intro (W : nat) (famList : list string) (inds : list Ind)
      (idFam0 : Arr) :
  0 < W ->
  (forall k, k < List.length famList ->
     W <= String.length (nth k famList EmptyString)) ->
  (forall k, k < List.length famList ->
     cstring (nth k famList EmptyString) = true) ->
  (Z.of_nat (List.length inds) <= MAXIND)%Z ->
  (Z.of_nat (List.length famList) <= MAXFAM)%Z ->
  (forall i, i < List.length inds -> sib (nth i inds noInd) = None) ->
  (forall i, i < List.length inds ->
     (idFam0 (Z.of_nat i) < Z.of_nat (List.length famList))%Z) ->
  (forall i, i < List.length inds -> fam (nth i inds noInd) = None) ->
  ready W famList inds idFam0 = true.
Proof.
  intros HW Hw Hc Hroom Hn Hsib Hin Hfam. unfold ready.
  repeat (apply andb_true_iff; split).
  - apply Nat.ltb_lt, HW.
  - apply forallb_forall. intros key Hkey.
    destruct (In_nth _ _ EmptyString Hkey) as (k & Hk & <-).
    apply andb_true_iff. split; [apply Nat.leb_le, Hw, Hk|apply Hc, Hk].
  - apply Z.leb_le, Hroom.
  - apply Z.leb_le, Hn.
  - apply forallb_forall. intros r Hr.
    destruct (In_nth _ _ noInd Hr) as (i & Hi & <-).
    rewrite (Hsib i Hi), (Hfam i Hi). reflexivity.
  - apply forallb_forall. intros i Hi. apply in_seq in Hi.
    apply Z.ltb_lt, Hin. lia.
Qed.

(** X24. After [sortInds], [makeFams] returns 1 exactly when a parent
    named in some family key has no record of its own, and 0 when every
    parent has one, the number of individuals being then unchanged.
    It stops only in [qSort], or past the end of [IndArray] while it
    adds a record: the errors for too many families and for data
    errors do not occur. *)
Theorem makeFams_returns (W : nat) (famList : list string) (inds : list Ind)
    (idFam0 : Arr) (NumFou0 : Z) (WrnLog0 : list Warning)
    (I0 s0 : Arr) (cnt0 : nat) (sorted : Sorted) (ord0 famndx0 : Arr) :
  ready W famList inds idFam0 = true ->
  sortInds (map id inds) (Z.of_nat W) I0 s0 cnt0 = Ok sorted ->
  match makeFams W famList (IndSort sorted) ord0 famndx0 0 inds idFam0
                 NumFou0 WrnLog0 with
  | inl h =>
      h = QSortStack \/
      (h = PastIndArray /\
       exists k, k < List.length famList /\ unknownParent W famList inds k)
  | inr (Again p) =>
      (exists k, k < List.length famList /\ unknownParent W famList inds k) /\
      List.length inds < List.length (IndArray p)
  | inr (Built p FamArray) =>
      (forall k, k < List.length famList -> ~ unknownParent W famList inds k) /\
      List.length (IndArray p) = List.length inds
  end.
Proof.
  intros Hr Hs.
  destruct (ready_spec W famList inds idFam0 Hr)
    as (HW & Hw & Hc & Hroom & Hn & Hsib & Hin & _).
  destruct (sorted_index W inds I0 s0 cnt0 sorted HW Hs) as [Hp Ho].
  apply (makeFams_ends W famList (IndSort sorted) ord0 famndx0 0 inds idFam0
           NumFou0 WrnLog0 HW Hp Ho Hw Hc Hroom Hn Hsib Hin eq_refl).
Qed.

(** X25. When [makeFams] returns 1, the individuals it was given are
    still the first ones of [IndArray], changed at most in their sex
    code, and behind them stand the records added: each one is a
    founder with the id of a parent that had no record, with sex 1 for
    a father and 2 for a mother, no twin or household id and [idFam]
    -1; every parent without a record has got one, and [NumFou] has
    grown by their number. *)
Theorem makeFams_added (W : nat) (famList : list string) (inds : list Ind)
    (idFam0 : Arr) (NumFou0 : Z) (WrnLog0 : list Warning)
    (I0 s0 : Arr) (cnt0 : nat) (sorted : Sorted) (ord0 famndx0 : Arr)
    (p : People) :
  ready W famList inds idFam0 = true ->
  sortInds (map id inds) (Z.of_nat W) I0 s0 cnt0 = Ok sorted ->
  makeFams W famList (IndSort sorted) ord0 famndx0 0 inds idFam0 NumFou0 WrnLog0
    = inr (Again p) ->
  exists olds added,
    IndArray p = olds ++ added /\
    map (setSex 0) olds = map (setSex 0) inds /\
    added <> [] /\
    (Z.of_nat (List.length (IndArray p)) <= MAXIND)%Z /\
    (forall a, In a added ->
       exists k, k < List.length famList /\
         ((a = newInd (faOf W (famKey famList k)) 1%Z /\
           absent inds (faOf W (famKey famList k))) \/
          (a = newInd (moOf W (famKey famList k)) 2%Z /\
           absent inds (moOf W (famKey famList k))))) /\
    (forall k, k < List.length famList ->
       (absent inds (faOf W (famKey famList k)) ->
        In (newInd (faOf W (famKey famList k)) 1%Z) added) /\
       (absent inds (moOf W (famKey famList k)) ->
        In (newInd (moOf W (famKey famList k)) 2%Z) added)) /\
    (forall i, i < List.length inds ->
       idFam p (Z.of_nat i) = idFam0 (Z.of_nat i)) /\
    (forall i, List.length inds <= i < List.length (IndArray p) ->
       idFam p (Z.of_nat i) = (-1)%Z) /\
    NumFou p = (NumFou0 + Z.of_nat (List.length added))%Z.
Proof.
  intros Hr Hs E.
  destruct (ready_spec W famList inds idFam0 Hr)
    as (HW & Hw & Hc & Hroom & Hn & Hsib & Hin & _).
  destruct (sorted_index W inds I0 s0 cnt0 sorted HW Hs) as [Hp Ho].
  apply (makeFams_adds W famList (IndSort sorted) ord0 famndx0 0 inds idFam0
           NumFou0 WrnLog0 HW Hp Ho Hw Hc Hroom Hn Hsib Hin p E).
Qed.

(** X26. When [makeFams] returns 0, no individual is added and none
    is changed but in its sex code and its pointers to a family and to
    a sibling.  An individual with a negative [idFam] keeps its family
    pointer; every other one points to a family of [FamArray] whose
    father and mother are individuals with the ids in the two halves of
    its key; and two of them point to the same family exactly when
    their keys are equal. *)
Theorem makeFams_families (W : nat) (famList : list string) (inds : list Ind)
    (idFam0 : Arr) (NumFou0 : Z) (WrnLog0 : list Warning)
    (I0 s0 : Arr) (cnt0 : nat) (sorted : Sorted) (ord0 famndx0 : Arr)
    (p : People) (FamArray : list Fam) :
  ready W famList inds idFam0 = true ->
  sortInds (map id inds) (Z.of_nat W) I0 s0 cnt0 = Ok sorted ->
  makeFams W famList (IndSort sorted) ord0 famndx0 0 inds idFam0 NumFou0 WrnLog0
    = inr (Built p FamArray) ->
  List.length (IndArray p) = List.length inds /\
  (forall i, i < List.length inds ->
     setSex 0 (setFam None (setSib None (nth i (IndArray p) noInd)))
     = setSex 0 (setFam None (setSib None (nth i inds noInd)))) /\
  (forall i, i < List.length inds -> (idFam0 (Z.of_nat i) < 0)%Z ->
     fam (nth i (IndArray p) noInd) = fam (nth i inds noInd)) /\
  (forall i, i < List.length inds -> (0 <= idFam0 (Z.of_nat i))%Z ->
     exists f x y,
       fam (nth i (IndArray p) noInd) = Some f /\ f < List.length FamArray /\
       fa (nth f FamArray noFam) = Some x /\ mo (nth f FamArray noFam) = Some y /\
       x < List.length inds /\ y < List.length inds /\
       strcmp (faOf W (famKey famList (Z.to_nat (idFam0 (Z.of_nat i)))))
              (id (nth x inds noInd)) = 0%Z /\
       strcmp (moOf W (famKey famList (Z.to_nat (idFam0 (Z.of_nat i)))))
              (id (nth y inds noInd)) = 0%Z) /\
  (forall i j, i < List.length inds -> j < List.length inds ->
     (0 <= idFam0 (Z.of_nat i))%Z -> (0 <= idFam0 (Z.of_nat j))%Z ->
     (fam (nth i (IndArray p) noInd) = fam (nth j (IndArray p) noInd) <->
      famKey famList (Z.to_nat (idFam0 (Z.of_nat i)))
      = famKey famList (Z.to_nat (idFam0 (Z.of_nat j))))).
Proof.
  intros Hr Hs E.
  destruct (ready_spec W famList inds idFam0 Hr)
    as (HW & Hw & Hc & Hroom & Hn & Hsib & Hin & _).
  destruct (sorted_index W inds I0 s0 cnt0 sorted HW Hs) as [Hp Ho].
  apply (makeFams_links W famList (IndSort sorted) ord0 famndx0 0 inds idFam0
           NumFou0 WrnLog0 HW Hp Ho Hw Hc Hroom Hn Hsib Hin p FamArray E).
Qed.

(** X27. When [makeFams] returns 0, [kid1] of a family is the first
    individual of [IndArray] that points to it, [nkid] the number of
    those that do, and the [sib] pointer of an individual with a family
    leads to the next individual of the same family, or is [NULL] for
    the last one; an individual without a family has no sibling. *)
Theorem makeFams_siblings (W : nat) (famList : list string) (inds : list Ind)
    (idFam0 : Arr) (NumFou0 : Z) (WrnLog0 : list Warning)
    (I0 s0 : Arr) (cnt0 : nat) (sorted : Sorted) (ord0 famndx0 : Arr)
    (p : People) (FamArray : list Fam) :
  ready W famList inds idFam0 = true ->
  sortInds (map id inds) (Z.of_nat W) I0 s0 cnt0 = Ok sorted ->
  makeFams W famList (IndSort sorted) ord0 famndx0 0 inds idFam0 NumFou0 WrnLog0
    = inr (Built p FamArray) ->
  (forall f, f < List.length FamArray ->
     kid1 (nth f FamArray noFam)
     = find (inFam (IndArray p) f) (List.seq 0 (List.length inds)) /\
     nkid (nth f FamArray noFam)
     = Z.of_nat (List.length (filter (inFam (IndArray p) f)
                                     (List.seq 0 (List.length inds))))) /\
  (forall i, i < List.length inds ->
     sib (nth i (IndArray p) noInd) =
     match fam (nth i (IndArray p) noInd) with
     | Some f => find (inFam (IndArray p) f)
                      (List.seq (S i) (List.length inds - S i))
     | None => None
     end).
Proof.
  intros Hr Hs E.
  destruct (ready_spec W famList inds idFam0 Hr)
    as (HW & Hw & Hc & Hroom & Hn & Hsib & Hin & Hfam).
  destruct (sorted_index W inds I0 s0 cnt0 sorted HW Hs) as [Hp Ho].
  eapply makeFams_chains; eassumption.
Qed.

(** X28. When [makeFams] returns 0, the father of every family has
    sex code 1 and the mother sex code 2, except that an individual
    named both as a father and as a mother has one of the two codes;
    an individual that is no parent keeps its sex code. *)
Theorem makeFams_parent_sex (W : nat) (famList : list string) (inds : list Ind)
    (idFam0 : Arr) (NumFou0 : Z) (WrnLog0 : list Warning)
    (I0 s0 : Arr) (cnt0 : nat) (sorted : Sorted) (ord0 famndx0 : Arr)
    (p : People) (FamArray : list Fam) :
  ready W famList inds idFam0 = true ->
  sortInds (map id inds) (Z.of_nat W) I0 s0 cnt0 = Ok sorted ->
  makeFams W famList (IndSort sorted) ord0 famndx0 0 inds idFam0 NumFou0 WrnLog0
    = inr (Built p FamArray) ->
  (forall f x, f < List.length FamArray ->
     (fa (nth f FamArray noFam) = Some x ->
      sex (nth x (IndArray p) noInd) = 1%Z \/
      (sex (nth x (IndArray p) noInd) = 2%Z /\
       exists g, g < List.length FamArray /\ mo (nth g FamArray noFam) = Some x)) /\
     (mo (nth f FamArray noFam) = Some x ->
      sex (nth x (IndArray p) noInd) = 2%Z \/
      (sex (nth x (IndArray p) noInd) = 1%Z /\
       exists g, g < List.length FamArray /\ fa (nth g FamArray noFam) = Some x))) /\
  (forall x, x < List.length inds ->
     (forall f, f < List.length FamArray ->
        fa (nth f FamArray noFam) <> Some x /\ mo (nth f FamArray noFam) <> Some x) ->
     sex (nth x (IndArray p) noInd) = sex (nth x inds noInd)).
Proof.
  intros Hr Hs E.
  destruct (ready_spec W famList inds idFam0 Hr)
    as (HW & Hw & Hc & Hroom & Hn & Hsib & Hin & _).
  destruct (sorted_index W inds I0 s0 cnt0 sorted HW Hs) as [Hp Ho].
  eapply makeFams_sexes; eassumption.
Qed.

Lemma id_nth (l : list Ind) (x : nat) :
  nth x (map id l) EmptyString = id (nth x l noInd).
Proof. change EmptyString with (id noInd). apply map_nth. Qed.

Lemma absent_in (l : list Ind) (key : string) (a : Ind) :
  In a l -> strcmp key (id a) = 0%Z -> ~ absent l key.
Proof.
  intros Ha Hs A. destruct (In_nth l a noInd Ha) as (x & Hx & Ex).
  apply (A x Hx). rewrite id_nth, Ex. exact Hs.
Qed.

(** X29. When [makeFams] has returned 1 and [sortInds] has sorted the
    individuals again, the second call of [makeFams], whose result
    [main] does not look at, finds all it needs: it adds no record and
    does not return 1; it returns 0, unless it stops in [qSort]. *)
Theorem makeFams_again (W : nat) (famList : list string) (inds : list Ind)
    (idFam0 : Arr) (NumFou0 : Z) (WrnLog0 : list Warning)
    (I0 s0 : Arr) (cnt0 : nat) (sorted : Sorted) (ord0 famndx0 : Arr)
    (p : People)
    (I1 s1 : Arr) (cnt1 : nat) (sorted1 : Sorted) (ord1 famndx1 : Arr) :
  ready W famList inds idFam0 = true ->
  sortInds (map id inds) (Z.of_nat W) I0 s0 cnt0 = Ok sorted ->
  makeFams W famList (IndSort sorted) ord0 famndx0 0 inds idFam0 NumFou0 WrnLog0
    = inr (Again p) ->
  sortInds (map id (IndArray p)) (Z.of_nat W) I1 s1 cnt1 = Ok sorted1 ->
  ready W famList (IndArray p) (idFam p) = true /\
  match makeFams W famList (IndSort sorted1) ord1 famndx1 0 (IndArray p)
                 (idFam p) (NumFou p) (WrnLog p) with
  | inl h => h = QSortStack
  | inr (Again _) => False
  | inr (Built p' FamArray) =>
      List.length (IndArray p') = List.length (IndArray p)
  end.
Proof.
  intros Hr Hs E Hs1.
  destruct (ready_spec W famList inds idFam0 Hr)
    as (HW & Hw & Hc & Hroom & Hn & Hsib & Hin & Hfam).
  destruct (sorted_index W inds I0 s0 cnt0 sorted HW Hs) as [Hp Ho].
  destruct (makeFams_adds W famList (IndSort sorted) ord0 famndx0 0 inds idFam0
              NumFou0 WrnLog0 HW Hp Ho Hw Hc Hroom Hn Hsib Hin p E)
    as (olds & added & EI & Hso & _ & Hroom' & Hadd & Hall & Hid & Hnew & _).
  pose proof (sexOnly_length inds olds Hso) as HLo.
  assert (Hold : forall x, x < List.length inds ->
            setSex 0 (nth x (IndArray p) noInd) = setSex 0 (nth x inds noInd)).
  { intros x Hx. rewrite EI, app_nth1 by lia. apply sexOnly_nth, Hso. }
  assert (Hnewer : forall j, List.length inds <= j < List.length (IndArray p) ->
            exists key sx, nth j (IndArray p) noInd = newInd key sx).
  { intros j Hj. rewrite EI in *. rewrite length_app in Hj.
    rewrite app_nth2 by lia.
    assert (Hj' : j - List.length olds < List.length added) by lia.
    destruct (Hadd (nth (j - List.length olds) added noInd)
                (nth_In added noInd Hj')) as (k & _ & [[-> _]|[-> _]]);
      eexists; eexists; reflexivity. }
  assert (Hsib' : forall i, i < List.length (IndArray p) ->
            sib (nth i (IndArray p) noInd) = None).
  { intros i Hi. destruct (Nat.lt_ge_cases i (List.length inds)) as [Hlt|Hge].
    - pose proof (f_equal sib (Hold i Hlt)) as S. cbn [sib setSex] in S.
      rewrite S. apply Hsib, Hlt.
    - destruct (Hnewer i ltac:(lia)) as (key & sx & ->). reflexivity. }
  assert (Hfam' : forall i, i < List.length (IndArray p) ->
            fam (nth i (IndArray p) noInd) = None).
  { intros i Hi. destruct (Nat.lt_ge_cases i (List.length inds)) as [Hlt|Hge].
    - pose proof (f_equal fam (Hold i Hlt)) as S. cbn [fam setSex] in S.
      rewrite S. apply Hfam, Hlt.
    - destruct (Hnewer i ltac:(lia)) as (key & sx & ->). reflexivity. }
  assert (Hin' : forall i, i < List.length (IndArray p) ->
            (idFam p (Z.of_nat i) < Z.of_nat (List.length famList))%Z).
  { intros i Hi. destruct (Nat.lt_ge_cases i (List.length inds)) as [Hlt|Hge].
    - rewrite (Hid i Hlt).
      destruct (Z_lt_le_dec (idFam0 (Z.of_nat i)) 0) as [|Hpos]; [lia|].
      apply Hin; assumption.
    - rewrite (Hnew i ltac:(lia)). lia. }
  split; [apply ready_intro; assumption|].
  destruct (sorted_index W (IndArray p) I1 s1 cnt1 sorted1 HW Hs1) as [Hp1 Ho1].
  pose proof (makeFams_ends W famList (IndSort sorted1) ord1 famndx1 0 (IndArray p)
                (idFam p) (NumFou p) (WrnLog p) HW Hp1 Ho1 Hw Hc Hroom' Hn Hsib'
                (fun i Hi _ => Hin' i Hi) eq_refl) as M.
  assert (Hknown : forall k, k < List.length famList ->
            ~ unknownParent W famList (IndArray p) k).
  { assert (Hone : forall key, ~ absent inds key \/
                In key (map id added) -> ~ absent (IndArray p) key).
    { intros key [Hk|Hk] A.
      - apply Hk. intros x Hx. specialize (A x ltac:(rewrite EI, length_app; lia)).
        rewrite id_nth in *.
        pose proof (f_equal id (Hold x Hx)) as S. cbn [id setSex] in S.
        rewrite <- S. exact A.
      - apply in_map_iff in Hk. destruct Hk as (a & <- & Ha).
        apply (absent_in (IndArray p) (id a) a); [|apply strcmp_refl|exact A].
        rewrite EI. apply in_or_app. right. exact Ha. }
    intros k Hk [A|A]; revert A; apply Hone.
    - destruct (here inds (IndSort sorted) (faOf W (famKey famList k))) as [x|] eqn:Ex.
      + left. intros A. destruct (here_some inds _ Hp Ho _ _ Ex) as [Hx Sx].
        apply (A x Hx Sx).
      + right. apply (here_none inds _ Hp Ho) in Ex.
        apply in_map_iff. eexists. split; [|apply (proj1 (Hall k Hk) Ex)].
        reflexivity.
    - destruct (here inds (IndSort sorted) (moOf W (famKey famList k))) as [x|] eqn:Ex.
      + left. intros A. destruct (here_some inds _ Hp Ho _ _ Ex) as [Hx Sx].
        apply (A x Hx Sx).
      + right. apply (here_none inds _ Hp Ho) in Ex.
        apply in_map_iff. eexists. split; [|apply (proj2 (Hall k Hk) Ex)].
        reflexivity. }
  destruct (makeFams W famList (IndSort sorted1) ord1 famndx1 0 (IndArray p)
              (idFam p) (NumFou p) (WrnLog p)) as [h|[q|q fams]].
  - destruct M as [M|[_ (k & Hk & U)]]; [exact M|].
    exfalso. apply (Hknown k Hk U).
  - destruct M as [(k & Hk & U) _]. apply (Hknown k Hk U).
  - apply M.
Qed.

(** X30. A parent without a record that is named in two different
    family keys, or as the father and as the mother of one, gets a
    record for each; the [sortInds] that [main] runs after the return
    of 1 then stops the program: with the data-error message for an
    individual that appears more than once, or in [qSort]. *)
Theorem makeFams_twice (W : nat) (famList : list string) (inds : list Ind)
    (idFam0 : Arr) (NumFou0 : Z) (WrnLog0 : list Warning)
    (I0 s0 : Arr) (cnt0 : nat) (sorted : Sorted) (ord0 famndx0 : Arr)
    (p : People) (k1 k2 : nat) (m1 m2 : bool) (I1 s1 : Arr) (cnt1 : nat) :
  ready W famList inds idFam0 = true ->
  sortInds (map id inds) (Z.of_nat W) I0 s0 cnt0 = Ok sorted ->
  makeFams W famList (IndSort sorted) ord0 famndx0 0 inds idFam0 NumFou0 WrnLog0
    = inr (Again p) ->
  k1 < List.length famList -> k2 < List.length famList ->
  famKey famList k1 <> famKey famList k2 \/ m1 <> m2 ->
  part W m1 (famKey famList k1) = part W m2 (famKey famList k2) ->
  absent inds (part W m1 (famKey famList k1)) ->
  sortInds (map id (IndArray p)) (Z.of_nat W) I1 s1 cnt1
    = Fatal QSortStackExceeded \/
  exists n, n <> 0 /\
    sortInds (map id (IndArray p)) (Z.of_nat W) I1 s1 cnt1
    = Fatal (DataErrorsFound n ERRFILE).
Proof.
  intros Hr Hs E Hk1 Hk2 Hdiff Epart A.
  destruct (ready_spec W famList inds idFam0 Hr)
    as (HW & Hw & Hc & Hroom & Hn & Hsib & Hin & Hfam).
  destruct (sorted_index W inds I0 s0 cnt0 sorted HW Hs) as [Hp Ho].
  destruct (makeFams_dups W famList (IndSort sorted) ord0 famndx0 0 inds idFam0
              NumFou0 WrnLog0 HW Hp Ho Hw Hc Hroom Hn Hsib Hin p k1 k2 m1 m2
              E Hk1 Hk2 Hdiff Epart A) as (i & j & Hij & Eij).
  destruct (sortInds_cases (map id (IndArray p)) (Z.of_nat W) I1 s1 cnt1 ltac:(lia))
    as [Hq|(ord & _ & _ & _ & Hres)]; [left; exact Hq|].
  cbv zeta in Hres.
  destruct (Nat.eqb_spec
              (cnt1 + List.length
                 (fold_left (dupStep (map id (IndArray p)) ord)
                    (List.seq 1 (List.length (map id (IndArray p)) - 1)) [])) 0)
    as [Ez|Enz].
  - exfalso.
    assert (Hv : Z.of_nat W <> 0%Z) by lia.
    destruct (sortInds_ok _ _ _ _ _ _ Hv Hres) as (_ & _ & _ & Hdist).
    rewrite length_map in Hdist.
    apply (Hdist (Z.of_nat i) (Z.of_nat j)); try lia.
    unfold valAt. rewrite !Nat2Z.id, !id_nth, Eij. apply strcmp_refl.
  - right. eexists. split; [exact Enz|exact Hres].
Qed.

(** *** A family of six *)

(** A father [A], a mother [B], their children [C] and [D], [E], and
    the child [F] of [C] and [E]; ids and key halves are one character
    wide. *)
Definition person (i : string) (s : Z) : Ind :=
  {| id := i; pid := i; sex := s; twinid := EmptyString; hhid := EmptyString;
     gen := 0%Z; fam := None; sib := None; ped := (-1)%Z |}.

Definition six : list Ind :=
  [person "A" 1; person "B" 2; person "C" 0; person "D" 0; person "E" 2;
   person "F" 0]%Z.

Definition sixIdFam : Arr :=
  fun i => match i with 2 => 0 | 3 => 1 | 5 => 2 | _ => -1 end%Z.

Definition sixSorted : Sorted :=
  match sortInds (map id six) 1%Z noIndex noIndex 0 with
  | Ok s => s
  | _ => {| IndSort := noIndex; seq := noIndex; dups := [] |}
  end.

(** The keys when every parent has a record, when the father [X] of
    the first two children has none, and when [X] is named with two
    mothers. *)
Definition knownKeys : list string := ["AB"; "AB"; "CE"]%string.
Definition missingKeys : list string := ["XB"; "XB"; "CE"]%string.
Definition twiceKeys : list string := ["XB"; "XE"; "CE"]%string.

Definition noPeople : People :=
  {| IndArray := []; idFam := noIndex; NumFou := 0%Z; redo := false; WrnLog := [] |}.

Definition sixAgain (keys : list string) : People :=
  match makeFams 1 keys (IndSort sixSorted) noIndex noIndex 0 six sixIdFam 2%Z [] with
  | inr (Again p) => p
  | _ => noPeople
  end.

Definition sevenSorted : Sorted :=
  match sortInds (map id (IndArray (sixAgain missingKeys))) 1%Z noIndex noIndex 0 with
  | Ok s => s
  | _ => {| IndSort := noIndex; seq := noIndex; dups := [] |}
  end.

Lemma six_sorted : sortInds (map id six) (Z.of_nat 1) noIndex noIndex 0 = Ok sixSorted.
Proof. vm_compute. reflexivity. Defined.

Lemma six_again (keys : list string) :
  keys = missingKeys \/ keys = twiceKeys ->
  makeFams 1 keys (IndSort sixSorted) noIndex noIndex 0 six sixIdFam 2%Z []
  = inr (Again (sixAgain keys)).
Proof. intros [-> | ->]; vm_compute; reflexivity. Defined.

Lemma makeFams_returns_witness :
  match makeFams 1 knownKeys (IndSort sixSorted) noIndex noIndex 0 six sixIdFam
                 2%Z [] with
  | inr (Built p FamArray) => List.length (IndArray p) = 6
  | _ => False
  end.
Proof.
  pose proof (makeFams_returns 1 knownKeys six sixIdFam 2%Z [] noIndex noIndex 0
                sixSorted noIndex noIndex eq_refl six_sorted) as H.
  destruct (makeFams 1 knownKeys (IndSort sixSorted) noIndex noIndex 0 six sixIdFam
              2%Z []) as [h|[p|p FamArray]] eqn:E;
    vm_compute in E; try discriminate.
  apply H.
Defined.

Lemma makeFams_added_witness :
  exists olds added,
    IndArray (sixAgain missingKeys) = olds ++ added /\
    List.length added = 1 /\
    NumFou (sixAgain missingKeys) = 3%Z.
Proof.
  destruct (makeFams_added 1 missingKeys six sixIdFam 2%Z [] noIndex noIndex 0
              sixSorted noIndex noIndex (sixAgain missingKeys) eq_refl six_sorted
              (six_again missingKeys (or_introl eq_refl)))
    as (olds & added & EI & Hs & _ & _ & _ & _ & _ & _ & EF).
  exists olds, added. split; [exact EI|].
  assert (HL : List.length added = 1).
  { assert (E7 : List.length (IndArray (sixAgain missingKeys)) = 7)
      by (vm_compute; reflexivity).
    apply (f_equal (@List.length Ind)) in Hs. rewrite !length_map in Hs.
    rewrite EI, length_app, Hs in E7. cbn [six List.length] in E7. lia. }
  split; [exact HL|]. rewrite EF, HL. reflexivity.
Defined.

Definition sixBuilt : People * list Fam :=
  match makeFams 1 knownKeys (IndSort sixSorted) noIndex noIndex 0 six sixIdFam 2%Z [] with
  | inr (Built p FamArray) => (p, FamArray)
  | _ => (noPeople, [])
  end.

Lemma six_built :
  makeFams 1 knownKeys (IndSort sixSorted) noIndex noIndex 0 six sixIdFam 2%Z []
  = inr (Built (fst sixBuilt) (snd sixBuilt)).
Proof. vm_compute. reflexivity. Defined.

Lemma seven_sorted :
  sortInds (map id (IndArray (sixAgain missingKeys))) (Z.of_nat 1) noIndex noIndex 0
  = Ok sevenSorted.
Proof. vm_compute. reflexivity. Defined.

Lemma makeFams_families_witness :
  exists f x y,
    fam (nth 5 (IndArray (fst sixBuilt)) noInd) = Some f /\
    fa (nth f (snd sixBuilt) noFam) = Some x /\
    mo (nth f (snd sixBuilt) noFam) = Some y /\
    strcmp "C" (id (nth x six noInd)) = 0%Z /\
    strcmp "E" (id (nth y six noInd)) = 0%Z.
Proof.
  destruct (makeFams_families 1 knownKeys six sixIdFam 2%Z [] noIndex noIndex 0
              sixSorted noIndex noIndex (fst sixBuilt) (snd sixBuilt)
              eq_refl six_sorted six_built) as (_ & _ & _ & H & _).
  destruct (H 5) as (f & x & y & H1 & _ & H2 & H3 & _ & _ & H4 & H5);
    [cbn; lia|cbn; lia|].
  exists f, x, y. auto.
Defined.

Lemma makeFams_siblings_witness :
  kid1 (nth 0 (snd sixBuilt) noFam) = Some 2 /\
  nkid (nth 0 (snd sixBuilt) noFam) = 2%Z /\
  sib (nth 2 (IndArray (fst sixBuilt)) noInd) = Some 3 /\
  sib (nth 3 (IndArray (fst sixBuilt)) noInd) = None.
Proof.
  destruct (makeFams_siblings 1 knownKeys six sixIdFam 2%Z [] noIndex noIndex 0
              sixSorted noIndex noIndex (fst sixBuilt) (snd sixBuilt)
              eq_refl six_sorted six_built) as (Hk & Hs).
  assert (H0 : 0 < List.length (snd sixBuilt)) by (vm_compute; lia).
  destruct (Hk 0 H0) as [H1 H2]. rewrite H1, H2.
  rewrite (Hs 2) by (cbn; lia). rewrite (Hs 3) by (cbn; lia).
  vm_compute. auto.
Defined.

Lemma makeFams_parent_sex_witness :
  sex (nth 2 (IndArray (fst sixBuilt)) noInd) = 1%Z \/
  (sex (nth 2 (IndArray (fst sixBuilt)) noInd) = 2%Z /\
   exists g, g < List.length (snd sixBuilt) /\
             mo (nth g (snd sixBuilt) noFam) = Some 2).
Proof.
  destruct (makeFams_parent_sex 1 knownKeys six sixIdFam 2%Z [] noIndex noIndex 0
              sixSorted noIndex noIndex (fst sixBuilt) (snd sixBuilt)
              eq_refl six_sorted six_built) as (H & _).
  assert (H1 : 1 < List.length (snd sixBuilt)) by (vm_compute; lia).
  apply (proj1 (H 1 2 H1)). vm_compute. reflexivity.
Defined.

Lemma makeFams_again_witness :
  ready 1 missingKeys (IndArray (sixAgain missingKeys))
        (idFam (sixAgain missingKeys)) = true /\
  match makeFams 1 missingKeys (IndSort sevenSorted) noIndex noIndex 0
                 (IndArray (sixAgain missingKeys)) (idFam (sixAgain missingKeys))
                 (NumFou (sixAgain missingKeys)) (WrnLog (sixAgain missingKeys)) with
  | inl h => h = QSortStack
  | inr (Again _) => False
  | inr (Built p' FamArray) =>
      List.length (IndArray p') = List.length (IndArray (sixAgain missingKeys))
  end.
Proof.
  apply (makeFams_again 1 missingKeys six sixIdFam 2%Z [] noIndex noIndex 0
           sixSorted noIndex noIndex (sixAgain missingKeys)
           noIndex noIndex 0 sevenSorted noIndex noIndex
           eq_refl six_sorted (six_again missingKeys (or_introl eq_refl))
           seven_sorted).
Defined.

Lemma makeFams_twice_witness :
  sortInds (map id (IndArray (sixAgain twiceKeys))) (Z.of_nat 1) noIndex noIndex 0
    = Fatal QSortStackExceeded \/
  exists n, n <> 0 /\
    sortInds (map id (IndArray (sixAgain twiceKeys))) (Z.of_nat 1) noIndex noIndex 0
    = Fatal (DataErrorsFound n ERRFILE).
Proof.
  apply (makeFams_twice 1 twiceKeys six sixIdFam 2%Z [] noIndex noIndex 0
           sixSorted noIndex noIndex (sixAgain twiceKeys) 0 1 false false
           noIndex noIndex 0
           eq_refl six_sorted (six_again twiceKeys (or_intror eq_refl))).
  - cbn. lia.
  - cbn. lia.
  - left. cbn. discriminate.
  - reflexivity.
  - intros x Hx. cbn in Hx.
    destruct x as [|[|[|[|[|[|x]]]]]]; try lia; vm_compute; discriminate.
Defined.

End Families.

